(** * Goldfish-Edge-Actors: the Router and the actor activation wrapper

    A shallow embedding of [src/index.js] (the worker front door and the
    [GoldfishRouter] durable object) and of the generic part of the
    [GoldfishActor] class, followed by the properties of the dispatch layer:
    per-key FIFO delivery, admission limits, metadata persistence, timeouts,
    spawn pre-registration, the [reject] continuation, and the memory
    round trip of an activation.

    JavaScript runs the router on one thread and suspends only at [await].
    The model therefore has one atomic step per piece of synchronous code
    between two suspension points; what the environment decides (which
    request arrives, what an addressed call answers, when a timer fires,
    what [Date.now()] reads) is the label of the step.  Every call of
    [drainLoop] is a task of its own in the state, so that the single
    flight of the drain cycle is a theorem about the [isDraining] flag and
    not a feature of the model.  The development follows one activation of
    a router instance, from its constructor on; its queues are volatile
    and do not outlive it. *)

From Stdlib Require Import ZArith Lia Ascii.
From stdpp Require Import base gmap strings list pretty.

Local Open Scope string_scope.
Local Open Scope Z_scope.
Local Open Scope list_scope.

(** ** JavaScript values the router looks at *)

(** A field of a parsed request body.  [actorType] and [actorId] are only
    tested for truthiness and interpolated into a template string; the
    model covers the absent field, [null] and strings. *)
Inductive JsField :=
| JUndefined
| JNull
| JString (s : string).

(** [!!f] of JavaScript. *)
Definition truthy (f : JsField) : bool :=
  match f with
  | JString s => negb (String.eqb s "")
  | _ => false
  end.

(** [`${f}`] of JavaScript. *)
Definition to_str (f : JsField) : string :=
  match f with
  | JUndefined => "undefined"
  | JNull => "null"
  | JString s => s
  end.

(** [`${actorType}:${actorId}`]. *)
Definition make_key (actorType actorId : JsField) : string :=
  to_str actorType +:+ ":" +:+ to_str actorId.

(** The payload is opaque to the router, which looks at its truthiness and
    at the length of [JSON.stringify(payload)] only. *)
Record Payload := {
  p_truthy : bool;
  p_json : string
}.

(** [payload ? JSON.stringify(payload).length : 0]. *)
Definition payloadSize (p : Payload) : Z :=
  if p_truthy p then Z.of_nat (String.length (p_json p)) else 0.

(** ** Data model of the router *)

(** [crypto.randomUUID()] is modelled by a counter: every call returns an
    identifier that was never returned before. *)
Definition MsgId := nat.

Record Policy := {
  queueLimit : Z;
  timeoutMs : Z;
  maxPayloadBytes : Z
}.

Definition default_policy : Policy :=
  {| queueLimit := 100; timeoutMs := 30000; maxPayloadBytes := 64 * 1024 |}.

Record Message := {
  messageId : MsgId;
  payload : Payload;
  enqueuedAt : Z
}.

Record ActorQueueState := {
  actorKey : string;
  actorType : JsField;
  actorId : JsField;
  busy : bool;
  queue : list Message;
  policy : Policy
}.

Definition with_busy (b : bool) (a : ActorQueueState) : ActorQueueState :=
  {| actorKey := actorKey a; actorType := actorType a; actorId := actorId a;
     busy := b; queue := queue a; policy := policy a |}.

Definition with_queue (q : list Message) (a : ActorQueueState) : ActorQueueState :=
  {| actorKey := actorKey a; actorType := actorType a; actorId := actorId a;
     busy := busy a; queue := q; policy := policy a |}.

(** The durable metadata snapshot written by [persistActorState]. *)
Record Meta := {
  meta_busy : bool;
  meta_queueLength : nat;
  meta_actorType : JsField;
  meta_actorId : JsField;
  meta_updatedAt : Z
}.

(** *** The [actors] map

    A JavaScript [Map] iterates in insertion order and the drain loop
    depends on that order, so the map is an association list.  No entry is
    ever removed or replaced; the objects it holds are mutated in place,
    which the model writes as an update at the key. *)
Abbreviation ActorMap := (list (string * ActorQueueState)).

Fixpoint actors_get (k : string) (l : ActorMap) : option ActorQueueState :=
  match l with
  | [] => None
  | (k', a) :: l' => if decide (k = k') then Some a else actors_get k l'
  end.

Fixpoint actors_update (k : string) (f : ActorQueueState -> ActorQueueState)
    (l : ActorMap) : ActorMap :=
  match l with
  | [] => []
  | (k', a) :: l' =>
      if decide (k = k') then (k', f a) :: l'
      else (k', a) :: actors_update k f l'
  end.

(** [Map.prototype.set]: an existing key keeps its position. *)
Fixpoint actors_set (k : string) (a : ActorQueueState) (l : ActorMap) : ActorMap :=
  match l with
  | [] => [(k, a)]
  | (k', a') :: l' =>
      if decide (k = k') then (k', a) :: l'
      else (k', a') :: actors_set k a l'
  end.

(** *** Durable storage of the router instance

    [storage.list] returns its entries ordered by key, so the store is kept
    as an association list sorted by key. *)
Definition Storage := list (string * Meta).

Fixpoint storage_put (k : string) (v : Meta) (s : Storage) : Storage :=
  match s with
  | [] => [(k, v)]
  | (k', v') :: s' =>
      match String.compare k k' with
      | Eq => (k, v) :: s'
      | Lt => (k, v) :: (k', v') :: s'
      | Gt => (k', v') :: storage_put k v s'
      end
  end.

Fixpoint storage_get (k : string) (s : Storage) : option Meta :=
  match s with
  | [] => None
  | (k', v) :: s' => if decide (k = k') then Some v else storage_get k s'
  end.

Fixpoint storage_delete (k : string) (s : Storage) : Storage :=
  match s with
  | [] => []
  | (k', v) :: s' =>
      if decide (k = k') then storage_delete k s'
      else (k', v) :: storage_delete k s'
  end.

(** [storage.list({ prefix })]. *)
Definition storage_list (prefix : string) (s : Storage) : Storage :=
  List.filter (fun kv => String.prefix prefix (fst kv)) s.

(** [key.slice(n)]. *)
Fixpoint slice (n : nat) (s : string) : string :=
  match n, s with
  | O, _ => s
  | S n', String _ s' => slice n' s'
  | S _, EmptyString => EmptyString
  end.

(** *** Suspended drain tasks

    Every call of [drainLoop] is an asynchronous activation of its own.  A
    task records where that activation is suspended.  [it] is the position
    of the [Map] iterator of the [for ... of] loop: the number of entries
    it has already handed out.  The [actorState] reference held by
    [processActorQueue] is modelled by its key. *)
Inductive Task :=
| AwaitInvoke (it : nat) (key : string) (message : Message)
    (* processActorQueue: [await actorStub.fetch(".../invoke")] *)
| AwaitPersist (it : nat) (key : string)
    (* processActorQueue: [await this.persistActorState(actorState)] *)
| AwaitProcess (it : nat)
    (* drainLoop: [await this.processActorQueue(actorState)], call returned *)
| Settled.
    (* the promise of drainLoop has settled; .catch/.finally are queued *)

(** *** Suspended admin resets

    A call of [/admin-reset] runs over the keys [storage.list] gave it and
    suspends twice for each of them.  [all] is that listing and [rest] the
    part of it the loop has not finished yet, the current key first.  A
    call keeps its place in the list of calls when it is over, so that its
    position names it. *)
Inductive ResetTask :=
| AwaitActorReset (all rest : list string)
    (* [await actorStub.fetch(".../admin-reset")] for the head of [rest] *)
| AwaitDelete (all rest : list string)
    (* [await this.state.storage.delete(key)] for the head of [rest] *)
| ResetOver.
    (* the handler has returned its response, or an awaited call rejected *)

(** [puts] holds the calls of [storage.put] that have not settled yet, in
    the order they were made: a value is in the store once its put has
    resolved, and a put that rejects writes nothing. *)
Record Router := {
  actors : ActorMap;
  pendingResults : gset MsgId;  (* the keys of the map; the value is the caller *)
  isDraining : bool;
  storage : Storage;
  tasks : list Task;
  nextId : MsgId;
  puts : list (string * Meta);
  resets : list ResetTask
}.

Definition init : Router :=
  {| actors := []; pendingResults := ∅; isDraining := false; storage := [];
     tasks := []; nextId := O; puts := []; resets := [] |}.

Definition set_actors (f : ActorMap -> ActorMap) (r : Router) : Router :=
  {| actors := f (actors r); pendingResults := pendingResults r;
     isDraining := isDraining r; storage := storage r; tasks := tasks r;
     nextId := nextId r; puts := puts r; resets := resets r |}.

Definition set_pending (f : gset MsgId -> gset MsgId) (r : Router) : Router :=
  {| actors := actors r; pendingResults := f (pendingResults r);
     isDraining := isDraining r; storage := storage r; tasks := tasks r;
     nextId := nextId r; puts := puts r; resets := resets r |}.

Definition set_isDraining (b : bool) (r : Router) : Router :=
  {| actors := actors r; pendingResults := pendingResults r;
     isDraining := b; storage := storage r; tasks := tasks r;
     nextId := nextId r; puts := puts r; resets := resets r |}.

Definition set_storage (f : Storage -> Storage) (r : Router) : Router :=
  {| actors := actors r; pendingResults := pendingResults r;
     isDraining := isDraining r; storage := f (storage r); tasks := tasks r;
     nextId := nextId r; puts := puts r; resets := resets r |}.

Definition set_tasks (f : list Task -> list Task) (r : Router) : Router :=
  {| actors := actors r; pendingResults := pendingResults r;
     isDraining := isDraining r; storage := storage r; tasks := f (tasks r);
     nextId := nextId r; puts := puts r; resets := resets r |}.

Definition bump_nextId (r : Router) : Router :=
  {| actors := actors r; pendingResults := pendingResults r;
     isDraining := isDraining r; storage := storage r; tasks := tasks r;
     nextId := S (nextId r); puts := puts r; resets := resets r |}.

Definition set_puts (f : list (string * Meta) -> list (string * Meta)) (r : Router)
    : Router :=
  {| actors := actors r; pendingResults := pendingResults r;
     isDraining := isDraining r; storage := storage r; tasks := tasks r;
     nextId := nextId r; puts := f (puts r); resets := resets r |}.

Definition set_resets (f : list ResetTask -> list ResetTask) (r : Router) : Router :=
  {| actors := actors r; pendingResults := pendingResults r;
     isDraining := isDraining r; storage := storage r; tasks := tasks r;
     nextId := nextId r; puts := puts r; resets := f (resets r) |}.

(** ** What the router receives and what it does *)

Record RouteBody := {
  body_actorType : JsField;
  body_actorId : JsField;
  body_payload : Payload
}.

Record NextPolicy := {
  mode : string;
  redirectTo : option string
}.

(** The JSON body of a successful [/invoke] answer; a field that is absent
    is [None].  [result] is kept as its JSON text. *)
Record Envelope := {
  result : option string;
  nextPolicy : option NextPolicy;
  spawn : option (list string)
}.

(** How the addressed call to the activation ends. *)
Inductive InvokeResult :=
| FetchThrows                        (* the promise of actorStub.fetch rejects *)
| NotOk (status : nat)               (* a response with [resp.ok] false *)
| RespOk (body : option Envelope).   (* [resp.ok]; [None] when [resp.json()]
                                        fails or yields null *)

Inductive RouteError :=
| ActorDOError (status : nat)
| RejectedByActor
| ProcessingTimeout.

(** [err.message]. *)
Definition message_of (e : RouteError) : string :=
  match e with
  | ActorDOError status => "Actor DO error: " +:+ pretty status
  | RejectedByActor => "Message rejected by actor"
  | ProcessingTimeout => "Processing timeout"
  end.

Record StatusEntry := {
  st_actorKey : string;
  st_actorType : JsField;
  st_actorId : JsField;
  st_busy : bool;
  st_queueLength : nat;
  st_policy : option Policy;
  st_metaUpdatedAt : option Z;
  fromStorage : bool;
  fromMemory : bool
}.

Inductive ResponseBody :=
| Text (s : string)
| RouteOk (result : option string) (actorKey : string)
    (* { ok: true, result: { result, actorKey } } *)
| RouteFailed (error : string)
    (* { ok: false, error } *)
| StatusBody (entries : list StatusEntry)
    (* { actors: [...] } *)
| ResetBody (cleared : list string).
    (* { ok: true, cleared: [...] } *)

Record Response := {
  status : nat;
  body : ResponseBody
}.

(** The observable effects of a step, in the order the code performs them. *)
Inductive Obs :=
| ObsEnqueue (key : string) (m : MsgId)
    (* [actorState.queue.push(message)] of an accepted route call *)
| ObsInvoke (key : string) (actorType actorId : JsField) (m : Message)
    (* the addressed call to [/invoke] of the activation named [key] *)
| ObsReply (m : option MsgId) (resp : Response)
    (* an HTTP response; [Some m] when it answers the route call of m *)
| ObsPut (key : string) (meta : Meta)
| ObsDelete (key : string)
| ObsActorReset (key : string).
    (* the addressed call to [/admin-reset] of the activation named [key] *)

(** ** The router's operations *)

Definition json_response (st : nat) (b : ResponseBody) : Response :=
  {| status := st; body := b |}.

(** The [catch] branch of [handleRoute]: every rejection of the awaited
    promise is answered with status 504 and [err.message]. *)
Definition failed (e : RouteError) : Response :=
  json_response 504 (RouteFailed (message_of e)).

(** [const pending = this.pendingResults.get(id); if (pending) { settle it;
    this.pendingResults.delete(id) }].  Settling the promise lets the
    waiting [handleRoute] return [resp]. *)
Definition settle (m : MsgId) (resp : Response) (r : Router) : Router * list Obs :=
  if decide (m ∈ pendingResults r)
  then (set_pending (fun p => p ∖ {[m]}) r, [ObsReply (Some m) resp])
  else (r, []).

(** [actorState.queue.shift()]. *)
Definition shift (k : string) (r : Router) : Router :=
  set_actors (actors_update k (fun a => with_queue (tail (queue a)) a)) r.

Definition set_busy (k : string) (b : bool) (r : Router) : Router :=
  set_actors (actors_update k (with_busy b)) r.

(** [persistActorState], up to its [await this.state.storage.put(...)]:
    the put is called and is in flight. *)
Definition persistActorState (now : Z) (it : nat) (k : string) (r : Router)
    : Router * Task * list Obs :=
  match actors_get k (actors r) with
  | None => (r, AwaitPersist it k, [])
  | Some a =>
      let meta := {| meta_busy := busy a;
                     meta_queueLength := length (queue a);
                     meta_actorType := actorType a;
                     meta_actorId := actorId a;
                     meta_updatedAt := now |} in
      let key := "meta:" +:+ actorKey a in
      (set_puts (fun w => w ++ [(key, meta)]) r, AwaitPersist it k, [ObsPut key meta])
  end.

(** The head of the [while (actorState.queue.length > 0)] loop of
    [processActorQueue], up to the next [await]: either the addressed call
    for [queue[0]] is sent, or the loop is left and the metadata is
    persisted. *)
Definition processLoop (now : Z) (it : nat) (k : string) (r : Router)
    : Router * Task * list Obs :=
  match actors_get k (actors r) with
  | None => (r, AwaitProcess it, [])
  | Some a =>
      match queue a with
      | m :: _ => (r, AwaitInvoke it k m, [ObsInvoke k (actorType a) (actorId a) m])
      | [] => persistActorState now it k r
      end
  end.

(** [processActorQueue], from its entry up to its first [await]. *)
Definition processActorQueue (now : Z) (it : nat) (k : string) (r : Router)
    : Router * Task * list Obs :=
  match actors_get k (actors r) with
  | None => (r, AwaitProcess it, [])
  | Some a =>
      if busy a then (r, AwaitProcess it, [])
      else processLoop now it k (set_busy k true r)
  end.

(** [drainLoop] with its iterator at position [it], [entries] being the
    entries the iterator has not handed out yet, up to the next [await]. *)
Fixpoint drainLoop_from (now : Z) (it : nat) (entries : ActorMap) (r : Router)
    : Router * Task * list Obs :=
  match entries with
  | [] => (r, Settled, [])
  | (k, a) :: rest =>
      if busy a then drainLoop_from now (S it) rest r
      else if (length (queue a) =? 0)%nat then drainLoop_from now (S it) rest r
      else processActorQueue now (S it) k r
  end.

Definition drainLoop (now : Z) (it : nat) (r : Router) : Router * Task * list Obs :=
  drainLoop_from now it (drop it (actors r)) r.

Definition hasPendingWork (r : Router) : bool :=
  existsb (fun kv => negb (busy (snd kv)) && negb (length (queue (snd kv)) =? 0)%nat)
          (actors r).

(** [triggerDraining]: the single-flight flag, then [drainLoop()] run up
    to its first [await]; the new activation joins the suspended tasks. *)
Definition triggerDraining (now : Z) (r : Router) : Router * list Obs :=
  if isDraining r then (r, [])
  else
    let '(r1, t, o) := drainLoop now 0 (set_isDraining true r) in
    (set_tasks (fun ts => ts ++ [t]) r1, o).

(** The [.finally] callback attached by [triggerDraining]. *)
Definition drainFinally (now : Z) (r : Router) : Router * list Obs :=
  let r1 := set_isDraining false r in
  if hasPendingWork r1 then triggerDraining now r1 else (r1, []).

Definition fresh_actor (k : string) (ty id : JsField) (p : Policy) : ActorQueueState :=
  {| actorKey := k; actorType := ty; actorId := id; busy := false; queue := [];
     policy := p |}.

(** [let actorState = this.actors.get(actorKey); if (!actorState) { ...
    this.actors.set(actorKey, actorState) }]. *)
Definition lookup_or_create (b : RouteBody) (r : Router) : Router * ActorQueueState :=
  let k := make_key (body_actorType b) (body_actorId b) in
  match actors_get k (actors r) with
  | Some a => (r, a)
  | None =>
      let a := fresh_actor k (body_actorType b) (body_actorId b) default_policy in
      (set_actors (actors_set k a) r, a)
  end.

(** [actorState.queue.push(message)] and [this.pendingResults.set(messageId, ...)]
    for the message with the next identifier. *)
Definition enqueue (k : string) (m : Message) (r : Router) : Router :=
  set_pending (fun p => {[messageId m]} ∪ p)
    (set_actors (actors_update k (fun a => with_queue (queue a ++ [m]) a))
       (bump_nextId r)).

(** [handleRoute], up to its [await Promise.race(...)]. *)
Definition handleRoute (now : Z) (body : option RouteBody) (r : Router)
    : Router * list Obs :=
  match body with
  | None => (r, [ObsReply None (json_response 400 (Text "Invalid JSON"))])
  | Some b =>
      let k := make_key (body_actorType b) (body_actorId b) in
      let '(r1, actorState) := lookup_or_create b r in
      if payloadSize (body_payload b) >? maxPayloadBytes (policy actorState)
      then (r1, [ObsReply None (json_response 413 (RouteFailed "Payload too large"))])
      else if Z.of_nat (length (queue actorState)) >=? queueLimit (policy actorState)
      then (r1, [ObsReply None (json_response 429 (RouteFailed "Queue is full"))])
      else
        let m := {| messageId := nextId r1; payload := body_payload b;
                    enqueuedAt := now |} in
        let '(r2, o) := triggerDraining now (enqueue k m r1) in
        (r2, ObsEnqueue k (messageId m) :: o)
  end.

(** The timer callback of a route call:
    [this.pendingResults.delete(messageId); reject(new Error("Processing timeout"))].
    The rejection reaches the caller only while the race is undecided,
    which is exactly while the entry is still in the table. *)
Definition timerFires (m : MsgId) (r : Router) : Router * list Obs :=
  if decide (m ∈ pendingResults r)
  then (set_pending (fun p => p ∖ {[m]}) r, [ObsReply (Some m) (failed ProcessingTimeout)])
  else (set_pending (fun p => p ∖ {[m]}) r, []).

(** The [for (const childId of spawn)] loop of [processActorQueue]. *)
Definition spawn_child (parent : ActorQueueState) (l : ActorMap) (childId : string)
    : ActorMap :=
  let childKey := make_key (actorType parent) (JString childId) in
  match actors_get childKey l with
  | Some _ => l
  | None =>
      actors_set childKey
        (fresh_actor childKey (actorType parent) (JString childId) (policy parent)) l
  end.

(** The inner [while] of the ["reject"] branch. *)
Fixpoint rejectRemaining (k : string) (q : list Message) (r : Router)
    : Router * list Obs :=
  match q with
  | [] => (r, [])
  | m :: q' =>
      let r1 := set_actors (actors_update k (with_queue q')) r in
      let '(r2, o2) := settle (messageId m) (failed RejectedByActor) r1 in
      let '(r3, o3) := rejectRemaining k q' r2 in
      (r3, o2 ++ o3)
  end.

Definition queue_of (k : string) (r : Router) : list Message :=
  match actors_get k (actors r) with
  | Some a => queue a
  | None => []
  end.

(** The destructuring of the answer with its defaults:
    [const { result, nextPolicy = { mode: "immediate" }, spawn = [] } = body || {}]. *)
Definition env_result (body : option Envelope) : option string :=
  match body with Some e => result e | None => None end.

Definition env_mode (body : option Envelope) : string :=
  match body with
  | Some e => match nextPolicy e with Some np => mode np | None => "immediate" end
  | None => "immediate"
  end.

Definition env_spawn (body : option Envelope) : list string :=
  match body with
  | Some e => match spawn e with Some l => l | None => [] end
  | None => []
  end.

(** [processActorQueue] from the point where the addressed call for
    [message] settles up to the next [await].  The two suspensions
    [await actorStub.fetch(...)] and [await resp.json()] are one step: the
    code between them reads [resp.ok] only. *)
Definition afterInvoke (now : Z) (it : nat) (k : string) (message : Message)
    (res : InvokeResult) (r : Router) : Router * Task * list Obs :=
  match res with
  | FetchThrows =>
      (* no catch in processActorQueue: [finally] runs, drainLoop rejects *)
      (set_busy k false r, Settled, [])
  | NotOk st =>
      let '(r1, o1) := settle (messageId message) (failed (ActorDOError st)) r in
      let r2 := shift k r1 in
      let '(r3, t, o3) := persistActorState now it k r2 in
      (r3, t, o1 ++ o3)
  | RespOk body =>
      match actors_get k (actors r) with
      | None => (r, Settled, [])
      | Some a =>
          let r1 := set_actors (fun l => foldl (spawn_child a) l (env_spawn body)) r in
          let '(r2, o2) :=
            settle (messageId message)
              (json_response 200 (RouteOk (env_result body) (actorKey a))) r1 in
          let r3 := shift k r2 in
          if String.eqb (env_mode body) "wait" then
            let '(r4, t, o4) := persistActorState now it k r3 in
            (r4, t, o2 ++ o4)
          else if String.eqb (env_mode body) "reject" then
            let '(r4, o4) := rejectRemaining k (queue_of k r3) r3 in
            let '(r5, t, o5) := persistActorState now it k r4 in
            (r5, t, o2 ++ o4 ++ o5)
          else
            let '(r4, t, o4) := processLoop now it k r3 in
            (r4, t, o2 ++ o4)
      end
  end.

(** The oldest put in flight for [key], and the others. *)
Fixpoint take_put (key : string) (w : list (string * Meta))
    : option (Meta * list (string * Meta)) :=
  match w with
  | [] => None
  | (key', meta) :: w' =>
      if decide (key = key') then Some (meta, w')
      else match take_put key w' with
           | Some (meta', rest) => Some (meta', (key', meta) :: rest)
           | None => None
           end
  end.

(** The put for [key] settles: its value is in the store if it resolved,
    and nothing is written if it rejected. *)
Definition settle_put (key : string) (ok : bool) (r : Router) : Router :=
  match take_put key (puts r) with
  | Some (meta, rest) =>
      set_puts (fun _ => rest) (if ok then set_storage (storage_put key meta) r else r)
  | None => r
  end.

(** The put that [persistActorState] of [k] awaits settles. *)
Definition putSettles (k : string) (ok : bool) (r : Router) : Router :=
  match actors_get k (actors r) with
  | Some a => settle_put ("meta:" +:+ actorKey a) ok r
  | None => r
  end.
Arguments putSettles : simpl never.

(** [processActorQueue] after [await this.persistActorState(...)]: the
    [finally] clears the flag; a failed write propagates. *)
Definition afterPersist (it : nat) (k : string) (ok : bool) (r : Router)
    : Router * Task :=
  (set_busy k false (putSettles k ok r), if ok then AwaitProcess it else Settled).

(** [handleStatus]. *)
Definition status_of_meta (key : string) (meta : Meta) : string * StatusEntry :=
  let k := slice 5 key in
  (k, {| st_actorKey := k; st_actorType := meta_actorType meta;
         st_actorId := meta_actorId meta; st_busy := meta_busy meta;
         st_queueLength := meta_queueLength meta; st_policy := None;
         st_metaUpdatedAt := Some (meta_updatedAt meta);
         fromStorage := true; fromMemory := false |}).

Definition status_of_actor (a : ActorQueueState) : StatusEntry :=
  {| st_actorKey := actorKey a; st_actorType := actorType a;
     st_actorId := actorId a; st_busy := busy a;
     st_queueLength := length (queue a); st_policy := Some (policy a);
     st_metaUpdatedAt := None; fromStorage := false; fromMemory := true |}.

Definition status_overlay (a : ActorQueueState) (e : StatusEntry) : StatusEntry :=
  {| st_actorKey := st_actorKey e; st_actorType := st_actorType e;
     st_actorId := st_actorId e; st_busy := busy a;
     st_queueLength := length (queue a); st_policy := Some (policy a);
     st_metaUpdatedAt := st_metaUpdatedAt e; fromStorage := fromStorage e;
     fromMemory := true |}.

(** [statusMap.set] and the update of an existing entry in place. *)
Fixpoint statusMap_set (k : string) (e : StatusEntry) (l : list (string * StatusEntry))
    : list (string * StatusEntry) :=
  match l with
  | [] => [(k, e)]
  | (k', e') :: l' =>
      if decide (k = k') then (k', e) :: l' else (k', e') :: statusMap_set k e l'
  end.

Fixpoint statusMap_get (k : string) (l : list (string * StatusEntry)) : option StatusEntry :=
  match l with
  | [] => None
  | (k', e) :: l' => if decide (k = k') then Some e else statusMap_get k l'
  end.

Definition status_merge (actorTypePrefix : string)
    (m : list (string * StatusEntry)) (a : ActorQueueState)
    : list (string * StatusEntry) :=
  if negb (String.eqb actorTypePrefix "")
     && negb (String.prefix actorTypePrefix (actorKey a))
  then m
  else
    match statusMap_get (actorKey a) m with
    | Some existing => statusMap_set (actorKey a) (status_overlay a existing) m
    | None => statusMap_set (actorKey a) (status_of_actor a) m
    end.

Definition status_snapshot (param : option string) (r : Router) : list StatusEntry :=
  let actorTypePrefix := default "" param in
  let allMeta := storage_list ("meta:" +:+ actorTypePrefix) (storage r) in
  let fromMeta :=
    foldl (fun m kv => statusMap_set (fst (status_of_meta (fst kv) (snd kv)))
                                     (snd (status_of_meta (fst kv) (snd kv))) m)
          [] allMeta in
  let merged := foldl (status_merge actorTypePrefix) fromMeta (map snd (actors r)) in
  map snd merged.

Definition handleStatus (param : option string) (r : Router) : Router * list Obs :=
  (r, [ObsReply None (json_response 200 (StatusBody (status_snapshot param r)))]).

(** The [/admin-reset] branch of [GoldfishRouter.fetch].  The handler
    awaits [storage.list], and then, for every key of the listing, the
    call to the activation behind the key and [storage.delete]; it has no
    [catch], so a call that rejects ends it without a response.  The
    listing is taken in the step the request is handled in (a listing that
    rejects leaves no trace at all); between the other suspension points
    the router goes on with whatever else arrives. *)

(** The head of [for (const [key, meta] of all.entries())], up to the
    next [await], or the response after the loop. *)
Definition resetLoop (all rest : list string) : ResetTask * list Obs :=
  match rest with
  | key :: _ => (AwaitActorReset all rest, [ObsActorReset (slice 5 key)])
  | [] => (ResetOver, [ObsReply None (json_response 200 (ResetBody all))])
  end.

Definition adminReset (param : option string) (r : Router) : Router * list Obs :=
  let prefix := "meta:" +:+ default "" param in
  let all := map fst (storage_list prefix (storage r)) in
  let '(t, o) := resetLoop all all in
  (set_resets (fun ts => ts ++ [t]) r, o).

(** After [await actorStub.fetch(".../admin-reset")]: the response is not
    looked at, and [storage.delete(key)] is called. *)
Definition afterActorReset (all rest : list string) (ok : bool) : ResetTask * list Obs :=
  match rest with
  | key :: _ => if ok then (AwaitDelete all rest, [ObsDelete key]) else (ResetOver, [])
  | [] => (ResetOver, [])
  end.

(** After [await this.state.storage.delete(key)]: the entry is gone if the
    delete resolved, and the loop goes on with the next key. *)
Definition afterDelete (all rest : list string) (ok : bool) (r : Router)
    : Router * ResetTask * list Obs :=
  match rest with
  | key :: rest' =>
      if ok then
        let '(t, o) := resetLoop all rest' in
        (set_storage (storage_delete key) r, t, o)
      else (r, ResetOver, [])
  | [] => (r, ResetOver, [])
  end.

(** The [/invoke] branch of [worker.fetch]: the front door in front of the
    router instance of the request's actor type. *)
Definition worker_invoke (now : Z) (body : option RouteBody) (r : Router)
    : Router * list Obs :=
  match body with
  | None => (r, [ObsReply None (json_response 400 (Text "Invalid JSON body"))])
  | Some b =>
      if negb (truthy (body_actorType b)) || negb (truthy (body_actorId b))
      then (r, [ObsReply None
                  (json_response 400 (Text "actorType and actorId are required"))])
      else handleRoute now (Some b) r
  end.

(** ** The step function *)

Inductive Event :=
| EvInvoke (body : option RouteBody)     (* POST /invoke at the worker *)
| EvRoute (body : option RouteBody)      (* POST /route at the router *)
| EvStatus (actorTypePrefix : option string)
| EvAdminReset (actorTypePrefix : option string)
| EvTimer (m : MsgId)                    (* the timer of a route call fires *)
| EvInvokeDone (t : nat) (res : InvokeResult)
| EvPersistDone (t : nat) (ok : bool)
| EvResume (t : nat)                     (* drainLoop continues after its await *)
| EvSettled (t : nat)                    (* the .finally callback of task t runs *)
| EvActorResetDone (c : nat) (ok : bool) (* the call of reset c to an activation settles *)
| EvDeleteDone (c : nat) (ok : bool).    (* the storage.delete of reset c settles *)

Definition replace_task (t : nat) (x : Router * Task * list Obs) : Router * list Obs :=
  let '(r, task, o) := x in (set_tasks (fun ts => <[t := task]> ts) r, o).

(** [step now e r] is [None] when the environment cannot produce [e] in
    [r] (no task is suspended at that point); [now] is what [Date.now()]
    reads during the step. *)
Definition step (now : Z) (e : Event) (r : Router) : option (Router * list Obs) :=
  match e with
  | EvInvoke body => Some (worker_invoke now body r)
  | EvRoute body => Some (handleRoute now body r)
  | EvStatus p => Some (handleStatus p r)
  | EvAdminReset p => Some (adminReset p r)
  | EvTimer m => Some (timerFires m r)
  | EvInvokeDone t res =>
      match tasks r !! t with
      | Some (AwaitInvoke it k m) => Some (replace_task t (afterInvoke now it k m res r))
      | _ => None
      end
  | EvPersistDone t ok =>
      match tasks r !! t with
      | Some (AwaitPersist it k) =>
          let '(r1, task) := afterPersist it k ok r in
          Some (replace_task t (r1, task, []))
      | _ => None
      end
  | EvResume t =>
      match tasks r !! t with
      | Some (AwaitProcess it) => Some (replace_task t (drainLoop now it r))
      | _ => None
      end
  | EvSettled t =>
      match tasks r !! t with
      | Some Settled => Some (drainFinally now (set_tasks (delete t) r))
      | _ => None
      end
  | EvActorResetDone c ok =>
      match resets r !! c with
      | Some (AwaitActorReset all rest) =>
          let '(task, o) := afterActorReset all rest ok in
          Some (set_resets (fun cs => <[c := task]> cs) r, o)
      | _ => None
      end
  | EvDeleteDone c ok =>
      match resets r !! c with
      | Some (AwaitDelete all rest) =>
          let '(r1, task, o) := afterDelete all rest ok r in
          Some (set_resets (fun cs => <[c := task]> cs) r1, o)
      | _ => None
      end
  end.

(** States the router can be in, with everything it has done so far. *)
Inductive reachable : Router -> list Obs -> Prop :=
| reach_init : reachable init []
| reach_step r tr now e r' o :
    reachable r tr -> step now e r = Some (r', o) -> reachable r' (tr ++ o).

(** Running a list of timed events. *)
Fixpoint run (es : list (Z * Event)) (r : Router) (tr : list Obs)
    : option (Router * list Obs) :=
  match es with
  | [] => Some (r, tr)
  | (now, e) :: es' =>
      match step now e r with
      | Some (r', o) => run es' r' (tr ++ o)
      | None => None
      end
  end.

(** ** The actor activation wrapper ([GoldfishActor]) *)

Module Actor.

(** A property value of the memory object: what the generic code tests for
    truthiness, and everything else as its JSON text. *)
Inductive Value :=
| VField (f : JsField)
| VNum (z : Z)
| VBool (b : bool)
| VJson (text : string).   (* an object or an array *)

Definition truthy_value (v : Value) : bool :=
  match v with
  | VField f => truthy f
  | VNum z => negb (z =? 0)
  | VBool b => b
  | VJson _ => true
  end.

Abbreviation Memory := (gmap string Value).

(** One activation together with the durable record ["memory"] of its
    instance.  [memory] is [None] for the [null] the constructor assigns. *)
Record Activation := {
  memory : option Memory;
  initialized : bool;
  stored : option Memory
}.

(** A new activation over a store: what the constructor leaves. *)
Definition activate (s : option Memory) : Activation :=
  {| memory := None; initialized := false; stored := s |}.

(** Losing the in-memory state of an activation; the store survives. *)
Definition discard (a : Activation) : Activation := activate (stored a).

Inductive StoreOp :=
| StoreGet
| StorePut (m : Memory)
| StoreDelete.

Record Ctx := {
  ctx_actorType : JsField;
  ctx_actorId : JsField;
  ctx_now : Z
}.

Inductive ActorResult :=
| UnknownActorType (actorType : JsField)   (* { error: "Unknown actorType", actorType } *)
| Handled (json : option string).

Record HandlerOutput := {
  out_result : ActorResult;
  out_nextPolicy : option NextPolicy;
  out_spawn : option (list string)
}.

(** A domain handler mutates the memory object in place and returns its
    envelope, or throws ([None]) after whatever mutation it got to. *)
Definition Handler := Payload -> Ctx -> Memory -> Memory * option HandlerOutput.

Record Handlers := {
  handleTeacherMessage : Handler;
  handleRoomMessage : Handler;
  handleStudentMessage : Handler;
  handleQuestionMessage : Handler
}.

Inductive Request :=
| Invoke (payload : Payload) (actorType actorId : JsField) (now : Z)
| Status
| AdminReset.

Inductive Reply :=
| InvokeReply (result : ActorResult) (nextPolicy : NextPolicy) (spawn : list string)
| StatusReply (m : Memory)
| ResetReply
| Throws.

Section WithHandlers.

Variable hs : Handlers.

(** [memory.f = memory.f || v]. *)
Definition assign_default (f : string) (v : JsField) (m : Memory) : Memory :=
  match m !! f with
  | Some x => if truthy_value x then m else <[f := VField v]> m
  | None => <[f := VField v]> m
  end.

Definition dispatch (p : Payload) (ctx : Ctx) (m : Memory) : Memory * option HandlerOutput :=
  match ctx_actorType ctx with
  | JString "teacher" => handleTeacherMessage hs p ctx m
  | JString "room" => handleRoomMessage hs p ctx m
  | JString "student" => handleStudentMessage hs p ctx m
  | JString "question" => handleQuestionMessage hs p ctx m
  | t => (m, Some {| out_result := UnknownActorType t;
                     out_nextPolicy := Some {| mode := "immediate"; redirectTo := None |};
                     out_spawn := Some [] |})
  end.

Definition handleMessage (p : Payload) (ctx : Ctx) (m : Memory)
    : Memory * option (ActorResult * NextPolicy * list string) :=
  let m1 := assign_default "actorType" (ctx_actorType ctx) m in
  let m2 := assign_default "actorId" (ctx_actorId ctx) m1 in
  let m3 := <["lastActiveAt" := VNum (ctx_now ctx)]> m2 in
  match dispatch p ctx m3 with
  | (m4, None) => (m4, None)
  | (m4, Some res) =>
      (m4, Some (out_result res,
                 default {| mode := "immediate"; redirectTo := None |} (out_nextPolicy res),
                 default [] (out_spawn res)))
  end.

Definition ensureInitialized (a : Activation) : Activation * list StoreOp :=
  if initialized a then (a, [])
  else ({| memory := Some (default ∅ (stored a)); initialized := true;
           stored := stored a |}, [StoreGet]).

(** [GoldfishActor.fetch]. *)
Definition fetch (req : Request) (a : Activation) : Activation * list StoreOp * Reply :=
  match req with
  | Invoke p ty id now =>
      let '(a1, o1) := ensureInitialized a in
      match memory a1 with
      | None => (a1, o1, Throws)     (* [memory.actorType] of null *)
      | Some m =>
          let ctx := {| ctx_actorType := ty; ctx_actorId := id; ctx_now := now |} in
          match handleMessage p ctx m with
          | (m', None) =>
              ({| memory := Some m'; initialized := initialized a1;
                  stored := stored a1 |}, o1, Throws)
          | (m', Some (res, np, sp)) =>
              ({| memory := Some m'; initialized := initialized a1;
                  stored := Some m' |}, o1 ++ [StorePut m'], InvokeReply res np sp)
          end
      end
  | Status =>
      let '(a1, o1) := ensureInitialized a in
      (a1, o1, StatusReply (default ∅ (memory a1)))
  | AdminReset =>
      ({| memory := Some ∅; initialized := false; stored := None |},
       [StoreDelete], ResetReply)
  end.

(** A sequence of requests served by one activation. *)
Fixpoint serve (reqs : list Request) (a : Activation) : Activation * list StoreOp :=
  match reqs with
  | [] => (a, [])
  | req :: reqs' =>
      let '(a1, o1, _) := fetch req a in
      let '(a2, o2) := serve reqs' a1 in
      (a2, o1 ++ o2)
  end.

Definition is_get (o : StoreOp) : bool :=
  match o with StoreGet => true | _ => false end.

Definition is_reset (req : Request) : bool :=
  match req with AdminReset => true | _ => false end.

End WithHandlers.

End Actor.

(** ** The HTTP surface: [worker.fetch] and the dispatch of the two classes

    A request as the code reads it: the path and the method of the URL, the
    search parameters, and what [request.json()] yields ([None] when the
    parse fails or, where the code tests [!body], yields a falsy value). *)
Record HttpRequest := {
  req_path : string;
  req_method : string;
  req_query : list (string * string);
  req_json : option RouteBody
}.

(** [url.searchParams.get(name)]: the first value, or [null]. *)
Fixpoint searchParams_get (name : string) (q : list (string * string)) : JsField :=
  match q with
  | [] => JNull
  | (n, v) :: q' => if decide (n = name) then JString v else searchParams_get name q'
  end.

(** The stub a request is sent through. *)
Inductive Stub :=
| RouterStub (name : JsField)   (* env.GOLDFISH_ROUTER.get(idFromName(name)) *)
| ActorStub (name : string).    (* env.GOLDFISH_ACTOR.get(idFromName(name)) *)

(** The JSON body of a request between the components. *)
Inductive InternalBody :=
| NoBody
| RouteJson (b : RouteBody)                 (* { actorType, actorId, payload } *)
| PrefixJson (actorTypePrefix : string).    (* { actorTypePrefix } *)

Record InternalRequest := {
  to_path : string;
  to_method : string;          (* "GET" when [fetch] is given a URL only *)
  to_query : list (string * string);
  to_body : InternalBody
}.

Inductive WorkerAction :=
| Respond (status : nat) (text : string)
| Forward (stub : Stub) (req : InternalRequest)
| Assets (pathname : string).                (* env.ASSETS.fetch(...) *)

Definition internal (path method : string) (b : InternalBody) : InternalRequest :=
  {| to_path := path; to_method := method; to_query := []; to_body := b |}.

(** [worker.fetch]. *)
Definition worker_fetch (req : HttpRequest) : WorkerAction :=
  if String.eqb (req_path req) "/invoke" && String.eqb (req_method req) "POST" then
    match req_json req with
    | None => Respond 400 "Invalid JSON body"
    | Some b =>
        if negb (truthy (body_actorType b)) || negb (truthy (body_actorId b))
        then Respond 400 "actorType and actorId are required"
        else Forward (RouterStub (body_actorType b))
               (internal "/route" "POST" (RouteJson b))
    end
  else if String.eqb (req_path req) "/actor-status" then
    let actorType := searchParams_get "actorType" (req_query req) in
    let actorId := searchParams_get "actorId" (req_query req) in
    Forward (ActorStub (make_key actorType actorId)) (internal "/status" "GET" NoBody)
  else if String.eqb (req_path req) "/router-status" && String.eqb (req_method req) "GET" then
    let actorType := searchParams_get "actorType" (req_query req) in
    if negb (truthy actorType) then Respond 400 "actorType is required"
    else Forward (RouterStub actorType) (internal "/status" "GET" NoBody)
  else if String.eqb (req_path req) "/reset-actor" && String.eqb (req_method req) "POST" then
    match req_json req with
    | None => Respond 400 "Invalid JSON"
    | Some b =>
        if negb (truthy (body_actorType b)) || negb (truthy (body_actorId b))
        then Respond 400 "actorType and actorId are required"
        else Forward (ActorStub (make_key (body_actorType b) (body_actorId b)))
               (internal "/admin-reset" "POST" NoBody)
    end
  else if String.eqb (req_path req) "/reset-router" && String.eqb (req_method req) "POST" then
    match req_json req with
    | None => Respond 400 "Invalid JSON"
    | Some b =>
        Forward (RouterStub (body_actorType b))
          (internal "/admin-reset" "POST"
             (PrefixJson (to_str (body_actorType b) +:+ ":")))
    end
  else if String.eqb (req_path req) "/student" || String.eqb (req_path req) "/" then
    Assets "/student_answer.html"
  else if String.eqb (req_path req) "/board" then
    Assets "/question_board.html"
  else Respond 404 "Not Found".

(** The payload of a body that has none. *)
Definition no_payload : Payload := {| p_truthy := false; p_json := "" |}.

(** What [handleRoute] destructures from the body it parses. *)
Definition route_body_of (b : InternalBody) : option RouteBody :=
  match b with
  | NoBody => None
  | RouteJson rb => Some rb
  | PrefixJson _ =>
      Some {| body_actorType := JUndefined; body_actorId := JUndefined;
              body_payload := no_payload |}
  end.

(** [const { actorTypePrefix } = body] of the [/admin-reset] branch. *)
Definition prefix_of (b : InternalBody) : option string :=
  match b with
  | PrefixJson p => Some p
  | _ => None
  end.

(** [url.searchParams.get("actorTypePrefix")] of [handleStatus]. *)
Definition status_param (q : list (string * string)) : option string :=
  match searchParams_get "actorTypePrefix" q with
  | JString s => Some s
  | _ => None
  end.

(** [GoldfishRouter.fetch]: the operation a request starts, [None] for
    the fallback answer [GoldfishRouter DO]. *)
Definition router_fetch (req : InternalRequest) : option Event :=
  if String.eqb (to_path req) "/route" && String.eqb (to_method req) "POST" then
    Some (EvRoute (route_body_of (to_body req)))
  else if String.eqb (to_path req) "/status" && String.eqb (to_method req) "GET" then
    Some (EvStatus (status_param (to_query req)))
  else if String.eqb (to_path req) "/admin-reset" && String.eqb (to_method req) "POST" then
    Some (EvAdminReset (prefix_of (to_body req)))
  else None.

(** The dispatch of [GoldfishActor.fetch]: the request it serves, [None]
    for the fallback answer [GoldfishActor DO]; [now] is what [Date.now()]
    reads. *)
Definition actor_fetch (now : Z) (req : InternalRequest) : option Actor.Request :=
  if String.eqb (to_path req) "/invoke" && String.eqb (to_method req) "POST" then
    Some (match to_body req with
          | RouteJson b =>
              Actor.Invoke (body_payload b) (body_actorType b) (body_actorId b) now
          | _ => Actor.Invoke no_payload JUndefined JUndefined now
          end)
  else if String.eqb (to_path req) "/status" && String.eqb (to_method req) "GET" then
    Some Actor.Status
  else if String.eqb (to_path req) "/admin-reset" && String.eqb (to_method req) "POST" then
    Some Actor.AdminReset
  else None.

(** The request behind an observation of the router: the addressed call of
    [processActorQueue] and the reset call of the [/admin-reset] branch. *)
Definition request_of (o : Obs) : option (Stub * InternalRequest) :=
  match o with
  | ObsInvoke k ty id m =>
      Some (ActorStub k,
            internal "/invoke" "POST"
              (RouteJson {| body_actorType := ty; body_actorId := id;
                            body_payload := payload m |}))
  | ObsActorReset k => Some (ActorStub k, internal "/admin-reset" "POST" NoBody)
  | _ => None
  end.

(** ** The domain handlers of the activation

    The handlers work on parsed JSON.  [JsUndefined] is what reading an
    absent property gives.  Numbers are the integers ([JsNaN] apart),
    which is what timestamps, durations and scores are: [JsNum z] stands
    for the double [z], for [z] between [-2^53] and [2^53], where every
    integer is a double, sums and differences that stay in the range are
    exact and [String(z)] is the decimal text; an operation that leaves
    the range is outside the model.  [JsNative] is a value that is no
    JSON: the function or the object a plain object inherits under a name
    of [Object.prototype]; [text] is what [String] makes of it. *)

Module Handlers.

Inductive Json :=
| JsUndefined
| JsNull
| JsBool (b : bool)
| JsNum (z : Z)
| JsNaN
| JsStr (s : string)
| JsArr (items : list Json)
| JsObj (fields : list (string * Json))
| JsNative (text : string).

(** The own properties of an object, in the order they were created. *)
Abbreviation Object := (list (string * Json)).

(** [!!v]. *)
Definition truthy (v : Json) : bool :=
  match v with
  | JsUndefined | JsNull | JsNaN => false
  | JsBool b => b
  | JsNum z => negb (z =? 0)
  | JsStr s => negb (String.eqb s "")
  | JsArr _ | JsObj _ | JsNative _ => true
  end.

(** [v] is [undefined] or [null]: reading a property of it throws. *)
Definition nullish (v : Json) : bool :=
  match v with
  | JsUndefined | JsNull => true
  | _ => false
  end.

(** [a || b]. *)
Definition or_else (a b : Json) : Json := if truthy a then a else b.

(** [a === b] for operands that are not the same object: two primitives of
    one type with one value.  Arrays and objects are equal to themselves
    only, and the handlers compare a value of the payload with a literal
    or with a value stored by an earlier message. *)
Definition strict_eq (a b : Json) : bool :=
  match a, b with
  | JsUndefined, JsUndefined | JsNull, JsNull => true
  | JsBool x, JsBool y => Bool.eqb x y
  | JsNum x, JsNum y => x =? y
  | JsStr x, JsStr y => String.eqb x y
  | _, _ => false
  end.

(** Reading the own property [k]. *)
Fixpoint lookup (k : string) (o : Object) : Json :=
  match o with
  | [] => JsUndefined
  | (k', v) :: o' => if decide (k = k') then v else lookup k o'
  end.

(** [v.k] for a name [k] that no prototype defines, and [v?.k]. *)
Definition prop (k : string) (v : Json) : Json :=
  match v with
  | JsObj o => lookup k o
  | _ => JsUndefined
  end.

(** [o.k = v]: an existing property keeps its place, a new one goes last. *)
Fixpoint assign (k : string) (v : Json) (o : Object) : Object :=
  match o with
  | [] => [(k, v)]
  | (k', v') :: o' =>
      if decide (k = k') then (k', v) :: o' else (k', v') :: assign k v o'
  end.

(** [String(v)], which is also the property key [o[v]] uses. *)
Fixpoint to_string (v : Json) : string :=
  match v with
  | JsUndefined => "undefined"
  | JsNull => "null"
  | JsBool b => if b then "true" else "false"
  | JsNum z => pretty z
  | JsNaN => "NaN"
  | JsStr s => s
  | JsArr items =>
      (fix join (l : list Json) : string :=
         match l with
         | [] => ""
         | [x] => match x with JsUndefined | JsNull => "" | _ => to_string x end
         | x :: l' =>
             match x with JsUndefined | JsNull => "" | _ => to_string x end
             +:+ "," +:+ join l'
         end) items
  | JsObj _ => "[object Object]"
  | JsNative text => text
  end.

(** *** Numbers and texts

    [safe z]: the integer [z] is in the range of the model. *)
Definition safe (z : Z) : bool := (- 2 ^ 53 <=? z) && (z <=? 2 ^ 53).

(** The characters [StringToNumber] skips at both ends, as far as they
    are ASCII: tab, line feed, vertical tab, form feed, carriage return
    and space. *)
Definition is_space (c : Ascii.ascii) : bool :=
  let n := Ascii.N_of_ascii c in ((9 <=? n) && (n <=? 13) || (n =? 32))%N.

Definition is_digit (c : Ascii.ascii) : bool :=
  let n := Ascii.N_of_ascii c in ((48 <=? n) && (n <=? 57))%N.

Definition is_hex (c : Ascii.ascii) : bool :=
  let n := Ascii.N_of_ascii c in
  (is_digit c || (65 <=? n) && (n <=? 70) || (97 <=? n) && (n <=? 102))%N.

Definition is_ascii (c : Ascii.ascii) : bool := (Ascii.N_of_ascii c <? 128)%N.

Fixpoint drop_spaces (l : list Ascii.ascii) : list Ascii.ascii :=
  match l with
  | c :: l' => if is_space c then drop_spaces l' else l
  | [] => []
  end.

Definition trim (l : list Ascii.ascii) : list Ascii.ascii :=
  rev (drop_spaces (rev (drop_spaces l))).

Fixpoint skip (f : Ascii.ascii -> bool) (l : list Ascii.ascii) : list Ascii.ascii :=
  match l with
  | c :: l' => if f c then skip f l' else l
  | [] => []
  end.

Definition chars (s : string) : list Ascii.ascii := String.list_ascii_of_string s.

(** [StrDecimalLiteral] without its sign: digits with an optional
    fraction, or a fraction alone, and an optional exponent. *)
Definition exponent_ok (l : list Ascii.ascii) : bool :=
  match l with
  | [] => true
  | c :: l' =>
      if (Ascii.eqb c "e" || Ascii.eqb c "E")%char then
        let l' := match l' with
                  | s :: l'' => if (Ascii.eqb s "+" || Ascii.eqb s "-")%char then l'' else l'
                  | [] => l'
                  end in
        match l' with
        | d :: _ => is_digit d && match skip is_digit l' with [] => true | _ => false end
        | [] => false
        end
      else false
  end.

Definition decimal_ok (l : list Ascii.ascii) : bool :=
  match l with
  | d :: _ =>
      if is_digit d then
        match skip is_digit l with
        | c :: l' => if Ascii.eqb c "."%char then exponent_ok (skip is_digit l')
                     else exponent_ok (c :: l')
        | [] => true
        end
      else if Ascii.eqb d "."%char then
        match tail l with
        | d' :: _ => is_digit d' && exponent_ok (skip is_digit (tail l))
        | [] => false
        end
      else false
  | [] => false
  end.

Definition unsigned (l : list Ascii.ascii) : list Ascii.ascii :=
  match l with
  | s :: l' => if (Ascii.eqb s "+" || Ascii.eqb s "-")%char then l' else l
  | [] => []
  end.

(** The texts [StringToNumber] reads as a number: a signed decimal
    literal, a signed [Infinity], or a hexadecimal, octal or binary
    integer literal. *)
Definition numeric_text (l : list Ascii.ascii) : bool :=
  decimal_ok (unsigned l)
  || String.eqb (String.string_of_list_ascii (unsigned l)) "Infinity"
  || match l with
     | z :: x :: d :: l' =>
         Ascii.eqb z "0"%char &&
         ((Ascii.eqb x "x" || Ascii.eqb x "X")%char && forallb is_hex (d :: l')
          || (Ascii.eqb x "o" || Ascii.eqb x "O")%char
             && forallb (fun c => is_digit c && (Ascii.N_of_ascii c <? 56)%N) (d :: l')
          || (Ascii.eqb x "b" || Ascii.eqb x "B")%char
             && forallb (fun c => (Ascii.eqb c "0" || Ascii.eqb c "1")%char) (d :: l'))
     | _ => false
     end.

Fixpoint digits_value (l : list Ascii.ascii) (acc : Z) : Z :=
  match l with
  | c :: l' => digits_value l' (acc * 10 + (Z.of_N (Ascii.N_of_ascii c) - 48))
  | [] => acc
  end.

(** [StringToNumber]: the outer [Some] says the model covers the text,
    the inner one that the number is not [NaN].  Covered are the empty
    text and decimal integers with an optional sign, all of them with
    space around, and every text that is no number at all; a text with a
    character that is not ASCII, a fraction, an exponent, [Infinity], an
    integer in another base, a negative zero and an integer out of range
    are not. *)
Definition string_to_number (s : string) : option (option Z) :=
  if negb (forallb is_ascii (chars s)) then None
  else
    let l := trim (chars s) in
    match l with
    | [] => Some (Some 0)
    | c :: l' =>
        if forallb is_digit l then
          if safe (digits_value l 0) then Some (Some (digits_value l 0)) else None
        else if (Ascii.eqb c "+" || Ascii.eqb c "-")%char && forallb is_digit l'
                && negb (length l' =? 0)%nat then
          let z := digits_value l' 0 in
          if negb (safe z) || (Ascii.eqb c "-"%char && (z =? 0)) then None
          else Some (Some (if Ascii.eqb c "-"%char then - z else z))
        else if numeric_text l then None
        else Some None
    end.

(** [ToPrimitive]: an array or an object becomes its text. *)
Definition to_primitive (v : Json) : Json :=
  match v with
  | JsArr _ | JsObj _ | JsNative _ => JsStr (to_string v)
  | _ => v
  end.

(** [ToNumber], with the outer [Some] as in [string_to_number]. *)
Definition to_number (v : Json) : option (option Z) :=
  match to_primitive v with
  | JsUndefined | JsNaN => Some None        (* NaN *)
  | JsNull => Some (Some 0)
  | JsBool b => Some (Some (if b then 1 else 0))
  | JsNum z => if safe z then Some (Some z) else None
  | JsStr s => string_to_number s
  | _ => None
  end.

Definition in_range (v : Json) : bool :=
  match v with
  | JsNum z => safe z
  | _ => true
  end.

(** [a + b]: when one of the operands is a text, or an array or an
    object, the result is the concatenation of the texts of both;
    otherwise it is the sum of the numbers.  [None] when an operand or the
    sum is out of range. *)
Definition js_add (a b : Json) : option Json :=
  let a := to_primitive a in
  let b := to_primitive b in
  if negb (in_range a && in_range b) then None
  else
    match a, b with
    | JsStr s, _ => Some (JsStr (s +:+ to_string b))
    | _, JsStr t => Some (JsStr (to_string a +:+ t))
    | _, _ =>
        match to_number a, to_number b with
        | Some (Some x), Some (Some y) =>
            if safe (x + y) then Some (JsNum (x + y)) else None
        | Some _, Some _ => Some JsNaN
        | _, _ => None
        end
    end.

(** [a < b] for two operands of which at least one is no text after
    [ToPrimitive]: the numbers are compared, and a comparison with [NaN]
    is false.  Two texts are compared as texts, which no handler does. *)
Definition js_lt (a b : Json) : option bool :=
  match to_primitive a, to_primitive b with
  | JsStr _, JsStr _ => None
  | _, _ =>
      match to_number a, to_number b with
      | Some x, Some y =>
          Some (match x, y with Some x, Some y => x <? y | _, _ => false end)
      | _, _ => None
      end
  end.

(** [a > b] and [a >= b], on the same operands. *)
Definition js_gt (a b : Json) : option bool := js_lt b a.

Definition js_ge (a b : Json) : option bool :=
  match to_primitive a, to_primitive b with
  | JsStr _, JsStr _ => None
  | _, _ =>
      match to_number a, to_number b with
      | Some x, Some y =>
          Some (match x, y with Some x, Some y => y <=? x | _, _ => false end)
      | _, _ => None
      end
  end.

(** [a - b]: the difference of the numbers. *)
Definition js_sub (a b : Json) : option Json :=
  match to_number a, to_number b with
  | Some (Some x), Some (Some y) => if safe (x - y) then Some (JsNum (x - y)) else None
  | Some _, Some _ => Some JsNaN
  | _, _ => None
  end.

(** *** The order of [Object.entries]

    Keys that are array indices come first, in ascending numeric order;
    the other keys follow in the order they were created. *)
Fixpoint digits (s : string) (acc : N) : option N :=
  match s with
  | EmptyString => Some acc
  | String c s' =>
      let n := Ascii.N_of_ascii c in
      if ((48 <=? n) && (n <=? 57))%N then digits s' (acc * 10 + (n - 48))%N else None
  end.

(** The canonical decimal text of an integer below [2^32 - 1]. *)
Definition array_index (s : string) : option N :=
  match digits s 0%N with
  | Some n => if String.eqb (pretty n) s && (n <? 4294967295)%N then Some n else None
  | None => None
  end.

Fixpoint insert_index (x : N * (string * Json)) (l : list (N * (string * Json)))
    : list (N * (string * Json)) :=
  match l with
  | [] => [x]
  | y :: l' => if (fst x <=? fst y)%N then x :: l else y :: insert_index x l'
  end.

Definition indexed (o : Object) : list (N * (string * Json)) :=
  omap (fun kv => match array_index (fst kv) with
                  | Some n => Some (n, kv)
                  | None => None
                  end) o.

Definition named (o : Object) : Object :=
  List.filter (fun kv => match array_index (fst kv) with
                         | Some _ => false
                         | None => true
                         end) o.

(** [Object.entries(o)]. *)
Definition entries (o : Object) : Object :=
  map snd (foldr insert_index [] (indexed o)) ++ named o.

(** What a handler returns: [{ result, nextPolicy: { mode }, spawn }]. *)
Record Reply := {
  h_result : Json;
  h_mode : string;
  h_spawn : option (list Json)
}.

(** [{ result, nextPolicy: { mode: "immediate" } }]. *)
Definition immediate (result : Json) : Reply :=
  {| h_result := result; h_mode := "immediate"; h_spawn := None |}.

Definition error (text : string) : Json := JsObj [("error", JsStr text)].

(** [o[key] = v] for an object held in a property of the memory: [None]
    when that value is not a plain object, or the key is [__proto__],
    whose assignment does not create a property. *)
Definition assign_in (field : string) (key : Json) (v : Json) (memory : Object)
    : option Object :=
  match lookup field memory with
  | JsObj o =>
      if String.eqb (to_string key) "__proto__" then None
      else Some (assign field (JsObj (assign (to_string key) v o)) memory)
  | _ => None
  end.

(** *** [handleQuestionMessage]

    [payload], [ctx.actorId] and [ctx.now] are the arguments; [memory] is
    the object the handler mutates in place, threaded through here.  The
    handler does not throw; [None] stands for the cases the model of the
    operators does not cover, and for a memory in which reading a
    property throws. *)
Definition handleQuestionMessage (payload actorId : Json) (now : Z) (memory : Object)
    : option (Object * Reply) :=
  let type := prop "type" payload in
  let memory := assign "kind" (or_else (lookup "kind" memory) (JsStr "question")) memory in
  let memory := assign "questionId" (or_else (lookup "questionId" memory) actorId) memory in
  let memory := assign "answers" (or_else (lookup "answers" memory) (JsObj [])) memory in
  let memory := assign "status" (or_else (lookup "status" memory) (JsStr "pending")) memory in
  if negb (truthy type) then
    Some (memory, immediate (error "Missing payload.type for question"))
  else if strict_eq type (JsStr "initQuestion") then
    let memory := assign "roomId" (prop "roomId" payload) memory in
    let memory := assign "text" (or_else (prop "text" payload) (JsStr "")) memory in
    let memory := assign "options" (or_else (prop "options" payload) (JsArr [])) memory in
    let memory := assign "correctOption" (prop "correctOption" payload) memory in
    let memory :=
      assign "durationMs" (or_else (prop "durationMs" payload) (JsNum 10000)) memory in
    let memory := assign "startTime" JsNull memory in
    let memory := assign "status" (JsStr "pending") memory in
    let memory := assign "answers" (JsObj []) memory in
    Some (memory,
          immediate (JsObj [("ok", JsBool true); ("action", JsStr "initQuestion");
                            ("questionId", lookup "questionId" memory);
                            ("roomId", lookup "roomId" memory);
                            ("durationMs", lookup "durationMs" memory)]))
  else if strict_eq type (JsStr "start") then
    let memory := assign "startTime" (JsNum now) memory in
    let memory := assign "status" (JsStr "running") memory in
    let memory := assign "answers" (JsObj []) memory in
    Some (memory,
          immediate (JsObj [("ok", JsBool true); ("action", JsStr "start");
                            ("questionId", lookup "questionId" memory);
                            ("roomId", lookup "roomId" memory);
                            ("startTime", lookup "startTime" memory);
                            ("durationMs", lookup "durationMs" memory)]))
  else if strict_eq type (JsStr "submitAnswer") then
    let studentId := prop "studentId" payload in
    let option := prop "option" payload in
    if negb (truthy studentId) then
      Some (memory, immediate (error "studentId is required"))
    else if negb (truthy option) then
      Some (memory, immediate (error "option is required"))
    else if negb (strict_eq (lookup "status" memory) (JsStr "running"))
            || negb (truthy (lookup "startTime" memory)) then
      memory ← assign_in "answers" studentId
                  (JsObj [("option", option); ("correct", JsBool false);
                          ("answeredAt", JsNum now); ("late", JsBool true)]) memory;
      Some (memory,
            immediate (JsObj [("ok", JsBool false);
                              ("reason", JsStr "Question not running or expired");
                              ("questionId", lookup "questionId" memory);
                              ("roomId", lookup "roomId" memory)]))
    else
      deadline ← js_add (lookup "startTime" memory) (lookup "durationMs" memory);
      late ← js_gt (JsNum now) deadline;
      let correct := negb late && strict_eq option (lookup "correctOption" memory) in
      memory ← assign_in "answers" studentId
                  (JsObj [("option", option); ("correct", JsBool correct);
                          ("answeredAt", JsNum now); ("late", JsBool late)]) memory;
      Some (memory,
            immediate (JsObj [("ok", JsBool true); ("action", JsStr "submitAnswer");
                              ("questionId", lookup "questionId" memory);
                              ("roomId", lookup "roomId" memory);
                              ("studentId", studentId);
                              ("correct", JsBool correct); ("late", JsBool late)]))
  else if strict_eq type (JsStr "getSummary") then
    let memory := assign "status" (JsStr "ended") memory in
    let allAnswers := or_else (lookup "answers" memory) (JsObj []) in
    match allAnswers with
    | JsObj answers =>
        if existsb (fun kv => nullish (snd kv)) answers then None else
        let correctStudents :=
          map (fun kv => JsStr (fst kv))
              (List.filter (fun kv => truthy (prop "correct" (snd kv))) (entries answers)) in
        Some (memory,
              immediate (JsObj [("questionId", lookup "questionId" memory);
                                ("roomId", lookup "roomId" memory);
                                ("status", lookup "status" memory);
                                ("startTime", lookup "startTime" memory);
                                ("durationMs", lookup "durationMs" memory);
                                ("correctStudents", JsArr correctStudents);
                                ("answers", allAnswers)]))
    | _ => None
    end
  else
    Some (memory,
          immediate (error ("Unknown question payload.type: " +:+ to_string type))).

(** *** [handleStudentMessage] *)

(** [a ?? b]. *)
Definition or_null (a b : Json) : Json := if nullish a then b else a.

(** [SameValueZero], under the proviso of [strict_eq]. *)
Definition same_value_zero (a b : Json) : bool :=
  match a, b with
  | JsNaN, JsNaN => true
  | _, _ => strict_eq a b
  end.

(** [items.includes(v)]. *)
Definition includes (v : Json) (items : list Json) : bool :=
  existsb (same_value_zero v) items.

Definition handleStudentMessage (payload actorId : Json) (memory : Object)
    : option (Object * Reply) :=
  let type := prop "type" payload in
  let memory := assign "kind" (or_else (lookup "kind" memory) (JsStr "student")) memory in
  let memory := assign "studentId" (or_else (lookup "studentId" memory) actorId) memory in
  let memory := assign "rooms" (or_else (lookup "rooms" memory) (JsArr [])) memory in
  let memory := assign "answers" (or_else (lookup "answers" memory) (JsArr [])) memory in
  let memory := assign "totalScore" (or_else (lookup "totalScore" memory) (JsNum 0)) memory in
  if negb (truthy type) then
    Some (memory, immediate (error "Missing payload.type for student"))
  else if strict_eq type (JsStr "joinRoom") then
    let roomId := prop "roomId" payload in
    let name := prop "name" payload in
    let memory :=
      if truthy name && negb (truthy (lookup "name" memory))
      then assign "name" name memory else memory in
    memory ←
      (if truthy roomId then
         match lookup "rooms" memory with
         | JsArr rooms =>
             if includes roomId rooms then Some memory
             else Some (assign "rooms" (JsArr (rooms ++ [roomId])) memory)
         | _ => None
         end
       else Some memory);
    Some (memory,
          immediate (JsObj [("ok", JsBool true); ("action", JsStr "joinRoom");
                            ("studentId", lookup "studentId" memory);
                            ("name", lookup "name" memory);
                            ("rooms", lookup "rooms" memory)]))
  else if strict_eq type (JsStr "updateScore") then
    let record :=
      JsObj [("roomId", prop "roomId" payload);
             ("questionId", prop "questionId" payload);
             ("correct", JsBool (truthy (prop "correct" payload)));
             ("scoreDelta", or_else (prop "scoreDelta" payload) (JsNum 0));
             ("timeUsedMs", or_null (prop "timeUsedMs" payload) JsNull)] in
    match lookup "answers" memory with
    | JsArr answers =>
        let memory := assign "answers" (JsArr (answers ++ [record])) memory in
        totalScore ← js_add (lookup "totalScore" memory) (prop "scoreDelta" record);
        let memory := assign "totalScore" totalScore memory in
        Some (memory,
              immediate (JsObj [("ok", JsBool true); ("action", JsStr "updateScore");
                                ("studentId", lookup "studentId" memory);
                                ("totalScore", lookup "totalScore" memory);
                                ("lastRecord", record)]))
    | _ => None
    end
  else
    Some (memory,
          immediate (error ("Unknown student payload.type: " +:+ to_string type))).

(** *** Calls to other actors

    A handler reaches another actor through the router of that actor's
    type.  [env] holds the responses the router's stub will give to the
    calls of one handler run, in order, and collects the calls made; a
    call beyond the listed responses is one whose [fetch] rejects, which
    makes the handler throw. *)
Record Call := {
  to_type : string;
  to_id : Json;
  message : Json
}.

(** [resp.status], and what [resp.json()] resolves to ([JsNull] also when
    the body is no JSON). *)
Record Response := {
  resp_status : Z;
  resp_json : Json
}.

(** [resp.ok]. *)
Definition resp_ok (resp : Response) : bool :=
  (200 <=? resp_status resp) && (resp_status resp <=? 299).

Record Env := {
  responses : list Response;
  calls : list Call
}.

(** [sendToActor(env, actorType, actorId, payload)]. *)
Definition sendToActor (actorType : string) (actorId payload : Json) (env : Env)
    : option (Json * Env) :=
  match responses env with
  | [] => None
  | resp :: rest =>
      let env := {| responses := rest;
                    calls := calls env ++ [{| to_type := actorType; to_id := actorId;
                                              message := payload |}] |} in
      if negb (resp_ok resp) then
        Some (JsObj [("ok", JsBool false);
                     ("error", JsStr ("Router responded with status "
                                      +:+ pretty (resp_status resp)))], env)
      else if negb (truthy (resp_json resp)) then
        Some (JsObj [("ok", JsBool false); ("error", JsStr "Invalid JSON from router")],
              env)
      else Some (resp_json resp, env)
  end.

(** [unwrapRouterResult(resp)]. *)
Definition unwrapRouterResult (resp : Json) : Json :=
  if negb (truthy resp) then JsObj []
  else if truthy (prop "result" resp) && truthy (prop "result" (prop "result" resp))
  then prop "result" (prop "result" resp)
  else if truthy (prop "result" resp) then prop "result" resp
  else resp.

(** *** Operators of the room and the teacher *)

(** The names [Object.prototype] defines: reading one of them from an
    object that has no such property of its own gives the inherited
    value. *)
Definition prototype_names : list string :=
  [ "constructor"; "hasOwnProperty"; "isPrototypeOf"; "propertyIsEnumerable";
    "toLocaleString"; "toString"; "valueOf"; "__proto__";
    "__defineGetter__"; "__defineSetter__"; "__lookupGetter__"; "__lookupSetter__" ].

(** What a plain object inherits under [name]: [Object] as its
    constructor, [Object.prototype] as its prototype, a built-in function
    under the other names of [Object.prototype], and nothing else. *)
Definition inherited (name : string) : Json :=
  if String.eqb name "constructor" then JsNative "function Object() { [native code] }"
  else if String.eqb name "__proto__" then JsNative "[object Object]"
  else if bool_decide (name ∈ prototype_names)
  then JsNative ("function " +:+ name +:+ "() { [native code] }")
  else JsUndefined.

(** [o[key]] for a key computed at run time: the own property, or else
    the inherited one. *)
Definition get (key : Json) (o : Object) : Json :=
  if bool_decide (to_string key ∈ map fst o) then lookup (to_string key) o
  else inherited (to_string key).

(** [items[i]] for an [i] that is not a string. *)
Definition element (items : list Json) (i : Json) : Json :=
  match i with
  | JsNum z => if 0 <=? z then nth (Z.to_nat z) items JsUndefined else JsUndefined
  | _ => JsUndefined
  end.

(** [Object.entries(scores).sort(([, a], [, b]) => b - a)]: the sort is
    stable, so with numbers for scores the result is the entries by
    descending score, ties in the order of [Object.entries].  [None] when
    a score is not a number. *)
Fixpoint insert_desc (x : Z * string) (l : list (Z * string)) : list (Z * string) :=
  match l with
  | [] => [x]
  | y :: l' => if fst x <? fst y then y :: insert_desc x l' else x :: l
  end.

Fixpoint numbered (es : Object) : option (list (Z * string)) :=
  match es with
  | [] => Some []
  | (k, JsNum z) :: es' => l ← numbered es'; Some ((z, k) :: l)
  | _ => None
  end.

Definition sorted_entries (scores : Object) : option (list (Z * string)) :=
  l ← numbered (entries scores); Some (foldr insert_desc [] l).

(** [.map(([sid, score], idx) => ({ rank: idx + 1, studentId: sid, score }))]. *)
Definition rank_row (idx : nat) (e : Z * string) : Json :=
  JsObj [("rank", JsNum (Z.of_nat idx + 1)); ("studentId", JsStr (snd e));
         ("score", JsNum (fst e))].

Definition compute_ranking (memory : Object) : option Json :=
  match lookup "scores" memory with
  | JsObj scores => l ← sorted_entries scores; Some (JsArr (imap rank_row l))
  | _ => None
  end.

(** *** [handleRoomMessage] *)

(** The body of [for (const sid of correctStudents)]. *)
Fixpoint score_students (sids : list Json) (sum allAnswers qId : Json)
    (memory : Object) (env : Env) : option (Object * Env) :=
  match sids with
  | [] => Some (memory, env)
  | sid :: sids' =>
      match lookup "scores" memory, allAnswers with
      | JsObj scores, JsObj answers =>
          new ← js_add (or_else (get sid scores) (JsNum 0)) (JsNum 1);
          memory ← assign_in "scores" sid new memory;
          let ans := or_else (get sid answers) (JsObj []) in
          timeUsedMs ←
            (if truthy (prop "answeredAt" ans) && truthy (prop "startTime" sum)
             then js_sub (prop "answeredAt" ans) (prop "startTime" sum)
             else Some JsNull);
          '(_, env) ← sendToActor "student" sid
               (JsObj [("type", JsStr "updateScore");
                       ("roomId", lookup "roomId" memory);
                       ("questionId", qId);
                       ("correct", JsBool true);
                       ("scoreDelta", JsNum 1);
                       ("timeUsedMs", timeUsedMs)]) env;
          score_students sids' sum allAnswers qId memory env
      | _, _ => None
      end
  end.

(** [None] stands for a run in which the handler throws (a call is
    rejected, a property of [undefined] is read, a value that is not
    iterable is iterated) and for the cases the model of the operators
    does not cover. *)
Definition handleRoomMessage (payload actorId : Json) (now : Z) (memory : Object)
    (env : Env) : option (Object * Reply * Env) :=
  let type := prop "type" payload in
  let memory := assign "kind" (or_else (lookup "kind" memory) (JsStr "room")) memory in
  let memory := assign "roomId" (or_else (lookup "roomId" memory) actorId) memory in
  let memory := assign "students" (or_else (lookup "students" memory) (JsArr [])) memory in
  let memory := assign "questions" (or_else (lookup "questions" memory) (JsArr [])) memory in
  let memory :=
    assign "currentQuestionIndex"
           (or_else (lookup "currentQuestionIndex" memory) (JsNum 0)) memory in
  let memory := assign "scores" (or_else (lookup "scores" memory) (JsObj [])) memory in
  let memory := assign "status" (or_else (lookup "status" memory) (JsStr "waiting")) memory in
  let memory :=
    assign "roomName"
           (or_else (or_else (lookup "roomName" memory) (prop "roomName" payload))
                    (lookup "roomId" memory)) memory in
  if negb (truthy type) then
    Some (memory, immediate (error "Missing payload.type for room"), env)
  else if strict_eq type (JsStr "initRoom") then
    let memory :=
      assign "teacherId" (or_else (prop "teacherId" payload) (lookup "teacherId" memory))
             memory in
    let memory :=
      assign "roomName" (or_else (prop "roomName" payload) (lookup "roomName" memory))
             memory in
    Some (memory,
          immediate (JsObj [("ok", JsBool true); ("action", JsStr "initRoom");
                            ("roomId", lookup "roomId" memory);
                            ("teacherId", lookup "teacherId" memory);
                            ("roomName", lookup "roomName" memory)]), env)
  else if strict_eq type (JsStr "registerQuestions") then
    let ids := or_else (prop "questionIds" payload) (JsArr []) in
    let memory := assign "questions" ids memory in
    let memory := assign "currentQuestionIndex" (JsNum 0) memory in
    let memory := assign "status" (JsStr "waiting") memory in
    Some (memory,
          immediate (JsObj [("ok", JsBool true); ("action", JsStr "registerQuestions");
                            ("roomId", lookup "roomId" memory);
                            ("questions", lookup "questions" memory)]), env)
  else if strict_eq type (JsStr "join") then
    let studentId := prop "studentId" payload in
    let name := prop "name" payload in
    if negb (truthy studentId) then
      Some (memory, immediate (error "studentId is required"), env)
    else
      match lookup "students" memory with
      | JsArr students =>
          let memory :=
            if includes studentId students then memory
            else assign "students" (JsArr (students ++ [studentId])) memory in
          '(_, env) ← sendToActor "student" studentId
               (JsObj [("type", JsStr "joinRoom");
                       ("roomId", lookup "roomId" memory);
                       ("name", name)]) env;
          Some (memory,
                immediate (JsObj [("ok", JsBool true); ("action", JsStr "join");
                                  ("roomId", lookup "roomId" memory);
                                  ("studentId", studentId);
                                  ("students", lookup "students" memory)]), env)
      | _ => None
      end
  else if strict_eq type (JsStr "startCurrentQuestion") then
    match lookup "questions" memory with
    | JsArr questions =>
        if (length questions =? 0)%nat then
          Some (memory, immediate (error "No questions registered for this room"), env)
        else
          finished ← js_ge (lookup "currentQuestionIndex" memory)
                           (JsNum (Z.of_nat (length questions)));
          if finished : bool then
            Some (memory, immediate (error "All questions already finished"), env)
          else
            let qId := element questions (lookup "currentQuestionIndex" memory) in
            '(resp, env) ← sendToActor "question" qId (JsObj [("type", JsStr "start")]) env;
            let memory := assign "status" (JsStr "in_question") memory in
            let memory := assign "currentQuestionId" qId memory in
            let memory := assign "questionStartedAt" (JsNum now) memory in
            Some (memory,
                  immediate (JsObj [("ok", prop "ok" resp);
                                    ("action", JsStr "startCurrentQuestion");
                                    ("roomId", lookup "roomId" memory);
                                    ("questionId", qId);
                                    ("fromQuestion",
                                     or_else (prop "result" resp) (prop "error" resp))]),
                  env)
    | _ => None
    end
  else if strict_eq type (JsStr "finishCurrentQuestion") then
    match lookup "questions" memory with
    | JsArr questions =>
        if (length questions =? 0)%nat then
          Some (memory, immediate (error "No questions registered for this room"), env)
        else
          finished ← js_ge (lookup "currentQuestionIndex" memory)
                           (JsNum (Z.of_nat (length questions)));
          if finished : bool then
            Some (memory, immediate (error "All questions already finished"), env)
          else
            let qId := element questions (lookup "currentQuestionIndex" memory) in
            '(resp, env) ← sendToActor "question" qId
                 (JsObj [("type", JsStr "getSummary")]) env;
            if negb (truthy (prop "ok" resp)) then
              Some (memory,
                    immediate (JsObj [("error", JsStr "Failed to get question summary");
                                      ("fromQuestion", resp)]), env)
            else
              let sum := unwrapRouterResult resp in
              let correctStudents := or_else (prop "correctStudents" sum) (JsArr []) in
              let allAnswers := or_else (prop "answers" sum) (JsObj []) in
              match correctStudents with
              | JsArr sids =>
                  '(memory, env) ← score_students sids sum allAnswers qId memory env;
                  index ← js_add (lookup "currentQuestionIndex" memory) (JsNum 1);
                  let memory := assign "currentQuestionIndex" index memory in
                  over ← js_ge (lookup "currentQuestionIndex" memory)
                               (JsNum (Z.of_nat (length questions)));
                  let memory :=
                    assign "status" (JsStr (if over : bool then "finished" else "waiting"))
                           memory in
                  memory ←
                    (if strict_eq (lookup "status" memory) (JsStr "finished") then
                       ranking ← compute_ranking memory;
                       Some (assign "ranking" ranking memory)
                     else Some memory);
                  Some (memory,
                        immediate (JsObj [("ok", JsBool true);
                                          ("action", JsStr "finishCurrentQuestion");
                                          ("roomId", lookup "roomId" memory);
                                          ("questionId", qId);
                                          ("correctStudents", correctStudents);
                                          ("scores", lookup "scores" memory);
                                          ("status", lookup "status" memory);
                                          ("ranking",
                                           or_else (lookup "ranking" memory) JsNull)]),
                        env)
              | _ => None
              end
    | _ => None
    end
  else if strict_eq type (JsStr "finishRoom") then
    match lookup "questions" memory with
    | JsArr questions =>
        unfinished ← js_lt (lookup "currentQuestionIndex" memory)
                           (JsNum (Z.of_nat (length questions)));
        if unfinished : bool then
          Some (memory,
                immediate (JsObj [("error", JsStr "Not all questions have been finished. Please call finishCurrentQuestion for each first.");
                                  ("currentQuestionIndex",
                                   lookup "currentQuestionIndex" memory);
                                  ("totalQuestions",
                                   JsNum (Z.of_nat (length questions)))]), env)
        else
          let memory := assign "status" (JsStr "finished") memory in
          memory ←
            (if negb (truthy (lookup "ranking" memory)) then
               ranking ← compute_ranking memory;
               Some (assign "ranking" ranking memory)
             else Some memory);
          Some (memory,
                immediate (JsObj [("ok", JsBool true); ("action", JsStr "finishRoom");
                                  ("roomId", lookup "roomId" memory);
                                  ("scores", lookup "scores" memory);
                                  ("ranking", lookup "ranking" memory)]), env)
    | _ => None
    end
  else
    Some (memory, immediate (error ("Unknown room payload.type: " +:+ to_string type)),
          env).

(** *** [handleTeacherMessage] *)

(** The body of [for (const q of questions)], with [qIds] as collected so
    far. *)
Fixpoint init_questions (questions : list Json) (roomId : Json) (qIds : list Json)
    (env : Env) : option (list Json * Env) :=
  match questions with
  | [] => Some (qIds, env)
  | q :: questions' =>
      if nullish q then None
      else
        let qId := prop "questionId" q in
        if negb (truthy qId) then init_questions questions' roomId qIds env
        else
          '(_, env) ← sendToActor "question" qId
               (JsObj [("type", JsStr "initQuestion");
                       ("roomId", roomId);
                       ("text", prop "text" q);
                       ("options", prop "options" q);
                       ("correctOption", prop "correctOption" q);
                       ("durationMs", prop "durationMs" q)]) env;
          init_questions questions' roomId (qIds ++ [qId]) env
  end.

(** The three branches that pass a request on to the room. *)
Definition forward (roomId : Json) (type : string) (memory : Object) (env : Env)
    : option (Object * Reply * Env) :=
  if negb (truthy roomId) then
    Some (memory, immediate (error "roomId is required"), env)
  else
    '(resp, env) ← sendToActor "room" roomId (JsObj [("type", JsStr type)]) env;
    Some (memory,
          immediate (JsObj [("ok", prop "ok" resp);
                            ("roomId", roomId);
                            ("fromRoom", or_else (prop "result" resp) (prop "error" resp))]),
          env).

Definition handleTeacherMessage (payload actorId : Json) (memory : Object) (env : Env)
    : option (Object * Reply * Env) :=
  let type := prop "type" payload in
  let memory := assign "kind" (or_else (lookup "kind" memory) (JsStr "teacher")) memory in
  let memory := assign "teacherId" (or_else (lookup "teacherId" memory) actorId) memory in
  let memory := assign "rooms" (or_else (lookup "rooms" memory) (JsArr [])) memory in
  let memory :=
    assign "questionsByRoom" (or_else (lookup "questionsByRoom" memory) (JsObj []))
           memory in
  if negb (truthy type) then
    Some (memory,
          {| h_result := error "Missing payload.type for teacher";
             h_mode := "immediate"; h_spawn := Some [] |}, env)
  else if strict_eq type (JsStr "createRoom") then
    let roomId := prop "roomId" payload in
    let roomName := or_else (prop "roomName" payload) roomId in
    if negb (truthy roomId) then
      Some (memory, immediate (error "roomId is required"), env)
    else
      match lookup "rooms" memory with
      | JsArr rooms =>
          let memory :=
            if includes roomId rooms then memory
            else assign "rooms" (JsArr (rooms ++ [roomId])) memory in
          '(_, env) ← sendToActor "room" roomId
               (JsObj [("type", JsStr "initRoom");
                       ("teacherId", actorId);
                       ("roomName", roomName)]) env;
          Some (memory,
                immediate (JsObj [("ok", JsBool true); ("action", JsStr "createRoom");
                                  ("roomId", roomId); ("roomName", roomName)]), env)
      | _ => None
      end
  else if strict_eq type (JsStr "createQuestions") then
    let roomId := prop "roomId" payload in
    let questions := or_else (prop "questions" payload) (JsArr []) in
    if negb (truthy roomId) then
      Some (memory, immediate (error "roomId is required"), env)
    else
      match questions with
      | JsArr questions =>
          '(qIds, env) ← init_questions questions roomId [] env;
          '(_, env) ←
            (if (0 <? length qIds)%nat then
               sendToActor "room" roomId
                 (JsObj [("type", JsStr "registerQuestions");
                         ("questionIds", JsArr qIds)]) env
             else Some (JsUndefined, env));
          memory ← assign_in "questionsByRoom" roomId (JsArr qIds) memory;
          Some (memory,
                immediate (JsObj [("ok", JsBool true); ("action", JsStr "createQuestions");
                                  ("roomId", roomId); ("questionIds", JsArr qIds)]), env)
      | _ => None
      end
  else if strict_eq type (JsStr "startQuestion") then
    forward (prop "roomId" payload) "startCurrentQuestion" memory env
  else if strict_eq type (JsStr "finishCurrentQuestion") then
    forward (prop "roomId" payload) "finishCurrentQuestion" memory env
  else if strict_eq type (JsStr "finishRoom") then
    forward (prop "roomId" payload) "finishRoom" memory env
  else
    Some (memory, immediate (error ("Unknown teacher payload.type: " +:+ to_string type)),
          env).

(** *** [handleMessage]

    Before it hands the message to the handler of the actor's type,
    [handleMessage] records the type, the id and the time on the memory;
    afterwards it completes the envelope. *)
Definition handleMessage (payload actorType actorId : Json) (now : Z) (memory : Object)
    (env : Env) : option (Object * Reply * Env) :=
  let memory :=
    assign "actorType" (or_else (lookup "actorType" memory) actorType) memory in
  let memory := assign "actorId" (or_else (lookup "actorId" memory) actorId) memory in
  let memory := assign "lastActiveAt" (JsNum now) memory in
  '(memory, res, env) ←
    (if strict_eq actorType (JsStr "teacher") then
       handleTeacherMessage payload actorId memory env
     else if strict_eq actorType (JsStr "room") then
       handleRoomMessage payload actorId now memory env
     else if strict_eq actorType (JsStr "student") then
       '(memory, res) ← handleStudentMessage payload actorId memory;
       Some (memory, res, env)
     else if strict_eq actorType (JsStr "question") then
       '(memory, res) ← handleQuestionMessage payload actorId now memory;
       Some (memory, res, env)
     else
       Some (memory,
             {| h_result := JsObj [("error", JsStr "Unknown actorType");
                                   ("actorType", actorType)];
                h_mode := "immediate"; h_spawn := Some [] |}, env));
  Some (memory,
        {| h_result := h_result res; h_mode := h_mode res;
           h_spawn := Some (default [] (h_spawn res)) |}, env).

(** *** Vocabulary of the handlers' properties *)

(** An environment for a handler that calls nobody. *)
Definition no_calls : Env := {| responses := []; calls := [] |}.

(** The three stamps of [handleMessage]. *)
Definition stamp (actorType actorId : Json) (now : Z) (memory : Object) : Object :=
  let memory :=
    assign "actorType" (or_else (lookup "actorType" memory) actorType) memory in
  let memory := assign "actorId" (or_else (lookup "actorId" memory) actorId) memory in
  assign "lastActiveAt" (JsNum now) memory.

(** The envelope as [handleMessage] completes it. *)
Definition completed (res : Reply) : Reply :=
  {| h_result := h_result res; h_mode := h_mode res;
     h_spawn := Some (default [] (h_spawn res)) |}.

(** The messages an activation of a question or of a student handles one
    after the other, each with the time [Date.now()] reads when it
    arrives; [None] when one of them falls outside the model. *)
Fixpoint run (actorType actorId : Json) (msgs : list (Json * Z)) (memory : Object)
    : option Object :=
  match msgs with
  | [] => Some memory
  | (payload, now) :: msgs' =>
      match handleMessage payload actorType actorId now memory no_calls with
      | Some (memory', _, _) => run actorType actorId msgs' memory'
      | None => None
      end
  end.

Definition question_run := run (JsStr "question").

Definition student_run := run (JsStr "student").

(** A memory on which no handler has worked yet: it has neither answers
    nor a total. *)
Definition untouched (memory : Object) : Prop :=
  lookup "answers" memory = JsUndefined /\ lookup "totalScore" memory = JsUndefined.

(** The answer recorded for the student whose id is rendered [sid]. *)
Definition answer (sid : string) (memory : Object) : Json :=
  prop sid (lookup "answers" memory).

(** The recorded answer of [sid] counts as correct. *)
Definition marked_correct (sid : string) (memory : Object) : Prop :=
  truthy (prop "correct" (answer sid memory)) = true.

(** A mark is earned: the recorded option is the correct one of the
    question, the record is not late, and the time of the answer is not
    greater than the deadline the handler computes, which is
    [startTime + durationMs] as the language evaluates it: the sum when
    the duration is a number, and the two texts one after the other when
    the duration is a text. *)
Definition earned (sid : string) (memory : Object) : Prop :=
  strict_eq (prop "option" (answer sid memory)) (lookup "correctOption" memory) = true /\
  prop "late" (answer sid memory) = JsBool false /\
  exists a deadline,
    prop "answeredAt" (answer sid memory) = JsNum a /\
    js_add (lookup "startTime" memory) (lookup "durationMs" memory) = Some deadline /\
    js_gt (JsNum a) deadline = Some false.

(** The memory of a question the handler has worked on: the answers are
    an object that holds one record per student, and every mark in it is
    earned. *)
Definition graded (memory : Object) : Prop :=
  (exists answers,
     lookup "answers" memory = JsObj answers /\ NoDup (map fst answers) /\
     forall kv, kv ∈ answers -> nullish (snd kv) = false) /\
  forall sid, marked_correct sid memory -> earned sid memory.

(** The question is not open for answers. *)
Definition closed (memory : Object) : Prop :=
  strict_eq (lookup "status" memory) (JsStr "running") = false.

(** The defaults [handleQuestionMessage] fills in first. *)
Definition question_defaults (actorId : Json) (memory : Object) : Object :=
  let memory := assign "kind" (or_else (lookup "kind" memory) (JsStr "question")) memory in
  let memory := assign "questionId" (or_else (lookup "questionId" memory) actorId) memory in
  let memory := assign "answers" (or_else (lookup "answers" memory) (JsObj [])) memory in
  assign "status" (or_else (lookup "status" memory) (JsStr "pending")) memory.

Definition has_type (type : string) (payload : Json) : Prop :=
  prop "type" payload = JsStr type.

(** The score delta of a record of the student's answers, as a number. *)
Definition delta (record : Json) : Z :=
  match to_number (prop "scoreDelta" record) with
  | Some (Some z) => z
  | _ => 0
  end.

Definition sum_deltas (records : list Json) : Z :=
  foldr (fun r s => delta r + s) 0 records.





(** The books of a student: the answers are an array of records and the
    total is the sum of their score deltas. *)
Definition scored (memory : Object) : Prop :=
  exists records,
    lookup "answers" memory = JsArr records /\
    lookup "totalScore" memory = JsNum (sum_deltas records).

(** The defaults [handleStudentMessage] fills in first. *)
Definition student_defaults (actorId : Json) (memory : Object) : Object :=
  let memory := assign "kind" (or_else (lookup "kind" memory) (JsStr "student")) memory in
  let memory := assign "studentId" (or_else (lookup "studentId" memory) actorId) memory in
  let memory := assign "rooms" (or_else (lookup "rooms" memory) (JsArr [])) memory in
  let memory := assign "answers" (or_else (lookup "answers" memory) (JsArr [])) memory in
  assign "totalScore" (or_else (lookup "totalScore" memory) (JsNum 0)) memory.

(** The properties [handleStudentMessage] defaults, with their defaults. *)
Definition student_fields (actorId : Json) : Object :=
  [("kind", JsStr "student"); ("studentId", actorId); ("rooms", JsArr []);
   ("answers", JsArr []); ("totalScore", JsNum 0)].

(** Every defaulted property is there, with a truthy value or its default. *)
Definition settled (actorId : Json) (memory : Object) : Prop :=
  forall k d, (k, d) ∈ student_fields actorId ->
    k ∈ map fst memory /\ (truthy (lookup k memory) = true \/ lookup k memory = d).

(** The three steps of the [joinRoom] branch after the defaults. *)
Definition join_name (payload : Json) (memory : Object) : Object :=
  if truthy (prop "name" payload) && negb (truthy (lookup "name" memory))
  then assign "name" (prop "name" payload) memory else memory.

Definition join_rooms (payload : Json) (memory : Object) : option Object :=
  if truthy (prop "roomId" payload) then
    match lookup "rooms" memory with
    | JsArr rooms =>
        if includes (prop "roomId" payload) rooms then Some memory
        else Some (assign "rooms" (JsArr (rooms ++ [prop "roomId" payload])) memory)
    | _ => None
    end
  else Some memory.

Definition join_reply (memory : Object) : Reply :=
  immediate (JsObj [("ok", JsBool true); ("action", JsStr "joinRoom");
                    ("studentId", lookup "studentId" memory);
                    ("name", lookup "name" memory);
                    ("rooms", lookup "rooms" memory)]).


(** Neither an array nor an object. *)
Definition primitive (v : Json) : bool :=
  match v with
  | JsArr _ | JsObj _ | JsNative _ => false
  | _ => true
  end.

(** *** Vocabulary of the room and the teacher *)

(** The defaults [handleRoomMessage] fills in first. *)
Definition room_defaults (payload actorId : Json) (memory : Object) : Object :=
  let memory := assign "kind" (or_else (lookup "kind" memory) (JsStr "room")) memory in
  let memory := assign "roomId" (or_else (lookup "roomId" memory) actorId) memory in
  let memory := assign "students" (or_else (lookup "students" memory) (JsArr [])) memory in
  let memory := assign "questions" (or_else (lookup "questions" memory) (JsArr [])) memory in
  let memory :=
    assign "currentQuestionIndex"
           (or_else (lookup "currentQuestionIndex" memory) (JsNum 0)) memory in
  let memory := assign "scores" (or_else (lookup "scores" memory) (JsObj [])) memory in
  let memory := assign "status" (or_else (lookup "status" memory) (JsStr "waiting")) memory in
  assign "roomName"
         (or_else (or_else (lookup "roomName" memory) (prop "roomName" payload))
                  (lookup "roomId" memory)) memory.

(** The score the room holds for the student whose id is rendered [sid];
    0 when it holds none. *)
Definition score (sid : string) (memory : Object) : Z :=
  match to_number (or_else (prop sid (lookup "scores" memory)) (JsNum 0)) with
  | Some (Some z) => z
  | _ => 0
  end.

(** How often the student occurs in a list of ids. *)
Definition times (sid : string) (sids : list Json) : Z :=
  Z.of_nat (length (List.filter (fun s => String.eqb (to_string s) sid) sids)).

(** The call that asks a question for its summary. *)
Definition summary_call (qId : Json) : Call :=
  {| to_type := "question"; to_id := qId;
     message := JsObj [("type", JsStr "getSummary")] |}.

(** A call that credits the student [sid] with one point for [qId]. *)
Definition score_call (roomId qId sid : Json) (c : Call) : Prop :=
  to_type c = "student" /\ to_id c = sid /\
  exists timeUsedMs,
    message c = JsObj [("type", JsStr "updateScore"); ("roomId", roomId);
                       ("questionId", qId); ("correct", JsBool true);
                       ("scoreDelta", JsNum 1); ("timeUsedMs", timeUsedMs)].

(** What the router answers to a call whose message the activation
    [actorKey] has handled with the given result: status 200 and
    [{ ok: true, result: { result, actorKey } }].  The body is taken as
    parsed; a property that is [undefined] is left out of the JSON text,
    and reading it from the parsed body gives [undefined] again. *)
Definition ok_response (result : Json) (actorKey : string) : Response :=
  {| resp_status := 200;
     resp_json := JsObj [("ok", JsBool true);
                         ("result", JsObj [("result", result);
                                           ("actorKey", JsStr actorKey)])] |}.

(** The call credits the student whose id is rendered [sid] with a
    point: an [updateScore] message to that student. *)
Definition credit (sid : string) (c : Call) : bool :=
  String.eqb (to_type c) "student" && String.eqb (to_string (to_id c)) sid
  && strict_eq (prop "type" (message c)) (JsStr "updateScore").

(** The points the calls [cs] carry for the student. *)
Definition credits (sid : string) (cs : list Call) : Z :=
  Z.of_nat (length (List.filter (credit sid) cs)).

(** The call credits a student with a point. *)
Definition scoring (c : Call) : bool :=
  String.eqb (to_type c) "student"
  && strict_eq (prop "type" (message c)) (JsStr "updateScore").

(** The students the calls [cs] credit, one entry for each point. *)
Definition credited (cs : list Call) : list Json :=
  map to_id (List.filter scoring cs).

(** No id of the list is the name of a property every object inherits
    from [Object.prototype]. *)
Definition plain_ids (sids : list Json) : Prop :=
  forall sid, sid ∈ sids -> to_string sid ∉ prototype_names.

(** The room can count the points of the list [sids]: the score it holds
    for a student of the list, 0 when it holds none, is a number that
    stays in the range of exact integers when the points the list has for
    the student are added. *)
Definition counting (sids : list Json) (memory : Object) : Prop :=
  forall sid, sid ∈ sids ->
    exists z, or_else (prop (to_string sid) (lookup "scores" memory)) (JsNum 0) = JsNum z /\
              Z.abs z + times (to_string sid) sids <= 2 ^ 53.

(** The scores of [memory'] are those of [memory] with the points of the
    calls [cs] added, as far as the room can count them. *)
Definition tallied (cs : list Call) (memory memory' : Object) : Prop :=
  plain_ids (credited cs) ->
  forall rest, counting (credited cs ++ rest) memory ->
    (forall sid, score sid memory' = score sid memory + credits sid cs) /\
    counting rest memory'.



(** The actor types a handler of the given type may call. *)
Definition level (actorType : string) : nat :=
  if String.eqb actorType "teacher" then 3
  else if String.eqb actorType "room" then 2
  else if String.eqb actorType "student" then 1
  else if String.eqb actorType "question" then 1
  else 0.

Definition level_of (actorType : Json) : nat :=
  match actorType with
  | JsStr t => level t
  | _ => 0
  end.

(** The messages an activation handles one after the other, each with
    the time it arrives at and the responses the router will give to the
    calls its handler makes; the result is the memory left, the replies
    and the calls made, in order. *)
Fixpoint conversation (actorType actorId : Json) (msgs : list (Json * Z * list Response))
    (memory : Object) : option (Object * list Reply * list Call) :=
  match msgs with
  | [] => Some (memory, [], [])
  | (payload, now, resps) :: msgs' =>
      match handleMessage payload actorType actorId now memory
              {| responses := resps; calls := [] |} with
      | Some (memory, reply, env) =>
          match conversation actorType actorId msgs' memory with
          | Some (memory, replies, cs) => Some (memory, reply :: replies, calls env ++ cs)
          | None => None
          end
      | None => None
      end
  end.

(** The question a reply reports as finished, if it reports one. *)
Definition finished_question (reply : Reply) : option Json :=
  if strict_eq (prop "action" (h_result reply)) (JsStr "finishCurrentQuestion")
  then Some (prop "questionId" (h_result reply))
  else None.

(** The defaults [handleTeacherMessage] fills in first. *)
Definition teacher_defaults (actorId : Json) (memory : Object) : Object :=
  let memory := assign "kind" (or_else (lookup "kind" memory) (JsStr "teacher")) memory in
  let memory := assign "teacherId" (or_else (lookup "teacherId" memory) actorId) memory in
  let memory := assign "rooms" (or_else (lookup "rooms" memory) (JsArr [])) memory in
  assign "questionsByRoom" (or_else (lookup "questionsByRoom" memory) (JsObj [])) memory.

(** The ids [createQuestions] collects: the truthy [questionId]s. *)
Definition question_ids (questions : list Json) : list Json :=
  List.filter truthy (map (prop "questionId") questions).

(** The questions [createQuestions] sets up: those with a truthy id. *)
Definition identified (questions : list Json) : list Json :=
  List.filter (fun q => truthy (prop "questionId" q)) questions.

(** The call that initialises the question [q] of a room. *)
Definition init_call (roomId q : Json) : Call :=
  {| to_type := "question"; to_id := prop "questionId" q;
     message := JsObj [("type", JsStr "initQuestion");
                       ("roomId", roomId);
                       ("text", prop "text" q);
                       ("options", prop "options" q);
                       ("correctOption", prop "correctOption" q);
                       ("durationMs", prop "durationMs" q)] |}.


(** *** Sample messages *)

Definition init_question : Json :=
  JsObj [("type", JsStr "initQuestion"); ("roomId", JsStr "r1");
         ("correctOption", JsStr "B"); ("durationMs", JsNum 10000)].

Definition submit (sid option : string) : Json :=
  JsObj [("type", JsStr "submitAnswer"); ("studentId", JsStr sid);
         ("option", JsStr option)].

Definition get_summary : Json := JsObj [("type", JsStr "getSummary")].

(** A question is set up and started at time 100; [s1] answers [B] in
    time, [s2] answers [A], and [s3] answers [B] after the deadline. *)
Definition demo_quiz : list (Json * Z) :=
  [ (init_question, 1); (JsObj [("type", JsStr "start")], 100);
    (submit "s1" "B", 200); (submit "s2" "A", 300); (submit "s3" "B", 20000) ].

(** A question whose duration is the text [5000]: it is started at time
    100000 and [s1] answers [B] at time 200000. *)
Definition text_quiz : list (Json * Z) :=
  [ (JsObj [("type", JsStr "initQuestion"); ("roomId", JsStr "r1");
            ("correctOption", JsStr "B"); ("durationMs", JsStr "5000")], 1);
    (JsObj [("type", JsStr "start")], 100000);
    (submit "s1" "B", 200000) ].

Definition quiz_memory : Object :=
  default [] (question_run (JsStr "q1") demo_quiz []).

(** The same question after its summary has been taken at time 30000. *)
Definition ended_memory : Object :=
  default [] (question_run (JsStr "q1") (demo_quiz ++ [(get_summary, 30000)]) []).

Definition join_room : Json :=
  JsObj [("type", JsStr "joinRoom"); ("roomId", JsStr "r1"); ("name", JsStr "Ada")].


(** An [updateScore] whose [scoreDelta] is the text [5]. *)
Definition text_update : Json :=
  JsObj [("type", JsStr "updateScore"); ("roomId", JsStr "r1");
         ("questionId", JsStr "q1"); ("correct", JsBool true);
         ("scoreDelta", JsStr "5")].



(** What the first [joinRoom] of a student leaves and answers. *)
Definition joined_memory : Object :=
  match handleMessage join_room (JsStr "student") (JsStr "s1") 10 [] no_calls with
  | Some (memory, _, _) => memory
  | None => []
  end.

Definition joined_reply : Reply :=
  match handleMessage join_room (JsStr "student") (JsStr "s1") 10 [] no_calls with
  | Some (_, reply, _) => reply
  | None => immediate JsNull
  end.

(** The summary the question of [demo_quiz] gives at time 30000. *)
Definition quiz_summary : Json :=
  match handleMessage get_summary (JsStr "question") (JsStr "q1") 30000 quiz_memory
          no_calls with
  | Some (_, reply, _) => h_result reply
  | None => JsNull
  end.

Definition register_questions : Json :=
  JsObj [("type", JsStr "registerQuestions");
         ("questionIds", JsArr [JsStr "q1"; JsStr "q2"])].

Definition finish_current : Json := JsObj [("type", JsStr "finishCurrentQuestion")].

(** A room with two questions: [s1] and [s2] join, the first question is
    started and finished with the summary of [demo_quiz], the second is
    finished with nobody correct. *)
Definition demo_lesson : list (Json * Z * list Response) :=
  [ (JsObj [("type", JsStr "join"); ("studentId", JsStr "s1"); ("name", JsStr "Ada")], 5,
     [ok_response (JsObj [("ok", JsBool true)]) "student:s1"]);
    (JsObj [("type", JsStr "join"); ("studentId", JsStr "s2")], 6,
     [ok_response (JsObj [("ok", JsBool true)]) "student:s2"]);
    (JsObj [("type", JsStr "startCurrentQuestion")], 100,
     [ok_response (JsObj [("ok", JsBool true)]) "question:q1"]);
    (finish_current, 30000,
     [ok_response quiz_summary "question:q1";
      ok_response (JsObj [("ok", JsBool true)]) "student:s1"]);
    (finish_current, 40000,
     [ok_response (JsObj [("correctStudents", JsArr [])]) "question:q2"]) ].

Definition demo_room : list (Json * Z * list Response) :=
  (register_questions, 1, []) :: demo_lesson.

(** The room of [demo_room] when the first question is about to be
    finished. *)
Definition open_room : Object :=
  match conversation (JsStr "room") (JsStr "r1") (take 4 demo_room) [] with
  | Some (memory, _, _) => memory
  | None => []
  end.

Definition summary_env : Env :=
  {| responses := [ok_response quiz_summary "question:q1";
                   ok_response (JsObj [("ok", JsBool true)]) "student:s1"];
     calls := [] |}.

(** The answers to a room whose question lists a student with the id
    [constructor]. *)
Definition inherited_env : Env :=
  {| responses := [ok_response (JsObj [("correctStudents", JsArr [JsStr "constructor"])])
                               "question:q1";
                   ok_response (JsObj [("ok", JsBool true)]) "student:constructor"];
     calls := [] |}.





End Handlers.

(** * Vocabulary of the properties *)

(** What a suspended task relies on: the key it processes is marked busy,
    and the message whose call it awaits is the head of that key's queue. *)
Definition task_ok (l : ActorMap) (t : Task) : Prop :=
  match t with
  | AwaitInvoke _ k m =>
      exists a, actors_get k l = Some a /\ busy a = true /\ head (queue a) = Some m
  | AwaitPersist _ k => exists a, actors_get k l = Some a /\ busy a = true
  | _ => True
  end.

(** The key [k] is known and marked busy. *)
Definition busy_at (k : string) (l : ActorMap) : Prop :=
  exists a, actors_get k l = Some a /\ busy a = true.

(** The control state of the router: no drain task, or exactly one, with
    the single-flight flag set. *)
Definition control_ok (r : Router) : Prop :=
  tasks r = [] \/
  exists t, tasks r = [t] /\ isDraining r = true /\ task_ok (actors r) t.

(** The events of an admin reset: the request and the two kinds of
    completion it waits for. *)
Definition is_reset (e : Event) : Prop :=
  match e with
  | EvAdminReset _ | EvActorResetDone _ _ | EvDeleteDone _ _ => True
  | _ => False
  end.

(** What an admin reset does that can be observed: it asks an activation
    to reset, it calls [storage.delete], and it answers its caller. *)
Definition reset_obs (o : Obs) : Prop :=
  match o with
  | ObsActorReset _ | ObsDelete _ | ObsReply None _ => True
  | _ => False
  end.

(** A change of the map that no suspended task can notice. *)
Definition unnoticed (l l' : ActorMap) : Prop :=
  forall k a, actors_get k l = Some a ->
    exists a', actors_get k l' = Some a' /\ busy a' = busy a /\
               forall m, head (queue a) = Some m -> head (queue a') = Some m.

(** The message an observation enqueues for, or hands to, the key [k]. *)
Definition enqueue_of (k : string) (o : Obs) : option MsgId :=
  match o with
  | ObsEnqueue k' m => if decide (k' = k) then Some m else None
  | _ => None
  end.

Definition invoke_of (k : string) (o : Obs) : option MsgId :=
  match o with
  | ObsInvoke k' _ _ m => if decide (k' = k) then Some (messageId m) else None
  | _ => None
  end.

(** The messages enqueued for [k], and the messages handed to the
    activation of [k], each in the order it happened. *)
Definition enqueued (k : string) (tr : list Obs) : list MsgId := omap (enqueue_of k) tr.
Definition invoked (k : string) (tr : list Obs) : list MsgId := omap (invoke_of k) tr.

(** [x] occurs in [l] at an earlier position than [y]. *)
Definition before (l : list MsgId) (x y : MsgId) : Prop :=
  exists i j, (i < j)%nat /\ l !! i = Some x /\ l !! j = Some y.

(** The task is suspended in an addressed call for [k]. *)
Definition awaits_invoke (k : string) (t : Task) : bool :=
  match t with
  | AwaitInvoke _ k' _ => bool_decide (k' = k)
  | _ => false
  end.

(** Number of addressed calls for [k] that have not settled yet. *)
Definition in_flight (k : string) (r : Router) : nat :=
  length (filter (fun t => awaits_invoke k t = true) (tasks r)).

(** The identifiers in the queue of [k], head first. *)
Definition qids (k : string) (r : Router) : list MsgId :=
  map messageId (queue_of k r).

(** The bookkeeping behind FIFO delivery: the queue is what is left of the
    enqueue history after a prefix [D] of it has been removed, and nothing
    beyond the head of the queue was ever handed out. *)
Definition fifo (E V Q : list MsgId) (n : nat) : Prop :=
  exists D, E = D ++ Q /\ NoDup E /\ (forall x, x ∈ E -> (x < n)%nat) /\
    (forall x, x ∈ V -> x ∈ D \/ head Q = Some x) /\
    (forall a b, before V b a -> ~ before E a b).

(** [fifo_step k r o r']: going from [r] to [r'] while doing [o] keeps the
    bookkeeping of key [k]. *)
Definition fifo_step (k : string) (r : Router) (o : list Obs) (r' : Router) : Prop :=
  forall E V, fifo E V (qids k r) (nextId r) ->
    fifo (E ++ enqueued k o) (V ++ invoked k o) (qids k r') (nextId r').

(** An observation that neither enqueues nor hands out a message. *)
Definition quiet (o : Obs) : Prop :=
  match o with
  | ObsEnqueue _ _ | ObsInvoke _ _ _ _ => False
  | _ => True
  end.

(** Keys are unique, every state sits under its own key, and no queue is
    longer than its policy allows. *)
Definition actors_wf (l : ActorMap) : Prop :=
  NoDup (map fst l) /\
  forall k a, actors_get k l = Some a ->
    actorKey a = k /\ Z.of_nat (length (queue a)) <= queueLimit (policy a).

(** The state and the trace after a list of events from the initial state
    (the initial state again if some event could not happen). *)
Definition after (es : list (Z * Event)) : Router * list Obs :=
  default (init, []) (run es init []).

Definition text_payload (s : string) : Payload := {| p_truthy := true; p_json := s |}.

Definition route_body (ty id : string) (p : Payload) : option RouteBody :=
  Some {| body_actorType := JString ty; body_actorId := JString id; body_payload := p |}.

(** Three submissions for [room:r1]; the first one is answered in between. *)
Definition demo_fifo : list (Z * Event) :=
  [ (1, EvRoute (route_body "room" "r1" (text_payload "1")));
    (2, EvRoute (route_body "room" "r1" (text_payload "2")));
    (3, EvInvokeDone 0 (RespOk None));
    (4, EvRoute (route_body "room" "r1" (text_payload "3"))) ].

Definition queue_full_reply : Obs :=
  ObsReply None (json_response 429 (RouteFailed "Queue is full")).

Definition payload_too_large_reply : Obs :=
  ObsReply None (json_response 413 (RouteFailed "Payload too large")).

Definition body_key (b : RouteBody) : string :=
  make_key (body_actorType b) (body_actorId b).

(** A payload longer than the default [maxPayloadBytes]. *)
Fixpoint pad (n : nat) : string :=
  match n with
  | O => ""
  | S n' => "x" +:+ pad n'
  end.

Definition oversize : Payload := text_payload (pad (Z.to_nat 65537)).

(** A hundred submissions for [room:r1] while the first one is being
    processed. *)
Definition full_queue : list (Z * Event) :=
  replicate 100 (1, EvRoute (route_body "room" "r1" (text_payload "1"))).

(** If the observation is a write of a snapshot, the snapshot says busy. *)
Definition put_busy (o : Obs) : Prop :=
  match o with
  | ObsPut _ meta => meta_busy meta = true
  | _ => True
  end.

(** One message for [room:r1], answered with the default envelope. *)
Definition demo_persist : list (Z * Event) :=
  [ (1, EvRoute (route_body "room" "r1" (text_payload "1")));
    (2, EvInvokeDone 0 (RespOk None));
    (3, EvPersistDone 0 true);
    (4, EvResume 0);
    (5, EvSettled 0) ].

(** The calls an admin reset makes for the keys [all], in order, and
    everything a reset over [all] does when it gets to its response. *)
Definition reset_calls (all : list string) : list Obs :=
  flat_map (fun key => [ObsActorReset (slice 5 key); ObsDelete key]) all.

Definition reset_trace (all : list string) : list Obs :=
  reset_calls all ++ [ObsReply None (json_response 200 (ResetBody all))].

(** The admin reset an event belongs to: a request opens the next call, a
    completion names its call. *)
Definition call_of (e : Event) (r : Router) : option nat :=
  match e with
  | EvAdminReset _ => Some (length (resets r))
  | EvActorResetDone c _ | EvDeleteDone c _ => Some c
  | _ => None
  end.

(** What reset call [c] does while the events [es] are processed, whatever
    else they make the router do. *)
Fixpoint call_log (c : nat) (es : list (Z * Event)) (r : Router) : list Obs :=
  match es with
  | [] => []
  | (now, e) :: es' =>
      match step now e r with
      | Some (r', o) =>
          (if decide (call_of e r = Some c) then o else []) ++ call_log c es' r'
      | None => []
      end
  end.

(** Every call reset [c] awaits for the keys [all] resolves, one after the
    other and with nothing in between. *)
Definition resolve_all (c : nat) (all : list string) : list (Z * Event) :=
  flat_map (fun _ => [(0, EvActorResetDone c true); (0, EvDeleteDone c true)]) all.

(** A log that fits a reset over [cleared]: it is the beginning of its
    trace, and all of it once the response is there. *)
Definition log_fits (cleared : list string) (log : list Obs) : Prop :=
  log `prefix_of` reset_trace cleared /\
  forall resp, ObsReply None resp ∈ log -> log = reset_trace cleared.

(** What a suspended reset over [cleared] has done so far. *)
Definition log_ok (cleared : list string) (task : ResetTask) (log : list Obs) : Prop :=
  match task with
  | AwaitActorReset all rest =>
      all = cleared /\
      exists over key rest', rest = key :: rest' /\ cleared = over ++ rest /\
        log = reset_calls over ++ [ObsActorReset (slice 5 key)]
  | AwaitDelete all rest =>
      all = cleared /\
      exists over key rest', rest = key :: rest' /\ cleared = over ++ rest /\
        log = reset_calls over ++ [ObsActorReset (slice 5 key); ObsDelete key]
  | ResetOver => log_fits cleared log
  end.

(** One message for [room:r1] is processed, then [room:] is reset and
    both awaited calls of the reset resolve. *)
Definition reset_rooms : list (Z * Event) :=
  demo_persist ++
  [ (6, EvAdminReset (Some "room:"));
    (7, EvActorResetDone 0 true);
    (8, EvDeleteDone 0 true) ].

(** What can happen while that reset is suspended: a second message for
    [room:r1] arrives and is answered, and the write of its metadata
    resolves after the delete of the reset. *)
Definition reset_rooms_disturbed : list (Z * Event) :=
  [ (7, EvRoute (route_body "room" "r1" (text_payload "2")));
    (8, EvActorResetDone 0 true);
    (9, EvInvokeDone 0 (RespOk None));
    (10, EvDeleteDone 0 true);
    (11, EvPersistDone 0 true) ].

(** The table only loses entries and no identifier is issued. *)
Definition shrinks (r r' : Router) : Prop :=
  nextId r' = nextId r /\ pendingResults r' ⊆ pendingResults r.

(** Every reply in [o] answers a caller that was waiting in [P]. *)
Definition replies_to (P : gset MsgId) (o : list Obs) : Prop :=
  forall x resp, ObsReply (Some x) resp ∈ o -> x ∈ P.

Definition rejecting (res : InvokeResult) : bool :=
  match res with
  | RespOk body =>
      negb (String.eqb (env_mode body) "wait") && String.eqb (env_mode body) "reject"
  | _ => false
  end.

Definition spawned (res : InvokeResult) : list string :=
  match res with
  | RespOk body => env_spawn body
  | _ => []
  end.

(** *** Delivery

    The activation answers the call for a message [m] with [answer m].  An
    answer is served when the call does not throw and does not ask for the
    rest of the queue to be rejected. *)
Definition served (res : InvokeResult) : Prop :=
  res <> FetchThrows /\ rejecting res = false.

(** What the drain task of [r] waits for comes: the call is answered, the
    write resolves, the loop resumes, the [.finally] callback runs. *)
Definition completion (answer : Message -> InvokeResult) (r : Router) : option Event :=
  match tasks r with
  | AwaitInvoke _ _ m :: _ => Some (EvInvokeDone 0 (answer m))
  | AwaitPersist _ _ :: _ => Some (EvPersistDone 0 true)
  | AwaitProcess _ :: _ => Some (EvResume 0)
  | Settled :: _ => Some (EvSettled 0)
  | [] => None
  end.

(** The router is left to itself for at most [fuel] steps: nothing
    arrives, and what it waits for comes. *)
Fixpoint drain (answer : Message -> InvokeResult) (fuel : nat) (now : Z)
    (r : Router) (tr : list Obs) : Router * list Obs :=
  match fuel with
  | O => (r, tr)
  | S fuel' =>
      match completion answer r with
      | None => (r, tr)
      | Some e =>
          match step now e r with
          | Some (r', o) => drain answer fuel' now r' (tr ++ o)
          | None => (r, tr)
          end
      end
  end.

(** The messages of [k] that have not been handed to its activation yet:
    its queue, without the head when the call for the head is in flight. *)
Definition backlog (k : string) (r : Router) : list MsgId :=
  match tasks r with
  | AwaitInvoke _ k' _ :: _ => if decide (k' = k) then tail (qids k r) else qids k r
  | _ => qids k r
  end.

(** How many steps the router needs at most to get through its queues:
    four for every queued message, and what the current task still needs
    before the next call. *)
Definition queued (l : ActorMap) : nat :=
  sum_list (map (fun kv => length (queue kv.2)) l).

Definition rank (t : Task) : nat :=
  match t with
  | AwaitInvoke _ _ _ => 1
  | Settled => 2
  | AwaitProcess _ => 3
  | AwaitPersist _ _ => 4
  end.

Definition effort (r : Router) : nat :=
  4 * queued (actors r) + match tasks r with t :: _ => rank t | [] => 0 end.


(** One submission for [room:r1] whose call has not answered yet. *)
Definition demo_waiting : list (Z * Event) :=
  [ (1, EvRoute (route_body "room" "r1" (text_payload "1"))) ].

Definition validation_reply : Obs :=
  ObsReply None (json_response 400 (Text "actorType and actorId are required")).

(** A request body without [actorType]. *)
Definition anonymous_body : RouteBody :=
  {| body_actorType := JUndefined; body_actorId := JString "a1";
     body_payload := text_payload "1" |}.

(** Which actors [handleStatus] lets through its prefix filter. *)
Definition listed (actorTypePrefix : string) (a : ActorQueueState) : Prop :=
  actorTypePrefix = "" \/ String.prefix actorTypePrefix (actorKey a) = true.

(** The entry [handleStatus] reports for a live actor state. *)
Definition reports (e : StatusEntry) (a : ActorQueueState) : Prop :=
  st_busy e = busy a /\ st_queueLength e = length (queue a) /\
  st_policy e = Some (policy a) /\ fromMemory e = true.

(** A first submission for [room:r9] with a payload that is too large. *)
Definition oversize_body : RouteBody :=
  {| body_actorType := JString "room"; body_actorId := JString "r9";
     body_payload := oversize |}.

(** [teacher:t1] answers its first message with [spawn: ["q1"]]; the drain
    cycle then runs to its end. *)
Definition demo_spawn : list (Z * Event) :=
  [ (1, EvRoute (route_body "teacher" "t1" (text_payload "1")));
    (2, EvInvokeDone 0 (RespOk (Some {| result := None; nextPolicy := None;
                                        spawn := Some ["q1"] |})));
    (3, EvPersistDone 0 true);
    (4, EvResume 0);
    (5, EvSettled 0) ].



Definition demo_reject : list (Z * Event) :=
  [ (1, EvRoute (route_body "room" "r1" (text_payload "1")));
    (2, EvRoute (route_body "room" "r1" (text_payload "2")));
    (3, EvRoute (route_body "room" "r1" (text_payload "3"))) ].

(** Number of reads of the durable record among the store operations. *)
Definition loads (ops : list Actor.StoreOp) : nat :=
  length (List.filter Actor.is_get ops).

(** Handlers that count the messages of an actor in its memory. *)
Definition counting_handler : Actor.Handler :=
  fun _ _ m =>
    (<["count" := Actor.VNum (match m !! "count" with
                              | Some (Actor.VNum n) => n + 1
                              | _ => 1
                              end)]> m,
     Some {| Actor.out_result := Actor.Handled None; Actor.out_nextPolicy := None;
             Actor.out_spawn := None |}).

Definition counting_handlers : Actor.Handlers :=
  {| Actor.handleTeacherMessage := counting_handler;
     Actor.handleRoomMessage := counting_handler;
     Actor.handleStudentMessage := counting_handler;
     Actor.handleQuestionMessage := counting_handler |}.

Definition first_invoke : Actor.Request :=
  Actor.Invoke (text_payload "1") (JString "room") (JString "r1") 7.

(** The change from [l] to [l'] keeps every key at its position. *)
Definition keeps_positions (l l' : ActorMap) : Prop :=
  forall i k a, l !! i = Some (k, a) -> exists a', l' !! i = Some (k, a').

(** The iterator of a task at [it] has handed out the entry of its key
    last: the key the task processes sits at position [it - 1]. *)
Definition task_at (l : ActorMap) (t : Task) : Prop :=
  match t with
  | AwaitInvoke it k _ | AwaitPersist it k =>
      exists i a, it = S i /\ l !! i = Some (k, a)
  | _ => True
  end.

(** The key [k] sits at a position an iterator at [it] has passed. *)
Definition beyond (k : string) (it : nat) (l : ActorMap) : Prop :=
  exists i a, (i < it)%nat /\ l !! i = Some (k, a).

(** A drain cycle is running whose iterator has passed [k] and which is
    not waiting for a call for [k]. *)
Definition past (k : string) (r : Router) : Prop :=
  exists t, tasks r = [t] /\
    match t with
    | AwaitInvoke it k' _ => k' <> k /\ beyond k it (actors r)
    | AwaitPersist it _ | AwaitProcess it => beyond k it (actors r)
    | Settled => True
    end.

(** No [.finally] callback of a drain cycle runs among the events. *)
Definition same_cycle (es : list (Z * Event)) : Prop :=
  forall now t, (now, EvSettled t) ∉ es.

(** The task is suspended inside [processActorQueue] for the key [k]. *)
Definition works_on (k : string) (t : Task) : Prop :=
  match t with
  | AwaitInvoke _ k' _ | AwaitPersist _ k' => k' = k
  | _ => False
  end.

(** Every busy flag is held by the one task inside [processActorQueue] for
    that key, and a router whose drain flag is down has no idle key with a
    message in its queue. *)
Definition owned (r : Router) : Prop :=
  (forall k a, actors_get k (actors r) = Some a -> busy a = true ->
     exists t, tasks r = [t] /\ works_on k t) /\
  (isDraining r = false -> hasPendingWork r = false).

(** The route call an observation answers, and the message it accepts. *)
Definition reply_of (o : Obs) : option MsgId :=
  match o with
  | ObsReply (Some m) _ => Some m
  | _ => None
  end.

Definition accept_of (o : Obs) : option MsgId :=
  match o with
  | ObsEnqueue _ m => Some m
  | _ => None
  end.

Definition replied (tr : list Obs) : list MsgId := omap reply_of tr.
Definition accepted (tr : list Obs) : list MsgId := omap accept_of tr.

(** Doing [o] takes the table from [P] to [P']: every reply goes to a caller
    in the table, no caller gets two, and the callers answered leave. *)
Definition accounts (P : gset MsgId) (o : list Obs) (P' : gset MsgId) : Prop :=
  NoDup (replied o) /\ (forall m, m ∈ replied o -> m ∈ P) /\
  P' = P ∖ list_to_set (replied o).

(** Observations of the drain machinery: no reply, no submission. *)
Definition silent (o : list Obs) : Prop := replied o = [] /\ accepted o = [].

(** The books of the router: which submissions it has accepted, which of
    them it has answered, and who is still waiting. *)
Definition balanced (r : Router) (tr : list Obs) : Prop :=
  NoDup (accepted tr) /\ NoDup (replied tr) /\
  (forall m, m ∈ accepted tr -> (m < nextId r)%nat) /\
  (forall m, m ∈ replied tr -> m ∈ accepted tr) /\
  (forall m, m ∈ pendingResults r <-> m ∈ accepted tr /\ m ∉ replied tr).

(** What an entry of the status map under the key [k] has to say, given
    the prefix [p] of the query, the store and the live states. *)
Definition entry_ok (p : string) (r : Router) (k : string) (e : StatusEntry) : Prop :=
  st_actorKey e = k /\ String.prefix p k = true /\
  (fromStorage e = true \/ fromMemory e = true) /\
  (fromStorage e = true -> exists meta, ("meta:" +:+ k, meta) ∈ storage r) /\
  (fromMemory e = false ->
     exists meta, ("meta:" +:+ k, meta) ∈ storage r /\
       e = snd (status_of_meta ("meta:" +:+ k) meta)) /\
  (fromMemory e = true ->
     exists a, a ∈ map snd (actors r) /\ actorKey a = k /\ reports e a).

(** Every state sits under the key built from its own type and id. *)
Definition keyed (l : ActorMap) : Prop :=
  forall k a, actors_get k l = Some a -> k = make_key (actorType a) (actorId a).

(** Every call in [o] goes to the activation named after the type and the
    id it carries, and those are the ones of a state in [l]. *)
Definition addressed (o : list Obs) (l : ActorMap) : Prop :=
  forall k ty id m, ObsInvoke k ty id m ∈ o ->
    exists a, actors_get k l = Some a /\ ty = actorType a /\ id = actorId a.

(** The text has no colon. *)
Fixpoint colon_free (s : string) : bool :=
  match s with
  | EmptyString => true
  | String c s' => negb (String.eqb (String c "") ":") && colon_free s'
  end.

(** None of the four actor types [handleMessage] knows. *)
Definition unknown_type (ty : JsField) : Prop :=
  ty <> JString "teacher" /\ ty <> JString "room" /\
  ty <> JString "student" /\ ty <> JString "question".

(** A handler that notes the message count in the memory and then throws. *)
Definition failing_handler : Actor.Handler :=
  fun p ctx m => ((counting_handler p ctx m).1, None).

Definition failing_handlers : Actor.Handlers :=
  {| Actor.handleTeacherMessage := failing_handler;
     Actor.handleRoomMessage := failing_handler;
     Actor.handleStudentMessage := failing_handler;
     Actor.handleQuestionMessage := failing_handler |}.

(** The message of [demo_waiting], [demo_fifo] and [demo_reject] that is
    handed out first. *)
Definition first_message : Message :=
  {| messageId := 0%nat; payload := text_payload "1"; enqueuedAt := 1 |}.

(** The state of [room:r1] in [demo_reject]: three messages, the first one
    with its call in flight. *)
Definition three_queued : ActorQueueState :=
  {| actorKey := "room:r1"; actorType := JString "room"; actorId := JString "r1";
     busy := true;
     queue := [ first_message;
                {| messageId := 1%nat; payload := text_payload "2"; enqueuedAt := 2 |};
                {| messageId := 2%nat; payload := text_payload "3"; enqueuedAt := 3 |} ];
     policy := default_policy |}.

Definition wait_envelope : option Envelope :=
  Some {| result := None;
          nextPolicy := Some {| mode := "wait"; redirectTo := None |};
          spawn := None |}.

(** [GET /router-status?actorType=room] and [POST /reset-router] with
    [{ actorType: "room" }]. *)
Definition router_status_request : HttpRequest :=
  {| req_path := "/router-status"; req_method := "GET";
     req_query := [("actorType", "room")]; req_json := None |}.

Definition reset_router_request : HttpRequest :=
  {| req_path := "/reset-router"; req_method := "POST"; req_query := [];
     req_json := Some {| body_actorType := JString "room"; body_actorId := JUndefined;
                         body_payload := no_payload |} |}.

(** * Properties of the router *)

(** ** The [actors] map *)

Lemma actors_get_update k k' f l :
  actors_get k' (actors_update k f l) =
  if decide (k' = k) then f <$> actors_get k l else actors_get k' l.
Proof.
  induction l as [|[k0 a0] l IH]; simpl.
  - by case_decide.
  - destruct (decide (k = k0)), (decide (k' = k)); simpl;
      destruct (decide (k' = k0)); subst; try congruence;
      rewrite IH; case_decide; congruence.
Qed.

Lemma actors_get_set k k' a l :
  actors_get k' (actors_set k a l) =
  if decide (k' = k) then Some a else actors_get k' l.
Proof.
  induction l as [|[k0 a0] l IH]; simpl.
  - repeat case_decide; congruence.
  - destruct (decide (k = k0)), (decide (k' = k)); simpl;
      destruct (decide (k' = k0)); subst; try congruence;
      rewrite IH; case_decide; congruence.
Qed.

Lemma actors_update_ext k f g l :
  (forall a, f a = g a) -> actors_update k f l = actors_update k g l.
Proof.
  intros E. induction l as [|[k0 a0] l IH]; simpl; auto.
  case_decide; congruence.
Qed.

Lemma actors_update_update k f g l :
  actors_update k f (actors_update k g l) = actors_update k (fun a => f (g a)) l.
Proof.
  induction l as [|[k0 a0] l IH]; simpl; auto.
  case_decide; simpl; case_decide; congruence.
Qed.

Lemma actors_update_none k f l :
  actors_get k l = None -> actors_update k f l = l.
Proof.
  induction l as [|[k0 a0] l IH]; simpl; auto.
  case_decide; [discriminate|]. intros E. by rewrite IH.
Qed.

Lemma actors_set_none k a l :
  actors_get k l = None -> actors_set k a l = l ++ [(k, a)].
Proof.
  induction l as [|[k0 a0] l IH]; simpl; auto.
  case_decide; [discriminate|]. intros E. by rewrite IH.
Qed.

Lemma spawn_child_get p l c k :
  actors_get k (spawn_child p l c) =
  match actors_get k l with
  | Some a => Some a
  | None =>
      if decide (k = make_key (actorType p) (JString c))
      then Some (fresh_actor k (actorType p) (JString c) (policy p))
      else None
  end.
Proof.
  unfold spawn_child.
  destruct (actors_get (make_key _ _) l) eqn:E.
  - destruct (actors_get k l) eqn:E'; auto. case_decide; congruence.
  - rewrite actors_get_set. case_decide; subst.
    + by rewrite E.
    + by destruct (actors_get k l).
Qed.

Lemma spawn_fold_get_some p cs : forall l k a,
  actors_get k l = Some a -> actors_get k (foldl (spawn_child p) l cs) = Some a.
Proof.
  induction cs as [|c cs IH]; simpl; auto.
  intros l k a H. apply IH. by rewrite spawn_child_get, H.
Qed.

Lemma spawn_fold_get p cs : forall l k a,
  actors_get k (foldl (spawn_child p) l cs) = Some a ->
  actors_get k l = Some a \/
  (actors_get k l = None /\ exists c, c ∈ cs /\
     k = make_key (actorType p) (JString c) /\
     a = fresh_actor k (actorType p) (JString c) (policy p)).
Proof.
  induction cs as [|c cs IH]; simpl; auto.
  intros l k a H. apply IH in H as [H|(H & c' & Hc & -> & ->)].
  - rewrite spawn_child_get in H. destruct (actors_get k l) eqn:E; auto.
    case_decide; [|discriminate]. inversion H; subst. right. split; auto.
    exists c. split; [constructor|auto].
  - rewrite spawn_child_get in H. destruct (actors_get _ l) eqn:E; [discriminate|].
    right. split; auto. exists c'. split; [by constructor|auto].
Qed.

(** ** Which fields the operations leave alone *)

Lemma settle_fields m resp r r' o :
  settle m resp r = (r', o) ->
  actors r' = actors r /\ tasks r' = tasks r /\ isDraining r' = isDraining r /\
  storage r' = storage r /\ nextId r' = nextId r /\
  pendingResults r' = pendingResults r ∖ {[m]}.
Proof.
  unfold settle. case_decide; intros [= <- <-]; simpl; repeat split; auto.
  set_solver.
Qed.

Lemma resetLoop_obs all rest t o : resetLoop all rest = (t, o) -> Forall reset_obs o.
Proof.
  unfold resetLoop. destruct rest; intros [= <- <-]; by repeat constructor.
Qed.

(** An admin reset touches the store and its own bookkeeping only. *)
Lemma reset_fields now e r r' o :
  is_reset e -> step now e r = Some (r', o) ->
  actors r' = actors r /\ tasks r' = tasks r /\ isDraining r' = isDraining r /\
  nextId r' = nextId r /\ pendingResults r' = pendingResults r /\
  puts r' = puts r /\ Forall reset_obs o.
Proof.
  destruct e as [| |?|p|?|? ?|? ?|?|?|c ok|c ok]; try done; intros _; simpl.
  - unfold adminReset. destruct (resetLoop _ _) as [t o1] eqn:L.
    intros [= <- <-]. simpl. repeat (split; [done|]). by eapply resetLoop_obs.
  - destruct (resets r !! c) as [[all rest| |]|]; try done.
    unfold afterActorReset. destruct rest as [|key rest]; [|destruct ok];
      intros [= <- <-]; simpl; repeat (split; [done|]); by repeat constructor.
  - destruct (resets r !! c) as [[|all rest|]|]; try done.
    unfold afterDelete. destruct rest as [|key rest]; [|destruct ok].
    + intros [= <- <-]. simpl. repeat (split; [done|]). constructor.
    + destruct (resetLoop _ _) as [t o1] eqn:L. intros [= <- <-]. simpl.
      repeat (split; [done|]). by eapply resetLoop_obs.
    + intros [= <- <-]. simpl. repeat (split; [done|]). constructor.
Qed.

Lemma putSettles_fields k ok r :
  actors (putSettles k ok r) = actors r /\ tasks (putSettles k ok r) = tasks r /\
  isDraining (putSettles k ok r) = isDraining r /\
  nextId (putSettles k ok r) = nextId r /\
  pendingResults (putSettles k ok r) = pendingResults r /\
  resets (putSettles k ok r) = resets r.
Proof.
  unfold putSettles, settle_put. repeat case_match; simpl; auto 10.
Qed.

Lemma putSettles_actors k ok r : actors (putSettles k ok r) = actors r.
Proof. apply putSettles_fields. Qed.

Lemma putSettles_tasks k ok r : tasks (putSettles k ok r) = tasks r.
Proof. apply putSettles_fields. Qed.

Lemma putSettles_isDraining k ok r : isDraining (putSettles k ok r) = isDraining r.
Proof. apply putSettles_fields. Qed.

Lemma putSettles_nextId k ok r : nextId (putSettles k ok r) = nextId r.
Proof. apply putSettles_fields. Qed.

Lemma putSettles_pendingResults k ok r :
  pendingResults (putSettles k ok r) = pendingResults r.
Proof. apply putSettles_fields. Qed.

Lemma putSettles_resets k ok r : resets (putSettles k ok r) = resets r.
Proof. apply putSettles_fields. Qed.

Ltac put_settled :=
  rewrite ?putSettles_actors, ?putSettles_tasks, ?putSettles_isDraining,
    ?putSettles_nextId, ?putSettles_pendingResults, ?putSettles_resets.

Lemma persistActorState_fields now it k r r' t o :
  persistActorState now it k r = (r', t, o) ->
  actors r' = actors r /\ tasks r' = tasks r /\ isDraining r' = isDraining r /\
  nextId r' = nextId r /\ pendingResults r' = pendingResults r /\
  t = AwaitPersist it k.
Proof.
  unfold persistActorState. case_match; intros [= <- <- <-]; simpl; auto 10.
Qed.

Lemma processLoop_fields now it k r r' t o :
  processLoop now it k r = (r', t, o) ->
  actors r' = actors r /\ tasks r' = tasks r /\ isDraining r' = isDraining r /\
  nextId r' = nextId r /\ pendingResults r' = pendingResults r.
Proof.
  unfold processLoop. repeat case_match; try (intros [= <- <- <-]; simpl; by auto 10).
  intros H'. apply persistActorState_fields in H'. tauto.
Qed.

Lemma processActorQueue_fields now it k r r' t o :
  processActorQueue now it k r = (r', t, o) ->
  (actors r' = actors r \/ actors r' = actors_update k (with_busy true) (actors r)) /\
  tasks r' = tasks r /\ isDraining r' = isDraining r /\
  nextId r' = nextId r /\ pendingResults r' = pendingResults r.
Proof.
  unfold processActorQueue. repeat case_match; try (intros [= <- <- <-]; simpl; by auto 10).
  intros H'. apply processLoop_fields in H'. simpl in H'.
  destruct H' as (-> & -> & -> & -> & ->). auto 10.
Qed.

Lemma drainLoop_from_fields now entries : forall it r r' t o,
  drainLoop_from now it entries r = (r', t, o) ->
  (actors r' = actors r \/
   exists k, actors r' = actors_update k (with_busy true) (actors r)) /\
  tasks r' = tasks r /\ isDraining r' = isDraining r /\
  nextId r' = nextId r /\ pendingResults r' = pendingResults r.
Proof.
  induction entries as [|[k a] rest IH]; simpl; intros it r r' t o.
  - intros [= <- <- <-]. auto 10.
  - repeat case_match; eauto.
    intros H'. apply processActorQueue_fields in H'.
    destruct H' as ([->| ->] & -> & -> & -> & ->); eauto 10.
Qed.

Lemma rejectRemaining_fields k q : forall r r' o,
  rejectRemaining k q r = (r', o) ->
  actors r' = match q with [] => actors r | _ => actors_update k (with_queue []) (actors r) end /\
  tasks r' = tasks r /\ isDraining r' = isDraining r /\
  storage r' = storage r /\ nextId r' = nextId r /\
  pendingResults r' = pendingResults r ∖ list_to_set (map messageId q).
Proof.
  induction q as [|m q IH]; simpl; intros r r' o.
  - intros [= <- <-]. repeat split; auto. set_solver.
  - destruct (settle _ _ _) as [r2 o2] eqn:E2.
    destruct (rejectRemaining k q r2) as [r3 o3] eqn:E3.
    intros [= <- <-]. apply settle_fields in E2. apply IH in E3.
    simpl in E2. destruct E2 as (A2 & T2 & D2 & S2 & N2 & P2).
    destruct E3 as (A3 & -> & -> & -> & -> & ->).
    repeat split; auto.
    + rewrite A3, A2. destruct q; auto.
      rewrite actors_update_update. by apply actors_update_ext.
    + rewrite P2. set_solver.
Qed.

(** ** One drain task at a time, working on the head of a busy key *)

Lemma task_ok_unnoticed l l' t : unnoticed l l' -> task_ok l t -> task_ok l' t.
Proof.
  intros U. destruct t as [it k m|it k|it|]; simpl; auto.
  - intros (a & G & B & Hd). destruct (U _ _ G) as (a' & G' & B' & H').
    exists a'. split; [|split]; auto; congruence.
  - intros (a & G & B). destruct (U _ _ G) as (a' & G' & B' & H').
    exists a'. split; auto; congruence.
Qed.

Lemma unnoticed_refl l : unnoticed l l.
Proof. intros k a G. eauto. Qed.

Lemma lookup_or_create_spec b r r1 a :
  lookup_or_create b r = (r1, a) ->
  let k := make_key (body_actorType b) (body_actorId b) in
  actors_get k (actors r1) = Some a /\
  tasks r1 = tasks r /\ isDraining r1 = isDraining r /\ nextId r1 = nextId r /\
  pendingResults r1 = pendingResults r /\ storage r1 = storage r /\
  ((actors r1 = actors r /\ actors_get k (actors r) = Some a) \/
   (actors_get k (actors r) = None /\
    a = fresh_actor k (body_actorType b) (body_actorId b) default_policy /\
    actors r1 = actors r ++ [(k, a)])).
Proof.
  unfold lookup_or_create. simpl.
  destruct (actors_get _ (actors r)) eqn:E; intros [= <- <-]; simpl.
  - auto 10.
  - rewrite actors_get_set. case_decide; [|congruence].
    repeat split; auto. right. repeat split; auto. by apply actors_set_none.
Qed.

Lemma actors_get_app_fresh k k' a l :
  actors_get k l = None ->
  actors_get k' (l ++ [(k, a)]) = if decide (k' = k) then Some a else actors_get k' l.
Proof. intros E. by rewrite <- (actors_set_none _ _ _ E), actors_get_set. Qed.

Lemma lookup_or_create_unnoticed b r r1 a :
  lookup_or_create b r = (r1, a) -> unnoticed (actors r) (actors r1).
Proof.
  intros H. apply lookup_or_create_spec in H. simpl in H.
  destruct H as (_ & _ & _ & _ & _ & _ & [[-> _]|(E & _ & ->)]).
  - apply unnoticed_refl.
  - intros k a' G. exists a'. rewrite actors_get_app_fresh by done.
    case_decide; [congruence|auto].
Qed.

Lemma enqueue_unnoticed k m r : unnoticed (actors r) (actors (enqueue k m r)).
Proof.
  intros k' a G. simpl. rewrite actors_get_update. case_decide; subst.
  - rewrite G. simpl. eexists. split; [reflexivity|]. simpl. split; auto.
    intros m'. by destruct (queue a).
  - eauto.
Qed.

Lemma persistActorState_task_ok now it k r r' t o :
  busy_at k (actors r) -> persistActorState now it k r = (r', t, o) ->
  task_ok (actors r') t.
Proof.
  intros B H. apply persistActorState_fields in H as (-> & _ & _ & _ & _ & ->).
  exact B.
Qed.

Lemma processLoop_task_ok now it k r r' t o :
  busy_at k (actors r) -> processLoop now it k r = (r', t, o) ->
  task_ok (actors r') t.
Proof.
  intros B. unfold processLoop.
  destruct (actors_get k (actors r)) as [a|] eqn:G.
  - destruct (queue a) as [|m q] eqn:Q.
    + by apply persistActorState_task_ok.
    + intros [= <- <- <-]. simpl. destruct B as (a' & G' & B').
      exists a. rewrite Q. split; [|split]; auto. congruence.
  - by intros [= <- <- <-].
Qed.

Lemma processActorQueue_task_ok now it k r r' t o :
  processActorQueue now it k r = (r', t, o) -> task_ok (actors r') t.
Proof.
  unfold processActorQueue.
  destruct (actors_get k (actors r)) as [a|] eqn:G; [|by intros [= <- <- <-]].
  destruct (busy a); [by intros [= <- <- <-]|].
  apply processLoop_task_ok. exists (with_busy true a). simpl.
  rewrite actors_get_update. case_decide; [|done]. by rewrite G.
Qed.

Lemma drainLoop_from_task_ok now entries : forall it r r' t o,
  drainLoop_from now it entries r = (r', t, o) -> task_ok (actors r') t.
Proof.
  induction entries as [|[k a] rest IH]; simpl; intros it r r' t o.
  - by intros [= <- <- <-].
  - repeat case_match; eauto using processActorQueue_task_ok.
Qed.

Lemma busy_at_update k f l :
  (forall a, busy (f a) = busy a) -> busy_at k l -> busy_at k (actors_update k f l).
Proof.
  intros Hf (a & G & B). exists (f a). rewrite actors_get_update.
  case_decide; [|done]. rewrite G. split; auto. by rewrite Hf.
Qed.

Lemma afterInvoke_task_ok now it k m res r r' t o :
  busy_at k (actors r) -> afterInvoke now it k m res r = (r', t, o) ->
  task_ok (actors r') t.
Proof.
  intros B. unfold afterInvoke. destruct res as [|st|body].
  - by intros [= <- <- <-].
  - destruct (settle _ _ r) as [r1 o1] eqn:E1.
    destruct (persistActorState _ _ _ _) as [[r3 t3] o3] eqn:E3.
    intros [= <- <- <-]. apply settle_fields in E1 as (A1 & _).
    eapply persistActorState_task_ok; [|exact E3]. simpl. rewrite A1.
    by apply busy_at_update.
  - destruct (actors_get k (actors r)) as [a|] eqn:G; [|by intros [= <- <- <-]].
    destruct (settle _ _ _) as [r2 o2] eqn:E2.
    apply settle_fields in E2 as (A2 & _). simpl in A2.
    assert (B3 : busy_at k (actors (shift k r2))).
    { simpl. rewrite A2. apply busy_at_update; [done|].
      destruct B as (a' & G' & B'). exists a'. split; auto.
      by apply spawn_fold_get_some. }
    repeat case_match; intros [= <- <- <-].
    + eapply persistActorState_task_ok; eauto.
    + eapply persistActorState_task_ok; [|eauto].
      match goal with H : rejectRemaining _ _ _ = _ |- _ =>
        apply rejectRemaining_fields in H as (-> & _) end.
      case_match; auto. by apply busy_at_update.
    + eapply processLoop_task_ok; eauto.
Qed.

Lemma control_ok_idle r : control_ok r -> isDraining r = false -> tasks r = [].
Proof. intros [H|(t & _ & D & _)] F; [done|congruence]. Qed.

Lemma control_ok_unnoticed r r' :
  control_ok r -> tasks r' = tasks r -> isDraining r' = isDraining r ->
  unnoticed (actors r) (actors r') -> control_ok r'.
Proof.
  intros [H|(t & T & D & O)] ET ED U; [left; congruence|].
  right. exists t. repeat split; try congruence. eauto using task_ok_unnoticed.
Qed.

Lemma control_ok_same r r' :
  control_ok r -> tasks r' = tasks r -> isDraining r' = isDraining r ->
  actors r' = actors r -> control_ok r'.
Proof.
  intros C T D A. eapply control_ok_unnoticed; eauto. rewrite A. apply unnoticed_refl.
Qed.

Lemma triggerDraining_control now r r' o :
  control_ok r -> triggerDraining now r = (r', o) -> control_ok r'.
Proof.
  intros C. unfold triggerDraining. destruct (isDraining r) eqn:D.
  - by intros [= <- <-].
  - apply control_ok_idle in C; [|done].
    destruct (drainLoop _ _ _) as [[r1 t] o1] eqn:E. intros [= <- <-].
    unfold drainLoop in E. pose proof (drainLoop_from_task_ok _ _ _ _ _ _ _ E) as O.
    apply drainLoop_from_fields in E as (_ & T & D' & _). simpl in *.
    right. exists t. simpl. rewrite T, C, D'. auto.
Qed.

Lemma drainFinally_control now r r' o :
  tasks r = [] -> drainFinally now r = (r', o) -> control_ok r'.
Proof.
  intros T. unfold drainFinally. case_match.
  - apply triggerDraining_control. by left.
  - intros [= <- <-]. by left.
Qed.

Lemma handleRoute_control now body r r' o :
  control_ok r -> handleRoute now body r = (r', o) -> control_ok r'.
Proof.
  intros C. unfold handleRoute. destruct body as [b|]; [|by intros [= <- <-]].
  destruct (lookup_or_create b r) as [r1 a] eqn:L.
  pose proof (lookup_or_create_unnoticed _ _ _ _ L) as U.
  apply lookup_or_create_spec in L as (_ & T & D & _).
  assert (C1 : control_ok r1) by eauto using control_ok_unnoticed.
  repeat case_match; try by intros [= <- <-].
  intros [= <- <-].
  eapply triggerDraining_control; [|eauto].
  eapply control_ok_unnoticed; [exact C1| | |apply enqueue_unnoticed]; done.
Qed.

Lemma single_task r t task :
  control_ok r -> tasks r !! t = Some task ->
  t = O /\ tasks r = [task] /\ isDraining r = true /\ task_ok (actors r) task.
Proof.
  intros [E|(t0 & E & D & O)] L; rewrite E in L.
  - done.
  - destruct t; [|done]. simpl in L. inversion L; subst. auto.
Qed.

(** Every step keeps the control state. *)
Lemma step_control now e r r' o :
  control_ok r -> step now e r = Some (r', o) -> control_ok r'.
Proof.
  intros C. destruct e as [body|body|p|p|m|t res|t ok|t|t|c ok|c ok]; simpl.
  - intros [= H]. revert H. unfold worker_invoke.
    repeat case_match; try by intros [= <- <-].
    by apply handleRoute_control.
  - intros [= H]. by eapply handleRoute_control.
  - intros [= <- <-]. done.
  - intros S. apply (reset_fields 0 (EvAdminReset p)) in S as (A & T & D & _); [|done].
    eapply control_ok_same; eauto.
  - intros [= H]. unfold timerFires in H.
    case_decide; inversion H; subst; eapply control_ok_same; eauto.
  - destruct (tasks r !! t) as [[it k m|?|?|]|] eqn:L; try done.
    destruct (single_task _ _ _ C L) as (-> & T & D & a & G & B & Hd).
    destruct (afterInvoke _ _ _ _ _ _) as [[r1 t1] o1] eqn:E. intros [= <- <-].
    assert (O1 : task_ok (actors r1) t1).
    { eapply afterInvoke_task_ok; [|exact E]. by exists a. }
    assert (tasks r1 = tasks r /\ isDraining r1 = isDraining r) as [T1 D1].
    { clear O1. unfold afterInvoke in E. repeat case_match; simplify_eq; simpl;
        repeat match goal with
        | H : settle _ _ _ = _ |- _ => apply settle_fields in H as (? & ? & ? & ? & ? & ?)
        | H : persistActorState _ _ _ _ = _ |- _ =>
            apply persistActorState_fields in H as (? & ? & ? & ? & ? & ?)
        | H : processLoop _ _ _ _ = _ |- _ =>
            apply processLoop_fields in H as (? & ? & ? & ? & ?)
        | H : rejectRemaining _ _ _ = _ |- _ =>
            apply rejectRemaining_fields in H as (? & ? & ? & ? & ? & ?)
        end; simpl in *; split; congruence. }
    right. exists t1. simpl. rewrite T1, T, D1. auto.
  - destruct (tasks r !! t) as [[?|it k|?|]|] eqn:L; try done.
    destruct (single_task _ _ _ C L) as (-> & T & D & _).
    intros [= <- <-]. right. simpl. put_settled. rewrite T. simpl.
    eexists. split; [reflexivity|]. split; auto. by destruct ok.
  - destruct (tasks r !! t) as [[?|?|it|]|] eqn:L; try done.
    destruct (single_task _ _ _ C L) as (-> & T & D & _).
    destruct (drainLoop _ _ _) as [[r1 t1] o1] eqn:E. intros [= <- <-].
    unfold drainLoop in E. pose proof (drainLoop_from_task_ok _ _ _ _ _ _ _ E) as O.
    apply drainLoop_from_fields in E as (_ & T1 & D1 & _).
    right. exists t1. simpl. rewrite T1, T, D1. auto.
  - destruct (tasks r !! t) as [[?|?|?|]|] eqn:L; try done.
    destruct (single_task _ _ _ C L) as (-> & T & D & _).
    intros [= H]. eapply drainFinally_control; [|exact H]. simpl. by rewrite T.
  - intros S. apply (reset_fields 0 (EvActorResetDone c ok)) in S as (A & T & D & _); [|done].
    eapply control_ok_same; eauto.
  - intros S. apply (reset_fields 0 (EvDeleteDone c ok)) in S as (A & T & D & _); [|done].
    eapply control_ok_same; eauto.
Qed.

Lemma reachable_control r tr : reachable r tr -> control_ok r.
Proof.
  induction 1 as [|r tr now e r' o _ IH S]; [by left|].
  eauto using step_control.
Qed.

(** ** Delivery in enqueue order *)

Lemma before_snoc l n a b :
  before (l ++ [n]) a b -> before l a b \/ (b = n /\ a ∈ l).
Proof.
  intros (i & j & Lt & Hi & Hj).
  destruct (decide (j < length l)%nat) as [Hl|Hl].
  - left. exists i, j. rewrite lookup_app_l in Hi, Hj by lia. auto.
  - right. pose proof (lookup_lt_Some _ _ _ Hj) as B. rewrite length_app in B.
    simpl in B. assert (j = length l) as -> by lia.
    rewrite lookup_app_l in Hi by lia.
    rewrite lookup_app_r, Nat.sub_diag in Hj by lia. simpl in Hj.
    split; [congruence|]. eapply list_elem_of_lookup_2; eauto.
Qed.

Lemma before_elem_l l a b : before l a b -> a ∈ l.
Proof. intros (i & j & _ & Hi & _). eapply list_elem_of_lookup_2; eauto. Qed.

Lemma fifo_init : fifo [] [] [] 0.
Proof.
  exists []. split; [done|]. split; [constructor|].
  split; [|split]; try (intros x H; by inversion H).
  intros a b H. apply before_elem_l in H. inversion H.
Qed.

Lemma fifo_bound E V Q n n' : fifo E V Q n -> (n <= n')%nat -> fifo E V Q n'.
Proof.
  intros (D & HE & ND & B & HV & O) L. exists D. repeat split; auto.
  intros x Hx. specialize (B x Hx). lia.
Qed.

Lemma fifo_V_in_E E V Q n : fifo E V Q n -> forall x, x ∈ V -> x ∈ E.
Proof.
  intros (D & -> & _ & _ & HV & _) x Hx. apply elem_of_app.
  destruct (HV x Hx) as [?|Hd]; auto. right. destruct Q; simplify_eq/=. by left.
Qed.

Lemma fifo_push E V Q n : fifo E V Q n -> fifo (E ++ [n]) V (Q ++ [n]) (S n).
Proof.
  intros F. pose proof (fifo_V_in_E _ _ _ _ F) as VE.
  destruct F as (D & HE & ND & B & HV & O).
  exists D. split; [by rewrite HE, app_assoc|]. split; [|split; [|split]].
  - apply NoDup_app. split; [done|]. split; [|apply NoDup_singleton].
    intros x Hx Hn. apply list_elem_of_singleton in Hn. subst. specialize (B _ Hx). lia.
  - intros x Hx. apply elem_of_app in Hx as [Hx|Hx].
    + specialize (B _ Hx). lia.
    + apply list_elem_of_singleton in Hx. subst. lia.
  - intros x Hx. destruct (HV x Hx) as [?|Hd]; auto. right. by destruct Q.
  - intros a b HVb HEb. apply before_snoc in HEb as [HEb|[-> _]].
    + by apply (O a b).
    + apply before_elem_l in HVb. apply VE, B in HVb. lia.
Qed.

Lemma fifo_invoke E V Q n h : fifo E V Q n -> head Q = Some h -> fifo E (V ++ [h]) Q n.
Proof.
  intros (D & HE & ND & B & HV & O) Hh. exists D. repeat split; auto.
  - intros x Hx. apply elem_of_app in Hx as [Hx|Hx]; auto.
    apply list_elem_of_singleton in Hx. subst. auto.
  - intros a b HVb HEb. apply before_snoc in HVb as [HVb|[-> Hb]]; [by apply (O a b)|].
    destruct Q as [|h' Q']; simplify_eq/=.
    assert (Hpos : (D ++ h :: Q') !! length D = Some h).
    { by rewrite lookup_app_r, Nat.sub_diag by lia. }
    destruct HEb as (i & j & Lt & Hi & Hj).
    pose proof (NoDup_lookup _ _ _ _ ND Hi Hpos) as ->.
    destruct (HV b Hb) as [HD|[= ->]].
    + apply list_elem_of_lookup_1 in HD as (j' & Hj').
      pose proof (lookup_lt_Some _ _ _ Hj') as Lj.
      assert (Hj'' : (D ++ h :: Q') !! j' = Some b) by (by rewrite lookup_app_l).
      pose proof (NoDup_lookup _ _ _ _ ND Hj Hj''). lia.
    + pose proof (NoDup_lookup _ _ _ _ ND Hj Hpos). lia.
Qed.

Lemma fifo_shift E V Q n : fifo E V Q n -> fifo E V (tail Q) n.
Proof.
  intros (D & HE & ND & B & HV & O). destruct Q as [|h Q']; simpl.
  - exists D. auto.
  - exists (D ++ [h]). rewrite <- app_assoc. repeat split; auto.
    intros x Hx. left. apply elem_of_app.
    destruct (HV x Hx) as [?|[= ->]]; auto. right. by left.
Qed.

Lemma fifo_clear E V Q n : fifo E V Q n -> fifo E V [] n.
Proof.
  intros F. pose proof (fifo_V_in_E _ _ _ _ F) as VE.
  destruct F as (D & HE & ND & B & HV & O).
  exists E. rewrite app_nil_r. repeat split; auto.
Qed.

Lemma quiet_enqueued k o : Forall quiet o -> enqueued k o = [] /\ invoked k o = [].
Proof.
  induction 1 as [|x o Q _ [IH1 IH2]]; [done|].
  destruct x; try done; split; assumption.
Qed.

Lemma fifo_step_trans k r o1 r1 o2 r2 :
  fifo_step k r o1 r1 -> fifo_step k r1 o2 r2 -> fifo_step k r (o1 ++ o2) r2.
Proof.
  intros S1 S2 E V F. unfold enqueued, invoked. rewrite !omap_app, !app_assoc.
  by apply S2, S1.
Qed.

Lemma fifo_step_frame k r o r' :
  qids k r' = qids k r -> (nextId r <= nextId r')%nat -> Forall quiet o ->
  fifo_step k r o r'.
Proof.
  intros Q N Hq E V F. destruct (quiet_enqueued k o Hq) as [-> ->].
  rewrite !app_nil_r, Q. eauto using fifo_bound.
Qed.

Lemma qids_same k r r' : actors r' = actors r -> qids k r' = qids k r.
Proof. unfold qids, queue_of. by intros ->. Qed.

Lemma qids_update k k' f r r' :
  actors r' = actors_update k f (actors r) ->
  qids k' r' =
  if decide (k' = k)
  then match actors_get k (actors r) with
       | Some a => map messageId (queue (f a))
       | None => []
       end
  else qids k' r.
Proof.
  unfold qids, queue_of. intros ->. rewrite actors_get_update.
  case_decide; subst; auto. by destruct (actors_get k (actors r)).
Qed.

Lemma qids_update_same k k' f r r' :
  actors r' = actors_update k f (actors r) -> (forall a, queue (f a) = queue a) ->
  qids k' r' = qids k' r.
Proof.
  intros A Hf. rewrite (qids_update _ _ _ _ _ A). case_decide; subst; auto.
  unfold qids, queue_of. destruct (actors_get k (actors r)); auto. by rewrite Hf.
Qed.

Lemma settle_quiet m resp r r' o : settle m resp r = (r', o) -> Forall quiet o.
Proof. unfold settle. case_decide; intros [= <- <-]; repeat constructor. Qed.

Lemma settle_fifo k m resp r r' o : settle m resp r = (r', o) -> fifo_step k r o r'.
Proof.
  intros H. pose proof (settle_quiet _ _ _ _ _ H).
  apply settle_fields in H as (A & _ & _ & _ & N & _).
  apply fifo_step_frame; auto using qids_same. lia.
Qed.

Lemma persistActorState_quiet now it k r r' t o :
  persistActorState now it k r = (r', t, o) -> Forall quiet o.
Proof.
  unfold persistActorState. case_match; intros [= <- <- <-]; repeat constructor.
Qed.

Lemma persistActorState_fifo k' now it k r r' t o :
  persistActorState now it k r = (r', t, o) -> fifo_step k' r o r'.
Proof.
  intros H. pose proof (persistActorState_quiet _ _ _ _ _ _ _ H).
  apply persistActorState_fields in H as (A & _ & _ & N & _).
  apply fifo_step_frame; auto using qids_same. lia.
Qed.

Lemma set_busy_fifo k' k b r : fifo_step k' r [] (set_busy k b r).
Proof.
  apply fifo_step_frame; [|done|constructor].
  by eapply qids_update_same.
Qed.

Lemma afterPersist_fifo k' k ok r :
  fifo_step k' r [] (set_busy k false (putSettles k ok r)).
Proof.
  apply fifo_step_frame; [|simpl; put_settled; lia|constructor].
  eapply qids_update_same; [simpl; put_settled; reflexivity|done].
Qed.

Lemma reset_obs_quiet o : Forall reset_obs o -> Forall quiet o.
Proof. intros H. eapply Forall_impl; [exact H|]. intros x Hx. by destruct x. Qed.

Lemma reset_fifo k now e r r' o :
  is_reset e -> step now e r = Some (r', o) -> fifo_step k r o r'.
Proof.
  intros I S. apply reset_fields in S as (A & _ & _ & N & _ & _ & Q); [|done].
  apply fifo_step_frame; auto using qids_same, reset_obs_quiet. lia.
Qed.

Lemma shift_fifo k' k r : fifo_step k' r [] (shift k r).
Proof.
  intros E V F. unfold enqueued, invoked. simpl. rewrite !app_nil_r.
  erewrite qids_update by reflexivity. case_decide; subst; auto.
  unfold qids, queue_of in F. destruct (actors_get k (actors r)) as [a|].
  - simpl. apply fifo_shift in F. by destruct (queue a).
  - done.
Qed.

Lemma rejectRemaining_quiet k q : forall r r' o,
  rejectRemaining k q r = (r', o) -> Forall quiet o.
Proof.
  induction q as [|m q IH]; simpl; intros r r' o.
  - intros [= <- <-]. constructor.
  - destruct (settle _ _ _) as [r2 o2] eqn:E2.
    destruct (rejectRemaining k q r2) as [r3 o3] eqn:E3. intros [= <- <-].
    apply Forall_app. eauto using settle_quiet.
Qed.

Lemma rejectRemaining_fifo k' k r r' o :
  rejectRemaining k (queue_of k r) r = (r', o) -> fifo_step k' r o r'.
Proof.
  intros H E V F. pose proof (rejectRemaining_quiet _ _ _ _ _ H) as Q.
  destruct (quiet_enqueued k' o Q) as [-> ->]. rewrite !app_nil_r.
  apply rejectRemaining_fields in H as (A & _ & _ & _ & -> & _).
  destruct (queue_of k r) eqn:Eq.
  - by rewrite (qids_same _ _ _ A).
  - rewrite (qids_update _ _ _ _ _ A). case_decide; subst; auto.
    apply fifo_clear in F. by destruct (actors_get k (actors r)).
Qed.

Lemma processLoop_fifo k' now it k r r' t o :
  processLoop now it k r = (r', t, o) -> fifo_step k' r o r'.
Proof.
  unfold processLoop. destruct (actors_get k (actors r)) as [a|] eqn:G.
  - destruct (queue a) as [|m q] eqn:Q; [apply persistActorState_fifo|].
    intros [= <- <- <-] E V F. unfold enqueued, invoked. simpl.
    case_decide; subst; simpl; rewrite !app_nil_r; auto.
    apply fifo_invoke; auto. unfold qids, queue_of. by rewrite G, Q.
  - intros [= <- <- <-]. apply fifo_step_frame; auto; constructor.
Qed.

Lemma processActorQueue_fifo k' now it k r r' t o :
  processActorQueue now it k r = (r', t, o) -> fifo_step k' r o r'.
Proof.
  unfold processActorQueue. destruct (actors_get k (actors r)) as [a|] eqn:G.
  - destruct (busy a).
    + intros [= <- <- <-]. apply fifo_step_frame; auto; constructor.
    + intros H. apply (processLoop_fifo k') in H.
      exact (fifo_step_trans _ _ _ _ _ _ (set_busy_fifo k' k true r) H).
  - intros [= <- <- <-]. apply fifo_step_frame; auto; constructor.
Qed.

Lemma drainLoop_from_fifo k' now entries : forall it r r' t o,
  drainLoop_from now it entries r = (r', t, o) -> fifo_step k' r o r'.
Proof.
  induction entries as [|[k a] rest IH]; simpl; intros it r r' t o.
  - intros [= <- <- <-]. apply fifo_step_frame; auto; constructor.
  - repeat case_match; eauto using processActorQueue_fifo.
Qed.

Lemma triggerDraining_fifo k' now r r' o :
  triggerDraining now r = (r', o) -> fifo_step k' r o r'.
Proof.
  unfold triggerDraining. destruct (isDraining r).
  - intros [= <- <-]. apply fifo_step_frame; auto; constructor.
  - destruct (drainLoop _ _ _) as [[r1 t] o1] eqn:E. intros [= <- <-].
    apply (drainLoop_from_fifo k') in E. intros E0 V F. by apply E in F.
Qed.

Lemma drainFinally_fifo k' now r r' o :
  drainFinally now r = (r', o) -> fifo_step k' r o r'.
Proof.
  unfold drainFinally. case_match.
  - intros H'. apply (triggerDraining_fifo k') in H'. intros E V F. by apply H' in F.
  - intros [= <- <-]. apply fifo_step_frame; auto; constructor.
Qed.

Lemma lookup_or_create_qids k' b r r1 a :
  lookup_or_create b r = (r1, a) -> qids k' r1 = qids k' r.
Proof.
  intros H. apply lookup_or_create_spec in H. simpl in H.
  destruct H as (_ & _ & _ & _ & _ & _ & [[A _]|(E & -> & A)]).
  - by apply qids_same.
  - unfold qids, queue_of. rewrite A, actors_get_app_fresh by done.
    case_decide; subst; [by rewrite E|done].
Qed.

Lemma enqueue_fifo k' k m a r :
  actors_get k (actors r) = Some a -> messageId m = nextId r ->
  fifo_step k' r [ObsEnqueue k (messageId m)] (enqueue k m r).
Proof.
  intros G Hm E V F. unfold enqueued, invoked. simpl.
  erewrite qids_update by reflexivity. rewrite app_nil_r.
  case_decide; subst; simpl.
  - rewrite decide_True by done. rewrite G. simpl. rewrite map_app. simpl.
    rewrite Hm. apply fifo_push. unfold qids, queue_of in F. by rewrite G in F.
  - rewrite decide_False by done. rewrite app_nil_r. eapply fifo_bound; eauto.
Qed.

Lemma handleRoute_fifo k' now body r r' o :
  handleRoute now body r = (r', o) -> fifo_step k' r o r'.
Proof.
  unfold handleRoute. destruct body as [b|].
  2:{ intros [= <- <-]. apply fifo_step_frame; auto. repeat constructor. }
  destruct (lookup_or_create b r) as [r1 a] eqn:L.
  pose proof (lookup_or_create_qids k' _ _ _ _ L) as Q.
  apply lookup_or_create_spec in L as (G & _ & _ & N & _).
  assert (S1 : fifo_step k' r [] r1).
  { apply fifo_step_frame; auto; try lia; constructor. }
  repeat case_match.
  - intros [= <- <-]. apply fifo_step_frame; auto; try lia; repeat constructor.
  - intros [= <- <-]. apply fifo_step_frame; auto; try lia; repeat constructor.
  - intros [= <- <-].
    match goal with H : triggerDraining _ _ = _ |- _ =>
      apply (triggerDraining_fifo k') in H; rename H into S3 end.
    pose proof (enqueue_fifo k' _ _ _ _ G
      (eq_refl : messageId {| messageId := nextId r1; payload := body_payload b;
                              enqueuedAt := now |} = nextId r1)) as S2.
    exact (fifo_step_trans _ _ _ _ _ _ S1 (fifo_step_trans _ _ _ _ _ _ S2 S3)).
Qed.

Lemma spawn_fold_qids k' p cs r :
  qids k' (set_actors (fun l => foldl (spawn_child p) l cs) r) = qids k' r.
Proof.
  unfold qids, queue_of. simpl.
  destruct (actors_get k' (foldl _ _ _)) as [a|] eqn:G.
  - apply spawn_fold_get in G as [->|(-> & c & _ & _ & ->)]; done.
  - destruct (actors_get k' (actors r)) as [a|] eqn:G'; [|done].
    by rewrite (spawn_fold_get_some _ _ _ _ _ G') in G.
Qed.

Lemma afterInvoke_fifo k' now it k m res r r' t o :
  afterInvoke now it k m res r = (r', t, o) -> fifo_step k' r o r'.
Proof.
  unfold afterInvoke. destruct res as [|st|body].
  - intros [= <- <- <-]. apply set_busy_fifo.
  - destruct (settle _ _ r) as [r1 o1] eqn:E1.
    destruct (persistActorState _ _ _ _) as [[r3 t3] o3] eqn:E3.
    intros [= <- <- <-].
    apply (settle_fifo k') in E1. apply (persistActorState_fifo k') in E3.
    eapply fifo_step_trans; [exact E1|].
    exact (fifo_step_trans _ _ _ _ _ _ (shift_fifo k' k r1) E3).
  - destruct (actors_get k (actors r)) as [a|] eqn:G.
    2:{ intros [= <- <- <-]. apply fifo_step_frame; auto; constructor. }
    destruct (settle _ _ _) as [r2 o2] eqn:E2.
    apply (settle_fifo k') in E2.
    assert (S1 : fifo_step k' r o2 (shift k r2)).
    { replace o2 with (([] ++ o2) ++ []) by (by rewrite app_nil_r).
      eapply fifo_step_trans; [|apply shift_fifo].
      eapply fifo_step_trans; [|exact E2].
      apply fifo_step_frame; auto using spawn_fold_qids; constructor. }
    repeat case_match; intros [= <- <- <-].
    + eapply fifo_step_trans; eauto using persistActorState_fifo.
    + eapply fifo_step_trans; [exact S1|].
      eapply fifo_step_trans; eauto using persistActorState_fifo, rejectRemaining_fifo.
    + eapply fifo_step_trans; eauto using processLoop_fifo.
Qed.

Lemma step_fifo k' now e r r' o :
  step now e r = Some (r', o) -> fifo_step k' r o r'.
Proof.
  destruct e as [body|body|p|p|m|t res|t ok|t|t|c ok|c ok]; simpl.
  - intros [= H]. revert H. unfold worker_invoke.
    repeat case_match; try apply handleRoute_fifo;
      intros [= <- <-]; apply fifo_step_frame; auto; repeat constructor.
  - intros [= H]. by eapply handleRoute_fifo.
  - intros [= <- <-]. apply fifo_step_frame; auto; repeat constructor.
  - intros S. by apply (reset_fifo k' 0 (EvAdminReset p)) in S.
  - intros [= H]. unfold timerFires in H.
    case_decide; inversion H; subst; apply fifo_step_frame; auto; repeat constructor.
  - destruct (tasks r !! t) as [[it k m|?|?|]|] eqn:L; try done.
    destruct (afterInvoke _ _ _ _ _ _) as [[r1 t1] o1] eqn:E. intros [= <- <-].
    apply (afterInvoke_fifo k') in E. intros E0 V F. by apply E in F.
  - destruct (tasks r !! t) as [[?|it k|?|]|] eqn:L; try done.
    intros [= <- <-]. apply afterPersist_fifo.
  - destruct (tasks r !! t) as [[?|?|it|]|] eqn:L; try done.
    destruct (drainLoop _ _ _) as [[r1 t1] o1] eqn:E. intros [= <- <-].
    apply (drainLoop_from_fifo k') in E. intros E0 V F. by apply E in F.
  - destruct (tasks r !! t) as [[?|?|?|]|] eqn:L; try done.
    intros [= H]. apply (drainFinally_fifo k') in H. intros E0 V F. by apply H in F.
  - intros S. by apply (reset_fifo k' 0 (EvActorResetDone c ok)) in S.
  - intros S. by apply (reset_fifo k' 0 (EvDeleteDone c ok)) in S.
Qed.

Lemma reachable_fifo k r tr :
  reachable r tr -> fifo (enqueued k tr) (invoked k tr) (qids k r) (nextId r).
Proof.
  induction 1 as [|r tr now e r' o _ IH S]; [apply fifo_init|].
  apply (step_fifo k) in S. unfold enqueued, invoked in *. rewrite !omap_app.
  by apply S.
Qed.

(** ** Well-formed actor maps and the queue limit *)

Lemma actors_update_keys k f l : map fst (actors_update k f l) = map fst l.
Proof.
  induction l as [|[k0 a0] l IH]; simpl; auto.
  case_decide; simpl; congruence.
Qed.

Lemma actors_get_none_keys k l : actors_get k l = None <-> k ∉ map fst l.
Proof.
  induction l as [|[k0 a0] l IH]; simpl.
  - split; auto. intros _ H. inversion H.
  - case_decide; subst.
    + split; [done|]. intros H. exfalso. apply H. by left.
    + rewrite IH. split; intros H1.
      * intros H2. apply elem_of_cons in H2 as [?|?]; auto.
      * intros H2. apply H1. by right.
Qed.

Lemma actors_wf_update k f l :
  actors_wf l ->
  (forall a, actors_get k l = Some a ->
     actorKey (f a) = actorKey a /\
     Z.of_nat (length (queue (f a))) <= queueLimit (policy (f a))) ->
  actors_wf (actors_update k f l).
Proof.
  intros [ND W] Hf. split; [by rewrite actors_update_keys|].
  intros k' a'. rewrite actors_get_update. case_decide; subst.
  - destruct (actors_get k l) as [a|] eqn:G; [|done]. intros [= <-].
    destruct (Hf a eq_refl) as [-> ?]. split; auto. by apply W.
  - apply W.
Qed.

Lemma actors_wf_shrink k f l :
  actors_wf l ->
  (forall a, actorKey (f a) = actorKey a /\ policy (f a) = policy a /\
             (length (queue (f a)) <= length (queue a))%nat) ->
  actors_wf (actors_update k f l).
Proof.
  intros W Hf. apply actors_wf_update; auto. intros a G.
  destruct (Hf a) as (-> & -> & L). split; auto.
  destruct W as [_ W]. apply W in G as [_ G]. lia.
Qed.

Lemma actors_wf_append k a l :
  actors_wf l -> actors_get k l = None -> actorKey a = k ->
  Z.of_nat (length (queue a)) <= queueLimit (policy a) ->
  actors_wf (l ++ [(k, a)]).
Proof.
  intros [ND W] G K L. split.
  - rewrite map_app. simpl. apply NoDup_app. split; [done|].
    split; [|apply NoDup_singleton]. intros x Hx Hk.
    apply list_elem_of_singleton in Hk. subst. by apply actors_get_none_keys in G.
  - intros k' a'. rewrite actors_get_app_fresh by done. case_decide; subst.
    + by intros [= <-].
    + apply W.
Qed.

Lemma spawn_child_wf p l c :
  actors_wf l -> 0 <= queueLimit (policy p) -> actors_wf (spawn_child p l c).
Proof.
  intros W L. unfold spawn_child.
  destruct (actors_get _ l) eqn:G; auto.
  rewrite actors_set_none by done. by apply actors_wf_append.
Qed.

Lemma spawn_fold_wf p cs : forall l,
  actors_wf l -> 0 <= queueLimit (policy p) -> actors_wf (foldl (spawn_child p) l cs).
Proof.
  induction cs as [|c cs IH]; simpl; auto using spawn_child_wf.
Qed.

Lemma lookup_or_create_wf b r r1 a :
  actors_wf (actors r) -> lookup_or_create b r = (r1, a) -> actors_wf (actors r1).
Proof.
  intros W H. apply lookup_or_create_spec in H. simpl in H.
  destruct H as (_ & _ & _ & _ & _ & _ & [[-> _]|(E & -> & ->)]); auto.
  apply actors_wf_append; auto. simpl. lia.
Qed.

Lemma drainLoop_from_wf now entries it r r' t o :
  actors_wf (actors r) -> drainLoop_from now it entries r = (r', t, o) ->
  actors_wf (actors r').
Proof.
  intros W H. apply drainLoop_from_fields in H as ([->|[k ->]] & _); auto.
  apply actors_wf_shrink; auto.
Qed.

Lemma triggerDraining_wf now r r' o :
  actors_wf (actors r) -> triggerDraining now r = (r', o) -> actors_wf (actors r').
Proof.
  intros W. unfold triggerDraining. destruct (isDraining r); [by intros [= <- <-]|].
  destruct (drainLoop _ _ _) as [[r1 t] o1] eqn:E. intros [= <- <-].
  simpl. eapply drainLoop_from_wf; [|exact E]. done.
Qed.

Lemma handleRoute_wf now body r r' o :
  actors_wf (actors r) -> handleRoute now body r = (r', o) -> actors_wf (actors r').
Proof.
  intros W. unfold handleRoute. destruct body as [b|]; [|by intros [= <- <-]].
  destruct (lookup_or_create b r) as [r1 a] eqn:L.
  pose proof (lookup_or_create_wf _ _ _ _ W L) as W1.
  apply lookup_or_create_spec in L as (G & _).
  destruct (_ >? _); [by intros [= <- <-]|].
  destruct (_ >=? _) eqn:Full; [by intros [= <- <-]|].
  destruct (triggerDraining _ _) as [r2 o2] eqn:T. intros [= <- <-].
  eapply triggerDraining_wf; [|exact T]. simpl.
  apply actors_wf_update; auto. intros a' G'. simpl. split; auto.
  rewrite G in G'. inversion G'; subst. rewrite length_app. simpl. lia.
Qed.

Lemma afterInvoke_wf now it k m res r r' t o :
  actors_wf (actors r) -> afterInvoke now it k m res r = (r', t, o) ->
  actors_wf (actors r').
Proof.
  intros W. unfold afterInvoke. destruct res as [|st|body].
  - intros [= <- <- <-]. simpl. by apply actors_wf_shrink.
  - destruct (settle _ _ r) as [r1 o1] eqn:E1.
    destruct (persistActorState _ _ _ _) as [[r3 t3] o3] eqn:E3.
    intros [= <- <- <-]. apply settle_fields in E1 as (A1 & _).
    apply persistActorState_fields in E3 as (-> & _). simpl. rewrite A1.
    apply actors_wf_shrink; auto. intros a. simpl. repeat split; auto.
    destruct (queue a); simpl; lia.
  - destruct (actors_get k (actors r)) as [a|] eqn:G; [|by intros [= <- <- <-]].
    destruct (settle _ _ _) as [r2 o2] eqn:E2.
    apply settle_fields in E2 as (A2 & _). simpl in A2.
    assert (W3 : actors_wf (actors (shift k r2))).
    { simpl. rewrite A2. apply actors_wf_shrink.
      - apply spawn_fold_wf; auto. destruct W as [_ W]. apply W in G. lia.
      - intros a'. simpl. repeat split; auto. destruct (queue a'); simpl; lia. }
    repeat case_match; intros [= <- <- <-];
      repeat match goal with
      | H : persistActorState _ _ _ _ = _ |- _ =>
          apply persistActorState_fields in H as (-> & _)
      | H : processLoop _ _ _ _ = _ |- _ => apply processLoop_fields in H as (-> & _)
      | H : rejectRemaining _ _ _ = _ |- _ =>
          apply rejectRemaining_fields in H as (-> & _)
      end; auto.
    case_match; auto. apply actors_wf_shrink; auto. intros a'. simpl.
    repeat split; auto. lia.
Qed.

Lemma step_wf now e r r' o :
  actors_wf (actors r) -> step now e r = Some (r', o) -> actors_wf (actors r').
Proof.
  intros W. destruct e as [body|body|p|p|m|t res|t ok|t|t|c ok|c ok]; simpl.
  - intros [= H]. revert H. unfold worker_invoke.
    repeat case_match; try (by intros [= <- <-]). by apply handleRoute_wf.
  - intros [= H]. by eapply handleRoute_wf.
  - by intros [= <- <-].
  - intros S. apply (reset_fields 0 (EvAdminReset p)) in S as (-> & _); done.
  - intros [= H]. unfold timerFires in H. by case_decide; inversion H; subst.
  - destruct (tasks r !! t) as [[it k m|?|?|]|] eqn:L; try done.
    destruct (afterInvoke _ _ _ _ _ _) as [[r1 t1] o1] eqn:E. intros [= <- <-].
    simpl. eauto using afterInvoke_wf.
  - destruct (tasks r !! t) as [[?|it k|?|]|] eqn:L; try done.
    intros [= <- <-]. simpl. put_settled. by apply actors_wf_shrink.
  - destruct (tasks r !! t) as [[?|?|it|]|] eqn:L; try done.
    destruct (drainLoop _ _ _) as [[r1 t1] o1] eqn:E. intros [= <- <-].
    simpl. eapply drainLoop_from_wf; [|exact E]. done.
  - destruct (tasks r !! t) as [[?|?|?|]|] eqn:L; try done.
    intros [= H]. unfold drainFinally in H. case_match.
    + eapply triggerDraining_wf; [|exact H]. done.
    + by inversion H; subst.
  - intros S. apply (reset_fields 0 (EvActorResetDone c ok)) in S as (-> & _); done.
  - intros S. apply (reset_fields 0 (EvDeleteDone c ok)) in S as (-> & _); done.
Qed.

Lemma reachable_wf r tr : reachable r tr -> actors_wf (actors r).
Proof.
  induction 1 as [|r tr now e r' o _ IH S].
  - split; [constructor|]. intros k a H. inversion H.
  - eauto using step_wf.
Qed.

(** ** Runs *)

Lemma run_reachable es : forall r tr r' tr',
  reachable r tr -> run es r tr = Some (r', tr') -> reachable r' tr'.
Proof.
  induction es as [|[now e] es IH]; simpl; intros r tr r' tr' R.
  - by intros [= <- <-].
  - destruct (step now e r) as [[r1 o1]|] eqn:S; [|done].
    apply IH. by eapply reach_step.
Qed.

Lemma after_reachable es : reachable (after es).1 (after es).2.
Proof.
  unfold after. destruct (run es init []) as [[r tr]|] eqn:E; simpl.
  - eapply run_reachable; [apply reach_init|exact E].
  - apply reach_init.
Qed.

(** ** Per-key FIFO delivery, one call at a time *)

Lemma drainLoop_skips_busy now it k a rest r :
  busy a = true ->
  drainLoop_from now it ((k, a) :: rest) r = drainLoop_from now (S it) rest r.
Proof. intros B. simpl. by rewrite B. Qed.

Lemma processActorQueue_returns_if_busy now it k a r :
  actors_get k (actors r) = Some a -> busy a = true ->
  processActorQueue now it k r = (r, AwaitProcess it, []).
Proof. intros G B. unfold processActorQueue. by rewrite G, B. Qed.

Lemma processActorQueue_invokes now it k r a m q :
  actors_get k (actors r) = Some a -> busy a = false -> queue a = m :: q ->
  processActorQueue now it k r =
    (set_busy k true r, AwaitInvoke it k m, [ObsInvoke k (actorType a) (actorId a) m]).
Proof.
  intros G B Q. unfold processActorQueue. rewrite G, B. unfold processLoop. simpl.
  rewrite actors_get_update, decide_True by done. rewrite G. simpl. by rewrite Q.
Qed.

(** ** Admission *)

Lemma lookup_or_create_existing b r a :
  actors_get (body_key b) (actors r) = Some a -> lookup_or_create b r = (r, a).
Proof. unfold lookup_or_create, body_key. simpl. by intros ->. Qed.

Lemma handleRoute_too_large now b r a :
  actors_get (body_key b) (actors r) = Some a ->
  payloadSize (body_payload b) > maxPayloadBytes (policy a) ->
  handleRoute now (Some b) r = (r, [payload_too_large_reply]).
Proof.
  intros G P. unfold handleRoute. rewrite (lookup_or_create_existing _ _ _ G).
  apply Z.gtb_gt in P. by rewrite P.
Qed.

Lemma handleRoute_full now b r a :
  actors_get (body_key b) (actors r) = Some a ->
  payloadSize (body_payload b) <= maxPayloadBytes (policy a) ->
  Z.of_nat (length (queue a)) >= queueLimit (policy a) ->
  handleRoute now (Some b) r = (r, [queue_full_reply]).
Proof.
  intros G P Q. unfold handleRoute. rewrite (lookup_or_create_existing _ _ _ G).
  destruct (_ >? _) eqn:E1; [apply Z.gtb_gt in E1; lia|].
  destruct (_ >=? _) eqn:E2; [done|]. rewrite Z.geb_leb in E2.
  apply Z.leb_gt in E2. lia.
Qed.

Lemma handleRoute_accepts now b r a :
  actors_get (body_key b) (actors r) = Some a ->
  payloadSize (body_payload b) <= maxPayloadBytes (policy a) ->
  Z.of_nat (length (queue a)) < queueLimit (policy a) ->
  let m := {| messageId := nextId r; payload := body_payload b; enqueuedAt := now |} in
  handleRoute now (Some b) r =
  ((triggerDraining now (enqueue (body_key b) m r)).1,
   ObsEnqueue (body_key b) (nextId r) :: (triggerDraining now (enqueue (body_key b) m r)).2).
Proof.
  intros G P Q. unfold handleRoute. rewrite (lookup_or_create_existing _ _ _ G).
  destruct (_ >? _) eqn:E1; [apply Z.gtb_gt in E1; lia|].
  destruct (_ >=? _) eqn:E2; [apply Z.geb_le in E2; lia|].
  simpl. fold (body_key b). by destruct (triggerDraining _ _).
Qed.

Lemma enqueue_qids k m r a :
  actors_get k (actors r) = Some a ->
  qids k (enqueue k m r) = qids k r ++ [messageId m].
Proof.
  intros G. unfold qids, queue_of, enqueue. simpl.
  rewrite actors_get_update, decide_True, G by done. simpl. by rewrite map_app.
Qed.

(** The state of the processed key once the addressed call has answered. *)
Lemma afterInvoke_get now it k m res r r' t o a :
  actors_get k (actors r) = Some a -> res <> FetchThrows ->
  afterInvoke now it k m res r = (r', t, o) ->
  exists a', actors_get k (actors r') = Some a' /\
    actorKey a' = actorKey a /\ actorType a' = actorType a /\
    actorId a' = actorId a /\ policy a' = policy a /\ busy a' = busy a /\
    queue a' =
      match res with
      | RespOk body => if String.eqb (env_mode body) "reject" then [] else tail (queue a)
      | _ => tail (queue a)
      end.
Proof.
  intros G NT. unfold afterInvoke. destruct res as [|st|body]; [done| |].
  - destruct (settle _ _ r) as [r1 o1] eqn:E1.
    destruct (persistActorState _ _ _ _) as [[r3 t3] o3] eqn:E3.
    intros [= <- <- <-]. apply settle_fields in E1 as (A1 & _).
    apply persistActorState_fields in E3 as (-> & _). simpl. rewrite A1.
    rewrite actors_get_update, decide_True, G by done. simpl. eauto 10.
  - rewrite G. destruct (settle _ _ _) as [r2 o2] eqn:E2.
    apply settle_fields in E2 as (A2 & _). simpl in A2.
    assert (G3 : actors_get k (actors (shift k r2)) = Some (with_queue (tail (queue a)) a)).
    { simpl. rewrite A2, actors_get_update, decide_True by done.
      by rewrite (spawn_fold_get_some _ _ _ _ _ G). }
    destruct (String.eqb (env_mode body) "wait") eqn:Wt.
    { destruct (persistActorState _ _ _ _) as [[r4 t4] o4] eqn:E4.
      intros [= <- <- <-]. apply persistActorState_fields in E4 as (-> & _).
      apply String.eqb_eq in Wt. rewrite Wt. simpl. eauto 10. }
    destruct (String.eqb (env_mode body) "reject") eqn:Rj.
    { destruct (rejectRemaining _ _ _) as [r4 o4] eqn:E4.
      destruct (persistActorState _ _ _ _) as [[r5 t5] o5] eqn:E5.
      intros [= <- <- <-]. apply persistActorState_fields in E5 as (-> & _).
      apply rejectRemaining_fields in E4 as (-> & _).
      unfold queue_of. rewrite G3. simpl in G3 |- *. destruct (tail (queue a)) eqn:Tl.
      - rewrite G3. simpl. eauto 10.
      - rewrite actors_get_update, decide_True, G3 by done. simpl. eauto 10. }
    destruct (processLoop _ _ _ _) as [[r4 t4] o4] eqn:E4.
    intros [= <- <- <-]. apply processLoop_fields in E4 as (-> & _).
    rewrite G3. simpl. eauto 10.
Qed.

(** C2, as stated, fails: with the queue of [room:r1] at its limit, a
    submission whose payload is too large is answered PayloadTooLarge, not
    QueueFull, because the size check comes first. *)
Lemma queue_full_counterexample :
  reachable (after full_queue).1 (after full_queue).2 /\
  (exists a, actors_get "room:r1" (actors (after full_queue).1) = Some a /\
             Z.of_nat (length (queue a)) = queueLimit (policy a)) /\
  (handleRoute 2 (route_body "room" "r1" oversize) (after full_queue).1).2
    = [payload_too_large_reply] /\
  (handleRoute 2 (route_body "room" "r1" oversize) (after full_queue).1).2
    <> [queue_full_reply].
Proof.
  split; [apply after_reachable|]. split.
  - eexists. split; [vm_compute; reflexivity|vm_compute; reflexivity].
  - assert (E : (handleRoute 2 (route_body "room" "r1" oversize) (after full_queue).1).2
                = [payload_too_large_reply]) by (vm_compute; reflexivity).
    split; [exact E|]. rewrite E. discriminate.
Qed.

(** C2, amended.  In every reachable state: a submission for a key whose
    queue length has reached [queueLimit] is answered QueueFull when its
    payload passes the size check and PayloadTooLarge otherwise, and in
    both cases the router state is unchanged (nothing enqueued, no pending
    request registered); no queue is longer than its [queueLimit]; and once
    the addressed call for the head message of a key has answered, the next
    submission for that key with a payload within the limit is enqueued. *)
Theorem queue_limit r tr :
  reachable r tr ->
  (forall now b a,
     actors_get (body_key b) (actors r) = Some a ->
     Z.of_nat (length (queue a)) = queueLimit (policy a) ->
     handleRoute now (Some b) r =
       (r, [if payloadSize (body_payload b) >? maxPayloadBytes (policy a)
            then payload_too_large_reply else queue_full_reply])) /\
  (forall k a, actors_get k (actors r) = Some a ->
     Z.of_nat (length (queue a)) <= queueLimit (policy a)) /\
  (forall now t it m res r1 o1 now' b a,
     tasks r !! t = Some (AwaitInvoke it (body_key b) m) ->
     res <> FetchThrows ->
     step now (EvInvokeDone t res) r = Some (r1, o1) ->
     actors_get (body_key b) (actors r) = Some a ->
     payloadSize (body_payload b) <= maxPayloadBytes (policy a) ->
     exists r2 o2,
       handleRoute now' (Some b) r1 = (r2, ObsEnqueue (body_key b) (nextId r1) :: o2) /\
       nextId r1 ∈ pendingResults r2 /\
       nextId r1 ∈ qids (body_key b) r2).
Proof.
  intros R. pose proof (reachable_wf _ _ R) as [ND W].
  pose proof (reachable_control _ _ R) as C.
  split; [|split].
  - intros now b a G Q. destruct (_ >? _) eqn:P.
    + apply handleRoute_too_large with a; auto. by apply Z.gtb_gt.
    + apply handleRoute_full with a; auto; [|lia].
      destruct (Z.gtb_spec (payloadSize (body_payload b)) (maxPayloadBytes (policy a)));
        [done|lia].
  - intros k a G. by destruct (W k a G).
  - intros now t it m res r1 o1 now' b a L NT S G P. simpl in S. rewrite L in S.
    destruct (afterInvoke _ _ _ _ _ _) as [[r1' t1] o1'] eqn:E.
    unfold replace_task in S. injection S as <- <-.
    destruct (single_task _ _ _ C L) as (_ & _ & _ & a0 & G0 & _ & Hd).
    rewrite G in G0. injection G0 as <-.
    destruct (afterInvoke_get _ _ _ _ _ _ _ _ _ _ G NT E)
      as (a' & G' & _ & _ & _ & Pol & _ & Q').
    assert (Lt : Z.of_nat (length (queue a')) < queueLimit (policy a')).
    { apply W in G as [_ G]. rewrite Pol.
      assert (length (queue a') < length (queue a))%nat; [|lia].
      rewrite Q'. destruct (queue a); [done|]. destruct res; simpl; try lia.
      case_match; simpl; lia. }
    set (r1s := set_tasks (fun ts => <[t:=t1]> ts) r1') in *.
    assert (G1 : actors_get (body_key b) (actors r1s) = Some a') by exact G'.
    rewrite (handleRoute_accepts now' b r1s a' G1); [|by rewrite Pol|exact Lt].
    eexists _, _. split; [reflexivity|].
    destruct (triggerDraining _ _) as [r2 o2] eqn:T. simpl.
    assert (pendingResults r2 = {[nextId r1s]} ∪ pendingResults r1s /\
            qids (body_key b) r2 = qids (body_key b) r1s ++ [nextId r1s]) as [-> ->].
    { assert (EQ : qids (body_key b)
                     (enqueue (body_key b)
                        {| messageId := nextId r1s; payload := body_payload b;
                           enqueuedAt := now' |} r1s)
                   = qids (body_key b) r1s ++ [nextId r1s])
        by exact (enqueue_qids _ _ _ a' G1).
      rewrite <- EQ.
      unfold triggerDraining in T. destruct (isDraining _).
      - by injection T as <- <-.
      - destruct (drainLoop _ _ _) as [[r3 t3] o3] eqn:E3. injection T as <- <-.
        unfold drainLoop in E3. apply drainLoop_from_fields in E3 as (A & _ & _ & _ & PR).
        simpl in *. split; [done|].
        destruct A as [A|[k' A]]; [by apply qids_same|by eapply qids_update_same]. }
    split; [set_solver|]. apply elem_of_app. right. by left.
Qed.

Lemma queue_limit_witness :
  reachable (after full_queue).1 (after full_queue).2 /\
  exists a, actors_get "room:r1" (actors (after full_queue).1) = Some a /\
    Z.of_nat (length (queue a)) <= queueLimit (policy a) /\
    handleRoute 2 (route_body "room" "r1" (text_payload "2")) (after full_queue).1 =
      ((after full_queue).1,
       [if payloadSize (text_payload "2") >? maxPayloadBytes (policy a)
        then payload_too_large_reply else queue_full_reply]).
Proof.
  split; [apply after_reachable|].
  destruct (queue_limit _ _ (after_reachable full_queue)) as (H1 & H2 & _).
  eexists. split; [vm_compute; reflexivity|]. split.
  - apply (H2 "room:r1"). vm_compute; reflexivity.
  - apply (H1 2 {| body_actorType := JString "room"; body_actorId := JString "r1";
                   body_payload := text_payload "2" |}).
    + vm_compute; reflexivity.
    + vm_compute; reflexivity.
Defined.

(** ** The persisted snapshot *)

Lemma quiet_put_busy m resp r r' o : settle m resp r = (r', o) -> Forall put_busy o.
Proof. unfold settle. case_decide; intros [= <- <-]; repeat constructor. Qed.

Lemma persistActorState_put now it k r :
  forall a, actors_get k (actors r) = Some a ->
  persistActorState now it k r =
  (set_puts (fun w => w ++ [("meta:" +:+ actorKey a,
     {| meta_busy := busy a; meta_queueLength := length (queue a);
        meta_actorType := actorType a; meta_actorId := actorId a;
        meta_updatedAt := now |})]) r,
   AwaitPersist it k,
   [ObsPut ("meta:" +:+ actorKey a)
      {| meta_busy := busy a; meta_queueLength := length (queue a);
         meta_actorType := actorType a; meta_actorId := actorId a;
         meta_updatedAt := now |}]).
Proof. intros a G. unfold persistActorState. by rewrite G. Qed.

Lemma persistActorState_put_busy now it k r r' t o :
  busy_at k (actors r) -> persistActorState now it k r = (r', t, o) ->
  Forall put_busy o.
Proof.
  intros (a & G & B). rewrite (persistActorState_put _ _ _ _ a G).
  intros [= <- <- <-]. repeat constructor. exact B.
Qed.

Lemma processLoop_put_busy now it k r r' t o :
  busy_at k (actors r) -> processLoop now it k r = (r', t, o) -> Forall put_busy o.
Proof.
  intros B. unfold processLoop. repeat case_match;
    try (intros [= <- <- <-]; by repeat constructor).
  by apply persistActorState_put_busy.
Qed.

Lemma processActorQueue_put_busy now it k r r' t o :
  processActorQueue now it k r = (r', t, o) -> Forall put_busy o.
Proof.
  unfold processActorQueue.
  destruct (actors_get k (actors r)) as [a|] eqn:G; [|intros [= <- <- <-]; constructor].
  destruct (busy a); [intros [= <- <- <-]; constructor|].
  apply processLoop_put_busy. exists (with_busy true a). simpl.
  rewrite actors_get_update. case_decide; [|done]. by rewrite G.
Qed.

Lemma drainLoop_from_put_busy now entries : forall it r r' t o,
  drainLoop_from now it entries r = (r', t, o) -> Forall put_busy o.
Proof.
  induction entries as [|[k a] rest IH]; simpl; intros it r r' t o.
  - intros [= <- <- <-]. constructor.
  - repeat case_match; eauto using processActorQueue_put_busy.
Qed.

Lemma triggerDraining_put_busy now r r' o :
  triggerDraining now r = (r', o) -> Forall put_busy o.
Proof.
  unfold triggerDraining. destruct (isDraining r); [intros [= <- <-]; constructor|].
  destruct (drainLoop _ _ _) as [[r1 t] o1] eqn:E. intros [= <- <-].
  eapply drainLoop_from_put_busy. exact E.
Qed.

Lemma handleRoute_put_busy now body r r' o :
  handleRoute now body r = (r', o) -> Forall put_busy o.
Proof.
  unfold handleRoute. repeat case_match; intros [= <- <-]; repeat constructor.
  eapply triggerDraining_put_busy; eauto.
Qed.

Lemma rejectRemaining_put_busy k q : forall r r' o,
  rejectRemaining k q r = (r', o) -> Forall put_busy o.
Proof.
  induction q as [|m q IH]; simpl; intros r r' o.
  - intros [= <- <-]. constructor.
  - destruct (settle _ _ _) as [r2 o2] eqn:E2.
    destruct (rejectRemaining k q r2) as [r3 o3] eqn:E3. intros [= <- <-].
    apply Forall_app. eauto using quiet_put_busy.
Qed.

Lemma afterInvoke_put_busy now it k m res r r' t o :
  busy_at k (actors r) -> afterInvoke now it k m res r = (r', t, o) ->
  Forall put_busy o.
Proof.
  intros B. unfold afterInvoke. destruct res as [|st|body].
  - intros [= <- <- <-]. constructor.
  - destruct (settle _ _ r) as [r1 o1] eqn:E1.
    destruct (persistActorState _ _ _ _) as [[r3 t3] o3] eqn:E3.
    intros [= <- <- <-]. apply Forall_app. split; [eauto using quiet_put_busy|].
    apply settle_fields in E1 as (A1 & _).
    eapply persistActorState_put_busy; [|exact E3]. simpl. rewrite A1.
    by apply busy_at_update.
  - destruct (actors_get k (actors r)) as [a|] eqn:G;
      [|intros [= <- <- <-]; constructor].
    destruct (settle _ _ _) as [r2 o2] eqn:E2.
    pose proof (quiet_put_busy _ _ _ _ _ E2) as Q2.
    apply settle_fields in E2 as (A2 & _). simpl in A2.
    assert (B3 : busy_at k (actors (shift k r2))).
    { simpl. rewrite A2. apply busy_at_update; [done|].
      destruct B as (a' & G' & B'). exists a'. split; auto.
      by apply spawn_fold_get_some. }
    repeat case_match; intros [= <- <- <-]; repeat (apply Forall_app; split); auto.
    + eapply persistActorState_put_busy; eauto.
    + eapply rejectRemaining_put_busy; eauto.
    + eapply persistActorState_put_busy; [|eauto].
      match goal with H : rejectRemaining _ _ _ = _ |- _ =>
        apply rejectRemaining_fields in H as (-> & _) end.
      case_match; auto. by apply busy_at_update.
    + eapply processLoop_put_busy; eauto.
Qed.

Lemma reset_obs_put_busy o : Forall reset_obs o -> Forall put_busy o.
Proof. intros H. eapply Forall_impl; [exact H|]. intros x Hx. by destruct x. Qed.

Lemma step_put_busy now e r r' o :
  control_ok r -> step now e r = Some (r', o) -> Forall put_busy o.
Proof.
  intros C. destruct e as [body|body|p|p|m|t res|t ok|t|t|c ok|c ok]; simpl.
  - intros [= H]. revert H. unfold worker_invoke.
    repeat case_match; try (intros [= <- <-]; by repeat constructor).
    apply handleRoute_put_busy.
  - intros [= H]. by eapply handleRoute_put_busy.
  - intros [= <- <-]. repeat constructor.
  - intros S. apply (reset_fields 0 (EvAdminReset p)) in S; [|done].
    apply reset_obs_put_busy, S.
  - intros [= H]. unfold timerFires in H.
    case_decide; inversion H; subst; repeat constructor.
  - destruct (tasks r !! t) as [[it k m|?|?|]|] eqn:L; try done.
    destruct (single_task _ _ _ C L) as (_ & _ & _ & a & G & B & _).
    destruct (afterInvoke _ _ _ _ _ _) as [[r1 t1] o1] eqn:E. intros [= <- <-].
    eapply afterInvoke_put_busy; [|exact E]. by exists a.
  - destruct (tasks r !! t) as [[?|it k|?|]|] eqn:L; try done.
    intros [= <- <-]. constructor.
  - destruct (tasks r !! t) as [[?|?|it|]|] eqn:L; try done.
    destruct (drainLoop _ _ _) as [[r1 t1] o1] eqn:E. intros [= <- <-].
    eapply drainLoop_from_put_busy. exact E.
  - destruct (tasks r !! t) as [[?|?|?|]|] eqn:L; try done.
    intros [= H]. unfold drainFinally in H. case_match.
    + eapply triggerDraining_put_busy; eauto.
    + inversion H; subst. constructor.
  - intros S. apply (reset_fields 0 (EvActorResetDone c ok)) in S; [|done].
    apply reset_obs_put_busy, S.
  - intros S. apply (reset_fields 0 (EvDeleteDone c ok)) in S; [|done].
    apply reset_obs_put_busy, S.
Qed.

(** C3 fails on the code.  [persistActorState] is called inside the [try]
    block, before the [finally] clears the flag, so every snapshot the
    router ever writes carries [busy = true]; its [queueLength] is the
    current queue length and its [updatedAt] the current time. *)
Theorem persisted_snapshot_is_busy r tr key meta :
  reachable r tr -> ObsPut key meta ∈ tr -> meta_busy meta = true.
Proof.
  intros R. revert key meta.
  induction R as [|r tr now e r' o R IH S]; intros key meta Hin.
  - inversion Hin.
  - apply elem_of_app in Hin as [Hin|Hin]; [eauto|].
    pose proof (step_put_busy _ _ _ _ _ (reachable_control _ _ R) S) as F.
    rewrite Forall_forall in F. exact (F _ Hin).
Qed.

Lemma persisted_snapshot_is_busy_witness :
  reachable (after demo_persist).1 (after demo_persist).2 /\
  (after demo_persist).2 !! 3%nat =
    Some (ObsPut "meta:room:r1"
            {| meta_busy := true; meta_queueLength := 0;
               meta_actorType := JString "room"; meta_actorId := JString "r1";
               meta_updatedAt := 2 |}) /\
  storage (after demo_persist).1 =
    [("meta:room:r1",
      {| meta_busy := true; meta_queueLength := 0;
         meta_actorType := JString "room"; meta_actorId := JString "r1";
         meta_updatedAt := 2 |})] /\
  meta_busy {| meta_busy := true; meta_queueLength := 0;
               meta_actorType := JString "room"; meta_actorId := JString "r1";
               meta_updatedAt := 2 |} = true.
Proof.
  split; [apply after_reachable|]. split; [reflexivity|]. split; [reflexivity|].
  apply (persisted_snapshot_is_busy (after demo_persist).1 (after demo_persist).2
           "meta:room:r1"); [apply after_reachable|].
  apply list_elem_of_lookup. exists 3%nat. reflexivity.
Defined.

(** ** The pending-request table *)

Lemma replies_to_nil P : replies_to P [].
Proof. intros x resp H. inversion H. Qed.

Lemma replies_to_app P o1 o2 :
  replies_to P o1 -> replies_to P o2 -> replies_to P (o1 ++ o2).
Proof. intros H1 H2 x resp H. apply elem_of_app in H as [?|?]; eauto. Qed.

Lemma replies_to_mono P P' o : P ⊆ P' -> replies_to P o -> replies_to P' o.
Proof. intros S H x resp Hx. apply S. eauto. Qed.

Lemma replies_to_quiet P o :
  (forall x, x ∈ o -> match x with ObsReply (Some _) _ => False | _ => True end) ->
  replies_to P o.
Proof. intros H x resp Hx. by apply H in Hx. Qed.

Lemma settle_replies m resp r r' o :
  settle m resp r = (r', o) -> replies_to (pendingResults r) o /\ shrinks r r'.
Proof.
  unfold settle, shrinks. case_decide; intros [= <- <-]; simpl.
  - split; [|split; [done|set_solver]]. intros x resp' Hx.
    apply list_elem_of_singleton in Hx. by injection Hx as <- _.
  - split; [apply replies_to_nil|done].
Qed.

Lemma rejectRemaining_replies k q : forall r r' o,
  rejectRemaining k q r = (r', o) -> replies_to (pendingResults r) o /\ shrinks r r'.
Proof.
  induction q as [|m q IH]; simpl; intros r r' o.
  - intros [= <- <-]. split; [apply replies_to_nil|done].
  - destruct (settle _ _ _) as [r2 o2] eqn:E2.
    destruct (rejectRemaining k q r2) as [r3 o3] eqn:E3. intros [= <- <-].
    apply settle_replies in E2 as [R2 [N2 S2]]. apply IH in E3 as [R3 [N3 S3]].
    simpl in *. split; [|split; [congruence|set_solver]].
    apply replies_to_app; auto. eapply replies_to_mono; eauto.
Qed.

Lemma persistActorState_replies now it k r r' t o P :
  persistActorState now it k r = (r', t, o) -> replies_to P o.
Proof.
  unfold persistActorState. case_match; intros [= <- <- <-].
  - intros x resp Hx. apply list_elem_of_singleton in Hx. discriminate.
  - apply replies_to_nil.
Qed.

Lemma processLoop_replies now it k r r' t o P :
  processLoop now it k r = (r', t, o) -> replies_to P o.
Proof.
  unfold processLoop. repeat case_match; try apply persistActorState_replies;
    intros [= <- <- <-]; try apply replies_to_nil.
  intros x resp Hx. apply list_elem_of_singleton in Hx. discriminate.
Qed.

Lemma afterInvoke_replies now it k m res r r' t o :
  afterInvoke now it k m res r = (r', t, o) ->
  replies_to (pendingResults r) o /\ shrinks r r'.
Proof.
  unfold afterInvoke, shrinks. destruct res as [|st|body].
  - intros [= <- <- <-]. split; [apply replies_to_nil|done].
  - destruct (settle _ _ r) as [r1 o1] eqn:E1.
    destruct (persistActorState _ _ _ _) as [[r3 t3] o3] eqn:E3.
    intros [= <- <- <-]. apply settle_replies in E1 as [R1 [N1 S1]].
    pose proof (persistActorState_replies _ _ _ _ _ _ _ (pendingResults r) E3).
    apply persistActorState_fields in E3 as (_ & _ & _ & -> & -> & _). simpl.
    split; [by apply replies_to_app|done].
  - destruct (actors_get k (actors r)) as [a|] eqn:G.
    2:{ intros [= <- <- <-]. split; [apply replies_to_nil|done]. }
    destruct (settle _ _ _) as [r2 o2] eqn:E2.
    apply settle_replies in E2 as [R2 [N2 S2]]. simpl in *.
    repeat case_match; intros [= <- <- <-].
    + match goal with H : persistActorState _ _ _ _ = _ |- _ =>
        pose proof (persistActorState_replies _ _ _ _ _ _ _ (pendingResults r) H);
        apply persistActorState_fields in H as (_ & _ & _ & -> & -> & _) end.
      simpl. split; [by apply replies_to_app|done].
    + match goal with H : persistActorState _ _ _ _ = _ |- _ =>
        pose proof (persistActorState_replies _ _ _ _ _ _ _ (pendingResults r) H);
        apply persistActorState_fields in H as (_ & _ & _ & -> & -> & _) end.
      match goal with H : rejectRemaining _ _ _ = _ |- _ =>
        apply rejectRemaining_replies in H as [R4 [N4 S4]] end.
      simpl in *. split; [|split; [congruence|set_solver]].
      repeat apply replies_to_app; auto. eapply replies_to_mono; eauto.
    + match goal with H : processLoop _ _ _ _ = _ |- _ =>
        pose proof (processLoop_replies _ _ _ _ _ _ _ (pendingResults r) H);
        apply processLoop_fields in H as (_ & _ & _ & -> & ->) end.
      simpl. split; [by apply replies_to_app|done].
Qed.






(** ** The state after an answered call *)

Lemma throws_or_not res : res = FetchThrows \/ res <> FetchThrows.
Proof. destruct res; auto. Qed.

Lemma actors_update_at k f a l :
  actors_get k l = Some a -> actors_update k f l = actors_update k (fun _ => f a) l.
Proof.
  induction l as [|[k0 a0] l IH]; simpl; auto.
  case_decide; [by intros [= ->]|]. intros G. by rewrite IH.
Qed.

Lemma afterInvoke_state now it k m res r r' t o a :
  actors_get k (actors r) = Some a -> res <> FetchThrows ->
  afterInvoke now it k m res r = (r', t, o) ->
  actors r' =
    actors_update k
      (with_queue (if rejecting res then [] else tail (queue a)))
      (foldl (spawn_child a) (actors r) (spawned res)) /\
  pendingResults r' =
    pendingResults r ∖ {[messageId m]} ∖
      (if rejecting res then list_to_set (map messageId (tail (queue a))) else ∅).
Proof.
  intros G NT. unfold afterInvoke. destruct res as [|st|body]; [done| |].
  - destruct (settle _ _ r) as [r1 o1] eqn:E1.
    destruct (persistActorState _ _ _ _) as [[r3 t3] o3] eqn:E3.
    intros [= <- <- <-]. apply settle_fields in E1 as (A1 & _ & _ & _ & _ & P1).
    apply persistActorState_fields in E3 as (-> & _ & _ & _ & -> & _). simpl.
    rewrite A1, P1. split; [|set_solver].
    etrans; [apply (actors_update_at _ _ _ _ G)|].
    symmetry. apply (actors_update_at _ _ _ _ G).
  - rewrite G. destruct (settle _ _ _) as [r2 o2] eqn:E2.
    apply settle_fields in E2 as (A2 & _ & _ & _ & _ & P2). simpl in A2, P2.
    pose proof (spawn_fold_get_some a (env_spawn body) _ _ _ G) as G2.
    assert (A3 : actors (shift k r2) =
                 actors_update k (with_queue (tail (queue a)))
                   (foldl (spawn_child a) (actors r) (env_spawn body))).
    { simpl. rewrite A2. etrans; [apply (actors_update_at _ _ _ _ G2)|].
      symmetry. apply (actors_update_at _ _ _ _ G2). }
    simpl rejecting. simpl spawned.
    destruct (String.eqb (env_mode body) "wait") eqn:Wt; simpl.
    { destruct (persistActorState _ _ _ _) as [[r4 t4] o4] eqn:E4.
      intros [= <- <- <-]. apply persistActorState_fields in E4 as (-> & _ & _ & _ & -> & _).
      rewrite A3. simpl. rewrite P2. split; [done|set_solver]. }
    destruct (String.eqb (env_mode body) "reject") eqn:Rj.
    { destruct (rejectRemaining _ _ _) as [r4 o4] eqn:E4.
      destruct (persistActorState _ _ _ _) as [[r5 t5] o5] eqn:E5.
      intros [= <- <- <-]. apply persistActorState_fields in E5 as (-> & _ & _ & _ & -> & _).
      apply rejectRemaining_fields in E4 as (-> & _ & _ & _ & _ & ->).
      assert (Q3 : queue_of k (shift k r2) = tail (queue a)).
      { unfold queue_of. rewrite A3, actors_get_update, decide_True, G2 by done. done. }
      rewrite Q3, A3. simpl pendingResults. rewrite P2. split; [|done].
      destruct (tail (queue a)) eqn:Tl; [done|].
      rewrite actors_update_update. by apply actors_update_ext. }
    destruct (processLoop _ _ _ _) as [[r4 t4] o4] eqn:E4.
    intros [= <- <- <-]. apply processLoop_fields in E4 as (-> & _ & _ & _ & ->).
    rewrite A3. simpl. rewrite P2. split; [done|set_solver].
Qed.

Lemma afterInvoke_other_qids now it k m res r r' t o k' :
  k' <> k -> afterInvoke now it k m res r = (r', t, o) -> qids k' r' = qids k' r.
Proof.
  intros NE H. destruct (throws_or_not res) as [->|NT].
  { injection H as <- _ _. by eapply qids_update_same. }
  destruct (actors_get k (actors r)) as [a|] eqn:G.
  - destruct (afterInvoke_state _ _ _ _ _ _ _ _ _ _ G NT H) as [A _].
    rewrite (qids_update k k' _ (set_actors (fun l => foldl (spawn_child a) l (spawned res)) r) r' A).
    rewrite decide_False by done. apply spawn_fold_qids.
  - unfold afterInvoke in H. rewrite G in H. destruct res as [|st|body]; [done| |].
    + destruct (settle _ _ r) as [r1 o1] eqn:E1.
      destruct (persistActorState _ _ _ _) as [[r3 t3] o3] eqn:E3.
      injection H as <- _ _. apply settle_fields in E1 as (A1 & _).
      apply persistActorState_fields in E3 as (A3 & _).
      rewrite (qids_same _ _ _ A3). simpl.
      erewrite qids_update by reflexivity. rewrite decide_False by done.
      by apply qids_same.
    + by injection H as <- _ _.
Qed.







(** ** Timeouts *)


Lemma afterInvoke_control now it k m res r r' t o :
  afterInvoke now it k m res r = (r', t, o) ->
  tasks r' = tasks r /\ isDraining r' = isDraining r.
Proof.
  unfold afterInvoke. intros E. repeat case_match; simplify_eq; simpl;
    repeat match goal with
    | H : settle _ _ _ = _ |- _ => apply settle_fields in H as (? & ? & ? & ? & ? & ?)
    | H : persistActorState _ _ _ _ = _ |- _ =>
        apply persistActorState_fields in H as (? & ? & ? & ? & ? & ?)
    | H : processLoop _ _ _ _ = _ |- _ =>
        apply processLoop_fields in H as (? & ? & ? & ? & ?)
    | H : rejectRemaining _ _ _ = _ |- _ =>
        apply rejectRemaining_fields in H as (? & ? & ? & ? & ? & ?)
    end; simpl in *; split; congruence.
Qed.




(** ** Validation of the actor identity *)

(** C7, as stated, fails: the router's own route operation does not look
    at the presence of [actorType] or [actorId].  Sent to [/route] of a new
    router, a body without [actorType] creates the key [undefined:a1],
    enqueues the message and has it delivered. *)
Lemma route_without_type_counterexample :
  truthy (body_actorType anonymous_body) = false /\
  (handleRoute 1 (Some anonymous_body) init).2 =
    [ObsEnqueue "undefined:a1" 0%nat;
     ObsInvoke "undefined:a1" JUndefined (JString "a1")
       {| messageId := 0%nat; payload := text_payload "1"; enqueuedAt := 1 |}] /\
  qids "undefined:a1" (handleRoute 1 (Some anonymous_body) init).1 = [0%nat].
Proof. split; [reflexivity|]. split; reflexivity. Qed.

(** C7, amended.  The check is made by the worker in front of the router:
    a [/invoke] call in which [actorType] or [actorId] is missing (or
    otherwise falsy) is answered at once with the 400 validation error and
    is not forwarded, so the router state is left exactly as it was. *)
Theorem worker_rejects_missing_identity now b r :
  truthy (body_actorType b) = false \/ truthy (body_actorId b) = false ->
  step now (EvInvoke (Some b)) r = Some (r, [validation_reply]).
Proof.
  intros H. simpl. unfold worker_invoke.
  destruct H as [-> | ->]; simpl; [done|]. by rewrite orb_true_r.
Qed.

Lemma worker_rejects_missing_identity_witness :
  (truthy (body_actorType anonymous_body) = false \/
   truthy (body_actorId anonymous_body) = false) /\
  step 1 (EvInvoke (Some anonymous_body)) init = Some (init, [validation_reply]).
Proof.
  split; [left; reflexivity|].
  apply (worker_rejects_missing_identity 1 anonymous_body init).
  left. reflexivity.
Defined.

(** ** Admin reset *)

Lemma storage_get_delete k k' s :
  storage_get k' (storage_delete k s) =
  if decide (k' = k) then None else storage_get k' s.
Proof.
  induction s as [|[k0 v0] s IH]; simpl.
  - by case_decide.
  - destruct (decide (k = k0)), (decide (k' = k)); simpl;
      destruct (decide (k' = k0)); subst; try congruence;
      rewrite IH; case_decide; congruence.
Qed.

Lemma storage_get_delete_all (ks : Storage) : forall k s,
  storage_get k (foldl (fun s kv => storage_delete (fst kv) s) s ks) =
  if decide (k ∈ map fst ks) then None else storage_get k s.
Proof.
  induction ks as [|[k0 v0] ks IH]; simpl; intros k s.
  - destruct (decide (k ∈ [])) as [H|H]; [inversion H|done].
  - rewrite IH, storage_get_delete. simpl.
    destruct (decide (k ∈ map fst ks)), (decide (k = k0)),
      (decide (k ∈ k0 :: map fst ks)); subst; try done; set_solver.
Qed.

Lemma storage_get_keys k s : is_Some (storage_get k s) <-> k ∈ map fst s.
Proof.
  induction s as [|[k0 v0] s IH]; simpl.
  - split; [by intros [? ?]|intros H; inversion H].
  - case_decide; subst.
    + split; [intros _; by left|eauto].
    + rewrite IH. split; [by right|]. intros H'.
      apply elem_of_cons in H' as [?|?]; done.
Qed.

Lemma storage_list_keys prefix k s :
  k ∈ map fst (storage_list prefix s) <->
  String.prefix prefix k = true /\ is_Some (storage_get k s).
Proof.
  rewrite storage_get_keys. unfold storage_list. rewrite !list_elem_of_fmap. split.
  - intros ([k0 v0] & -> & Hin). apply list_elem_of_In, filter_In in Hin as [Hin P].
    split; [done|]. exists (k0, v0). split; [done|]. by apply list_elem_of_In.
  - intros (P & [k0 v0] & -> & Hin). exists (k0, v0). split; [done|].
    apply list_elem_of_In, filter_In. split; [by apply list_elem_of_In|done].
Qed.

Lemma prefix_app_inv s p key :
  String.prefix (s +:+ p) key = true -> exists rest, key = s +:+ rest.
Proof.
  revert key. induction s as [|c s IH]; simpl; intros key.
  - intros _. by exists key.
  - destruct key as [|c' key]; simpl; [done|].
    destruct (Ascii.ascii_dec c c') as [->|]; [|done].
    intros H. apply IH in H as [rest ->]. by exists rest.
Qed.

Lemma prefix_app_cancel s p key :
  String.prefix (s +:+ p) (s +:+ key) = String.prefix p key.
Proof.
  induction s as [|c s IH]; simpl; [done|].
  by destruct (Ascii.ascii_dec c c).
Qed.

(** The other operations leave the suspended resets alone. *)
Lemma settle_resets m resp r r' o : settle m resp r = (r', o) -> resets r' = resets r.
Proof. unfold settle. case_decide; by intros [= <- <-]. Qed.

Lemma persistActorState_resets now it k r r' t o :
  persistActorState now it k r = (r', t, o) -> resets r' = resets r.
Proof. unfold persistActorState. case_match; by intros [= <- <- <-]. Qed.

Lemma processLoop_resets now it k r r' t o :
  processLoop now it k r = (r', t, o) -> resets r' = resets r.
Proof.
  unfold processLoop. repeat case_match; try (by intros [= <- <- <-]).
  apply persistActorState_resets.
Qed.

Lemma processActorQueue_resets now it k r r' t o :
  processActorQueue now it k r = (r', t, o) -> resets r' = resets r.
Proof.
  unfold processActorQueue. repeat case_match; try (by intros [= <- <- <-]).
  intros H'. by apply processLoop_resets in H'.
Qed.

Lemma drainLoop_from_resets now entries : forall it r r' t o,
  drainLoop_from now it entries r = (r', t, o) -> resets r' = resets r.
Proof.
  induction entries as [|[k a] rest IH]; simpl; intros it r r' t o.
  - by intros [= <- <- <-].
  - repeat case_match; eauto using processActorQueue_resets.
Qed.

Lemma rejectRemaining_resets k q : forall r r' o,
  rejectRemaining k q r = (r', o) -> resets r' = resets r.
Proof.
  induction q as [|m q IH]; simpl; intros r r' o.
  - by intros [= <- <-].
  - destruct (settle _ _ _) as [r2 o2] eqn:E2.
    destruct (rejectRemaining k q r2) as [r3 o3] eqn:E3.
    intros [= <- <-]. apply settle_resets in E2. apply IH in E3.
    simpl in E2. congruence.
Qed.

Lemma afterInvoke_resets now it k m res r r' t o :
  afterInvoke now it k m res r = (r', t, o) -> resets r' = resets r.
Proof.
  unfold afterInvoke. intros E. repeat case_match; simplify_eq; simpl;
    repeat match goal with
    | H : settle _ _ _ = _ |- _ => apply settle_resets in H
    | H : persistActorState _ _ _ _ = _ |- _ => apply persistActorState_resets in H
    | H : processLoop _ _ _ _ = _ |- _ => apply processLoop_resets in H
    | H : rejectRemaining _ _ _ = _ |- _ => apply rejectRemaining_resets in H
    end; simpl in *; congruence.
Qed.

Lemma triggerDraining_resets now r r' o :
  triggerDraining now r = (r', o) -> resets r' = resets r.
Proof.
  unfold triggerDraining. destruct (isDraining r); [by intros [= <- <-]|].
  destruct (drainLoop _ _ _) as [[r1 t] o1] eqn:E. intros [= <- <-].
  unfold drainLoop in E. by apply drainLoop_from_resets in E.
Qed.

Lemma handleRoute_resets now body r r' o :
  handleRoute now body r = (r', o) -> resets r' = resets r.
Proof.
  unfold handleRoute. destruct body as [b|]; [|by intros [= <- <-]].
  destruct (lookup_or_create b r) as [r1 a] eqn:L.
  assert (R1 : resets r1 = resets r).
  { unfold lookup_or_create in L. by case_match; injection L as <- _. }
  repeat case_match; try (by intros [= <- <-]). intros [= <- <-].
  match goal with H : triggerDraining _ _ = _ |- _ =>
    apply triggerDraining_resets in H end.
  simpl in *. congruence.
Qed.

Lemma step_resets now e r r' o :
  ~ is_reset e -> step now e r = Some (r', o) -> resets r' = resets r.
Proof.
  intros NR. destruct e as [body|body|p|p|m|t res|t ok|t|t|c ok|c ok]; simpl in *;
    try (by destruct NR).
  - intros [= H]. revert H. unfold worker_invoke.
    repeat case_match; try (by intros [= <- <-]). apply handleRoute_resets.
  - intros [= H]. by eapply handleRoute_resets.
  - by intros [= <- <-].
  - intros [= H]. unfold timerFires in H. by case_decide; inversion H; subst.
  - destruct (tasks r !! t) as [[it k m|?|?|]|]; try done.
    destruct (afterInvoke _ _ _ _ _ _) as [[r1 t1] o1] eqn:E. intros [= <- <-].
    simpl. by eapply afterInvoke_resets.
  - destruct (tasks r !! t) as [[?|it k|?|]|]; try done.
    intros [= <- <-]. simpl. by put_settled.
  - destruct (tasks r !! t) as [[?|?|it|]|]; try done.
    destruct (drainLoop _ _ _) as [[r1 t1] o1] eqn:E. intros [= <- <-].
    unfold drainLoop in E. simpl. by eapply drainLoop_from_resets.
  - destruct (tasks r !! t) as [[?|?|?|]|]; try done.
    intros [= H]. unfold drainFinally in H. case_match.
    + by apply triggerDraining_resets in H.
    + by inversion H; subst.
Qed.

(** ** The log of one reset *)

Lemma reset_calls_app l1 l2 : reset_calls (l1 ++ l2) = reset_calls l1 ++ reset_calls l2.
Proof. apply flat_map_app. Qed.

Lemma reset_calls_quiet all resp : ObsReply None resp ∉ reset_calls all.
Proof.
  unfold reset_calls. intros H. apply list_elem_of_In, in_flat_map in H as (x & _ & H).
  simpl in H. by destruct H as [|[|[]]].
Qed.

Lemma log_fits_full cleared : log_fits cleared (reset_trace cleared).
Proof. by split. Qed.

Lemma log_ok_fits cleared task log : log_ok cleared task log -> log_fits cleared log.
Proof.
  destruct task as [all rest|all rest|]; simpl; [| |done].
  - intros (_ & over & key & rest' & -> & -> & ->). split.
    + unfold reset_trace. rewrite reset_calls_app. simpl. rewrite <- !app_assoc.
      apply prefix_app, prefix_cons, prefix_nil.
    + intros resp H. apply elem_of_app in H as [H|H].
      * by apply reset_calls_quiet in H.
      * apply list_elem_of_singleton in H. discriminate.
  - intros (_ & over & key & rest' & -> & -> & ->). split.
    + unfold reset_trace. rewrite reset_calls_app. simpl. rewrite <- !app_assoc.
      apply prefix_app, prefix_cons, prefix_cons, prefix_nil.
    + intros resp H. apply elem_of_app in H as [H|H].
      * by apply reset_calls_quiet in H.
      * apply elem_of_cons in H as [H|H]; [discriminate|].
        apply list_elem_of_singleton in H. discriminate.
Qed.

(** The loop head after [over] has been dealt with. *)
Lemma resetLoop_log_ok over rest t o :
  resetLoop (over ++ rest) rest = (t, o) ->
  log_ok (over ++ rest) t (reset_calls over ++ o).
Proof.
  unfold resetLoop. destruct rest as [|key rest']; intros [= <- <-]; simpl.
  - rewrite app_nil_r. apply log_fits_full.
  - split; [done|]. by exists over, key, rest'.
Qed.

Lemma reset_calls_snoc over key :
  reset_calls (over ++ [key]) = reset_calls over ++ [ObsActorReset (slice 5 key); ObsDelete key].
Proof. by rewrite reset_calls_app. Qed.

(** A step of the call itself takes its log one call further; a call that
    rejects leaves the log as it is, for good. *)
Lemma own_step_log_ok cleared c now e r r' o task log :
  resets r !! c = Some task -> log_ok cleared task log ->
  call_of e r = Some c -> step now e r = Some (r', o) ->
  exists task', resets r' !! c = Some task' /\ log_ok cleared task' (log ++ o).
Proof.
  intros L Ok Hc. pose proof (lookup_lt_Some _ _ _ L) as Lt.
  destruct e as [body|body|p|p|m|t res|t ok|t|t|c' ok|c' ok]; simpl in Hc; try done.
  - injection Hc as <-. lia.
  - injection Hc as ->. simpl. rewrite L.
    destruct task as [all rest|all rest|]; try done.
    destruct Ok as (-> & over & key & rest' & -> & E & ->).
    simpl. destruct ok; intros [= <- <-]; simpl; rewrite list_lookup_insert_eq by done;
      eexists; (split; [reflexivity|]); simpl.
    + split; [done|]. exists over, key, rest'. by rewrite <- app_assoc.
    + rewrite app_nil_r.
      apply (log_ok_fits cleared (AwaitActorReset cleared (key :: rest'))).
      split; [done|]. by exists over, key, rest'.
  - injection Hc as ->. simpl. rewrite L.
    destruct task as [all rest|all rest|]; try done.
    destruct Ok as (-> & over & key & rest' & -> & E & ->).
    simpl. destruct ok.
    + destruct (resetLoop cleared rest') as [t1 o1] eqn:RL. intros [= <- <-]. simpl.
      rewrite list_lookup_insert_eq by done. eexists. split; [reflexivity|].
      assert (E' : cleared = (over ++ [key]) ++ rest') by (by rewrite <- app_assoc).
      rewrite E' in RL |- *. apply resetLoop_log_ok in RL.
      rewrite reset_calls_snoc in RL. exact RL.
    + intros [= <- <-]. simpl. rewrite list_lookup_insert_eq by done.
      eexists. split; [reflexivity|]. rewrite app_nil_r.
      apply (log_ok_fits cleared (AwaitDelete cleared (key :: rest'))).
      split; [done|]. by exists over, key, rest'.
Qed.

(** A step of anything else does not touch the call. *)
Lemma other_step_resets c now e r r' o task :
  resets r !! c = Some task -> call_of e r <> Some c -> step now e r = Some (r', o) ->
  resets r' !! c = Some task.
Proof.
  intros L Hc. pose proof (lookup_lt_Some _ _ _ L) as Lt.
  destruct e as [body|body|p|p|m|t res|t ok|t|t|c' ok|c' ok];
    try (intros S; apply step_resets in S; [by rewrite S|by intros []]); simpl in *.
  - unfold adminReset. destruct (resetLoop _ _) as [t1 o1]. intros [= <- <-]. simpl.
    by rewrite lookup_app_l.
  - destruct (resets r !! c') as [[all rest| |]|]; try done.
    destruct (afterActorReset _ _ _) as [t1 o1]. intros [= <- <-]. simpl.
    rewrite list_lookup_insert_ne; [done|congruence].
  - destruct (resets r !! c') as [[|all rest|]|]; try done.
    destruct (afterDelete _ _ _ _) as [[r1 t1] o1] eqn:D. intros [= <- <-]. simpl.
    assert (resets r1 = resets r) as ->.
    { unfold afterDelete in D. repeat case_match; by simplify_eq. }
    rewrite list_lookup_insert_ne; [done|congruence].
Qed.

Lemma call_log_fits cleared c es : forall r task log,
  resets r !! c = Some task -> log_ok cleared task log ->
  log_fits cleared (log ++ call_log c es r).
Proof.
  induction es as [|[now e] es IH]; simpl; intros r task log L Ok.
  - rewrite app_nil_r. by eapply log_ok_fits.
  - destruct (step now e r) as [[r' o]|] eqn:S.
    2:{ rewrite app_nil_r. by eapply log_ok_fits. }
    case_decide as Hc.
    + destruct (own_step_log_ok _ _ _ _ _ _ _ _ _ L Ok Hc S) as (task' & L' & Ok').
      rewrite app_assoc. by eapply IH.
    + simpl. eapply IH; [|exact Ok]. by eapply other_step_resets.
Qed.

Lemma call_log_cons c now e es r :
  call_log c ((now, e) :: es) r =
  match step now e r with
  | Some (r', o) => (if decide (call_of e r = Some c) then o else []) ++ call_log c es r'
  | None => []
  end.
Proof. done. Qed.

(** The same along a run: the call stays where it is and its log fits. *)
Lemma run_log_ok cleared c es : forall r tr r1 tr1 task log,
  resets r !! c = Some task -> log_ok cleared task log ->
  run es r tr = Some (r1, tr1) ->
  exists task1, resets r1 !! c = Some task1 /\
    log_ok cleared task1 (log ++ call_log c es r).
Proof.
  induction es as [|[now e] es IH]; simpl; intros r tr r1 tr1 task log L Ok.
  - intros [= <- <-]. exists task. by rewrite app_nil_r.
  - destruct (step now e r) as [[r' o]|] eqn:S; [|done]. intros Run.
    case_decide as Hc.
    + destruct (own_step_log_ok _ _ _ _ _ _ _ _ _ L Ok Hc S) as (task' & L' & Ok').
      rewrite app_assoc. by eapply IH.
    + simpl. eapply IH; [|exact Ok|exact Run]. by eapply other_step_resets.
Qed.

(** Where a reset stands after its request, with the keys it runs over. *)
Lemma reset_under_way now param es r r1 tr1 :
  run ((now, EvAdminReset param) :: es) r [] = Some (r1, tr1) ->
  let cleared := map fst (storage_list ("meta:" +:+ default "" param) (storage r)) in
  exists task1, resets r1 !! length (resets r) = Some task1 /\
    log_ok cleared task1 (call_log (length (resets r)) ((now, EvAdminReset param) :: es) r).
Proof.
  intros Run cleared. revert Run. rewrite call_log_cons. cbn [run step call_of].
  unfold adminReset. fold cleared. destruct (resetLoop cleared cleared) as [t o] eqn:RL.
  rewrite decide_True by done. intros Run.
  eapply (run_log_ok cleared); [| |exact Run].
  - simpl. by rewrite lookup_app_r, Nat.sub_diag.
  - pose proof (resetLoop_log_ok [] cleared t o RL) as Ok. exact Ok.
Qed.

Lemma reset_trace_elem cleared x :
  x ∈ reset_trace cleared ->
  (exists key, key ∈ cleared /\ (x = ObsActorReset (slice 5 key) \/ x = ObsDelete key)) \/
  x = ObsReply None (json_response 200 (ResetBody cleared)).
Proof.
  unfold reset_trace, reset_calls. intros H. apply elem_of_app in H as [H|H].
  - left. apply list_elem_of_In, in_flat_map in H as (key & Hk & H).
    exists key. split; [by apply list_elem_of_In|].
    simpl in H. destruct H as [<-|[<-|[]]]; auto.
  - right. by apply list_elem_of_singleton in H.
Qed.

(** A step of the call changes the store at the keys it runs over only. *)
Lemma own_step_store cleared c now e r r' o task log :
  resets r !! c = Some task -> log_ok cleared task log ->
  call_of e r = Some c -> step now e r = Some (r', o) ->
  forall key, key ∉ cleared -> storage_get key (storage r') = storage_get key (storage r).
Proof.
  intros L Ok Hc S key Hk. pose proof (lookup_lt_Some _ _ _ L) as Lt.
  destruct e as [body|body|p|p|m|t res|t ok|t|t|c' ok|c' ok]; simpl in Hc; try done.
  - injection Hc as <-. lia.
  - injection Hc as ->. simpl in S. rewrite L in S.
    destruct task as [all rest|all rest|]; try done.
    destruct (afterActorReset all rest ok) as [t1 o1]. by injection S as <- <-.
  - injection Hc as ->. simpl in S. rewrite L in S.
    destruct task as [all rest|all rest|]; try done.
    destruct Ok as (-> & over & key0 & rest' & -> & E & _). simpl in S.
    destruct ok; [|by injection S as <- <-].
    destruct (resetLoop cleared rest') as [t1 o1]. injection S as <- <-. simpl.
    rewrite storage_get_delete. case_decide as Hd; [|done]. subst key0.
    exfalso. apply Hk. rewrite E. apply elem_of_app. right. by left.
Qed.

(** The log of a reset fits the listing it starts from. *)
Lemma reset_log_fits now param es r :
  log_fits (map fst (storage_list ("meta:" +:+ default "" param) (storage r)))
    (call_log (length (resets r)) ((now, EvAdminReset param) :: es) r).
Proof.
  set (cleared := map fst _). rewrite call_log_cons. cbn [step call_of].
  unfold adminReset. fold cleared. destruct (resetLoop cleared cleared) as [t o] eqn:RL.
  rewrite decide_True by done. eapply call_log_fits.
  - simpl. by rewrite lookup_app_r, Nat.sub_diag.
  - pose proof (resetLoop_log_ok [] cleared t o RL) as Ok. exact Ok.
Qed.

(** A listed key is a stored metadata key under the prefix. *)
Lemma listed_key p key s :
  key ∈ map fst (storage_list ("meta:" +:+ p) s) ->
  is_Some (storage_get key s) /\
  exists actorKey, key = "meta:" +:+ actorKey /\ slice 5 key = actorKey /\
    String.prefix p actorKey = true.
Proof.
  intros Hin. apply storage_list_keys in Hin as [Hp Hs]. split; [done|].
  destruct (prefix_app_inv _ _ _ Hp) as [rest ->]. exists rest.
  split; [done|]. split; [done|]. by rewrite prefix_app_cancel in Hp.
Qed.

(** The two awaited calls of a reset when they resolve. *)
Lemma step_actor_reset_done c all key rest now r :
  resets r !! c = Some (AwaitActorReset all (key :: rest)) ->
  step now (EvActorResetDone c true) r =
    Some (set_resets (fun cs => <[c := AwaitDelete all (key :: rest)]> cs) r,
          [ObsDelete key]).
Proof. intros L. simpl. by rewrite L. Qed.

Lemma step_delete_done c all key rest now r :
  resets r !! c = Some (AwaitDelete all (key :: rest)) ->
  step now (EvDeleteDone c true) r =
    Some (set_resets (fun cs => <[c := (resetLoop all rest).1]> cs)
            (set_storage (storage_delete key) r),
          (resetLoop all rest).2).
Proof. intros L. simpl. rewrite L. simpl. by destruct (resetLoop all rest). Qed.

Lemma resolve_all_cons c key rest :
  resolve_all c (key :: rest) =
  (0, EvActorResetDone c true) :: (0, EvDeleteDone c true) :: resolve_all c rest.
Proof. done. Qed.

(** When every awaited call resolves, the reset gets to its response. *)
Lemma call_log_resolve_all all c rest : forall r,
  resets r !! c = Some (resetLoop all rest).1 ->
  (resetLoop all rest).2 ++ call_log c (resolve_all c rest) r =
    reset_calls rest ++ [ObsReply None (json_response 200 (ResetBody all))].
Proof.
  induction rest as [|key rest IH]; intros r L; [done|].
  pose proof (lookup_lt_Some _ _ _ L) as Lt.
  change (resetLoop all (key :: rest))
    with (AwaitActorReset all (key :: rest), [ObsActorReset (slice 5 key)]) in L |- *.
  cbn [fst snd] in L |- *.
  rewrite resolve_all_cons, call_log_cons, (step_actor_reset_done _ _ _ _ _ _ L).
  cbn [call_of]. rewrite decide_True by done.
  rewrite call_log_cons, (step_delete_done c all key rest).
  2:{ simpl. by rewrite list_lookup_insert_eq. }
  cbn [call_of]. rewrite decide_True by done.
  rewrite IH.
  2:{ simpl. rewrite list_lookup_insert_eq; [done|]. by rewrite length_insert. }
  done.
Qed.

(** C9, as stated, fails: [cleared] holds the storage keys, which carry
    the [meta:] prefix, not the actor keys.  After one message for
    [room:r1] has been processed, a reset of [room:] whose awaited calls
    resolve answers [cleared: ["meta:room:r1"]]. *)
Lemma admin_reset_counterexample :
  (after reset_rooms).2 =
    (after demo_persist).2 ++
    [ObsActorReset "room:r1"; ObsDelete "meta:room:r1";
     ObsReply None (json_response 200 (ResetBody ["meta:room:r1"]))] /\
  storage (after reset_rooms).1 = [] /\
  ["meta:room:r1"] <> ["room:r1"].
Proof. split; [reflexivity|]. split; [reflexivity|discriminate]. Qed.

(** C9, amended.  Take an admin reset that arrives in any state, and let
    [cleared] be the storage keys under the prefix at that moment, in the
    order of the listing.  Whatever else the router does while the reset
    is suspended, and whichever of its awaited calls reject, what the
    reset does is the beginning of: for each key of [cleared] in turn, ask
    the activation behind it to reset and call [storage.delete] for it;
    then answer [{ok: true, cleared}].  If the reset answers at all, it
    has done all of that, and it does answer when every call it awaits
    resolves.  Every key of [cleared] is a stored metadata key, the actor
    key behind the [meta:] prefix, and a delete that resolves leaves no
    entry under its key. *)
Theorem admin_reset_cleared now param es r :
  let c := length (resets r) in
  let cleared := map fst (storage_list ("meta:" +:+ default "" param) (storage r)) in
  let log := call_log c ((now, EvAdminReset param) :: es) r in
  log `prefix_of` reset_trace cleared /\
  (forall resp, ObsReply None resp ∈ log -> log = reset_trace cleared) /\
  call_log c ((now, EvAdminReset param) :: resolve_all c cleared) r =
    reset_trace cleared /\
  (forall key, key ∈ cleared ->
     is_Some (storage_get key (storage r)) /\
     exists actorKey, key = "meta:" +:+ actorKey /\ slice 5 key = actorKey) /\
  (forall c1 r1 all key rest now1 r2 o,
     resets r1 !! c1 = Some (AwaitDelete all (key :: rest)) ->
     step now1 (EvDeleteDone c1 true) r1 = Some (r2, o) ->
     storage_get key (storage r2) = None).
Proof.
  intros c cleared log.
  assert (St : forall es', call_log c ((now, EvAdminReset param) :: es') r =
    (resetLoop cleared cleared).2 ++
    call_log c es' (set_resets (fun ts => ts ++ [(resetLoop cleared cleared).1]) r)).
  { intros es'. simpl. unfold adminReset. fold cleared.
    destruct (resetLoop cleared cleared) as [t o]. by rewrite decide_True. }
  assert (L : forall t, (set_resets (fun ts => ts ++ [t]) r).(resets) !! c = Some t).
  { intros t. simpl. by rewrite lookup_app_r, Nat.sub_diag. }
  assert (F : log_fits cleared log).
  { unfold log. rewrite St. eapply call_log_fits; [apply L|].
    pose proof (resetLoop_log_ok [] cleared) as Ok. simpl in Ok. apply Ok.
    by destruct (resetLoop cleared cleared). }
  split; [apply F|]. split; [apply F|]. split; [|split].
  - rewrite St. apply call_log_resolve_all, L.
  - intros key Hin. pose proof Hin as Hp.
    apply storage_list_keys in Hp as [Hp Hs]. split; [done|].
    apply prefix_app_inv in Hp as [rest ->]. by exists rest.
  - intros c1 r1 all key rest now1 r2 o L1. simpl. rewrite L1. simpl.
    destruct (resetLoop all rest) as [t1 o1]. intros [= <- <-]. simpl.
    rewrite storage_get_delete. by rewrite decide_True.
Qed.

Lemma admin_reset_cleared_witness :
  let r := (after (demo_persist ++ [(6, EvAdminReset (Some "room:"))])).1 in
  resets r !! 0%nat = Some (AwaitActorReset ["meta:room:r1"] ["meta:room:r1"]) /\
  call_log 0 ((6, EvAdminReset (Some "room:")) :: reset_rooms_disturbed)
    (after demo_persist).1 =
    reset_trace ["meta:room:r1"] /\
  is_Some (storage_get "meta:room:r1"
    (storage (after (demo_persist ++ (6, EvAdminReset (Some "room:"))
                                  :: reset_rooms_disturbed)).1)).
Proof.
  split; [reflexivity|]. split.
  - apply (proj1 (proj2 (admin_reset_cleared 6 (Some "room:") reset_rooms_disturbed
                           (after demo_persist).1))
             (json_response 200 (ResetBody ["meta:room:r1"]))).
    apply list_elem_of_lookup. exists 2%nat. reflexivity.
  - eexists. reflexivity.
Defined.

(** ** The status snapshot *)

Lemma statusMap_get_set k k' e m :
  statusMap_get k' (statusMap_set k e m) =
  if decide (k' = k) then Some e else statusMap_get k' m.
Proof.
  induction m as [|[k0 e0] m IH]; simpl.
  - repeat case_decide; congruence.
  - destruct (decide (k = k0)), (decide (k' = k)); simpl;
      destruct (decide (k' = k0)); subst; try congruence;
      rewrite IH; case_decide; congruence.
Qed.

Lemma statusMap_get_elem k e m : statusMap_get k m = Some e -> e ∈ map snd m.
Proof.
  induction m as [|[k0 e0] m IH]; simpl; [done|].
  case_decide; [intros [= ->]; by left|]. intros H'. right. auto.
Qed.

Lemma status_merge_other pfx m a k :
  actorKey a <> k -> statusMap_get k (status_merge pfx m a) = statusMap_get k m.
Proof.
  intros NE. unfold status_merge. repeat case_match; auto;
    rewrite statusMap_get_set; by rewrite decide_False.
Qed.

Lemma status_merge_fold_other pfx l : forall m k,
  (forall a, a ∈ l -> actorKey a <> k) ->
  statusMap_get k (foldl (status_merge pfx) m l) = statusMap_get k m.
Proof.
  induction l as [|a l IH]; simpl; intros m k H; [done|].
  rewrite IH.
  - apply status_merge_other, H. by left.
  - intros a' Ha'. apply H. by right.
Qed.

Lemma status_merge_self pfx m a :
  listed pfx a ->
  exists e, statusMap_get (actorKey a) (status_merge pfx m a) = Some e /\ reports e a.
Proof.
  intros L. unfold status_merge.
  assert (negb (String.eqb pfx "") && negb (String.prefix pfx (actorKey a)) = false) as ->.
  { destruct L as [->| ->]; [done|]. by rewrite andb_false_r. }
  destruct (statusMap_get (actorKey a) m) as [e0|];
    rewrite statusMap_get_set, decide_True by done; eexists; split; eauto;
    repeat split.
Qed.

Lemma status_merge_fold pfx l : forall m a,
  NoDup (map actorKey l) -> a ∈ l -> listed pfx a ->
  exists e, statusMap_get (actorKey a) (foldl (status_merge pfx) m l) = Some e /\
            reports e a.
Proof.
  induction l as [|a0 l IH]; simpl; intros m a ND Hin L; [inversion Hin|].
  apply NoDup_cons in ND as [Hnotin ND].
  apply elem_of_cons in Hin as [->|Hin]; [|by apply IH].
  destruct (status_merge_self pfx m a0 L) as (e & G & Rp).
  exists e. split; [|done]. rewrite status_merge_fold_other; [done|].
  intros a' Ha' E. apply Hnotin. rewrite <- E. by apply list_elem_of_fmap_2.
Qed.

Lemma actors_get_elem k a l : actors_get k l = Some a -> (k, a) ∈ l.
Proof.
  induction l as [|[k0 a0] l IH]; simpl; [done|].
  case_decide; [intros [= ->]; subst; by left|]. intros G. right. auto.
Qed.

Lemma actors_elem_get k a l : NoDup (map fst l) -> (k, a) ∈ l -> actors_get k l = Some a.
Proof.
  induction l as [|[k0 a0] l IH]; simpl; intros ND Hin; [inversion Hin|].
  apply NoDup_cons in ND as [Hnotin ND].
  apply elem_of_cons in Hin as [[= -> ->]|Hin]; [by rewrite decide_True|].
  case_decide; subst; [|auto].
  exfalso. apply Hnotin. by apply (list_elem_of_fmap_2 fst _ (k0, a)).
Qed.

Lemma actors_wf_keys l : actors_wf l -> map actorKey (map snd l) = map fst l.
Proof.
  intros [ND W]. rewrite <- list_fmap_compose. apply list_fmap_ext.
  intros i [k a] Hi. simpl.
  apply list_elem_of_lookup_2, (actors_elem_get _ _ _ ND), W in Hi. tauto.
Qed.

(** [handleStatus] reports every live actor state that passes the prefix
    filter, with the live values and [fromMemory] set. *)
Lemma status_lists param r k a :
  actors_wf (actors r) -> actors_get k (actors r) = Some a ->
  listed (default "" param) a ->
  exists e, e ∈ status_snapshot param r /\ st_actorKey e = actorKey a /\ reports e a.
Proof.
  intros W G L. unfold status_snapshot.
  set (m0 := foldl _ [] _).
  assert (K : forall (l : list ActorQueueState) m,
            (forall k e, statusMap_get k m = Some e -> st_actorKey e = k) ->
            forall k e, statusMap_get k (foldl (status_merge (default "" param)) m l) = Some e ->
                        st_actorKey e = k).
  { induction l as [|a0 l IH]; simpl; intros m Hm; [done|]. apply IH.
    intros k' e'. unfold status_merge. repeat case_match; auto;
      rewrite statusMap_get_set; case_decide; subst; auto; intros [= <-]; simpl; auto. }
  assert (K0 : forall k e, statusMap_get k m0 = Some e -> st_actorKey e = k).
  { subst m0. generalize (storage_list ("meta:" +:+ default "" param) (storage r)).
    intros l. assert (H0 : forall k e, statusMap_get k [] = Some e -> st_actorKey e = k)
      by done. revert H0. generalize (@nil (string * StatusEntry)).
    induction l as [|[key meta] l IH]; simpl; intros m Hm; [done|]. apply IH.
    intros k' e'. rewrite statusMap_get_set. case_decide; subst; auto.
    by intros [= <-]. }
  destruct (status_merge_fold (default "" param) (map snd (actors r)) m0 a)
    as (e & Ge & Rp); auto.
  - rewrite actors_wf_keys by done. by destruct W.
  - apply actors_get_elem in G. by apply (list_elem_of_fmap_2 snd _ (k, a)).
  - exists e. split; [by eapply statusMap_get_elem|]. split; [|done]. eauto.
Qed.

(** ** Entries left behind by rejected submissions *)

Lemma triggerDraining_keeps now r r' o k :
  triggerDraining now r = (r', o) ->
  is_Some (actors_get k (actors r)) -> is_Some (actors_get k (actors r')).
Proof.
  unfold triggerDraining. destruct (isDraining r); [by intros [= <- <-]|].
  destruct (drainLoop _ _ _) as [[r1 t] o1] eqn:E. intros [= <- <-].
  unfold drainLoop in E. apply drainLoop_from_fields in E as ([A|[k' A]] & _);
    simpl in *; rewrite A; [done|].
  intros [a G]. rewrite actors_get_update. case_decide; subst; rewrite ?G; eauto.
Qed.

(** C10.  A route call for a key the router does not know yet inserts a
    fresh idle state for it before the admission checks, whatever the
    outcome of the call.  When the call is rejected with PayloadTooLarge or
    QueueFull, that state is all the call leaves behind, and a status call
    whose prefix the key matches reports it with [fromMemory] true, queue
    length 0 and [busy] false. *)
Theorem rejected_route_leaves_entry r tr now b param :
  reachable r tr ->
  actors_get (body_key b) (actors r) = None ->
  is_Some (actors_get (body_key b) (actors (handleRoute now (Some b) r).1)) /\
  ((handleRoute now (Some b) r).2 = [payload_too_large_reply] \/
   (handleRoute now (Some b) r).2 = [queue_full_reply] ->
   (handleRoute now (Some b) r).1 =
     set_actors (fun l => l ++ [(body_key b,
                   fresh_actor (body_key b) (body_actorType b) (body_actorId b)
                     default_policy)]) r /\
   (default "" param = "" \/ String.prefix (default "" param) (body_key b) = true ->
    exists e, e ∈ status_snapshot param (handleRoute now (Some b) r).1 /\
      st_actorKey e = body_key b /\ fromMemory e = true /\
      st_queueLength e = 0%nat /\ st_busy e = false)).
Proof.
  intros R G. pose proof (reachable_wf _ _ R) as W.
  set (a := fresh_actor (body_key b) (body_actorType b) (body_actorId b) default_policy).
  set (r1 := set_actors (fun l => l ++ [(body_key b, a)]) r).
  assert (L : lookup_or_create b r = (r1, a)).
  { unfold lookup_or_create. fold (body_key b). rewrite G. simpl. fold a.
    unfold r1, set_actors. by rewrite actors_set_none. }
  assert (G1 : actors_get (body_key b) (actors r1) = Some a).
  { simpl. rewrite actors_get_app_fresh by done. by rewrite decide_True. }
  assert (W1 : actors_wf (actors r1)) by (by eapply lookup_or_create_wf).
  unfold handleRoute. rewrite L. fold (body_key b).
  destruct (_ >? _); [|destruct (_ >=? _)]; cbn [fst snd].
  - split; [by rewrite G1|]. intros _. split; [done|]. intros Hl.
    destruct (status_lists param r1 _ a W1 G1 Hl) as (e & He & K & Rb & Rq & _ & Rm).
    exists e. auto.
  - split; [by rewrite G1|]. intros _. split; [done|]. intros Hl.
    destruct (status_lists param r1 _ a W1 G1 Hl) as (e & He & K & Rb & Rq & _ & Rm).
    exists e. auto.
  - destruct (triggerDraining _ _) as [r2 o2] eqn:T. cbn [fst snd]. split.
    + eapply triggerDraining_keeps; [exact T|]. simpl.
      rewrite actors_get_update, decide_True by done.
      rewrite actors_get_app_fresh by done. rewrite decide_True by done. eauto.
    + intros [H|H]; discriminate.
Qed.

Lemma rejected_route_leaves_entry_witness :
  reachable init [] /\
  actors_get (body_key oversize_body) (actors init) = None /\
  (handleRoute 1 (Some oversize_body) init).2 = [payload_too_large_reply] /\
  exists e, e ∈ status_snapshot None (handleRoute 1 (Some oversize_body) init).1 /\
    st_actorKey e = "room:r9" /\ fromMemory e = true /\
    st_queueLength e = 0%nat /\ st_busy e = false.
Proof.
  split; [apply reach_init|]. split; [reflexivity|].
  assert (E : (handleRoute 1 (Some oversize_body) init).2 = [payload_too_large_reply])
    by (vm_compute; reflexivity).
  split; [exact E|].
  destruct (rejected_route_leaves_entry init [] 1 oversize_body None reach_init eq_refl)
    as [_ H].
  destruct (H (or_introl E)) as [_ H']. apply H'. left. reflexivity.
Defined.

(** ** Spawn hints *)

Lemma append_inj s a b : s +:+ a = s +:+ b -> a = b.
Proof. induction s as [|c s IH]; simpl; [done|]. intros [= H]. auto. Qed.

Lemma make_key_inj ty c c' :
  make_key ty (JString c) = make_key ty (JString c') -> c = c'.
Proof. unfold make_key. simpl. intros H. by apply append_inj, append_inj in H. Qed.

Lemma prefix_make_key ty c :
  String.prefix (to_str ty +:+ ":") (make_key ty (JString c)) = true.
Proof.
  unfold make_key. simpl. induction (to_str ty) as [|x s IH]; simpl.
  - by destruct c.
  - by destruct (Ascii.ascii_dec x x).
Qed.

Lemma spawn_fold_registers p cs c : forall l,
  c ∈ cs -> actors_get (make_key (actorType p) (JString c)) l = None ->
  actors_get (make_key (actorType p) (JString c)) (foldl (spawn_child p) l cs) =
  Some (fresh_actor (make_key (actorType p) (JString c)) (actorType p) (JString c)
          (policy p)).
Proof.
  induction cs as [|c0 cs IH]; simpl; intros l Hin G; [inversion Hin|].
  destruct (decide (c0 = c)) as [->|NE].
  - apply spawn_fold_get_some. rewrite spawn_child_get, G. by rewrite decide_True.
  - apply elem_of_cons in Hin as [->|Hin]; [done|]. apply IH; [done|].
    rewrite spawn_child_get, G. rewrite decide_False; [done|].
    intros E. by apply make_key_inj in E.
Qed.

Lemma processLoop_invokes now it k r r' t o k' ty id msg :
  processLoop now it k r = (r', t, o) -> ObsInvoke k' ty id msg ∈ o -> k' = k.
Proof.
  unfold processLoop. repeat case_match.
  - intros H' Hin. apply persistActorState_quiet in H'.
    rewrite Forall_forall in H'. by apply H' in Hin.
  - intros [= <- <- <-] Hin. apply list_elem_of_singleton in Hin. congruence.
  - intros [= <- <- <-] Hin. inversion Hin.
Qed.

(** An answered call sends follow-up calls to its own key only. *)
Lemma afterInvoke_invokes now it k m res r r' t o k' ty id msg :
  afterInvoke now it k m res r = (r', t, o) -> ObsInvoke k' ty id msg ∈ o -> k' = k.
Proof.
  assert (Q : forall o, Forall quiet o -> ObsInvoke k' ty id msg ∈ o -> False).
  { intros o0 F Hin. rewrite Forall_forall in F. by apply F in Hin. }
  unfold afterInvoke. repeat case_match; intros [= <- <- <-] Hin;
    repeat (apply elem_of_app in Hin as [Hin|Hin]);
    try (by inversion Hin);
    try solve [exfalso; eapply Q; [|exact Hin];
               eauto using settle_quiet, persistActorState_quiet, rejectRemaining_quiet];
    eauto using processLoop_invokes.
Qed.

(** C5, as stated, fails: the child is registered under the type of the
    parent.  After [teacher:t1] has returned [spawn: ["q1"]] the router
    knows [teacher:t1] and [teacher:q1]; there is no [question:q1], and
    [status("question:")] lists nothing. *)
Lemma spawn_counterexample :
  reachable (after demo_spawn).1 (after demo_spawn).2 /\
  map fst (actors (after demo_spawn).1) = ["teacher:t1"; "teacher:q1"] /\
  actors_get "question:q1" (actors (after demo_spawn).1) = None /\
  status_snapshot (Some "question:") (after demo_spawn).1 = [].
Proof.
  split; [apply after_reachable|]. split; [reflexivity|]. split; reflexivity.
Qed.

(** C5, amended.  When the handler of the key [k] (say [teacher:t1])
    returns a spawn list containing [c] (say [q1]) and the router has no
    state yet for the key made of the parent's type and [c]
    ([teacher:q1]), the drain cycle registers an idle state with an empty
    queue and the parent's policy under that key; a status call for the
    parent's type lists it with queue length 0, [busy] false and
    [fromMemory] true; and the step sends no addressed call to it. *)
Theorem spawn_registers_sibling r tr now t it k m body a c r' o :
  reachable r tr ->
  tasks r !! t = Some (AwaitInvoke it k m) ->
  actors_get k (actors r) = Some a ->
  c ∈ env_spawn body ->
  actors_get (make_key (actorType a) (JString c)) (actors r) = None ->
  step now (EvInvokeDone t (RespOk body)) r = Some (r', o) ->
  actors_get (make_key (actorType a) (JString c)) (actors r') =
    Some (fresh_actor (make_key (actorType a) (JString c)) (actorType a) (JString c)
            (policy a)) /\
  (exists e, e ∈ status_snapshot (Some (to_str (actorType a) +:+ ":")) r' /\
     st_actorKey e = make_key (actorType a) (JString c) /\
     st_queueLength e = 0%nat /\ st_busy e = false /\ fromMemory e = true) /\
  (forall ty id msg, ObsInvoke (make_key (actorType a) (JString c)) ty id msg ∉ o).
Proof.
  intros R L G Hc Gc S.
  pose proof (step_wf _ _ _ _ _ (reachable_wf _ _ R) S) as W'.
  unfold step in S. rewrite L in S.
  destruct (afterInvoke _ _ _ _ _ _) as [[r1 t1] o1] eqn:E.
  unfold replace_task in S. injection S as <- <-.
  assert (NE : make_key (actorType a) (JString c) <> k) by congruence.
  assert (G' : actors_get (make_key (actorType a) (JString c)) (actors r1) =
               Some (fresh_actor (make_key (actorType a) (JString c)) (actorType a)
                       (JString c) (policy a))).
  { assert (NT : RespOk body <> FetchThrows) by done.
    destruct (afterInvoke_state _ _ _ _ _ _ _ _ _ _ G NT E) as [-> _].
    rewrite actors_get_update, decide_False by done.
    by apply spawn_fold_registers. }
  split; [exact G'|]. split.
  - destruct (status_lists (Some (to_str (actorType a) +:+ ":"))
                (set_tasks (fun ts => <[t:=t1]> ts) r1) _ _ W' G')
      as (e & He & K & Rb & Rq & _ & Rm).
    + right. apply prefix_make_key.
    + exists e. auto.
  - intros ty id msg Hin. apply NE. eapply afterInvoke_invokes; eauto.
Qed.

Lemma spawn_registers_sibling_witness :
  reachable (after (take 1 demo_spawn)).1 (after (take 1 demo_spawn)).2 /\
  step 2 (EvInvokeDone 0 (RespOk (Some {| result := None; nextPolicy := None;
                                          spawn := Some ["q1"] |})))
    (after (take 1 demo_spawn)).1
  = Some ((after (take 2 demo_spawn)).1, drop 2 (after (take 2 demo_spawn)).2) /\
  exists e, e ∈ status_snapshot (Some "teacher:") (after (take 2 demo_spawn)).1 /\
    st_actorKey e = "teacher:q1" /\ st_queueLength e = 0%nat /\
    st_busy e = false /\ fromMemory e = true.
Proof.
  assert (S : step 2 (EvInvokeDone 0 (RespOk (Some {| result := None; nextPolicy := None;
                                                      spawn := Some ["q1"] |})))
                (after (take 1 demo_spawn)).1
              = Some ((after (take 2 demo_spawn)).1, drop 2 (after (take 2 demo_spawn)).2))
    by (vm_compute; reflexivity).
  split; [apply after_reachable|]. split; [exact S|].
  exact (proj1 (proj2
    (spawn_registers_sibling _ _ 2 0%nat 1%nat "teacher:t1"
       {| messageId := 0%nat; payload := text_payload "1"; enqueuedAt := 1 |}
       (Some {| result := None; nextPolicy := None; spawn := Some ["q1"] |})
       {| actorKey := "teacher:t1"; actorType := JString "teacher";
          actorId := JString "t1"; busy := true;
          queue := [{| messageId := 0%nat; payload := text_payload "1";
                       enqueuedAt := 1 |}];
          policy := default_policy |}
       "q1" _ _ (after_reachable (take 1 demo_spawn))
       eq_refl eq_refl (list_elem_of_here _ _) eq_refl S))).
Defined.

(** ** The [reject] continuation *)





(** *** Iterator positions *)

Lemma keeps_positions_refl l : keeps_positions l l.
Proof. intros i k a H. eauto. Qed.

Lemma keeps_positions_trans l1 l2 l3 :
  keeps_positions l1 l2 -> keeps_positions l2 l3 -> keeps_positions l1 l3.
Proof. intros H1 H2 i k a H. apply H1 in H as [a' H]. eauto. Qed.

Lemma keeps_positions_update k f l : keeps_positions l (actors_update k f l).
Proof.
  induction l as [|[k0 a0] l IH]; intros i k' a; [done|]. simpl.
  case_decide; subst.
  - destruct i; simpl; [intros [= -> ->]|]; eauto.
  - destruct i; simpl; [intros [= -> ->]; eauto|]. apply IH.
Qed.

Lemma keeps_positions_app l l2 : keeps_positions l (l ++ l2).
Proof. intros i k a H. exists a. by apply lookup_app_l_Some. Qed.

Lemma keeps_positions_spawn p cs : forall l,
  keeps_positions l (foldl (spawn_child p) l cs).
Proof.
  induction cs as [|c cs IH]; simpl; intros l; [apply keeps_positions_refl|].
  eapply keeps_positions_trans; [|apply IH]. unfold spawn_child.
  destruct (actors_get _ l) eqn:G; [apply keeps_positions_refl|].
  rewrite actors_set_none by done. apply keeps_positions_app.
Qed.

Lemma beyond_keeps k it l l' : keeps_positions l l' -> beyond k it l -> beyond k it l'.
Proof. intros K (i & a & Lt & H). apply K in H as [a' H]. exists i, a'. auto. Qed.

Lemma task_at_keeps l l' t : keeps_positions l l' -> task_at l t -> task_at l' t.
Proof.
  intros K. destruct t as [it k m|it k|it|]; simpl; auto;
    intros (i & a & -> & H); apply K in H as [a' H]; eauto.
Qed.

Lemma position_unique (l : ActorMap) i j k a a' :
  NoDup (map fst l) -> l !! i = Some (k, a) -> l !! j = Some (k, a') -> i = j.
Proof.
  intros ND Hi Hj. apply (NoDup_lookup (map fst l) i j k ND).
  - change (map fst l) with (fst <$> l). by rewrite list_lookup_fmap, Hi.
  - change (map fst l) with (fst <$> l). by rewrite list_lookup_fmap, Hj.
Qed.

Lemma drop_cons_inv {A} (l : list A) it x rest :
  drop it l = x :: rest -> l !! it = Some x /\ drop (S it) l = rest.
Proof.
  intros H. split.
  - pose proof (lookup_drop l it 0) as E. rewrite H, Nat.add_0_r in E. by rewrite <- E.
  - replace (S it) with (it + 1)%nat by lia. by rewrite <- drop_drop, H.
Qed.

Lemma processLoop_task now it k r r' t o :
  processLoop now it k r = (r', t, o) ->
  t = AwaitPersist it k \/ (exists m, t = AwaitInvoke it k m) \/ t = AwaitProcess it.
Proof.
  unfold processLoop. repeat case_match; try (intros [= <- <- <-]; by eauto).
  intros H'. apply persistActorState_fields in H' as (_ & _ & _ & _ & _ & ->). auto.
Qed.

Lemma processActorQueue_task now it k r r' t o :
  processActorQueue now it k r = (r', t, o) ->
  t = AwaitPersist it k \/ (exists m, t = AwaitInvoke it k m) \/ t = AwaitProcess it.
Proof.
  unfold processActorQueue. repeat case_match; try (intros [= <- <- <-]; by eauto).
  apply processLoop_task.
Qed.

Lemma afterInvoke_task now it k m res r r' t o :
  afterInvoke now it k m res r = (r', t, o) ->
  t = Settled \/ t = AwaitPersist it k \/ (exists m', t = AwaitInvoke it k m') \/
  t = AwaitProcess it.
Proof.
  unfold afterInvoke. repeat case_match; intros [= <- <- <-]; auto;
    repeat match goal with
    | H : persistActorState _ _ _ _ = _ |- _ =>
        apply persistActorState_fields in H as (_ & _ & _ & _ & _ & ->)
    | H : processLoop _ _ _ _ = _ |- _ =>
        apply processLoop_task in H as [->|[[? ->]| ->]]
    end; eauto.
Qed.

(** Where [drainLoop] suspends: at a key at or after the position it was
    resumed at. *)
Lemma drainLoop_from_position now entries : forall it r r' t o,
  entries = drop it (actors r) ->
  drainLoop_from now it entries r = (r', t, o) ->
  keeps_positions (actors r) (actors r') /\
  (forall k' ty id m, ObsInvoke k' ty id m ∈ o ->
     exists i a, (it <= i)%nat /\ actors r !! i = Some (k', a)) /\
  match t with
  | AwaitInvoke it' k' _ | AwaitPersist it' k' =>
      exists i a, it' = S i /\ (it <= i)%nat /\ actors r !! i = Some (k', a)
  | AwaitProcess it' => (it < it')%nat
  | Settled => True
  end.
Proof.
  induction entries as [|[k a] rest IH]; simpl; intros it r r' t o E.
  - intros [= <- <- <-]. split; [apply keeps_positions_refl|]. split; [|done].
    intros k' ty id m H. inversion H.
  - symmetry in E. apply drop_cons_inv in E as [Hit Hrest].
    assert (Next : forall r' t o,
      drainLoop_from now (S it) rest r = (r', t, o) ->
      keeps_positions (actors r) (actors r') /\
      (forall k' ty id m, ObsInvoke k' ty id m ∈ o ->
         exists i a, (it <= i)%nat /\ actors r !! i = Some (k', a)) /\
      match t with
      | AwaitInvoke it' k' _ | AwaitPersist it' k' =>
          exists i a, it' = S i /\ (it <= i)%nat /\ actors r !! i = Some (k', a)
      | AwaitProcess it' => (it < it')%nat
      | Settled => True
      end).
    { intros r0 t0 o0 H. apply IH in H as (K & I & T); [|done].
      split; [done|]. split.
      - intros k' ty id m Hin. destruct (I _ _ _ _ Hin) as (i & a' & ? & ?).
        exists i, a'. split; [lia|done].
      - destruct t0 as [it' k' m'|it' k'|it'|]; auto; try lia;
          destruct T as (i & a' & -> & ? & ?); exists i, a'; repeat split; auto; lia. }
    destruct (busy a); [apply Next|].
    destruct (length (queue a) =? 0)%nat; [apply Next|].
    clear Next IH. intros H.
    assert (K : keeps_positions (actors r) (actors r')).
    { apply processActorQueue_fields in H as ([->| ->] & _);
        [apply keeps_positions_refl|apply keeps_positions_update]. }
    split; [done|]. split.
    + intros k' ty id m Hin. revert H Hin. unfold processActorQueue.
      repeat case_match; try (intros [= <- <- <-] Hin; by inversion Hin).
      intros HL Hin. apply (processLoop_invokes _ _ _ _ _ _ _ _ _ _ _ HL) in Hin.
      subst. eauto.
    + apply processActorQueue_task in H as [->|[[m ->]| ->]]; eauto 10.
Qed.

Lemma afterInvoke_positions now it k m res r r' t o :
  control_ok r -> afterInvoke now it k m res r = (r', t, o) ->
  (exists a, actors_get k (actors r) = Some a) ->
  keeps_positions (actors r) (actors r') /\
  match t with
  | AwaitInvoke it' k' _ | AwaitPersist it' k' => it' = it /\ k' = k
  | _ => True
  end.
Proof.
  intros C E [a G]. split.
  - destruct (throws_or_not res) as [->|NT].
    + injection E as <- _ _. apply keeps_positions_update.
    + destruct (afterInvoke_state _ _ _ _ _ _ _ _ _ _ G NT E) as [-> _].
      eapply keeps_positions_trans;
        [apply keeps_positions_spawn|apply keeps_positions_update].
  - apply afterInvoke_task in E as [->|[->|[[m' ->]| ->]]]; auto.
Qed.

Lemma triggerDraining_positions now r r' o :
  triggerDraining now r = (r', o) ->
  keeps_positions (actors r) (actors r') /\
  forall t, t ∈ tasks r' -> t ∈ tasks r \/ task_at (actors r') t.
Proof.
  unfold triggerDraining. destruct (isDraining r).
  { intros [= <- <-]. split; [apply keeps_positions_refl|auto]. }
  destruct (drainLoop _ _ _) as [[r1 t1] o1] eqn:E. intros [= <- <-].
  unfold drainLoop in E. pose proof E as F.
  apply drainLoop_from_position in E as (K & _ & T); [|done].
  apply drainLoop_from_fields in F as (_ & T1 & _).
  simpl in *. split; [done|]. intros t Ht. rewrite T1 in Ht.
  apply elem_of_app in Ht as [?|Ht]; [by left|]. right.
  apply list_elem_of_singleton in Ht. subst t.
  destruct t1 as [it' k' m'|it' k'|it'|]; simpl; auto;
    destruct T as (i & a & -> & _ & H); apply K in H as [a' H]; eauto.
Qed.

(** Every step keeps the keys at their positions and leaves each task
    right behind the key it processes. *)
Lemma step_positions now e r r' o :
  control_ok r -> (forall t, t ∈ tasks r -> task_at (actors r) t) ->
  step now e r = Some (r', o) ->
  keeps_positions (actors r) (actors r') /\
  (forall t, t ∈ tasks r' -> task_at (actors r') t).
Proof.
  intros C P.
  assert (Same : forall r', tasks r' = tasks r ->
            keeps_positions (actors r) (actors r') ->
            keeps_positions (actors r) (actors r') /\
            (forall t, t ∈ tasks r' -> task_at (actors r') t)).
  { intros r0 T K. split; [done|]. intros t Ht. rewrite T in Ht.
    eauto using task_at_keeps. }
  assert (Trig : forall r0 r1 o1, keeps_positions (actors r) (actors r0) ->
            (forall t, t ∈ tasks r0 -> t ∈ tasks r) ->
            triggerDraining now r0 = (r1, o1) ->
            keeps_positions (actors r) (actors r1) /\
            (forall t, t ∈ tasks r1 -> task_at (actors r1) t)).
  { intros r0 r1 o1 K Sub T. apply triggerDraining_positions in T as [K1 T1].
    split; [eauto using keeps_positions_trans|]. intros t Ht.
    destruct (T1 t Ht) as [Ht0|?]; [|done].
    apply (task_at_keeps (actors r)); [exact (keeps_positions_trans _ _ _ K K1)|].
    apply P, Sub, Ht0. }
  assert (Route : forall body r1 o1, handleRoute now body r = (r1, o1) ->
            keeps_positions (actors r) (actors r1) /\
            (forall t, t ∈ tasks r1 -> task_at (actors r1) t)).
  { intros body r1 o1. unfold handleRoute. destruct body as [b|].
    2:{ intros [= <- <-]. apply Same; [done|apply keeps_positions_refl]. }
    destruct (lookup_or_create b r) as [r0 a] eqn:L.
    apply lookup_or_create_spec in L as (G & T & _ & _ & _ & _ & A). simpl in G.
    assert (K0 : keeps_positions (actors r) (actors r0)).
    { destruct A as [[-> _]|(_ & _ & ->)];
        [apply keeps_positions_refl|apply keeps_positions_app]. }
    repeat case_match; try (intros [= <- <-]; by apply Same).
    intros [= <- <-].
    match goal with H : triggerDraining _ _ = _ |- _ => eapply Trig; [| |exact H] end.
    - simpl. eapply keeps_positions_trans; [exact K0|apply keeps_positions_update].
    - simpl. by rewrite T. }
  destruct e as [body|body|p|p|m|t res|t ok|t|t|c ok|c ok]; simpl.
  - intros [= H]. revert H. unfold worker_invoke.
    repeat case_match; try apply Route;
      intros [= <- <-]; apply Same; auto using keeps_positions_refl.
  - intros [= H]. by eapply Route.
  - intros [= <- <-]. apply Same; auto using keeps_positions_refl.
  - intros S. apply (reset_fields 0 (EvAdminReset p)) in S as (A & T & _); [|done].
    apply Same; [done|]. rewrite A. apply keeps_positions_refl.
  - intros [= H]. unfold timerFires in H.
    case_decide; inversion H; subst; apply Same; auto using keeps_positions_refl.
  - destruct (tasks r !! t) as [[it k m|?|?|]|] eqn:L; try done.
    destruct (single_task _ _ _ C L) as (-> & T & D & a & G & _).
    destruct (afterInvoke _ _ _ _ _ _) as [[r1 t1] o1] eqn:E. intros [= <- <-].
    pose proof (afterInvoke_control _ _ _ _ _ _ _ _ _ E) as [T1 _].
    apply afterInvoke_positions in E as [K Tk]; [|done|by exists a].
    split; [done|]. simpl. rewrite T1, T. simpl. intros t Ht.
    apply list_elem_of_singleton in Ht. subst t.
    assert (P0 : task_at (actors r) (AwaitInvoke it k m)).
    { apply P. rewrite T. by left. }
    destruct t1 as [it' k' m'|it' k'|it'|]; simpl; auto;
      destruct Tk as [-> ->]; by apply (task_at_keeps _ _ (AwaitInvoke it k m) K).
  - destruct (tasks r !! t) as [[?|it k|?|]|] eqn:L; try done.
    destruct (single_task _ _ _ C L) as (-> & T & D & _).
    intros [= <- <-]. simpl. put_settled. split; [apply keeps_positions_update|].
    rewrite T. simpl. intros t Ht.
    apply list_elem_of_singleton in Ht. subst t. by destruct ok.
  - destruct (tasks r !! t) as [[?|?|it|]|] eqn:L; try done.
    destruct (single_task _ _ _ C L) as (-> & T & D & _).
    destruct (drainLoop _ _ _) as [[r1 t1] o1] eqn:E. intros [= <- <-].
    unfold drainLoop in E. pose proof E as F.
    apply drainLoop_from_position in E as (K & _ & Tk); [|done].
    apply drainLoop_from_fields in F as (_ & T1 & _).
    split; [done|]. simpl. rewrite T1, T. simpl. intros t Ht.
    apply list_elem_of_singleton in Ht. subst t.
    destruct t1 as [it' k' m'|it' k'|it'|]; simpl; auto;
      destruct Tk as (i & a & -> & _ & H); apply K in H as [a' H]; eauto.
  - destruct (tasks r !! t) as [[?|?|?|]|] eqn:L; try done.
    destruct (single_task _ _ _ C L) as (-> & T & D & _).
    intros [= H]. unfold drainFinally in H. case_match.
    + eapply Trig; [| |exact H]; simpl; [apply keeps_positions_refl|].
      rewrite T. simpl. intros t Ht. inversion Ht.
    + inversion H; subst. split; [apply keeps_positions_refl|].
      simpl. rewrite T. simpl. intros t Ht. inversion Ht.
  - intros S. apply (reset_fields 0 (EvActorResetDone c ok)) in S as (A & T & _); [|done].
    apply Same; [done|]. rewrite A. apply keeps_positions_refl.
  - intros S. apply (reset_fields 0 (EvDeleteDone c ok)) in S as (A & T & _); [|done].
    apply Same; [done|]. rewrite A. apply keeps_positions_refl.
Qed.

Lemma reachable_positions r tr :
  reachable r tr -> forall t, t ∈ tasks r -> task_at (actors r) t.
Proof.
  induction 1 as [|r tr now e r' o R IH S]; [intros t Ht; inversion Ht|].
  by destruct (step_positions _ _ _ _ _ (reachable_control _ _ R) IH S).
Qed.

Lemma invoked_nil k o : (forall x, x ∈ o -> invoke_of k x = None) -> invoked k o = [].
Proof.
  induction o as [|x o IH]; intros H; [done|]. unfold invoked in *. simpl.
  rewrite (H x) by (by left). apply IH. intros y Hy. apply H. by right.
Qed.

(** While the cycle that has passed [k] is running, no step sends a call
    for [k]. *)
Lemma step_past k now e r r' o :
  control_ok r -> actors_wf (actors r) ->
  (forall t, t ∈ tasks r -> task_at (actors r) t) ->
  past k r -> (forall t, e <> EvSettled t) ->
  step now e r = Some (r', o) -> past k r' /\ invoked k o = [].
Proof.
  intros C [ND W] P (t0 & T0 & Pt) NS S.
  pose proof (step_positions _ _ _ _ _ C P S) as [K _].
  assert (Dr : isDraining r = true).
  { destruct C as [E|(t & _ & D & _)]; [by rewrite E in T0|done]. }
  assert (Quiet : forall o0, Forall quiet o0 -> invoked k o0 = [])
    by (intros o0 F; by destruct (quiet_enqueued k o0 F)).
  assert (Same : forall r0, tasks r0 = tasks r ->
            keeps_positions (actors r) (actors r0) -> past k r0).
  { intros r0 T K0. exists t0. split; [congruence|].
    destruct t0 as [it k' m|it k'|it|]; auto.
    - destruct Pt as [NE Pt]. eauto using beyond_keeps.
    - eauto using beyond_keeps.
    - eauto using beyond_keeps. }
  assert (Route : forall body r1 o1, handleRoute now body r = (r1, o1) ->
            tasks r1 = tasks r /\ invoked k o1 = []).
  { intros body r1 o1. unfold handleRoute. destruct body as [b|].
    2:{ intros [= <- <-]. split; [done|]. apply Quiet. repeat constructor. }
    destruct (lookup_or_create b r) as [r0 a] eqn:L.
    apply lookup_or_create_spec in L as (_ & T & D & _).
    destruct (_ >? _).
    { intros [= <- <-]. split; [done|]. apply Quiet. repeat constructor. }
    destruct (_ >=? _).
    { intros [= <- <-]. split; [done|]. apply Quiet. repeat constructor. }
    unfold triggerDraining. simpl isDraining. rewrite D, Dr. intros [= <- <-].
    split; [done|]. unfold invoked. done. }
  assert (Reset : is_reset e -> past k r' /\ invoked k o = []).
  { intros I. apply reset_fields in S as (A & T & _ & _ & _ & _ & Q); [|done].
    split; [|by apply Quiet, reset_obs_quiet].
    apply Same; [done|]. rewrite A. apply keeps_positions_refl. }
  destruct e as [body|body|p|p|m|t res|t ok|t|t|c ok|c ok]; try (by apply Reset);
    simpl in S.
  - injection S as S. revert S. unfold worker_invoke.
    destruct body as [b|].
    2:{ intros [= <- <-]. split; [by apply Same|]. apply Quiet. repeat constructor. }
    destruct (_ || _).
    { intros [= <- <-]. split; [by apply Same|]. apply Quiet. repeat constructor. }
    intros H'. destruct (Route _ _ _ H') as [T I]. split; [by apply Same|done].
  - injection S as S. destruct (Route _ _ _ S) as [T I]. split; [by apply Same|done].
  - injection S as <- <-. split; [by apply Same|]. apply Quiet. repeat constructor.
  - injection S as S. unfold timerFires in S.
    case_decide; inversion S; subst; (split; [by apply Same|]);
      apply Quiet; repeat constructor.
  - rewrite T0 in S. destruct t as [|t]; [|done]. simpl in S.
    destruct t0 as [it k' m'|?|?|]; try done. destruct Pt as [NE Pt].
    destruct (afterInvoke _ _ _ _ _ _) as [[r1 t1] o1] eqn:E.
    unfold replace_task in S. injection S as <- <-.
    pose proof C as C0.
    destruct C as [C|(tc & Tc & _ & Oc)]; [by rewrite C in T0|].
    rewrite T0 in Tc. injection Tc as <-. destruct Oc as (a & G & _).
    pose proof (afterInvoke_control _ _ _ _ _ _ _ _ _ E) as [T1 _].
    assert (I : invoked k o1 = []).
    { apply invoked_nil. intros x Hx.
      destruct x as [|k'' ty id msg| | | |]; simpl; auto.
      apply (afterInvoke_invokes _ _ _ _ _ _ _ _ _ _ _ _ _ E) in Hx. subst k''.
      by rewrite decide_False. }
    split; [|exact I].
    pose proof (afterInvoke_task _ _ _ _ _ _ _ _ _ E) as Sh.
    apply afterInvoke_positions in E as [K1 _]; [|exact C0|by exists a].
    exists t1. simpl. rewrite T1, T0. split; [done|].
    destruct Sh as [->|[->|[[m1 ->]| ->]]]; eauto using beyond_keeps.
  - rewrite T0 in S. destruct t as [|t]; [|done]. simpl in S.
    destruct t0 as [?|it k'|?|]; try done.
    injection S as <- <-. split; [|done].
    exists (if ok then AwaitProcess it else Settled). simpl. put_settled. rewrite T0.
    split; [done|]. destruct ok; [|done].
    eapply beyond_keeps; [apply keeps_positions_update|done].
  - rewrite T0 in S. destruct t as [|t]; [|done]. simpl in S.
    destruct t0 as [?|?|it|]; try done.
    destruct (drainLoop _ _ _) as [[r1 t1] o1] eqn:E.
    unfold replace_task in S. injection S as <- <-.
    unfold drainLoop in E. pose proof E as F.
    apply drainLoop_from_position in E as (K1 & I1 & Tk); [|done].
    apply drainLoop_from_fields in F as (_ & T1 & _).
    destruct Pt as (ik & ak & Lk & Hk).
    assert (Other : forall i k' a', (it <= i)%nat -> actors r !! i = Some (k', a') ->
                                    k' <> k).
    { intros i k' a' Le Hi ->. pose proof (position_unique _ _ _ _ _ _ ND Hi Hk). lia. }
    split.
    + exists t1. simpl. rewrite T1, T0. split; [done|].
      assert (B : forall it', (it <= it')%nat -> beyond k it' (actors r1)).
      { intros it' Le. apply K1 in Hk as [a' Hk]. exists ik, a'. split; [lia|done]. }
      destruct t1 as [it1 k1 m1|it1 k1|it1|]; auto.
      * destruct Tk as (i & a' & -> & Le & Hi). split; [eauto|]. apply B. lia.
      * destruct Tk as (i & a' & -> & Le & Hi). apply B. lia.
      * apply B. lia.
    + apply invoked_nil. intros x Hx.
      destruct x as [|k'' ty id msg| | | |]; simpl; auto.
      destruct (I1 _ _ _ _ Hx) as (i & a' & Le & Hi).
      rewrite decide_False; eauto.
  - by destruct (NS t).
Qed.

Lemma run_past k es : forall r tr r' tr',
  control_ok r -> actors_wf (actors r) ->
  (forall t, t ∈ tasks r -> task_at (actors r) t) ->
  past k r -> same_cycle es ->
  run es r tr = Some (r', tr') -> invoked k tr' = invoked k tr.
Proof.
  induction es as [|[now e] es IH]; simpl; intros r tr r' tr' C W P Pk SC.
  - by intros [= <- <-].
  - destruct (step now e r) as [[r1 o1]|] eqn:S; [|done]. intros Run.
    assert (NS : forall t, e <> EvSettled t).
    { intros t ->. apply (SC now t). by left. }
    destruct (step_past k _ _ _ _ _ C W P Pk NS S) as [Pk1 I1].
    destruct (step_positions _ _ _ _ _ C P S) as [_ P1].
    apply IH in Run; eauto using step_control, step_wf.
    + rewrite Run. unfold invoked in *. by rewrite omap_app, I1, app_nil_r.
    + intros now' t Hin. apply (SC now' t). by right.
Qed.



(** ** Queued messages and the drain flag *)

Lemma hasPendingWork_false r k a :
  hasPendingWork r = false -> actors_get k (actors r) = Some a ->
  busy a = true \/ queue a = [].
Proof.
  unfold hasPendingWork. intros H G. apply actors_get_elem in G.
  destruct (busy a) eqn:B; [by left|]. right.
  destruct (queue a) as [|m q] eqn:Q; [done|]. exfalso.
  apply not_true_iff_false in H. apply H. apply existsb_exists.
  exists (k, a). split; [by apply list_elem_of_In|]. simpl. by rewrite B, Q.
Qed.

Lemma triggerDraining_flag now r r' o :
  triggerDraining now r = (r', o) -> isDraining r' = true.
Proof.
  unfold triggerDraining. destruct (isDraining r) eqn:D; [by intros [= <- <-]|].
  destruct (drainLoop _ _ _) as [[r1 t] o1] eqn:E. intros [= <- <-].
  unfold drainLoop in E. apply drainLoop_from_fields in E as (_ & _ & D' & _).
  simpl in *. done.
Qed.

Lemma processLoop_owner now it k r r' t o a :
  actors_get k (actors r) = Some a ->
  processLoop now it k r = (r', t, o) -> actors r' = actors r /\ works_on k t.
Proof.
  intros G. unfold processLoop. rewrite G. destruct (queue a).
  - intros H. by apply persistActorState_fields in H as (-> & _ & _ & _ & _ & ->).
  - by intros [= <- <- <-].
Qed.

Lemma processActorQueue_owner now it k r r' t o :
  processActorQueue now it k r = (r', t, o) ->
  (actors r' = actors r /\ t = AwaitProcess it) \/
  (actors r' = actors_update k (with_busy true) (actors r) /\ works_on k t).
Proof.
  unfold processActorQueue.
  destruct (actors_get k (actors r)) as [a|] eqn:G; [|intros [= <- <- <-]; by left].
  destruct (busy a); [intros [= <- <- <-]; by left|].
  intros H. right. eapply processLoop_owner in H as [-> W]; [done|].
  simpl. by rewrite actors_get_update, decide_True, G.
Qed.

Lemma drainLoop_from_owner now entries : forall it r r' t o,
  drainLoop_from now it entries r = (r', t, o) ->
  (actors r' = actors r /\ forall k, ~ works_on k t) \/
  (exists k, actors r' = actors_update k (with_busy true) (actors r) /\ works_on k t).
Proof.
  induction entries as [|[k a] rest IH]; simpl; intros it r r' t o.
  - intros [= <- <- <-]. left. split; [done|]. intros k [].
  - repeat case_match; eauto.
    intros HP. apply processActorQueue_owner in HP as [[-> ->]|[A W]]; eauto.
Qed.

Lemma busy_after_update k k' l a' :
  actors_get k' (actors_update k (with_busy true) l) = Some a' -> busy a' = true ->
  k' = k \/ exists a, actors_get k' l = Some a /\ busy a = true.
Proof.
  rewrite actors_get_update. case_decide; [by left|]. right. eauto.
Qed.

Lemma triggerDraining_owned now r r' o :
  control_ok r ->
  (forall k a, actors_get k (actors r) = Some a -> busy a = true ->
     exists t, tasks r = [t] /\ works_on k t) ->
  triggerDraining now r = (r', o) -> owned r'.
Proof.
  intros C B H. pose proof (triggerDraining_flag _ _ _ _ H) as F.
  split; [|by rewrite F]. revert H. unfold triggerDraining.
  destruct (isDraining r) eqn:D; [by intros [= <- <-]|].
  apply control_ok_idle in C; [|done].
  destruct (drainLoop _ _ _) as [[r1 t] o1] eqn:E. intros [= <- <-].
  unfold drainLoop in E. pose proof E as E'.
  apply drainLoop_from_fields in E' as (_ & T & _). simpl in T.
  apply drainLoop_from_owner in E as [[A _]|(k0 & A & W)]; simpl in *;
    intros k a G Ba; rewrite T, C; simpl.
  - rewrite A in G. destruct (B _ _ G Ba) as (t0 & T0 & _). by rewrite C in T0.
  - rewrite A in G. apply busy_after_update in G as [->|(a0 & G0 & B0)]; [eauto| |done].
    destruct (B _ _ G0 B0) as (t0 & T0 & _). by rewrite C in T0.
Qed.

Lemma owned_frame r r' :
  owned r -> tasks r' = tasks r -> isDraining r' = isDraining r ->
  actors r' = actors r -> owned r'.
Proof.
  intros [B P] T D A. unfold owned, hasPendingWork. rewrite T, D, A. by split.
Qed.

Lemma handleRoute_owned now body r r' o :
  control_ok r -> owned r -> handleRoute now body r = (r', o) -> owned r'.
Proof.
  intros C O. unfold handleRoute. destruct body as [b|]; [|by intros [= <- <-]].
  destruct (lookup_or_create b r) as [r1 a] eqn:L.
  pose proof (lookup_or_create_unnoticed _ _ _ _ L) as U.
  pose proof L as L'.
  apply lookup_or_create_spec in L' as (G1 & T & D & _ & _ & _ & Sh). cbv zeta in *.
  assert (C1 : control_ok r1) by eauto using control_ok_unnoticed.
  assert (O1 : owned r1).
  { destruct Sh as [[A _]|(N & -> & A)]; [by eapply owned_frame|].
    destruct O as [B P]. split.
    - intros k a G Ba. rewrite A, actors_get_app_fresh in G by done.
      case_decide; [by simplify_eq|]. rewrite T. eauto.
    - rewrite D. intros F. specialize (P F). unfold hasPendingWork in *.
      rewrite A, existsb_app, P. done. }
  repeat case_match; try by intros [= <- <-].
  intros [= <- <-].
  match goal with H : triggerDraining _ _ = _ |- _ =>
    eapply triggerDraining_owned; [| |exact H] end.
  - eapply control_ok_unnoticed; [exact C1| | |apply enqueue_unnoticed]; done.
  - destruct O1 as [B1 P1].
    simpl. intros k a0 G Ba. rewrite actors_get_update in G.
    case_decide; [|eauto]. destruct (actors_get _ (actors r1)) as [a1|] eqn:G'; [|done].
    simpl in G. injection G as <-. simpl in Ba. subst k. eauto.
Qed.

Lemma afterInvoke_works_on now it k m res r r' t o a :
  actors_get k (actors r) = Some a -> res <> FetchThrows ->
  afterInvoke now it k m res r = (r', t, o) -> works_on k t.
Proof.
  intros G NT. unfold afterInvoke. destruct res as [|st|body]; [done| |].
  - repeat case_match. intros [= <- <- <-].
    match goal with H : persistActorState _ _ _ _ = _ |- _ =>
      by apply persistActorState_fields in H as (_ & _ & _ & _ & _ & ->) end.
  - rewrite G. destruct (settle _ _ _) as [r2 o2] eqn:E2.
    apply settle_fields in E2 as (A2 & _). simpl in A2.
    repeat case_match; intros [= <- <- <-];
      try match goal with H : persistActorState _ _ _ _ = _ |- _ =>
        by apply persistActorState_fields in H as (_ & _ & _ & _ & _ & ->) end.
    match goal with H : processLoop _ _ _ _ = _ |- _ =>
      eapply processLoop_owner in H as [_ W]; [done|] end.
    simpl. rewrite A2, actors_get_update, decide_True by done.
    by rewrite (spawn_fold_get_some _ _ _ _ _ G).
Qed.

Lemma afterInvoke_owned now k m res r r' t o it :
  tasks r = [AwaitInvoke it k m] -> owned r ->
  afterInvoke now it k m res r = (r', t, o) ->
  forall k' a', actors_get k' (actors r') = Some a' -> busy a' = true -> works_on k' t.
Proof.
  intros T [B _] H k' a' G' B'.
  assert (K : forall a, actors_get k' (actors r) = Some a -> busy a = true -> k = k').
  { intros a G Ba. destruct (B _ _ G Ba) as (t0 & T0 & W). rewrite T in T0.
    by injection T0 as <-. }
  destruct (throws_or_not res) as [->|NT].
  { injection H as <- <- <-. simpl in G'. rewrite actors_get_update in G'.
    case_decide; subst.
    - destruct (actors_get k (actors r)); by simplify_eq/=.
    - by destruct (K _ G' B'). }
  destruct (actors_get k (actors r)) as [a|] eqn:G.
  - destruct (afterInvoke_state _ _ _ _ _ _ _ _ _ _ G NT H) as [A _].
    assert (k' = k) as ->; [|by eapply afterInvoke_works_on].
    rewrite A, actors_get_update in G'. case_decide; [done|].
    destruct (actors_get k' (actors r)) as [a0|] eqn:G0.
    + rewrite (spawn_fold_get_some _ _ _ _ _ G0) in G'. injection G' as <-.
      symmetry. eauto.
    + apply spawn_fold_get in G' as [G'|(_ & c & _ & _ & ->)]; [congruence|done].
  - assert (actors r' = actors r) as A.
    { revert H. unfold afterInvoke. rewrite G. destruct res as [|st|body]; [done| |].
      - repeat case_match. intros [= <- <- <-].
        match goal with H : persistActorState _ _ _ _ = _ |- _ =>
          apply persistActorState_fields in H as (-> & _) end.
        match goal with H : settle _ _ _ = _ |- _ =>
          apply settle_fields in H as (A1 & _) end.
        simpl. rewrite A1. by apply actors_update_none.
      - by intros [= <- <- <-]. }
    rewrite A in G'. destruct (K _ G' B'). congruence.
Qed.

Lemma step_owned now e r r' o :
  control_ok r -> owned r -> step now e r = Some (r', o) -> owned r'.
Proof.
  intros C O. destruct e as [body|body|p|p|m|t res|t ok|t|t|c ok|c ok]; simpl.
  - intros [= H]. revert H. unfold worker_invoke.
    repeat case_match; try by intros [= <- <-].
    by apply handleRoute_owned.
  - intros [= H]. by eapply handleRoute_owned.
  - by intros [= <- <-].
  - intros S. apply (reset_fields 0 (EvAdminReset p)) in S as (A & T & D & _); [|done].
    by eapply owned_frame.
  - intros [= H]. unfold timerFires in H.
    case_decide; inversion H; subst; by eapply owned_frame.
  - destruct (tasks r !! t) as [[it k m|?|?|]|] eqn:L; try done.
    destruct (single_task _ _ _ C L) as (-> & T & D & _).
    destruct (afterInvoke _ _ _ _ _ _) as [[r1 t1] o1] eqn:E. intros [= <- <-].
    pose proof (afterInvoke_control _ _ _ _ _ _ _ _ _ E) as [T1 D1].
    split; simpl; [|congruence].
    intros k' a' G' B'. rewrite T1, T. simpl. eexists. split; [done|].
    by eapply afterInvoke_owned.
  - destruct (tasks r !! t) as [[?|it k|?|]|] eqn:L; try done.
    destruct (single_task _ _ _ C L) as (-> & T & D & _).
    intros [= <- <-]. destruct O as [B _]. split; simpl; put_settled; [|congruence].
    intros k' a' G' B'. exfalso. rewrite actors_get_update in G'. case_decide; subst.
    + destruct (actors_get k (actors r)); by simplify_eq/=.
    + destruct (B _ _ G' B') as (t0 & T0 & W). rewrite T in T0.
      injection T0 as <-. simpl in W. congruence.
  - destruct (tasks r !! t) as [[?|?|it|]|] eqn:L; try done.
    destruct (single_task _ _ _ C L) as (-> & T & D & _).
    destruct (drainLoop _ _ _) as [[r1 t1] o1] eqn:E. intros [= <- <-].
    unfold drainLoop in E. pose proof E as E'.
    apply drainLoop_from_fields in E' as (_ & T1 & D1 & _).
    destruct O as [B _]. split; simpl; [|congruence].
    assert (K : forall k a, actors_get k (actors r) = Some a -> busy a = true -> False).
    { intros k a G Ba. destruct (B _ _ G Ba) as (t0 & T0 & W). rewrite T in T0.
      by injection T0 as <-. }
    intros k' a' G' B'. rewrite T1, T. simpl. eexists. split; [done|].
    apply drainLoop_from_owner in E as [[A _]|(k0 & A & W)]; rewrite A in G'.
    + by destruct (K _ _ G' B').
    + apply busy_after_update in G' as [->|(a0 & G0 & B0)]; [done| |done].
      by destruct (K _ _ G0 B0).
  - destruct (tasks r !! t) as [[?|?|?|]|] eqn:L; try done.
    destruct (single_task _ _ _ C L) as (-> & T & D & _).
    destruct O as [B _].
    assert (K : forall k a, actors_get k (actors r) = Some a -> busy a = true -> False).
    { intros k a G Ba. destruct (B _ _ G Ba) as (t0 & T0 & W). rewrite T in T0.
      by injection T0 as <-. }
    intros [= H]. unfold drainFinally in H. case_match eqn:P.
    + eapply triggerDraining_owned; [| |exact H].
      * left. simpl. by rewrite T.
      * intros k a G Ba. by destruct (K _ _ G Ba).
    + injection H as <- <-. split; [|done].
      intros k a G Ba. by destruct (K _ _ G Ba).
  - intros S. apply (reset_fields 0 (EvActorResetDone c ok)) in S as (A & T & D & _); [|done].
    by eapply owned_frame.
  - intros S. apply (reset_fields 0 (EvDeleteDone c ok)) in S as (A & T & D & _); [|done].
    by eapply owned_frame.
Qed.

Lemma reachable_owned r tr : reachable r tr -> owned r.
Proof.
  induction 1 as [|r tr now e r' o R IH S]; [by split|].
  eauto using step_owned, reachable_control.
Qed.

(** X1.  No message is stranded: in every state the router can reach in
    which the drain flag is down, no drain task is left, no key is marked
    busy and every queue is empty.  A message that sits in a queue is
    therefore always covered by a drain cycle that is still running. *)
Theorem idle_router_holds_no_message r tr :
  reachable r tr -> isDraining r = false ->
  tasks r = [] /\
  forall k a, actors_get k (actors r) = Some a -> busy a = false /\ queue a = [].
Proof.
  intros R F. pose proof (control_ok_idle _ (reachable_control _ _ R) F) as T.
  destruct (reachable_owned _ _ R) as [B P]. split; [done|].
  intros k a G. destruct (busy a) eqn:Ba.
  - destruct (B _ _ G Ba) as (t & T' & _). congruence.
  - split; [done|]. destruct (hasPendingWork_false _ _ _ (P F) G); congruence.
Qed.

Lemma idle_router_holds_no_message_witness :
  reachable (after demo_persist).1 (after demo_persist).2 /\
  isDraining (after demo_persist).1 = false /\
  tasks (after demo_persist).1 = [] /\
  length (actors (after demo_persist).1) = 1%nat.
Proof.
  split; [apply after_reachable|]. split; [reflexivity|].
  split; [|reflexivity].
  exact (proj1 (idle_router_holds_no_message _ _ (after_reachable demo_persist) eq_refl)).
Defined.

(** ** The books of the pending-request table *)

Lemma replied_app o1 o2 : replied (o1 ++ o2) = replied o1 ++ replied o2.
Proof. apply omap_app. Qed.

Lemma accepted_app o1 o2 : accepted (o1 ++ o2) = accepted o1 ++ accepted o2.
Proof. apply omap_app. Qed.

Lemma accounts_silent P o : silent o -> accounts P o P.
Proof.
  intros [R _]. unfold accounts. rewrite R. split; [constructor|].
  split; [intros m Hm; inversion Hm|]. set_solver.
Qed.

Lemma accounts_app P o1 P1 o2 P2 :
  accounts P o1 P1 -> accounts P1 o2 P2 -> accounts P (o1 ++ o2) P2.
Proof.
  intros (N1 & I1 & ->) (N2 & I2 & ->). unfold accounts. rewrite replied_app.
  split; [|split].
  - apply NoDup_app. split; [done|]. split; [|done].
    intros m H1 H2. apply I2 in H2. set_solver.
  - intros m Hm. apply elem_of_app in Hm as [Hm|Hm]; auto.
    apply I2 in Hm. set_solver.
  - set_solver.
Qed.

Lemma settle_accounts m resp r r' o :
  settle m resp r = (r', o) ->
  accounts (pendingResults r) o (pendingResults r') /\ accepted o = [].
Proof.
  unfold settle, accounts. case_decide; intros [= <- <-]; simpl.
  - split; [|done]. split; [apply NoDup_singleton|].
    split; [|set_solver]. intros x Hx. apply list_elem_of_singleton in Hx. by subst.
  - split; [|done]. split; [constructor|]. split; [intros x Hx; inversion Hx|set_solver].
Qed.

Lemma rejectRemaining_accounts k q : forall r r' o,
  rejectRemaining k q r = (r', o) ->
  accounts (pendingResults r) o (pendingResults r') /\ accepted o = [].
Proof.
  induction q as [|m q IH]; simpl; intros r r' o.
  - intros [= <- <-]. split; [|done]. by apply accounts_silent.
  - destruct (settle _ _ _) as [r2 o2] eqn:E2.
    destruct (rejectRemaining k q r2) as [r3 o3] eqn:E3. intros [= <- <-].
    apply settle_accounts in E2 as [R2 A2]. apply IH in E3 as [R3 A3]. simpl in *.
    split; [by eapply accounts_app|]. by rewrite accepted_app, A2, A3.
Qed.

Lemma persistActorState_silent now it k r r' t o :
  persistActorState now it k r = (r', t, o) -> silent o.
Proof. unfold persistActorState. by case_match; intros [= <- <- <-]. Qed.

Lemma processLoop_silent now it k r r' t o :
  processLoop now it k r = (r', t, o) -> silent o.
Proof.
  unfold processLoop. repeat case_match; try apply persistActorState_silent;
    by intros [= <- <- <-].
Qed.

Lemma drainLoop_from_silent now entries : forall it r r' t o,
  drainLoop_from now it entries r = (r', t, o) -> silent o.
Proof.
  induction entries as [|[k a] rest IH]; simpl; intros it r r' t o.
  - by intros [= <- <- <-].
  - repeat case_match; eauto. unfold processActorQueue.
    repeat case_match; try apply processLoop_silent; by intros [= <- <- <-].
Qed.

Lemma triggerDraining_silent now r r' o :
  triggerDraining now r = (r', o) -> silent o.
Proof.
  unfold triggerDraining. destruct (isDraining r); [by intros [= <- <-]|].
  destruct (drainLoop _ _ _) as [[r1 t] o1] eqn:E. intros [= <- <-].
  by eapply drainLoop_from_silent.
Qed.

Lemma afterInvoke_accounts now it k m res r r' t o :
  afterInvoke now it k m res r = (r', t, o) ->
  accounts (pendingResults r) o (pendingResults r') /\ accepted o = [].
Proof.
  unfold afterInvoke. destruct res as [|st|body].
  - intros [= <- <- <-]. split; [|done]. by apply accounts_silent.
  - destruct (settle _ _ r) as [r1 o1] eqn:E1.
    destruct (persistActorState _ _ _ _) as [[r3 t3] o3] eqn:E3.
    intros [= <- <- <-]. apply settle_accounts in E1 as [R1 A1].
    pose proof (persistActorState_silent _ _ _ _ _ _ _ E3) as I3.
    apply persistActorState_fields in E3 as (_ & _ & _ & _ & -> & _). simpl.
    split; [|by rewrite accepted_app, A1, (proj2 I3)].
    eapply accounts_app; [exact R1|by apply accounts_silent].
  - destruct (actors_get k (actors r)) as [a|] eqn:G.
    2:{ intros [= <- <- <-]. split; [|done]. by apply accounts_silent. }
    destruct (settle _ _ _) as [r2 o2] eqn:E2.
    apply settle_accounts in E2 as [R2 A2]. simpl in *.
    repeat case_match; intros [= <- <- <-].
    + match goal with H : persistActorState _ _ _ _ = _ |- _ =>
        pose proof (persistActorState_silent _ _ _ _ _ _ _ H) as I4;
        apply persistActorState_fields in H as (_ & _ & _ & _ & -> & _) end.
      simpl. split; [|by rewrite accepted_app, A2, (proj2 I4)].
      eapply accounts_app; [exact R2|by apply accounts_silent].
    + match goal with H : persistActorState _ _ _ _ = _ |- _ =>
        pose proof (persistActorState_silent _ _ _ _ _ _ _ H) as I5;
        apply persistActorState_fields in H as (_ & _ & _ & _ & -> & _) end.
      match goal with H : rejectRemaining _ _ _ = _ |- _ =>
        apply rejectRemaining_accounts in H as [R4 A4] end.
      simpl in *. split; [|by rewrite !accepted_app, A2, A4, (proj2 I5)].
      eapply accounts_app; [exact R2|].
      eapply accounts_app; [exact R4|by apply accounts_silent].
    + match goal with H : processLoop _ _ _ _ = _ |- _ =>
        pose proof (processLoop_silent _ _ _ _ _ _ _ H) as I4;
        apply processLoop_fields in H as (_ & _ & _ & _ & ->) end.
      simpl. split; [|by rewrite accepted_app, A2, (proj2 I4)].
      eapply accounts_app; [exact R2|by apply accounts_silent].
Qed.

Lemma triggerDraining_pending now r r' o :
  triggerDraining now r = (r', o) ->
  nextId r' = nextId r /\ pendingResults r' = pendingResults r.
Proof.
  unfold triggerDraining. destruct (isDraining r); [by intros [= <- <-]|].
  destruct (drainLoop _ _ _) as [[r1 t] o1] eqn:E. intros [= <- <-].
  unfold drainLoop in E. by apply drainLoop_from_fields in E as (_ & _ & _ & N & P).
Qed.

Lemma reset_obs_silent o : Forall reset_obs o -> silent o.
Proof.
  induction 1 as [|x o Hx _ [IR IA]]; [done|].
  unfold silent, replied, accepted in *. simpl.
  destruct x as [| |[m|] resp| | |]; simpl in *; try done.
Qed.

Lemma reset_accounts now e r r' o :
  is_reset e -> step now e r = Some (r', o) ->
  silent o /\ nextId r' = nextId r /\ pendingResults r' = pendingResults r.
Proof.
  intros I S. apply reset_fields in S as (_ & _ & _ & N & P & _ & Q); [|done].
  auto using reset_obs_silent.
Qed.

(** What a step does to the table and to the identifiers. *)
Lemma step_accounts now e r r' o :
  step now e r = Some (r', o) ->
  (accepted o = [] /\ nextId r' = nextId r /\
   accounts (pendingResults r) o (pendingResults r')) \/
  (accepted o = [nextId r] /\ replied o = [] /\ nextId r' = S (nextId r) /\
   pendingResults r' = {[nextId r]} ∪ pendingResults r).
Proof.
  assert (HI : forall r' o, silent o -> nextId r' = nextId r ->
    pendingResults r' = pendingResults r ->
    (accepted o = [] /\ nextId r' = nextId r /\
     accounts (pendingResults r) o (pendingResults r')) \/
    (accepted o = [nextId r] /\ replied o = [] /\ nextId r' = S (nextId r) /\
     pendingResults r' = {[nextId r]} ∪ pendingResults r)).
  { intros r0 o0 I N P. left. rewrite P. split; [apply I|]. split; [done|].
    by apply accounts_silent. }
  assert (HR : forall body r' o, handleRoute now body r = (r', o) ->
    (accepted o = [] /\ nextId r' = nextId r /\
     accounts (pendingResults r) o (pendingResults r')) \/
    (accepted o = [nextId r] /\ replied o = [] /\ nextId r' = S (nextId r) /\
     pendingResults r' = {[nextId r]} ∪ pendingResults r)).
  { intros body r0 o0. unfold handleRoute. destruct body as [b|].
    2:{ intros [= <- <-]. by apply HI. }
    destruct (lookup_or_create b r) as [r1 a] eqn:L.
    apply lookup_or_create_spec in L as (_ & _ & _ & N & P & _).
    repeat case_match; try (intros [= <- <-]; by apply HI).
    intros [= <- <-]. right.
    match goal with H : triggerDraining _ _ = _ |- _ =>
      pose proof (triggerDraining_silent _ _ _ _ H) as [IR IA];
      apply triggerDraining_pending in H as [N' P'] end.
    simpl in *. unfold replied, accepted in *. simpl. rewrite IR, IA, N', P', N, P.
    done. }
  destruct e as [body|body|p|p|m|t res|t ok|t|t|c ok|c ok]; simpl.
  - intros [= H]. revert H. unfold worker_invoke.
    repeat case_match; try (intros [= <- <-]; by apply HI). apply HR.
  - intros [= H]. by eapply HR.
  - intros [= <- <-]. by apply HI.
  - intros S. apply (reset_accounts 0 (EvAdminReset p)) in S as (Q & N & P); [|done].
    by apply HI.
  - intros [= H]. unfold timerFires in H. left.
    case_decide; inversion H; subst; simpl; (split; [done|]; split; [done|]).
    + split; [apply NoDup_singleton|]. split; [|set_solver].
      intros x Hx. apply list_elem_of_singleton in Hx. by subst.
    + split; [constructor|]. split; [intros x Hx; inversion Hx|].
      simpl. set_solver.
  - destruct (tasks r !! t) as [[it k m|?|?|]|] eqn:L; try done.
    destruct (afterInvoke _ _ _ _ _ _) as [[r1 t1] o1] eqn:E. intros [= <- <-].
    pose proof (afterInvoke_replies _ _ _ _ _ _ _ _ _ E) as [_ [N _]].
    apply afterInvoke_accounts in E as [A Ac]. left. auto.
  - destruct (tasks r !! t) as [[?|it k|?|]|] eqn:L; try done.
    intros [= <- <-]. apply HI; [done|simpl; by put_settled..].
  - destruct (tasks r !! t) as [[?|?|it|]|] eqn:L; try done.
    destruct (drainLoop _ _ _) as [[r1 t1] o1] eqn:E. intros [= <- <-].
    unfold drainLoop in E. pose proof (drainLoop_from_silent _ _ _ _ _ _ _ E).
    apply drainLoop_from_fields in E as (_ & _ & _ & N & P). by apply HI.
  - destruct (tasks r !! t) as [[?|?|?|]|] eqn:L; try done.
    intros [= H]. unfold drainFinally in H. case_match.
    + pose proof (triggerDraining_silent _ _ _ _ H).
      apply triggerDraining_pending in H as [N P]. by apply HI.
    + inversion H; subst. by apply HI.
  - intros S. apply (reset_accounts 0 (EvActorResetDone c ok)) in S as (Q & N & P); [|done].
    by apply HI.
  - intros S. apply (reset_accounts 0 (EvDeleteDone c ok)) in S as (Q & N & P); [|done].
    by apply HI.
Qed.

Lemma reachable_balanced r tr : reachable r tr -> balanced r tr.
Proof.
  induction 1 as [|r tr now e r' o R (NA & NR & B & RA & P) S].
  { split; [constructor|]. split; [constructor|]. split; [intros m Hm; inversion Hm|].
    split; [intros m Hm; inversion Hm|].
    intros m. simpl. split; [set_solver|]. intros [Hm _]. inversion Hm. }
  unfold balanced. rewrite accepted_app, replied_app.
  apply step_accounts in S as [(A & N & N1 & I1 & ->)|(A & Rp & N & ->)].
  - rewrite A, app_nil_r, N. split; [done|]. split; [|split; [done|split]].
    + apply NoDup_app. split; [done|]. split; [|done].
      intros m Hm Hm'. apply I1, P in Hm'. tauto.
    + intros m Hm. apply elem_of_app in Hm as [Hm|Hm]; [auto|].
      by apply I1, P in Hm as [? _].
    + intros m. rewrite elem_of_difference, elem_of_list_to_set, P, not_elem_of_app.
      tauto.
  - rewrite A, Rp, app_nil_r, N. split; [|split; [done|split; [|split]]].
    + apply NoDup_app. split; [done|]. split; [|apply NoDup_singleton].
      intros m Hm Hm'. apply list_elem_of_singleton in Hm'. subst.
      apply B in Hm. lia.
    + intros m Hm. apply elem_of_app in Hm as [Hm|Hm]; [apply B in Hm; lia|].
      apply list_elem_of_singleton in Hm. lia.
    + intros m Hm. apply elem_of_app. left. auto.
    + intros m. rewrite elem_of_union, elem_of_singleton, P, elem_of_app,
        list_elem_of_singleton. split; [|tauto].
      intros [->|?]; [|tauto]. split; [by right|].
      intros Hm. apply RA, B in Hm. lia.
Qed.

(** X2.  The books of the pending-request table: in every reachable state
    no route call has been answered twice, every answer went to a call
    that had been accepted (enqueued) before, and the table holds exactly
    the accepted calls that have not been answered yet, the timeout
    answer included. *)
Theorem every_caller_is_answered_once r tr :
  reachable r tr ->
  NoDup (replied tr) /\
  (forall m, m ∈ replied tr -> m ∈ accepted tr) /\
  (forall m, m ∈ pendingResults r <-> m ∈ accepted tr /\ m ∉ replied tr).
Proof.
  intros R. destruct (reachable_balanced _ _ R) as (_ & NR & _ & RA & P). auto.
Qed.

Lemma every_caller_is_answered_once_witness :
  reachable (after demo_persist).1 (after demo_persist).2 /\
  replied (after demo_persist).2 = [0%nat] /\
  NoDup (replied (after demo_persist).2).
Proof.
  split; [apply after_reachable|]. split; [reflexivity|].
  exact (proj1 (every_caller_is_answered_once _ _ (after_reachable demo_persist))).
Defined.

(** ** The end of a drain cycle and the next one *)

Lemma drainLoop_from_picks now r : forall entries it,
  (forall k a, (k, a) ∈ entries -> actors_get k (actors r) = Some a /\ busy a = false) ->
  (exists k a, (k, a) ∈ entries /\ queue a <> []) ->
  exists i k a m,
    entries !! i = Some (k, a) /\ head (queue a) = Some m /\
    (forall j k0 a0, (j < i)%nat -> entries !! j = Some (k0, a0) -> queue a0 = []) /\
    drainLoop_from now it entries r =
      (set_busy k true r, AwaitInvoke (it + S i) k m,
       [ObsInvoke k (actorType a) (actorId a) m]).
Proof.
  induction entries as [|[k a] rest IH]; intros it C (k1 & a1 & H1 & Q1).
  { inversion H1. }
  destruct (C k a) as [G B]; [by left|].
  destruct (queue a) as [|m q] eqn:Q.
  - destruct (IH (S it)) as (i & k' & a' & m' & L & Hd & E & D).
    + intros k0 a0 H0. apply C. by right.
    + apply elem_of_cons in H1 as [[= -> ->]|H1]; [congruence|eauto].
    + exists (S i), k', a', m'. split; [done|]. split; [done|]. split.
      * intros [|j] k0 a0 Hj; simpl; [by intros [= <- <-]|]. apply E. lia.
      * simpl. rewrite B, Q. simpl. rewrite D.
        by replace (S it + S i)%nat with (it + S (S i))%nat by lia.
  - exists O, k, a, m. split; [done|]. split; [by rewrite Q|]. split; [lia|].
    simpl. rewrite B, Q. simpl. unfold processActorQueue. rewrite G, B.
    unfold processLoop. simpl. rewrite actors_get_update, decide_True, G by done.
    simpl. rewrite Q. by replace (it + 1)%nat with (S it) by lia.
Qed.

(** The [.finally] callback of a drain cycle, in a state the router can be
    in: with a message in some queue the next cycle starts at once, with
    the head of the first key in insertion order that has one. *)
Lemma settled_restarts r tr now t :
  reachable r tr -> tasks r !! t = Some Settled ->
  (forall k a, actors_get k (actors r) = Some a -> busy a = false) /\
  ((exists k, queue_of k r <> []) ->
   exists i k a m r',
     actors r !! i = Some (k, a) /\ head (queue a) = Some m /\
     (forall j k0 a0, (j < i)%nat -> actors r !! j = Some (k0, a0) -> queue a0 = []) /\
     step now (EvSettled t) r = Some (r', [ObsInvoke k (actorType a) (actorId a) m]) /\
     tasks r' = [AwaitInvoke (S i) k m] /\ isDraining r' = true /\
     actors r' = actors_update k (with_busy true) (actors r) /\
     pendingResults r' = pendingResults r) /\
  ((forall k, queue_of k r = []) ->
   exists r', step now (EvSettled t) r = Some (r', []) /\
     tasks r' = [] /\ isDraining r' = false /\ actors r' = actors r /\
     pendingResults r' = pendingResults r).
Proof.
  intros R L. pose proof (reachable_control _ _ R) as C.
  destruct (reachable_owned _ _ R) as [B _].
  destruct (reachable_wf _ _ R) as [ND W].
  destruct (single_task _ _ _ C L) as (-> & T & D & _).
  assert (NB : forall k a, actors_get k (actors r) = Some a -> busy a = false).
  { intros k a G. destruct (busy a) eqn:Ba; [|done].
    destruct (B _ _ G Ba) as (t0 & T0 & Wk). rewrite T in T0. by injection T0 as <-. }
  split; [exact NB|]. simpl. rewrite T. simpl. unfold drainFinally.
  set (r0 := set_isDraining false (set_tasks (delete O) r)).
  split.
  - intros [k1 Q1]. unfold queue_of in Q1.
    destruct (actors_get k1 (actors r)) as [a1|] eqn:G1; [|done].
    assert (P : hasPendingWork r0 = true).
    { unfold hasPendingWork. apply existsb_exists. exists (k1, a1).
      split; [apply list_elem_of_In; by apply actors_get_elem|].
      simpl. rewrite (NB _ _ G1). by destruct (queue a1). }
    rewrite P. unfold triggerDraining. simpl isDraining. cbv iota.
    unfold drainLoop. rewrite drop_0.
    destruct (drainLoop_from_picks now (set_isDraining true r0) (actors r) O)
      as (i & k & a & m & Li & Hd & E & DL).
    { intros k0 a0 H0. assert (G0 : actors_get k0 (actors r) = Some a0)
        by (by apply actors_elem_get). split; [done|]. eauto. }
    { exists k1, a1. split; [by apply actors_get_elem|done]. }
    change (actors (set_isDraining true r0)) with (actors r). rewrite DL.
    exists i, k, a, m. eexists. split; [done|]. split; [done|]. split; [done|].
    split; [reflexivity|]. simpl. by rewrite T.
  - intros E. assert (P : hasPendingWork r0 = false).
    { unfold hasPendingWork. apply not_true_iff_false. intros Hx.
      apply existsb_exists in Hx as ([k a] & Hin & Hx). simpl in *.
      apply list_elem_of_In, (actors_elem_get _ _ _ ND) in Hin.
      specialize (E k). unfold queue_of in E. rewrite Hin in E. rewrite E in Hx.
      by rewrite andb_false_r in Hx. }
    rewrite P. eexists. split; [reflexivity|]. simpl. by rewrite T.
Qed.

(** X3.  A call to the activation that throws is retried.  The step in
    which the call for [m] fails answers nobody, leaves [m] at the head of
    the queue of [k] and its caller in the table; the [.finally] callback
    of the failed cycle finds pending work and starts the next cycle, which
    sends a call again at once, and when no other key has a message that
    call is the same message [m] for [k]. *)
Theorem thrown_call_is_retried r tr now now' t it k m :
  reachable r tr -> tasks r !! t = Some (AwaitInvoke it k m) ->
  exists r1,
    step now (EvInvokeDone t FetchThrows) r = Some (r1, []) /\
    pendingResults r1 = pendingResults r /\
    (forall k0, qids k0 r1 = qids k0 r) /\
    head (queue_of k r1) = Some m /\
    exists r2 k' ty id m' it',
      step now' (EvSettled t) r1 = Some (r2, [ObsInvoke k' ty id m']) /\
      tasks r2 = [AwaitInvoke it' k' m'] /\ isDraining r2 = true /\
      head (queue_of k' r2) = Some m' /\
      ((forall k0, k0 <> k -> queue_of k0 r = []) -> k' = k /\ m' = m).
Proof.
  intros R L. pose proof (reachable_control _ _ R) as C.
  destruct (single_task _ _ _ C L) as (-> & T & D & a & G & Ba & Hd).
  set (r1 := set_tasks (fun ts => <[O := Settled]> ts) (set_busy k false r)).
  assert (S1 : step now (EvInvokeDone 0 FetchThrows) r = Some (r1, []))
    by (by simpl; rewrite L).
  pose proof (reach_step _ _ _ _ _ _ R S1) as R1.
  exists r1. split; [exact S1|]. split; [done|].
  assert (Q : forall k0, queue_of k0 r1 = queue_of k0 r).
  { intros k0. unfold queue_of. simpl. rewrite actors_get_update.
    case_decide; subst; [|done]. by rewrite G. }
  split; [intros k0; unfold qids; by rewrite Q|].
  assert (Hq : head (queue_of k r1) = Some m) by (rewrite Q; unfold queue_of; by rewrite G).
  split; [exact Hq|].
  assert (L1 : tasks r1 !! O = Some Settled) by (by simpl; rewrite T).
  destruct (settled_restarts r1 _ now' O R1 L1) as (_ & Re & _).
  destruct Re as (i & k' & a' & m' & r2 & Li & Hd' & E & S2 & T2 & D2 & A2 & _).
  { exists k. intros Hn. by rewrite Hn in Hq. }
  exists r2, k', (actorType a'), (actorId a'), m', (S i).
  split; [exact S2|]. split; [exact T2|]. split; [exact D2|].
  assert (G' : actors_get k' (actors r1) = Some a').
  { apply actors_elem_get; [apply (reachable_wf _ _ R1)|].
    by eapply list_elem_of_lookup_2. }
  split.
  { unfold queue_of. rewrite A2, actors_get_update, decide_True, G' by done. done. }
  intros Hz. assert (k' = k) as ->.
  { destruct (decide (k' = k)) as [|NE]; [done|]. exfalso.
    specialize (Hz _ NE). rewrite <- Q in Hz. unfold queue_of in Hz.
    rewrite G' in Hz. by rewrite Hz in Hd'. }
  split; [done|]. unfold queue_of in Hq. rewrite G' in Hq. congruence.
Qed.

Lemma thrown_call_is_retried_witness :
  reachable (after demo_waiting).1 (after demo_waiting).2 /\
  tasks (after demo_waiting).1 !! 0%nat = Some (AwaitInvoke 1 "room:r1" first_message) /\
  exists r1,
    step 2 (EvInvokeDone 0 FetchThrows) (after demo_waiting).1 = Some (r1, []) /\
    pendingResults r1 = pendingResults (after demo_waiting).1.
Proof.
  split; [apply after_reachable|]. split; [reflexivity|].
  destruct (thrown_call_is_retried _ _ 2 3 0%nat 1%nat "room:r1" first_message
              (after_reachable demo_waiting) eq_refl) as (r1 & S & P & _).
  exists r1. split; [exact S|exact P].
Defined.

(** X4.  When the [.finally] callback of a drain cycle runs while some
    queue holds a message, the next cycle starts in the same step: it
    hands the head message of the first key in insertion order that has
    one to its activation, and the flag stays up.  When every queue is
    empty the callback sends nothing and leaves the router idle. *)
Theorem finished_cycle_restarts r tr now t :
  reachable r tr -> tasks r !! t = Some Settled ->
  ((exists k, queue_of k r <> []) ->
   exists i k a m r',
     actors r !! i = Some (k, a) /\ head (queue a) = Some m /\
     (forall j k0 a0, (j < i)%nat -> actors r !! j = Some (k0, a0) -> queue a0 = []) /\
     step now (EvSettled t) r = Some (r', [ObsInvoke k (actorType a) (actorId a) m]) /\
     tasks r' = [AwaitInvoke (S i) k m] /\ isDraining r' = true) /\
  ((forall k, queue_of k r = []) ->
   exists r', step now (EvSettled t) r = Some (r', []) /\
     tasks r' = [] /\ isDraining r' = false /\ actors r' = actors r).
Proof.
  intros R L. destruct (settled_restarts r tr now t R L) as (_ & Re & Id). split.
  - intros Hk. destruct (Re Hk) as (i & k & a & m & r' & H). exists i, k, a, m, r'. tauto.
  - intros Hk. destruct (Id Hk) as (r' & H). exists r'. tauto.
Qed.

Lemma finished_cycle_restarts_witness :
  reachable (after (take 4 demo_persist)).1 (after (take 4 demo_persist)).2 /\
  tasks (after (take 4 demo_persist)).1 !! 0%nat = Some Settled /\
  ((forall k, queue_of k (after (take 4 demo_persist)).1 = []) ->
   exists r', step 5 (EvSettled 0) (after (take 4 demo_persist)).1 = Some (r', []) /\
     tasks r' = [] /\ isDraining r' = false /\
     actors r' = actors (after (take 4 demo_persist)).1).
Proof.
  split; [apply after_reachable|]. split; [reflexivity|].
  exact (proj2 (finished_cycle_restarts _ _ 5 0%nat
                  (after_reachable (take 4 demo_persist)) eq_refl)).
Defined.

(** ** How an answer ends or continues the visit of a key *)

(** Once [processActorQueue] has left its loop for [k], no call is sent
    for [k] until the [.finally] callback of the cycle has run. *)
Lemma visit_over r tr it k :
  reachable r tr -> tasks r = [AwaitPersist it k] ->
  forall es r2 tr2, same_cycle es -> run es r tr = Some (r2, tr2) ->
    invoked k tr2 = invoked k tr.
Proof.
  intros R T es r2 tr2 SC Run.
  eapply (run_past k es); [| | | |exact SC|exact Run];
    eauto using reachable_control, reachable_wf, reachable_positions.
  exists (AwaitPersist it k). split; [exact T|].
  destruct (reachable_positions _ _ R (AwaitPersist it k)) as (i & a' & -> & Hi).
  { rewrite T. by left. }
  exists i, a'. split; [lia|exact Hi].
Qed.

Lemma settle_reply m resp r r' o :
  settle m resp r = (r', o) ->
  Forall quiet o /\ (m ∈ pendingResults r -> o = [ObsReply (Some m) resp]).
Proof.
  unfold settle. case_decide; intros [= <- <-]; split; try done; by repeat constructor.
Qed.

(** X5.  An answer of the activation with a status that is not ok fails
    the head message only: its caller, if still waiting, gets the 504
    answer "Actor DO error: <status>", the message leaves the queue, the
    rest of the queue stays as it is, no further call is sent in that
    step, and no call is sent for [k] for the rest of the drain cycle. *)
Theorem error_status_fails_the_head r tr now t it k m st a r1 o1 :
  reachable r tr ->
  tasks r !! t = Some (AwaitInvoke it k m) ->
  actors_get k (actors r) = Some a ->
  step now (EvInvokeDone t (NotOk st)) r = Some (r1, o1) ->
  (messageId m ∈ pendingResults r ->
   ObsReply (Some (messageId m))
     (json_response 504 (RouteFailed ("Actor DO error: " +:+ pretty st))) ∈ o1) /\
  pendingResults r1 = pendingResults r ∖ {[messageId m]} /\
  queue a = m :: queue_of k r1 /\
  (forall k' ty id msg, ObsInvoke k' ty id msg ∉ o1) /\
  tasks r1 = [AwaitPersist it k] /\
  forall es r2 tr2, same_cycle es -> run es r1 (tr ++ o1) = Some (r2, tr2) ->
    invoked k tr2 = invoked k (tr ++ o1).
Proof.
  intros R L G S.
  pose proof (reach_step _ _ _ _ _ _ R S) as R1.
  pose proof (reachable_control _ _ R) as C.
  destruct (single_task _ _ _ C L) as (-> & T & Dr & a0 & G0 & _ & Hd).
  rewrite G in G0. injection G0 as <-.
  unfold step in S. rewrite L in S.
  destruct (afterInvoke _ _ _ _ _ _) as [[r' t'] o'] eqn:E.
  unfold replace_task in S. injection S as <- <-.
  assert (NT : NotOk st <> FetchThrows) by done.
  destruct (afterInvoke_get _ _ _ _ _ _ _ _ _ _ G NT E)
    as (a1 & G1 & _ & _ & _ & _ & _ & Q1).
  destruct (afterInvoke_state _ _ _ _ _ _ _ _ _ _ G NT E) as [_ P1]. simpl in P1.
  destruct (afterInvoke_control _ _ _ _ _ _ _ _ _ E) as [T1 D1].
  unfold afterInvoke in E.
  destruct (settle _ _ r) as [r2 o2] eqn:E2.
  destruct (persistActorState _ _ _ _) as [[r3 t3] o3] eqn:E3.
  injection E as <- <- <-.
  pose proof (persistActorState_quiet _ _ _ _ _ _ _ E3) as Q3.
  apply persistActorState_fields in E3 as (_ & _ & _ & _ & _ & ->).
  apply settle_reply in E2 as [Q2 Rp].
  assert (Tk : tasks (set_tasks (fun ts => <[0%nat:=AwaitPersist it k]> ts) r3) =
               [AwaitPersist it k]) by (simpl; by rewrite T1, T).
  split; [|split; [|split; [|split; [|split]]]].
  - intros Hp. rewrite (Rp Hp). apply elem_of_app. left. by left.
  - simpl. rewrite P1. set_solver.
  - unfold queue_of. simpl. rewrite G1, Q1. by destruct (queue a); simplify_eq/=.
  - intros k' ty id msg Hin.
    assert (F : Forall quiet (o2 ++ o3)) by (by apply Forall_app).
    rewrite Forall_forall in F. by apply F in Hin.
  - exact Tk.
  - intros es rc trc SC Run. by eapply visit_over.
Qed.

Lemma error_status_fails_the_head_witness :
  reachable (after demo_reject).1 (after demo_reject).2 /\
  tasks (after demo_reject).1 !! 0%nat = Some (AwaitInvoke 1 "room:r1" first_message) /\
  actors_get "room:r1" (actors (after demo_reject).1) = Some three_queued /\
  step 4 (EvInvokeDone 0 (NotOk 500)) (after demo_reject).1 =
    Some ((after (demo_reject ++ [(4, EvInvokeDone 0 (NotOk 500))])).1,
          drop 4 (after (demo_reject ++ [(4, EvInvokeDone 0 (NotOk 500))])).2) /\
  tasks (after (demo_reject ++ [(4, EvInvokeDone 0 (NotOk 500))])).1 =
    [AwaitPersist 1 "room:r1"].
Proof.
  assert (S : step 4 (EvInvokeDone 0 (NotOk 500)) (after demo_reject).1 =
    Some ((after (demo_reject ++ [(4, EvInvokeDone 0 (NotOk 500))])).1,
          drop 4 (after (demo_reject ++ [(4, EvInvokeDone 0 (NotOk 500))])).2))
    by (vm_compute; reflexivity).
  split; [apply after_reachable|]. split; [reflexivity|]. split; [reflexivity|].
  split; [exact S|].
  exact (proj1 (proj2 (proj2 (proj2 (proj2
    (error_status_fails_the_head _ _ 4 0%nat 1%nat "room:r1" first_message 500%nat
       three_queued _ _ (after_reachable demo_reject) eq_refl eq_refl S)))))).
Defined.

(** X6.  The continuation ["wait"]: the head message is answered with
    the result and leaves the queue, the rest of the queue stays as it is,
    no further call is sent in that step, and no call is sent for [k] for
    the rest of the drain cycle, whatever arrives in the meantime. *)
Theorem wait_ends_the_visit r tr now t it k m body a r1 o1 :
  reachable r tr ->
  tasks r !! t = Some (AwaitInvoke it k m) ->
  actors_get k (actors r) = Some a ->
  env_mode body = "wait" ->
  step now (EvInvokeDone t (RespOk body)) r = Some (r1, o1) ->
  (messageId m ∈ pendingResults r ->
   ObsReply (Some (messageId m))
     (json_response 200 (RouteOk (env_result body) (actorKey a))) ∈ o1) /\
  pendingResults r1 = pendingResults r ∖ {[messageId m]} /\
  queue a = m :: queue_of k r1 /\
  (forall k' ty id msg, ObsInvoke k' ty id msg ∉ o1) /\
  tasks r1 = [AwaitPersist it k] /\
  forall es r2 tr2, same_cycle es -> run es r1 (tr ++ o1) = Some (r2, tr2) ->
    invoked k tr2 = invoked k (tr ++ o1).
Proof.
  intros R L G Md S.
  pose proof (reach_step _ _ _ _ _ _ R S) as R1.
  pose proof (reachable_control _ _ R) as C.
  destruct (single_task _ _ _ C L) as (-> & T & Dr & a0 & G0 & _ & Hd).
  rewrite G in G0. injection G0 as <-.
  unfold step in S. rewrite L in S.
  destruct (afterInvoke _ _ _ _ _ _) as [[r' t'] o'] eqn:E.
  unfold replace_task in S. injection S as <- <-.
  assert (NT : RespOk body <> FetchThrows) by done.
  destruct (afterInvoke_get _ _ _ _ _ _ _ _ _ _ G NT E)
    as (a1 & G1 & _ & _ & _ & _ & _ & Q1).
  rewrite Md in Q1. simpl in Q1.
  destruct (afterInvoke_state _ _ _ _ _ _ _ _ _ _ G NT E) as [_ P1].
  simpl in P1. rewrite Md in P1. simpl in P1.
  destruct (afterInvoke_control _ _ _ _ _ _ _ _ _ E) as [T1 D1].
  unfold afterInvoke in E. rewrite G, Md in E. simpl in E.
  destruct (settle _ _ _) as [r2 o2] eqn:E2.
  destruct (persistActorState _ _ _ _) as [[r3 t3] o3] eqn:E3.
  injection E as <- <- <-.
  pose proof (persistActorState_quiet _ _ _ _ _ _ _ E3) as Q3.
  apply persistActorState_fields in E3 as (_ & _ & _ & _ & _ & ->).
  apply settle_reply in E2 as [Q2 Rp]. simpl in Rp.
  assert (Tk : tasks (set_tasks (fun ts => <[0%nat:=AwaitPersist it k]> ts) r3) =
               [AwaitPersist it k]) by (simpl; by rewrite T1, T).
  split; [|split; [|split; [|split; [|split]]]].
  - intros Hp. rewrite (Rp Hp). apply elem_of_app. left. by left.
  - simpl. rewrite P1. set_solver.
  - unfold queue_of. simpl. rewrite G1, Q1. by destruct (queue a); simplify_eq/=.
  - intros k' ty id msg Hin.
    assert (F : Forall quiet (o2 ++ o3)) by (by apply Forall_app).
    rewrite Forall_forall in F. by apply F in Hin.
  - exact Tk.
  - intros es rc trc SC Run. by eapply visit_over.
Qed.

Lemma wait_ends_the_visit_witness :
  reachable (after demo_reject).1 (after demo_reject).2 /\
  tasks (after demo_reject).1 !! 0%nat = Some (AwaitInvoke 1 "room:r1" first_message) /\
  actors_get "room:r1" (actors (after demo_reject).1) = Some three_queued /\
  env_mode wait_envelope = "wait" /\
  step 4 (EvInvokeDone 0 (RespOk wait_envelope)) (after demo_reject).1 =
    Some ((after (demo_reject ++ [(4, EvInvokeDone 0 (RespOk wait_envelope))])).1,
          drop 4 (after (demo_reject ++ [(4, EvInvokeDone 0 (RespOk wait_envelope))])).2) /\
  tasks (after (demo_reject ++ [(4, EvInvokeDone 0 (RespOk wait_envelope))])).1 =
    [AwaitPersist 1 "room:r1"].
Proof.
  assert (S : step 4 (EvInvokeDone 0 (RespOk wait_envelope)) (after demo_reject).1 =
    Some ((after (demo_reject ++ [(4, EvInvokeDone 0 (RespOk wait_envelope))])).1,
          drop 4 (after (demo_reject ++ [(4, EvInvokeDone 0 (RespOk wait_envelope))])).2))
    by (vm_compute; reflexivity).
  split; [apply after_reachable|]. split; [reflexivity|]. split; [reflexivity|].
  split; [reflexivity|]. split; [exact S|].
  exact (proj1 (proj2 (proj2 (proj2 (proj2
    (wait_ends_the_visit _ _ 4 0%nat 1%nat "room:r1" first_message wait_envelope
       three_queued _ _ (after_reachable demo_reject) eq_refl eq_refl eq_refl S)))))).
Defined.

(** X7.  Every continuation other than ["wait"] and ["reject"], the absent
    one included, keeps the visit of [k] going: the head message leaves the
    queue, and if another message is queued the same step hands it to the
    activation of [k] as its last effect, before any other key gets its
    turn; with nothing left the step goes on to persist the metadata. *)
Theorem immediate_continues_the_visit r tr now t it k m body a r1 o1 :
  reachable r tr ->
  tasks r !! t = Some (AwaitInvoke it k m) ->
  actors_get k (actors r) = Some a ->
  env_mode body <> "wait" -> env_mode body <> "reject" ->
  step now (EvInvokeDone t (RespOk body)) r = Some (r1, o1) ->
  pendingResults r1 = pendingResults r ∖ {[messageId m]} /\
  queue a = m :: queue_of k r1 /\
  match queue_of k r1 with
  | m2 :: _ =>
      tasks r1 = [AwaitInvoke it k m2] /\
      exists o, Forall quiet o /\
        o1 = o ++ [ObsInvoke k (actorType a) (actorId a) m2]
  | [] =>
      tasks r1 = [AwaitPersist it k] /\
      forall k' ty id msg, ObsInvoke k' ty id msg ∉ o1
  end.
Proof.
  intros R L G NW NR S.
  pose proof (reachable_control _ _ R) as C.
  destruct (single_task _ _ _ C L) as (-> & T & Dr & a0 & G0 & _ & Hd).
  rewrite G in G0. injection G0 as <-.
  unfold step in S. rewrite L in S.
  destruct (afterInvoke _ _ _ _ _ _) as [[r' t'] o'] eqn:E.
  unfold replace_task in S. injection S as <- <-.
  assert (NT : RespOk body <> FetchThrows) by done.
  apply String.eqb_neq in NW, NR.
  destruct (afterInvoke_get _ _ _ _ _ _ _ _ _ _ G NT E)
    as (a1 & G1 & K1 & Ty1 & Id1 & _ & _ & Q1).
  rewrite NR in Q1.
  destruct (afterInvoke_state _ _ _ _ _ _ _ _ _ _ G NT E) as [_ P1].
  simpl in P1. rewrite NW, NR in P1. simpl in P1.
  destruct (afterInvoke_control _ _ _ _ _ _ _ _ _ E) as [T1 D1].
  unfold afterInvoke in E. rewrite G, NW, NR in E.
  destruct (settle _ _ _) as [r2 o2] eqn:E2.
  destruct (processLoop _ _ _ _) as [[r3 t3] o3] eqn:E3.
  injection E as <- <- <-.
  apply settle_reply in E2 as [Q2 _].
  assert (Qk : queue_of k (set_tasks (fun ts => <[0%nat:=t3]> ts) r3) = tail (queue a)).
  { unfold queue_of. simpl. by rewrite G1, Q1. }
  split; [simpl; rewrite P1; set_solver|].
  split; [rewrite Qk; by destruct (queue a); simplify_eq/=|].
  rewrite Qk. pose proof E3 as E3'.
  apply processLoop_fields in E3' as (A3 & _).
  unfold processLoop in E3. rewrite <- A3, G1, Q1 in E3.
  destruct (tail (queue a)) as [|m2 q2] eqn:Tl.
  - pose proof (persistActorState_quiet _ _ _ _ _ _ _ E3) as Q3.
    apply persistActorState_fields in E3 as (_ & _ & _ & _ & _ & ->).
    split; [simpl; by rewrite T1, T|].
    intros k' ty id msg Hin.
    assert (F : Forall quiet (o2 ++ o3)) by (by apply Forall_app).
    rewrite Forall_forall in F. by apply F in Hin.
  - injection E3 as <- <- <-. split; [simpl in *; by rewrite T1, T|].
    exists o2. split; [done|]. by rewrite Ty1, Id1.
Qed.

Lemma immediate_continues_the_visit_witness :
  reachable (after demo_reject).1 (after demo_reject).2 /\
  tasks (after demo_reject).1 !! 0%nat = Some (AwaitInvoke 1 "room:r1" first_message) /\
  actors_get "room:r1" (actors (after demo_reject).1) = Some three_queued /\
  env_mode None <> "wait" /\ env_mode None <> "reject" /\
  step 4 (EvInvokeDone 0 (RespOk None)) (after demo_reject).1 =
    Some ((after (demo_reject ++ [(4, EvInvokeDone 0 (RespOk None))])).1,
          drop 4 (after (demo_reject ++ [(4, EvInvokeDone 0 (RespOk None))])).2) /\
  queue three_queued =
    first_message ::
      queue_of "room:r1" (after (demo_reject ++ [(4, EvInvokeDone 0 (RespOk None))])).1.
Proof.
  assert (S : step 4 (EvInvokeDone 0 (RespOk None)) (after demo_reject).1 =
    Some ((after (demo_reject ++ [(4, EvInvokeDone 0 (RespOk None))])).1,
          drop 4 (after (demo_reject ++ [(4, EvInvokeDone 0 (RespOk None))])).2))
    by (vm_compute; reflexivity).
  assert (NW : env_mode None <> "wait") by discriminate.
  assert (NR : env_mode None <> "reject") by discriminate.
  split; [apply after_reachable|]. split; [reflexivity|]. split; [reflexivity|].
  split; [exact NW|]. split; [exact NR|]. split; [exact S|].
  exact (proj1 (proj2
    (immediate_continues_the_visit _ _ 4 0%nat 1%nat "room:r1" first_message None
       three_queued _ _ (after_reachable demo_reject) eq_refl eq_refl NW NR S))).
Defined.

(** ** What a status snapshot says *)

Lemma statusMap_set_keys k e m :
  NoDup (map fst m) -> NoDup (map fst (statusMap_set k e m)).
Proof.
  induction m as [|[k0 e0] m IH]; simpl.
  - intros _. apply NoDup_singleton.
  - intros ND. apply NoDup_cons in ND as [Hn ND]. case_decide; subst; simpl.
    + by apply NoDup_cons.
    + apply NoDup_cons. split; [|auto]. intros Hin. apply Hn.
      apply list_elem_of_fmap in Hin as ([k1 e1] & -> & Hin). simpl.
      clear IH ND Hn. induction m as [|[k2 e2] m IH]; simpl in *.
      * apply list_elem_of_singleton in Hin. congruence.
      * revert Hin. case_decide; subst; intros Hin.
        -- apply elem_of_cons in Hin as [[= <- <-]|Hin]; [by left|].
           right. by apply (list_elem_of_fmap_2 fst _ (k1, e1)).
        -- apply elem_of_cons in Hin as [[= <- <-]|Hin]; [by left|]. right. auto.
Qed.

Lemma statusMap_set_elem k e m k' e' :
  (k', e') ∈ statusMap_set k e m -> (k' = k /\ e' = e) \/ (k', e') ∈ m.
Proof.
  induction m as [|[k0 e0] m IH]; simpl.
  - intros H. apply list_elem_of_singleton in H. injection H as -> ->. by left.
  - case_decide; subst; intros Hin; apply elem_of_cons in Hin as [[= -> ->]|Hin].
    + by left.
    + right. by right.
    + right. by left.
    + destruct (IH Hin) as [?|?]; [by left|]. right. by right.
Qed.

Lemma statusMap_get_pair k e m : statusMap_get k m = Some e -> (k, e) ∈ m.
Proof.
  induction m as [|[k0 e0] m IH]; simpl; [done|].
  case_decide; [intros [= ->]; subst; by left|]. intros H'. right. auto.
Qed.

Lemma prefix_empty s : String.prefix "" s = true.
Proof. by destruct s. Qed.

Lemma status_from_storage p r l : forall m,
  (forall kv, kv ∈ l -> kv ∈ storage_list ("meta:" +:+ p) (storage r)) ->
  NoDup (map fst m) -> (forall k e, (k, e) ∈ m -> entry_ok p r k e /\ fromMemory e = false) ->
  let m' := foldl (fun m kv => statusMap_set (fst (status_of_meta (fst kv) (snd kv)))
                                 (snd (status_of_meta (fst kv) (snd kv))) m) m l in
  NoDup (map fst m') /\ forall k e, (k, e) ∈ m' -> entry_ok p r k e /\ fromMemory e = false.
Proof.
  induction l as [|[key meta] l IH]; simpl; intros m Hl ND Hm; [done|].
  apply IH.
  - intros kv Hkv. apply Hl. by right.
  - by apply statusMap_set_keys.
  - intros k e He. apply statusMap_set_elem in He as [[-> ->]|He]; [|auto].
    assert (Hin : (key, meta) ∈ storage_list ("meta:" +:+ p) (storage r))
      by (apply Hl; by left).
    apply list_elem_of_In, filter_In in Hin as [Hin Pf]. simpl in Pf.
    destruct (prefix_app_inv _ _ _ Pf) as [rest ->].
    rewrite prefix_app_cancel in Pf. apply list_elem_of_In in Hin.
    unfold entry_ok. simpl.
    split; [|done]. split; [done|]. split; [done|]. split; [by left|].
    split; [eauto|]. split; [|done]. intros _. by exists meta.
Qed.

Lemma status_from_memory p r l : forall m,
  (forall a, a ∈ l -> a ∈ map snd (actors r)) ->
  NoDup (map fst m) -> (forall k e, (k, e) ∈ m -> entry_ok p r k e) ->
  NoDup (map fst (foldl (status_merge p) m l)) /\
  forall k e, (k, e) ∈ foldl (status_merge p) m l -> entry_ok p r k e.
Proof.
  induction l as [|a l IH]; simpl; intros m Hl ND Hm; [done|].
  assert (Ha : a ∈ map snd (actors r)) by (apply Hl; by left).
  assert (Hl' : forall a, a ∈ l -> a ∈ map snd (actors r))
    by (intros a' Ha'; apply Hl; by right).
  unfold status_merge at 2 4.
  destruct (negb (String.eqb p "") && negb (String.prefix p (actorKey a))) eqn:F;
    [by apply IH|].
  assert (Pf : String.prefix p (actorKey a) = true).
  { apply andb_false_iff in F as [F|F]; apply negb_false_iff in F; [|done].
    apply String.eqb_eq in F. subst. apply prefix_empty. }
  destruct (statusMap_get (actorKey a) m) as [ex|] eqn:G.
  - apply IH; [done|by apply statusMap_set_keys|].
    intros k e He. apply statusMap_set_elem in He as [[-> ->]|He]; [|auto].
    apply statusMap_get_pair, Hm in G as (K & _ & _ & S & _).
    split; [done|]. split; [done|]. split; [by right|]. split; [exact S|].
    split; [done|]. intros _. by exists a.
  - apply IH; [done|by apply statusMap_set_keys|].
    intros k e He. apply statusMap_set_elem in He as [[-> ->]|He]; [|auto].
    split; [done|]. split; [done|]. split; [by right|]. split; [done|].
    split; [done|]. intros _. by exists a.
Qed.

(** The map [handleStatus] builds before it lists the values. *)
Lemma status_snapshot_map param r :
  let p := default "" param in
  let m := foldl (status_merge p)
             (foldl (fun m kv => statusMap_set (fst (status_of_meta (fst kv) (snd kv)))
                                   (snd (status_of_meta (fst kv) (snd kv))) m)
                    [] (storage_list ("meta:" +:+ p) (storage r)))
             (map snd (actors r)) in
  status_snapshot param r = map snd m /\
  NoDup (map fst m) /\ forall k e, (k, e) ∈ m -> entry_ok p r k e.
Proof.
  intros p m. split; [done|].
  destruct (status_from_storage p r (storage_list ("meta:" +:+ p) (storage r)) [])
    as [ND0 H0]; [done|constructor|intros k e He; inversion He|].
  apply status_from_memory; [done|done|].
  intros k e He. by apply H0.
Qed.

(** X8.  What a status snapshot says, in any state: no actor key is listed
    twice; every listed key starts with the prefix of the query; an entry
    marked [fromStorage] has its metadata in the store under [meta:] plus
    its key, an entry not marked [fromMemory] is exactly that stored
    metadata, and an entry marked [fromMemory] carries the live [busy],
    queue length and policy of a state the router holds under that key. *)
Theorem status_snapshot_sound param r :
  NoDup (map st_actorKey (status_snapshot param r)) /\
  forall e, e ∈ status_snapshot param r ->
    entry_ok (default "" param) r (st_actorKey e) e.
Proof.
  destruct (status_snapshot_map param r) as (-> & ND & H).
  set (m := foldl _ _ _) in *.
  assert (K : map st_actorKey (map snd m) = map fst m).
  { rewrite <- list_fmap_compose. apply list_fmap_ext. intros i [k e] Hi. simpl.
    apply list_elem_of_lookup_2, H in Hi. apply Hi. }
  split; [by rewrite K|].
  intros e He. apply list_elem_of_fmap in He as ([k e'] & -> & He). simpl.
  pose proof (H _ _ He) as Hk. destruct Hk as [-> _]. by apply H.
Qed.

(** ** Repeating an admin reset *)

Lemma filter_none {A} (f : A -> bool) (l : list A) :
  (forall x, x ∈ l -> f x = false) -> List.filter f l = [].
Proof.
  induction l as [|x l IH]; simpl; intros H; [done|].
  rewrite (H x) by (by left). apply IH. intros y Hy. apply H. by right.
Qed.

(** A reset whose awaited calls all resolve, with nothing in between. *)
Lemma resolve_all_run all c rest : forall r tr,
  resets r !! c = Some (resetLoop all rest).1 ->
  exists r1,
    run (resolve_all c rest) r (tr ++ (resetLoop all rest).2) =
      Some (r1, tr ++ reset_calls rest ++
                [ObsReply None (json_response 200 (ResetBody all))]) /\
    storage r1 = foldl (fun s key => storage_delete key s) (storage r) rest /\
    actors r1 = actors r /\ pendingResults r1 = pendingResults r /\
    tasks r1 = tasks r /\ isDraining r1 = isDraining r.
Proof.
  induction rest as [|key rest IH]; intros r tr L.
  { exists r. by repeat split. }
  pose proof (lookup_lt_Some _ _ _ L) as Lt.
  change (resetLoop all (key :: rest))
    with (AwaitActorReset all (key :: rest), [ObsActorReset (slice 5 key)]) in L |- *.
  cbn [fst snd] in L |- *. rewrite resolve_all_cons.
  cbn [run]. rewrite (step_actor_reset_done _ _ _ _ _ _ L).
  rewrite (step_delete_done c all key rest).
  2:{ simpl. by rewrite list_lookup_insert_eq. }
  set (r2 := set_resets _ (set_storage _ _)).
  destruct (IH r2 ((tr ++ [ObsActorReset (slice 5 key)]) ++ [ObsDelete key]))
    as (r1 & Run & St & A & P & T & D).
  { simpl. rewrite list_lookup_insert_eq; [done|]. by rewrite length_insert. }
  exists r1. split; [|by repeat split].
  rewrite Run. f_equal. f_equal. by rewrite <- !app_assoc.
Qed.

Lemma storage_get_delete_keys ks : forall k s,
  storage_get k (foldl (fun s key => storage_delete key s) s ks) =
  if decide (k ∈ ks) then None else storage_get k s.
Proof.
  induction ks as [|k0 ks IH]; simpl; intros k s.
  - destruct (decide (k ∈ [])) as [H|H]; [inversion H|done].
  - rewrite IH, storage_get_delete.
    destruct (decide (k ∈ ks)), (decide (k = k0)), (decide (k ∈ k0 :: ks));
      subst; try done; set_solver.
Qed.

Lemma reset_empties prefix s :
  storage_list prefix
    (foldl (fun s key => storage_delete key s) s (map fst (storage_list prefix s))) = [].
Proof.
  unfold storage_list at 1. apply filter_none. intros [key meta] Hin. simpl in *.
  apply not_true_iff_false. intros Pf.
  assert (Hs : is_Some (storage_get key
      (foldl (fun s key => storage_delete key s) s (map fst (storage_list prefix s))))).
  { apply storage_get_keys. by apply (list_elem_of_fmap_2 fst _ (key, meta)). }
  rewrite storage_get_delete_keys in Hs. case_decide as Hk; [by destruct Hs|].
  apply Hk, storage_list_keys. by split.
Qed.

(** X9.  Take an admin reset that arrives in any state, and suppose every
    call it awaits resolves and nothing else happens before it answers.
    Then it does what its trace says and touches the store only: the
    queues, the busy flags, the pending callers and the drain tasks are as
    before, and so is every stored entry outside the prefix, while no
    entry is left under the prefix.  Such a reset is idempotent: a second
    reset with the same prefix right after it lists nothing, answers
    [cleared: []] at once and leaves the store as it is; and a status query
    with that prefix then lists live states only. *)
Theorem admin_reset_is_idempotent now param r :
  let c := length (resets r) in
  let prefix := "meta:" +:+ default "" param in
  let cleared := map fst (storage_list prefix (storage r)) in
  exists r1,
    run ((now, EvAdminReset param) :: resolve_all c cleared) r [] =
      Some (r1, reset_trace cleared) /\
    actors r1 = actors r /\ pendingResults r1 = pendingResults r /\
    tasks r1 = tasks r /\ isDraining r1 = isDraining r /\
    (forall key, String.prefix prefix key = false ->
       storage_get key (storage r1) = storage_get key (storage r)) /\
    storage_list prefix (storage r1) = [] /\
    (exists r2,
       step now (EvAdminReset param) r1 =
         Some (r2, [ObsReply None (json_response 200 (ResetBody []))]) /\
       storage r2 = storage r1 /\ actors r2 = actors r1 /\
       pendingResults r2 = pendingResults r1 /\ tasks r2 = tasks r1) /\
    (forall e, e ∈ status_snapshot param r1 ->
       fromStorage e = false /\ fromMemory e = true).
Proof.
  intros c prefix cleared.
  destruct (resolve_all_run cleared c cleared
              (set_resets (fun ts => ts ++ [(resetLoop cleared cleared).1]) r) [])
    as (r1 & Run & St & A & P & T & D).
  { simpl. by rewrite lookup_app_r, Nat.sub_diag. }
  simpl in St, A, P, T, D.
  assert (E : storage_list prefix (storage r1) = []).
  { rewrite St. apply reset_empties. }
  exists r1. split; [|split; [done|split; [done|split; [done|split; [done|]]]]].
  { cbn [run step]. unfold adminReset. fold prefix cleared.
    destruct (resetLoop cleared cleared) as [t o]. exact Run. }
  split; [|split; [exact E|split]].
  - intros key Pf. rewrite St, storage_get_delete_keys. case_decide as Hk; [|done].
    apply storage_list_keys in Hk as [Hk _]. congruence.
  - eexists. split.
    + simpl. unfold adminReset. fold prefix. by rewrite E.
    + by repeat split.
  - intros e He.
    destruct (status_snapshot_map param r1) as (Sn & _ & H).
    rewrite Sn in He. apply list_elem_of_fmap in He as ([k e'] & -> & He).
    destruct (H _ _ He) as (<- & Pf & Or & Sto & _). simpl.
    set (e := e') in *.
    assert (F : fromStorage e = false).
    { destruct (fromStorage e) eqn:Fs; [|done]. destruct (Sto eq_refl) as [meta Hin].
      unfold storage_list in E.
      assert (Hf : ("meta:" +:+ st_actorKey e, meta) ∈
                   List.filter (fun kv => String.prefix prefix kv.1) (storage r1)).
      { apply list_elem_of_In, filter_In. split; [by apply list_elem_of_In|].
        simpl. unfold prefix. by rewrite prefix_app_cancel. }
      rewrite E in Hf. inversion Hf. }
    split; [done|]. destruct Or; congruence.
Qed.

(** ** The names of the activations *)

Lemma keyed_update k f l :
  (forall a, actorType (f a) = actorType a /\ actorId (f a) = actorId a) ->
  keyed l -> keyed (actors_update k f l).
Proof.
  intros Hf K k' a'. rewrite actors_get_update. case_decide; subst; [|apply K].
  destruct (actors_get k l) as [a|] eqn:G; [|done]. intros [= <-].
  destruct (Hf a) as [-> ->]. by apply K.
Qed.

Lemma keyed_spawn p cs : forall l, keyed l -> keyed (foldl (spawn_child p) l cs).
Proof.
  intros l K k a G. apply spawn_fold_get in G as [G|(_ & c & _ & -> & ->)]; [by apply K|done].
Qed.

Lemma addressed_nil l : addressed [] l.
Proof. intros k ty id m H. inversion H. Qed.

Lemma addressed_quiet o l : Forall quiet o -> addressed o l.
Proof. intros F k ty id m H. rewrite Forall_forall in F. by apply F in H. Qed.

Lemma addressed_app o1 o2 l : addressed o1 l -> addressed o2 l -> addressed (o1 ++ o2) l.
Proof. intros H1 H2 k ty id m H. apply elem_of_app in H as [?|?]; eauto. Qed.

Lemma processLoop_addressed now it k r r' t o :
  processLoop now it k r = (r', t, o) -> addressed o (actors r').
Proof.
  intros H. pose proof H as F. apply processLoop_fields in F as (-> & _).
  revert H. unfold processLoop. destruct (actors_get k (actors r)) as [a|] eqn:G.
  - destruct (queue a).
    + intros H. apply addressed_quiet. by eapply persistActorState_quiet.
    + intros [= <- <- <-] k' ty id m' Hin. apply list_elem_of_singleton in Hin.
      injection Hin as -> -> -> ->. eauto.
  - intros [= <- <- <-]. apply addressed_nil.
Qed.

Lemma drainLoop_from_addressed now entries : forall it r r' t o,
  drainLoop_from now it entries r = (r', t, o) -> addressed o (actors r').
Proof.
  induction entries as [|[k a] rest IH]; simpl; intros it r r' t o.
  - intros [= <- <- <-]. apply addressed_nil.
  - repeat case_match; eauto. unfold processActorQueue.
    repeat case_match; try (intros [= <- <- <-]; apply addressed_nil).
    apply processLoop_addressed.
Qed.

Lemma drainLoop_from_keyed now entries it r r' t o :
  drainLoop_from now it entries r = (r', t, o) -> keyed (actors r) -> keyed (actors r').
Proof.
  intros H K. apply drainLoop_from_fields in H as ([->|[k ->]] & _); [done|].
  by apply keyed_update.
Qed.

Lemma triggerDraining_keyed now r r' o :
  triggerDraining now r = (r', o) -> keyed (actors r) ->
  keyed (actors r') /\ addressed o (actors r').
Proof.
  unfold triggerDraining. destruct (isDraining r).
  { intros [= <- <-] K. split; [done|apply addressed_nil]. }
  destruct (drainLoop _ _ _) as [[r1 t] o1] eqn:E. intros [= <- <-] K.
  unfold drainLoop in E. split.
  - by apply (drainLoop_from_keyed _ _ _ _ _ _ _ E).
  - by apply (drainLoop_from_addressed _ _ _ _ _ _ _ E).
Qed.

Lemma handleRoute_keyed now body r r' o :
  handleRoute now body r = (r', o) -> keyed (actors r) ->
  keyed (actors r') /\ addressed o (actors r').
Proof.
  unfold handleRoute. destruct body as [b|].
  2:{ intros [= <- <-] K. split; [done|]. apply addressed_quiet. by repeat constructor. }
  destruct (lookup_or_create b r) as [r1 a] eqn:L. intros H K.
  apply lookup_or_create_spec in L as (_ & _ & _ & _ & _ & _ & Sh). cbv zeta in Sh.
  assert (K1 : keyed (actors r1)).
  { destruct Sh as [[-> _]|(N & -> & ->)]; [done|]. intros k a0.
    rewrite actors_get_app_fresh by done. case_decide; subst; [by intros [= <-]|apply K]. }
  revert H. repeat case_match;
    try (intros [= <- <-]; split; [done|]; apply addressed_quiet; by repeat constructor).
  intros [= <- <-].
  match goal with H : triggerDraining _ _ = _ |- _ =>
    apply triggerDraining_keyed in H as [K2 A2] end.
  - split; [done|]. intros k ty id m Hin.
    apply elem_of_cons in Hin as [Hin|Hin]; [done|eauto].
  - simpl. by apply keyed_update.
Qed.

Lemma afterInvoke_keyed now it k m res r r' t o :
  afterInvoke now it k m res r = (r', t, o) -> keyed (actors r) ->
  keyed (actors r') /\ addressed o (actors r').
Proof.
  intros E K. split.
  - destruct (throws_or_not res) as [->|NT].
    { injection E as <- _ _. simpl. by apply keyed_update. }
    destruct (actors_get k (actors r)) as [a|] eqn:G.
    + destruct (afterInvoke_state _ _ _ _ _ _ _ _ _ _ G NT E) as [-> _].
      apply keyed_update; [done|]. by apply keyed_spawn.
    + revert E. unfold afterInvoke. rewrite G. destruct res as [|st|body]; [done| |].
      * repeat case_match. intros [= <- <- <-].
        match goal with H : persistActorState _ _ _ _ = _ |- _ =>
          apply persistActorState_fields in H as (-> & _) end.
        match goal with H : settle _ _ _ = _ |- _ =>
          apply settle_fields in H as (A1 & _) end.
        simpl. rewrite A1. by apply keyed_update.
      * by intros [= <- <- <-].
  - revert E. unfold afterInvoke. repeat case_match; intros [= <- <- <-];
      repeat apply addressed_app;
      try solve [apply addressed_quiet;
           eauto using settle_quiet, persistActorState_quiet, rejectRemaining_quiet];
      try apply addressed_nil.
    by eapply processLoop_addressed.
Qed.

Lemma step_keyed now e r r' o :
  step now e r = Some (r', o) -> keyed (actors r) ->
  keyed (actors r') /\ addressed o (actors r').
Proof.
  assert (Q : forall o, Forall quiet o -> keyed (actors r) ->
              keyed (actors r) /\ addressed o (actors r)).
  { intros o0 F K. split; [done|by apply addressed_quiet]. }
  assert (Reset : is_reset e -> step now e r = Some (r', o) -> keyed (actors r) ->
            keyed (actors r') /\ addressed o (actors r')).
  { intros I S K. apply reset_fields in S as (-> & _ & _ & _ & _ & _ & F); [|done].
    apply Q; [by apply reset_obs_quiet|done]. }
  destruct e as [body|body|p|p|m|t res|t ok|t|t|c ok|c ok]; try (by apply Reset);
    clear Reset; simpl.
  - intros [= H]. revert H. unfold worker_invoke.
    repeat case_match; try (intros [= <- <-]; apply Q; by repeat constructor).
    apply handleRoute_keyed.
  - intros [= H]. by eapply handleRoute_keyed.
  - intros [= <- <-]. apply Q. by repeat constructor.
  - intros [= H]. unfold timerFires in H.
    case_decide; inversion H; subst; apply Q; by repeat constructor.
  - destruct (tasks r !! t) as [[it k m|?|?|]|] eqn:L; try done.
    destruct (afterInvoke _ _ _ _ _ _) as [[r1 t1] o1] eqn:E. intros [= <- <-].
    by apply (afterInvoke_keyed _ _ _ _ _ _ _ _ _ E).
  - destruct (tasks r !! t) as [[?|it k|?|]|] eqn:L; try done.
    intros [= <- <-] K. split; [|apply addressed_nil]. simpl. put_settled.
    by apply keyed_update.
  - destruct (tasks r !! t) as [[?|?|it|]|] eqn:L; try done.
    destruct (drainLoop _ _ _) as [[r1 t1] o1] eqn:E. intros [= <- <-] K.
    unfold drainLoop in E. split.
    + by apply (drainLoop_from_keyed _ _ _ _ _ _ _ E).
    + by apply (drainLoop_from_addressed _ _ _ _ _ _ _ E).
  - destruct (tasks r !! t) as [[?|?|?|]|] eqn:L; try done.
    intros [= H]. unfold drainFinally in H. case_match.
    + intros K. by apply (triggerDraining_keyed _ _ _ _ H).
    + inversion H; subst. intros K. split; [done|apply addressed_nil].
Qed.

Lemma reachable_keyed r tr :
  reachable r tr ->
  keyed (actors r) /\ forall k ty id m, ObsInvoke k ty id m ∈ tr -> k = make_key ty id.
Proof.
  induction 1 as [|r tr now e r' o R [K A] S].
  { split; [done|]. intros k ty id m H. inversion H. }
  destruct (step_keyed _ _ _ _ _ S K) as [K' A']. split; [done|].
  intros k ty id m Hin. apply elem_of_app in Hin as [Hin|Hin]; [eauto|].
  destruct (A' _ _ _ _ Hin) as (a & G & -> & ->). by apply K'.
Qed.

(** ** Delivery of what is queued *)

(** With the drain flag up there is a drain task. *)
Lemma triggerDraining_rests now r r' o :
  (tasks r = [] -> isDraining r = false) -> triggerDraining now r = (r', o) ->
  tasks r' = [] -> isDraining r' = false.
Proof.
  intros F. unfold triggerDraining. destruct (isDraining r) eqn:D.
  - intros [= <- <-] T. rewrite D. by apply F.
  - destruct (drainLoop _ _ _) as [[r1 t] o1]. intros [= <- <-]. simpl.
    intros T. by destruct (tasks r1).
Qed.

Lemma handleRoute_rests now body r r' o :
  (tasks r = [] -> isDraining r = false) -> handleRoute now body r = (r', o) ->
  tasks r' = [] -> isDraining r' = false.
Proof.
  intros F. unfold handleRoute. destruct body as [b|]; [|by intros [= <- <-]].
  destruct (lookup_or_create b r) as [r1 a] eqn:L.
  apply lookup_or_create_spec in L as (_ & T & D & _).
  assert (F1 : tasks r1 = [] -> isDraining r1 = false) by (rewrite T, D; exact F).
  repeat case_match; try (by intros [= <- <-]). intros [= <- <-].
  match goal with H : triggerDraining _ _ = _ |- _ =>
    eapply triggerDraining_rests; [|exact H] end.
  exact F1.
Qed.

Lemma step_rests now e r r' o :
  control_ok r -> (tasks r = [] -> isDraining r = false) ->
  step now e r = Some (r', o) -> tasks r' = [] -> isDraining r' = false.
Proof.
  intros C F.
  assert (Reset : is_reset e -> step now e r = Some (r', o) ->
            tasks r' = [] -> isDraining r' = false).
  { intros I S. apply reset_fields in S as (_ & -> & -> & _); done. }
  assert (Busy : forall t task, tasks r !! t = Some task ->
            forall r1 task1, tasks r1 = tasks r ->
            tasks (set_tasks (fun ts => <[t := task1]> ts) r1) = [] -> False).
  { intros t task L r1 task1 T E. simpl in E. rewrite T in E.
    apply lookup_lt_Some in L. apply (f_equal length) in E.
    rewrite length_insert in E. simpl in E. lia. }
  destruct e as [body|body|p|p|m|t res|t ok|t|t|c ok|c ok]; try (by apply Reset);
    clear Reset; simpl.
  - intros [= H]. revert H. unfold worker_invoke.
    repeat case_match; try (by intros [= <- <-]). by apply handleRoute_rests.
  - intros [= H]. by eapply handleRoute_rests.
  - by intros [= <- <-].
  - intros [= H]. unfold timerFires in H. by case_decide; inversion H; subst.
  - destruct (tasks r !! t) as [[it k m|?|?|]|] eqn:L; try done.
    destruct (afterInvoke _ _ _ _ _ _) as [[r1 t1] o1] eqn:E. intros [= <- <-].
    apply afterInvoke_control in E as [T1 _]. intros E. by destruct (Busy _ _ L _ _ T1 E).
  - destruct (tasks r !! t) as [[?|it k|?|]|] eqn:L; try done.
    intros [= <- <-] E. exfalso. eapply (Busy _ _ L); [|exact E]. simpl. by put_settled.
  - destruct (tasks r !! t) as [[?|?|it|]|] eqn:L; try done.
    destruct (drainLoop _ _ _) as [[r1 t1] o1] eqn:E. intros [= <- <-].
    unfold drainLoop in E. apply drainLoop_from_fields in E as (_ & T1 & _).
    intros E. by destruct (Busy _ _ L _ _ T1 E).
  - destruct (tasks r !! t) as [[?|?|?|]|] eqn:L; try done.
    intros [= H]. unfold drainFinally in H. case_match.
    + eapply triggerDraining_rests; [|exact H]. done.
    + by inversion H; subst.
Qed.

Lemma reachable_rests r tr : reachable r tr -> tasks r = [] -> isDraining r = false.
Proof.
  induction 1 as [|r tr now e r' o R IH S]; [done|].
  eauto using step_rests, reachable_control.
Qed.

(** A router without a drain task holds no message. *)
Lemma idle_queues r tr :
  reachable r tr -> tasks r = [] ->
  isDraining r = false /\ forall k, queue_of k r = [].
Proof.
  intros R T. pose proof (reachable_rests _ _ R T) as F. split; [done|].
  destruct (reachable_owned _ _ R) as [B P]. intros k. unfold queue_of.
  destruct (actors_get k (actors r)) as [a|] eqn:G; [|done].
  destruct (hasPendingWork_false _ _ _ (P F) G) as [Ba|Q]; [|done].
  destruct (B _ _ G Ba) as (t & T' & _). congruence.
Qed.

(** *** The number of queued messages *)

Lemma queued_app l1 l2 : queued (l1 ++ l2) = (queued l1 + queued l2)%nat.
Proof.
  unfold queued. rewrite map_app. induction (map _ l1) as [|x l IH]; simpl; [done|].
  rewrite IH. lia.
Qed.

Lemma queued_update k f l a :
  actors_get k l = Some a ->
  (queued (actors_update k f l) + length (queue a) =
   queued l + length (queue (f a)))%nat.
Proof.
  unfold queued. induction l as [|[k0 a0] l IH]; simpl; [done|].
  case_decide; subst; simpl.
  - intros [= ->]. lia.
  - intros G. specialize (IH G). lia.
Qed.

Lemma queued_update_same k f l :
  (forall a, queue (f a) = queue a) -> queued (actors_update k f l) = queued l.
Proof.
  intros Hf. unfold queued. induction l as [|[k0 a0] l IH]; simpl; [done|].
  case_decide; subst; simpl; [by rewrite Hf|by rewrite IH].
Qed.

Lemma queued_spawn p cs : forall l, queued (foldl (spawn_child p) l cs) = queued l.
Proof.
  induction cs as [|c cs IH]; simpl; intros l; [done|]. rewrite IH.
  unfold spawn_child. destruct (actors_get _ l) eqn:G; [done|].
  rewrite (actors_set_none _ _ _ G), queued_app. unfold queued. simpl. lia.
Qed.

(** *** What one step of the drain task does *)

Lemma invoked_app k o1 o2 : invoked k (o1 ++ o2) = invoked k o1 ++ invoked k o2.
Proof. apply omap_app. Qed.

Lemma invoked_quiet k o : Forall quiet o -> invoked k o = [].
Proof. intros F. by destruct (quiet_enqueued k o F). Qed.

Lemma served_mode body : served (RespOk body) ->
  String.eqb (env_mode body) "wait" = true \/
  (String.eqb (env_mode body) "wait" = false /\ String.eqb (env_mode body) "reject" = false).
Proof.
  intros [_ Rj]. simpl in Rj. destruct (String.eqb (env_mode body) "wait"); [by left|].
  right. split; [done|]. by destruct (String.eqb (env_mode body) "reject").
Qed.

(** A served answer takes the head off the queue, and the step either
    leaves the loop, or hands the next message of the key to its
    activation. *)
Lemma afterInvoke_delivers now it k m res r r' t o a :
  actors_get k (actors r) = Some a -> served res ->
  afterInvoke now it k m res r = (r', t, o) ->
  (t = AwaitPersist it k /\ invoked k o = []) \/
  (exists m', t = AwaitInvoke it k m' /\ invoked k o = [messageId m'] /\
              head (tail (queue a)) = Some m').
Proof.
  intros G Sv. unfold afterInvoke. destruct res as [|st|body]; [by destruct Sv| |].
  - destruct (settle _ _ r) as [r1 o1] eqn:E1.
    destruct (persistActorState _ _ _ _) as [[r3 t3] o3] eqn:E3.
    intros [= <- <- <-]. left.
    pose proof (persistActorState_quiet _ _ _ _ _ _ _ E3) as Q3.
    apply persistActorState_fields in E3 as (_ & _ & _ & _ & _ & ->).
    split; [done|]. apply invoked_quiet, Forall_app. eauto using settle_quiet.
  - rewrite G. destruct (settle _ _ _) as [r2 o2] eqn:E2.
    pose proof (settle_quiet _ _ _ _ _ E2) as Q2.
    apply settle_fields in E2 as (A2 & _). simpl in A2.
    destruct (served_mode _ Sv) as [W|[W Rj]]; rewrite W; [|rewrite Rj].
    + destruct (persistActorState _ _ _ _) as [[r3 t3] o3] eqn:E3.
      intros [= <- <- <-]. left.
      pose proof (persistActorState_quiet _ _ _ _ _ _ _ E3) as Q3.
      apply persistActorState_fields in E3 as (_ & _ & _ & _ & _ & ->).
      split; [done|]. apply invoked_quiet, Forall_app. eauto.
    + destruct (processLoop _ _ _ _) as [[r3 t3] o3] eqn:E3. intros [= <- <- <-].
      revert E3. unfold processLoop. simpl. rewrite A2.
      rewrite actors_get_update, decide_True by done.
      rewrite (spawn_fold_get_some _ _ _ _ _ G). simpl.
      destruct (tail (queue a)) as [|m2 q2] eqn:Tl.
      * intros E3. left.
        pose proof (persistActorState_quiet _ _ _ _ _ _ _ E3) as Q3.
        apply persistActorState_fields in E3 as (_ & _ & _ & _ & _ & ->).
        split; [done|]. apply invoked_quiet, Forall_app. eauto.
      * intros [= <- <- <-]. right. exists m2. split; [done|]. split; [|done].
        rewrite invoked_app, (invoked_quiet _ _ Q2). unfold invoked. simpl.
        by rewrite decide_True.
Qed.

(** The loop resumed at [it] passes over what is empty and starts the call
    for the first message it finds, if there is one. *)
Lemma drainLoop_from_none now r : forall entries it,
  (forall k a, (k, a) ∈ entries -> queue a = []) ->
  drainLoop_from now it entries r = (r, Settled, []).
Proof.
  induction entries as [|[k a] rest IH]; intros it E; [done|]. simpl.
  rewrite (E k a) by (by left). simpl.
  destruct (busy a); apply IH; intros k0 a0 H0; apply (E k0); by right.
Qed.

Lemma queues_empty_or_not (entries : ActorMap) :
  (forall k a, (k, a) ∈ entries -> queue a = []) \/
  (exists k a, (k, a) ∈ entries /\ queue a <> []).
Proof.
  induction entries as [|[k a] rest [IH|(k1 & a1 & H1 & Q1)]].
  - left. intros k a H. inversion H.
  - destruct (queue a) as [|m q] eqn:Q.
    + left. intros k0 a0 H0. apply elem_of_cons in H0 as [[= -> ->]|H0]; eauto.
    + right. exists k, a. split; [by left|]. by rewrite Q.
  - right. exists k1, a1. split; [by right|done].
Qed.

(** The start of a call for the head of [k']: what it does to the backlog
    of every key. *)
Lemma invoke_starts_backlog r r' t it' k' a m k :
  tasks r = [t] -> (forall it0 k0 m0, t <> AwaitInvoke it0 k0 m0) ->
  actors_get k' (actors r) = Some a -> head (queue a) = Some m ->
  tasks r' = [AwaitInvoke it' k' m] ->
  actors r' = actors_update k' (with_busy true) (actors r) ->
  invoked k [ObsInvoke k' (actorType a) (actorId a) m] ++ backlog k r' = backlog k r.
Proof.
  intros T NI G Hd T' A. unfold backlog. rewrite T, T'.
  rewrite (qids_update_same _ _ _ _ _ A) by done.
  assert (backlog_r : match t with
                      | AwaitInvoke _ k0 _ => if decide (k0 = k) then tail (qids k r)
                                              else qids k r
                      | _ => qids k r
                      end = qids k r).
  { destruct t as [it0 k0 m0| | |]; try done. by destruct (NI it0 k0 m0). }
  rewrite backlog_r. unfold invoked. simpl. case_decide; subst; [|done].
  unfold qids, queue_of. rewrite G. by destruct (queue a); simplify_eq/=.
Qed.

Lemma no_busy_key r tr t :
  reachable r tr -> tasks r = [t] -> (forall k, ~ works_on k t) ->
  forall k a, actors_get k (actors r) = Some a -> busy a = false.
Proof.
  intros R T NW k a G. destruct (reachable_owned _ _ R) as [B _].
  destruct (busy a) eqn:Ba; [|done].
  destruct (B _ _ G Ba) as (t0 & T0 & W). rewrite T in T0. injection T0 as <-.
  by destruct (NW k).
Qed.

(** One step of the router left to itself: it brings the end nearer and
    hands out the next message of the backlog, if any. *)
Lemma drain_step answer now r tr t :
  (forall m, served (answer m)) -> reachable r tr -> tasks r = [t] ->
  exists e r1 o,
    completion answer r = Some e /\ step now e r = Some (r1, o) /\
    (effort r1 < effort r)%nat /\
    forall k, invoked k o ++ backlog k r1 = backlog k r.
Proof.
  intros Sv R T. pose proof (reachable_control _ _ R) as C.
  destruct (reachable_wf _ _ R) as [ND W].
  assert (L : tasks r !! 0%nat = Some t) by (by rewrite T).
  unfold completion, effort. rewrite T.
  destruct t as [it k0 m|it k0|it|].
  - (* the call for the head of [k0] is answered *)
    destruct (single_task _ _ _ C L) as (_ & _ & _ & a & G & Ba & Hd).
    destruct (Sv m) as [NT Rj].
    exists (EvInvokeDone 0 (answer m)). simpl. rewrite L.
    destruct (afterInvoke now it k0 m (answer m) r) as [[r' t'] o'] eqn:E.
    eexists _, _. split; [reflexivity|]. split; [reflexivity|].
    destruct (afterInvoke_control _ _ _ _ _ _ _ _ _ E) as [T1 _].
    destruct (afterInvoke_state _ _ _ _ _ _ _ _ _ _ G NT E) as [A _].
    rewrite Rj in A.
    destruct (afterInvoke_get _ _ _ _ _ _ _ _ _ _ G NT E) as (a' & G' & _ & _ & _ & _ & _ & Q').
    assert (Q1 : queue a' = tail (queue a)).
    { rewrite Q'. pose proof (Sv m) as Sm. clear -Sm. revert Sm.
      generalize (answer m). intros [|st|body] Sm; try done.
      destruct (served_mode _ Sm) as [Wt|[_ ->]]; [|done].
      apply String.eqb_eq in Wt. destruct (String.eqb (env_mode body) "reject") eqn:Rq; [|done].
      apply String.eqb_eq in Rq. congruence. }
    split.
    + simpl. rewrite T1, T. simpl. rewrite A.
      pose proof (queued_update k0 (with_queue (tail (queue a)))
                    (foldl (spawn_child a) (actors r) (spawned (answer m))) a
                    (spawn_fold_get_some _ _ _ _ _ G)) as Qu.
      rewrite queued_spawn in Qu. simpl in Qu.
      destruct (queue a) as [|m0 q0]; [done|]. simpl in Qu.
      change (tail (m0 :: q0)) with q0.
      assert (rank t' <= 4)%nat by (destruct t'; simpl; lia). lia.
    + intros k. unfold backlog. simpl. rewrite T1, T. simpl.
      destruct (decide (k0 = k)) as [<-|NE].
      * assert (Qk : qids k0 (set_tasks (fun ts => <[0%nat:=t']> ts) r') =
                     tail (qids k0 r)).
        { unfold qids, queue_of. simpl. rewrite G', G, Q1. by destruct (queue a). }
        destruct (afterInvoke_delivers _ _ _ _ _ _ _ _ _ _ G (Sv m) E)
          as [[-> I]|(m' & -> & I & Hd')]; rewrite I.
        -- by rewrite Qk.
        -- rewrite decide_True by done. rewrite Qk. unfold qids, queue_of. rewrite G.
           destruct (queue a) as [|m0 [|m1 q1]]; simplify_eq/=. done.
      * assert (I : invoked k o' = []).
        { apply invoked_nil. intros x Hx.
          destruct x as [|k'' ty id msg| | | |]; simpl; auto.
          apply (afterInvoke_invokes _ _ _ _ _ _ _ _ _ _ _ _ _ E) in Hx. subst k''.
          by rewrite decide_False. }
        rewrite I. simpl.
        assert (Qk : qids k (set_tasks (fun ts => <[0%nat:=t']> ts) r') = qids k r).
        { etrans; [|exact (afterInvoke_other_qids _ _ _ _ _ _ _ _ _ k (not_eq_sym NE) E)].
          done. }
        rewrite Qk.
        destruct (afterInvoke_task _ _ _ _ _ _ _ _ _ E) as [->|[->|[[m' ->]| ->]]];
          try done. by rewrite decide_False.
  - (* the write resolves *)
    exists (EvPersistDone 0 true). simpl. rewrite L. eexists _, _. split; [reflexivity|].
    split; [reflexivity|]. split.
    + simpl. put_settled. rewrite T. simpl. rewrite queued_update_same by done. lia.
    + intros k. unfold backlog. simpl. put_settled. rewrite T. simpl.
      eapply qids_update_same; [simpl; put_settled; reflexivity|done].
  - (* the loop resumes *)
    assert (NB : forall k a, actors_get k (actors r) = Some a -> busy a = false).
    { eapply (no_busy_key r tr (AwaitProcess it)); eauto; by intros k []. }
    exists (EvResume 0). simpl. rewrite L. unfold drainLoop.
    assert (Live : forall k a, (k, a) ∈ drop it (actors r) ->
              actors_get k (actors r) = Some a /\ busy a = false).
    { intros k a Hin. apply list_elem_of_lookup in Hin as [i Hi].
      rewrite lookup_drop in Hi. apply list_elem_of_lookup_2 in Hi.
      pose proof (actors_elem_get _ _ _ ND Hi) as G. split; [done|]. eauto. }
    destruct (queues_empty_or_not (drop it (actors r))) as [E|NE].
    + rewrite (drainLoop_from_none now r _ it E).
      eexists _, _. split; [reflexivity|]. split; [reflexivity|]. split.
      * simpl. rewrite T. simpl. lia.
      * intros k. unfold backlog. simpl. by rewrite T.
    + destruct (drainLoop_from_picks now r _ it Live NE)
        as (i & k' & a & m & Li & Hd & _ & DL).
      rewrite DL. eexists _, _. split; [reflexivity|]. split; [reflexivity|].
      destruct (Live k' a) as [G _]; [by eapply list_elem_of_lookup_2|]. split.
      * simpl. rewrite T. simpl. rewrite queued_update_same by done. lia.
      * intros k. eapply invoke_starts_backlog; eauto. simpl. by rewrite T.
  - (* the cycle is over, and the next one starts if anything is queued *)
    exists (EvSettled 0).
    destruct (settled_restarts r tr now 0%nat R L) as (NB & Re & Id).
    destruct (queues_empty_or_not (actors r)) as [E|(k1 & a1 & H1 & Q1)].
    + destruct Id as (r' & S & T' & _ & A & _).
      { intros k. unfold queue_of. destruct (actors_get k (actors r)) as [a|] eqn:G; [|done].
        apply (E k). by apply actors_get_elem. }
      exists r', []. split; [reflexivity|]. split; [exact S|]. split.
      * rewrite T', A. simpl. lia.
      * intros k. unfold backlog. rewrite T, T'. simpl. by apply qids_same.
    + destruct Re as (i & k' & a & m & r' & Li & Hd & _ & S & T' & _ & A & _).
      { exists k1. unfold queue_of. by rewrite (actors_elem_get _ _ _ ND H1). }
      eexists r', _. split; [reflexivity|]. split; [exact S|].
      assert (G : actors_get k' (actors r) = Some a).
      { apply actors_elem_get; [done|]. by eapply list_elem_of_lookup_2. }
      split.
      * rewrite T', A. simpl. rewrite queued_update_same by done. lia.
      * intros k. eapply invoke_starts_backlog; eauto.
Qed.

(** Left to itself with served answers, the router gets through its
    queues: it comes to rest, and it has handed out the backlog of every
    key in queue order. *)
Lemma drain_delivers answer now :
  (forall m, served (answer m)) ->
  forall n r tr, reachable r tr -> (effort r <= n)%nat ->
  exists r' tr',
    drain answer n now r tr = (r', tr') /\ reachable r' tr' /\ tasks r' = [] /\
    forall k, invoked k tr' = invoked k tr ++ backlog k r.
Proof.
  intros Sv. induction n as [|n IH]; intros r tr R Le.
  - exists r, tr. split; [done|]. split; [done|].
    assert (T : tasks r = []).
    { unfold effort in Le. destruct (tasks r) as [|t ts]; [done|]. destruct t; simpl in Le; lia. }
    split; [done|]. intros k. unfold backlog, qids. rewrite T.
    destruct (idle_queues _ _ R T) as [_ Q]. by rewrite Q, app_nil_r.
  - destruct (tasks r) as [|t ts] eqn:T.
    + exists r, tr. simpl. unfold completion. rewrite T. split; [done|]. split; [done|].
      split; [done|]. intros k. unfold backlog, qids. rewrite T.
      destruct (idle_queues _ _ R T) as [_ Q]. by rewrite Q, app_nil_r.
    + assert (T1 : tasks r = [t]).
      { destruct (reachable_control _ _ R) as [E|(t0 & E & _)]; congruence. }
      destruct (drain_step answer now r tr t Sv R T1) as (e & r1 & o & Ce & S & Lt & Bk).
      destruct (IH r1 (tr ++ o)) as (r' & tr' & Dr & R' & T' & I); [|lia|].
      { eapply reach_step; eauto. }
      exists r', tr'. simpl. rewrite Ce, S. split; [done|]. split; [done|].
      split; [done|]. intros k. by rewrite I, invoked_app, <- app_assoc, Bk.
Qed.

(** C1.  In every reachable state and for every actor key [k]: at most one
    addressed call for [k] is in flight; a call in flight belongs to a key
    marked busy and carries the head of that key's queue; every message
    handed to the activation was enqueued for [k]; and the messages are
    handed out in enqueue order: a message enqueued earlier is never handed
    out after one enqueued later.  The mechanism: [drainLoop] passes over a
    busy key, [processActorQueue] returns at once for a busy key, and for
    an idle key it marks the key busy and sends the head of its queue.
    And the messages are delivered: the queue of [k] is the end of what
    was enqueued for [k], and when the router is left to itself, with
    every call answered (not thrown, and not answered with ["reject"]) and
    every write resolving, it comes to rest within [effort r] steps, with
    no drain task, the flag down and every queue empty, having handed to
    the activation of [k] exactly the messages of [k] that were still to
    be handed out, in queue order. *)
Theorem fifo_single_flight r tr k :
  reachable r tr ->
  (in_flight k r <= 1)%nat /\
  (forall t it m, tasks r !! t = Some (AwaitInvoke it k m) ->
     exists a, actors_get k (actors r) = Some a /\ busy a = true /\
               head (queue a) = Some m) /\
  (forall x, x ∈ invoked k tr -> x ∈ enqueued k tr) /\
  (forall a b, before (enqueued k tr) a b -> ~ before (invoked k tr) b a) /\
  (forall a, actors_get k (actors r) = Some a -> busy a = true ->
     (forall now it rest,
        drainLoop_from now it ((k, a) :: rest) r = drainLoop_from now (S it) rest r) /\
     (forall now it, processActorQueue now it k r = (r, AwaitProcess it, []))) /\
  (forall a m q, actors_get k (actors r) = Some a -> busy a = false ->
     queue a = m :: q ->
     forall now it,
       processActorQueue now it k r =
         (set_busy k true r, AwaitInvoke it k m,
          [ObsInvoke k (actorType a) (actorId a) m])) /\
  (exists D, enqueued k tr = D ++ qids k r) /\
  (forall answer now, (forall m, served (answer m)) ->
     exists r' tr',
       drain answer (effort r) now r tr = (r', tr') /\
       tasks r' = [] /\ isDraining r' = false /\
       (forall k', queue_of k' r' = []) /\
       invoked k tr' = invoked k tr ++ backlog k r).
Proof.
  intros R. pose proof (reachable_control _ _ R) as C.
  pose proof (reachable_fifo k _ _ R) as F.
  split; [|split; [|split; [|split; [|split; [|split; [|split]]]]]].
  - unfold in_flight.
    etrans; [apply length_filter|].
    destruct C as [E|(t & E & _)]; rewrite E; simpl; lia.
  - intros t it m L. by destruct (single_task _ _ _ C L) as (_ & _ & _ & O).
  - eapply fifo_V_in_E; eauto.
  - destruct F as (D & _ & _ & _ & _ & O). intros a b HE HV. by apply (O a b).
  - intros a G B. split; intros now it; [intros rest|].
    + by apply drainLoop_skips_busy.
    + by apply processActorQueue_returns_if_busy with a.
  - intros a m q G B Q now it. by eapply processActorQueue_invokes.
  - destruct F as (D & E & _). by exists D.
  - intros answer now Sv.
    destruct (drain_delivers answer now Sv (effort r) r tr R (Nat.le_refl _))
      as (r' & tr' & Dr & R' & T' & I).
    exists r', tr'. split; [done|]. split; [done|].
    destruct (idle_queues _ _ R' T') as [Fl Q]. auto.
Qed.

Lemma fifo_single_flight_witness :
  reachable (after demo_fifo).1 (after demo_fifo).2 /\
  (in_flight "room:r1" (after demo_fifo).1 <= 1)%nat /\
  ~ before (invoked "room:r1" (after demo_fifo).2) 1%nat 0%nat /\
  invoked "room:r1" (after demo_fifo).2 = [0%nat; 1%nat] /\
  exists r' tr',
    drain (fun _ => RespOk None) (effort (after demo_fifo).1) 5
      (after demo_fifo).1 (after demo_fifo).2 = (r', tr') /\
    tasks r' = [] /\
    invoked "room:r1" tr' = [0%nat; 1%nat; 2%nat].
Proof.
  split; [apply after_reachable|].
  destruct (fifo_single_flight (after demo_fifo).1 (after demo_fifo).2 "room:r1"
              (after_reachable demo_fifo)) as (H1 & _ & _ & H4 & _ & _ & _ & H8).
  split; [exact H1|]. split.
  { apply H4. exists 0%nat, 1%nat. split; [lia|]. split; reflexivity. }
  split; [reflexivity|].
  destruct (H8 (fun _ => RespOk None) 5) as (r' & tr' & Dr & T' & _ & _ & I).
  { intros m. split; [discriminate|reflexivity]. }
  exists r', tr'. split; [exact Dr|]. split; [exact T'|]. exact I.
Defined.

(** * Properties of the HTTP surface *)

(** X11.  Actor keys of types without a colon do not collide: if two
    pairs of a type and an id give the same key and neither type contains
    [:], the types are equal and the ids are rendered alike.  (The four
    types the activation knows have no colon.) *)
Theorem actor_keys_tell_types_apart t t' i i' :
  colon_free t = true -> colon_free t' = true ->
  make_key (JString t) i = make_key (JString t') i' ->
  t = t' /\ to_str i = to_str i'.
Proof.
  unfold make_key. simpl. generalize (to_str i) (to_str i'). clear i i'.
  intros i i'. revert t'. induction t as [|c t IH]; intros [|c' t'] Ct Ct'; simpl in *.
  - intros E. by simplify_eq/=.
  - intros E. by simplify_eq/=.
  - intros E. by simplify_eq/=.
  - apply andb_true_iff in Ct as [_ Ct]. apply andb_true_iff in Ct' as [_ Ct'].
    intros E. injection E as -> E. destruct (IH _ Ct Ct' E) as [-> ->]. done.
Qed.

Lemma actor_keys_tell_types_apart_witness :
  colon_free "room" = true /\ colon_free "teacher" = true /\
  (make_key (JString "room") (JString "r1") = make_key (JString "teacher") (JString "r1") ->
   "room" = "teacher").
Proof.
  split; [reflexivity|]. split; [reflexivity|]. intros E.
  exact (proj1 (actor_keys_tell_types_apart "room" "teacher" (JString "r1") (JString "r1")
                  eq_refl eq_refl E)).
Defined.

(** X10.  Every call the router sends goes to the activation named
    [actorType:actorId] after the type and the id the call carries.  That
    is the activation [/actor-status] of the worker reads when given the
    same type and id, and, when both are truthy, the one [/reset-actor]
    resets. *)
Theorem activation_names_agree r tr k ty id m :
  reachable r tr -> ObsInvoke k ty id m ∈ tr ->
  k = make_key ty id /\
  (forall req,
     req_path req = "/actor-status" ->
     searchParams_get "actorType" (req_query req) = ty ->
     searchParams_get "actorId" (req_query req) = id ->
     worker_fetch req = Forward (ActorStub k) (internal "/status" "GET" NoBody)) /\
  (forall req b,
     req_path req = "/reset-actor" -> req_method req = "POST" ->
     req_json req = Some b -> body_actorType b = ty -> body_actorId b = id ->
     truthy ty = true -> truthy id = true ->
     worker_fetch req = Forward (ActorStub k) (internal "/admin-reset" "POST" NoBody)).
Proof.
  intros R Hin. destruct (reachable_keyed _ _ R) as [_ A].
  rewrite (A _ _ _ _ Hin). split; [done|]. split.
  - intros req P T I. unfold worker_fetch. rewrite P, T, I. done.
  - intros req b P M J T I Tt Ti. unfold worker_fetch. rewrite P, M, J, T, I, Tt, Ti. done.
Qed.

Lemma activation_names_agree_witness :
  reachable (after demo_waiting).1 (after demo_waiting).2 /\
  ObsInvoke "room:r1" (JString "room") (JString "r1") first_message
    ∈ (after demo_waiting).2 /\
  "room:r1" = make_key (JString "room") (JString "r1").
Proof.
  assert (Hin : ObsInvoke "room:r1" (JString "room") (JString "r1") first_message
                  ∈ (after demo_waiting).2).
  { apply list_elem_of_lookup. exists 1%nat. reflexivity. }
  split; [apply after_reachable|]. split; [exact Hin|].
  exact (proj1 (activation_names_agree _ _ _ _ _ _ (after_reachable demo_waiting) Hin)).
Defined.

(** X13.  [/reset-router] of the worker reaches the admin reset of the
    router with the prefix [actorType:].  Whatever state that router is in
    and whatever else it does while the reset is suspended, the reset asks
    only activations whose key starts with that prefix to reset and calls
    [storage.delete] only for the metadata keys of such activations, all
    of them stored when the reset arrived; and each of its steps leaves
    the queues, the callers and the drain tasks alone and keeps every
    stored entry outside the prefix. *)
Theorem reset_router_clears_one_type req name ireq :
  req_path req = "/reset-router" ->
  worker_fetch req = Forward (RouterStub name) ireq ->
  router_fetch ireq = Some (EvAdminReset (Some (to_str name +:+ ":"))) /\
  forall now es r,
    (forall k,
       ObsActorReset k ∈ call_log (length (resets r))
         ((now, EvAdminReset (Some (to_str name +:+ ":"))) :: es) r ->
       String.prefix (to_str name +:+ ":") k = true /\
       is_Some (storage_get ("meta:" +:+ k) (storage r))) /\
    (forall key,
       ObsDelete key ∈ call_log (length (resets r))
         ((now, EvAdminReset (Some (to_str name +:+ ":"))) :: es) r ->
       is_Some (storage_get key (storage r)) /\
       exists k, key = "meta:" +:+ k /\ String.prefix (to_str name +:+ ":") k = true) /\
    forall r1 tr1 now1 e r2 o,
      run ((now, EvAdminReset (Some (to_str name +:+ ":"))) :: es) r [] = Some (r1, tr1) ->
      call_of e r1 = Some (length (resets r)) ->
      step now1 e r1 = Some (r2, o) ->
      actors r2 = actors r1 /\ pendingResults r2 = pendingResults r1 /\
      tasks r2 = tasks r1 /\ isDraining r2 = isDraining r1 /\
      forall key, String.prefix ("meta:" +:+ to_str name +:+ ":") key = false ->
        storage_get key (storage r2) = storage_get key (storage r1).
Proof.
  intros P. unfold worker_fetch. rewrite P. simpl.
  destruct (String.eqb (req_method req) "POST"); simpl; [|done].
  destruct (req_json req) as [b|]; [|done]. intros [= <- <-].
  split; [done|]. intros now es r.
  set (p := to_str (body_actorType b) +:+ ":").
  set (cleared := map fst (storage_list ("meta:" +:+ p) (storage r))).
  pose proof (reset_log_fits now (Some p) es r) as [[rest F] _]. simpl in F.
  fold cleared in F.
  assert (In : forall x,
    x ∈ call_log (length (resets r)) ((now, EvAdminReset (Some p)) :: es) r ->
    x ∈ reset_trace cleared).
  { intros x Hx. rewrite F. apply elem_of_app. by left. }
  split; [|split].
  - intros k Hk. apply In, reset_trace_elem in Hk as [(key & Hin & [E|E])|E];
      try discriminate.
    apply listed_key in Hin as (Hs & rest' & -> & Sl & Pf).
    injection E as ->. change (slice 5 ("meta:" +:+ rest')) with rest'. by split.
  - intros key Hk. apply In, reset_trace_elem in Hk as [(key' & Hin & [E|E])|E];
      try discriminate.
    injection E as ->. apply listed_key in Hin as (Hs & rest' & -> & Sl & Pf).
    split; [done|]. by exists rest'.
  - intros r1 tr1 now1 e r2 o Run Hc S.
    assert (I : is_reset e) by (by destruct e).
    pose proof (reset_fields _ _ _ _ _ I S) as (A & T & D & _ & Pn & _).
    repeat (split; [done|]).
    destruct (reset_under_way now (Some p) es r r1 tr1 Run) as (task1 & L1 & Ok1).
    cbv zeta in Ok1.
    intros key Pf. eapply own_step_store; [exact L1|exact Ok1|exact Hc|exact S|].
    intros Hin. apply storage_list_keys in Hin as [Hp _].
    change ("meta:" +:+ to_str (body_actorType b) +:+ ":") with ("meta:" +:+ p) in Pf.
    simpl in Hp, Pf. congruence.
Qed.

Lemma reset_router_clears_one_type_witness :
  req_path reset_router_request = "/reset-router" /\
  worker_fetch reset_router_request =
    Forward (RouterStub (JString "room"))
      (internal "/admin-reset" "POST" (PrefixJson "room:")) /\
  router_fetch (internal "/admin-reset" "POST" (PrefixJson "room:")) =
    Some (EvAdminReset (Some "room:")).
Proof.
  split; [reflexivity|]. split; [reflexivity|].
  exact (proj1 (reset_router_clears_one_type reset_router_request _ _ eq_refl eq_refl)).
Defined.

(** X14.  [/router-status] of the worker asks for a truthy [actorType]
    and reaches the status operation of the router without a prefix:
    every state the router holds is then listed, under its key, with its
    live [busy], queue length and policy. *)
Theorem router_status_lists_every_live_actor req name ireq :
  req_path req = "/router-status" ->
  worker_fetch req = Forward (RouterStub name) ireq ->
  truthy name = true /\
  router_fetch ireq = Some (EvStatus None) /\
  forall r tr now k a,
    reachable r tr -> actors_get k (actors r) = Some a ->
    exists entries e,
      step now (EvStatus None) r =
        Some (r, [ObsReply None (json_response 200 (StatusBody entries))]) /\
      e ∈ entries /\ st_actorKey e = k /\ reports e a.
Proof.
  intros P. unfold worker_fetch. rewrite P. simpl.
  destruct (String.eqb (req_method req) "GET"); simpl; [|done].
  destruct (truthy (searchParams_get "actorType" (req_query req))) eqn:T; simpl; [|done].
  intros [= <- <-]. split; [done|]. split; [done|].
  intros r tr now k a R G. pose proof (reachable_wf _ _ R) as W.
  destruct (status_lists None r k a W G) as (e & He & K & Rp); [by left|].
  exists (status_snapshot None r), e. split; [done|]. split; [done|].
  split; [|done]. rewrite K. by apply W.
Qed.

Lemma router_status_lists_every_live_actor_witness :
  req_path router_status_request = "/router-status" /\
  worker_fetch router_status_request =
    Forward (RouterStub (JString "room")) (internal "/status" "GET" NoBody) /\
  router_fetch (internal "/status" "GET" NoBody) = Some (EvStatus None).
Proof.
  split; [reflexivity|]. split; [reflexivity|].
  exact (proj1 (proj2
    (router_status_lists_every_live_actor router_status_request _ _ eq_refl eq_refl))).
Defined.

(** X12.  Every request the worker forwards to a router or to an
    activation, and every request the router sends to an activation, is
    one the recipient's [fetch] dispatches to an operation: the fallback
    answers [GoldfishRouter DO] and [GoldfishActor DO] are never the reply
    to a request of this code. *)
Theorem internal_requests_are_served :
  (forall req name ireq,
     worker_fetch req = Forward (RouterStub name) ireq -> is_Some (router_fetch ireq)) /\
  (forall req name ireq now,
     worker_fetch req = Forward (ActorStub name) ireq -> is_Some (actor_fetch now ireq)) /\
  (forall o stub ireq now,
     request_of o = Some (stub, ireq) ->
     (exists name, stub = ActorStub name) /\ is_Some (actor_fetch now ireq)).
Proof.
  split; [|split].
  - intros req name ireq. unfold worker_fetch.
    repeat case_match; intros [= <- <-] || intros [=]; by eexists.
  - intros req name ireq now. unfold worker_fetch.
    repeat case_match; intros [= <- <-] || intros [=]; by eexists.
  - intros o stub ireq now. destruct o; simpl; intros [= <- <-]; split; eauto.
Qed.

(** * Properties of the actor activation wrapper *)

Section ActorMemory.

Variable hs : Actor.Handlers.

Lemma loads_app o1 o2 : loads (o1 ++ o2) = (loads o1 + loads o2)%nat.
Proof. unfold loads. by rewrite List.filter_app, length_app. Qed.

Lemma ensureInitialized_spec a :
  Actor.initialized (Actor.ensureInitialized a).1 = true /\
  Actor.stored (Actor.ensureInitialized a).1 = Actor.stored a /\
  (Actor.initialized a = true -> Actor.ensureInitialized a = (a, [])) /\
  (Actor.initialized a = false ->
   Actor.ensureInitialized a =
     ({| Actor.memory := Some (default ∅ (Actor.stored a)); Actor.initialized := true;
         Actor.stored := Actor.stored a |}, [Actor.StoreGet])).
Proof.
  unfold Actor.ensureInitialized.
  destruct (Actor.initialized a) eqn:I; simpl; repeat split; intros; done.
Qed.

Lemma fetch_loads req a a' ops rep :
  Actor.is_reset req = false -> Actor.fetch hs req a = (a', ops, rep) ->
  Actor.initialized a' = true /\
  (loads ops <= 1)%nat /\
  (Actor.initialized a = true -> loads ops = 0%nat).
Proof.
  intros NR. destruct req as [p ty id now| |]; [| |done]; simpl.
  - destruct (ensureInitialized_spec a) as (I1 & _ & Ht & Hf).
    destruct (Actor.ensureInitialized a) as [a1 o1] eqn:E1. simpl in I1.
    assert (L1 : (loads o1 <= 1)%nat /\ (Actor.initialized a = true -> loads o1 = 0%nat)).
    { destruct (Actor.initialized a).
      - specialize (Ht eq_refl). injection Ht as -> ->. auto.
      - specialize (Hf eq_refl). injection Hf as -> ->. split; [done|]. discriminate. }
    destruct L1 as [L1 L0].
    repeat case_match; intros [= <- <- <-]; simpl; (split; [done|]);
      unfold loads in *; rewrite ?List.filter_app, ?length_app; simpl;
      (split; [lia|intros I0; specialize (L0 I0); lia]).
  - destruct (ensureInitialized_spec a) as (I1 & _ & Ht & Hf).
    destruct (Actor.ensureInitialized a) as [a1 o1] eqn:E1. simpl in I1.
    intros [= <- <- <-]. split; [done|].
    destruct (Actor.initialized a).
    + specialize (Ht eq_refl). injection Ht as -> ->. auto.
    + specialize (Hf eq_refl). injection Hf as -> ->. split; [done|]. discriminate.
Qed.

Lemma serve_loads reqs : forall a,
  forallb (fun req => negb (Actor.is_reset req)) reqs = true ->
  (loads (Actor.serve hs reqs a).2 <= 1)%nat /\
  (Actor.initialized a = true -> loads (Actor.serve hs reqs a).2 = 0%nat).
Proof.
  induction reqs as [|req reqs IH]; simpl; intros a NR.
  { unfold loads. simpl. split; [lia|done]. }
  apply andb_true_iff in NR as [NR1 NR].
  destruct (Actor.fetch hs req a) as [[a1 o1] rep] eqn:F.
  apply fetch_loads in F as (I1 & L1 & L0); [|by destruct (Actor.is_reset req)].
  destruct (IH a1 NR) as [_ IH0]. specialize (IH0 I1).
  destruct (Actor.serve hs reqs a1) as [a2 o2]. simpl in *.
  rewrite loads_app, IH0. split; [lia|]. intros I0. rewrite (L0 I0). lia.
Qed.

(** C8.  An invoke that returns has written the whole memory object to the
    store as its last store operation; a new activation over that store
    (the in-memory cache being lost) that initializes itself, or serves a
    status request, sees exactly that memory.  An activation reads the
    store at most once however many invoke and status requests it serves,
    and with nothing stored the memory it loads is the empty object. *)
Theorem memory_round_trip a p ty id now a' ops res np sp :
  Actor.fetch hs (Actor.Invoke p ty id now) a = (a', ops, Actor.InvokeReply res np sp) ->
  (exists m, Actor.memory a' = Some m /\ Actor.stored a' = Some m /\
             last ops = Some (Actor.StorePut m) /\
             Actor.memory (Actor.ensureInitialized (Actor.discard a')).1 = Some m /\
             (Actor.fetch hs Actor.Status (Actor.discard a')).2 = Actor.StatusReply m) /\
  (forall reqs s,
     forallb (fun req => negb (Actor.is_reset req)) reqs = true ->
     (loads (Actor.serve hs reqs (Actor.activate s)).2 <= 1)%nat) /\
  Actor.memory (Actor.ensureInitialized (Actor.activate None)).1 = Some ∅.
Proof.
  intros F. split; [|split; [|done]].
  - simpl in F. destruct (Actor.ensureInitialized a) as [a1 o1].
    destruct (Actor.memory a1) as [m|]; [|done].
    destruct (Actor.handleMessage _ _ _ _) as [m' [[[res' np'] sp']|]]; [|done].
    injection F as <- <- <- <- <-. exists m'. simpl. repeat split; auto.
    by rewrite last_snoc.
  - intros reqs s NR. by apply serve_loads.
Qed.

End ActorMemory.

Lemma memory_round_trip_witness :
  Actor.fetch counting_handlers first_invoke (Actor.activate None) =
    ((Actor.fetch counting_handlers first_invoke (Actor.activate None)).1.1,
     (Actor.fetch counting_handlers first_invoke (Actor.activate None)).1.2,
     Actor.InvokeReply (Actor.Handled None)
       {| mode := "immediate"; redirectTo := None |} []) /\
  exists m,
    m !! "count" = Some (Actor.VNum 1) /\
    m !! "lastActiveAt" = Some (Actor.VNum 7) /\
    Actor.memory (Actor.ensureInitialized
      (Actor.discard (Actor.fetch counting_handlers first_invoke
                        (Actor.activate None)).1.1)).1 = Some m.
Proof.
  assert (F : Actor.fetch counting_handlers first_invoke (Actor.activate None) =
    ((Actor.fetch counting_handlers first_invoke (Actor.activate None)).1.1,
     (Actor.fetch counting_handlers first_invoke (Actor.activate None)).1.2,
     Actor.InvokeReply (Actor.Handled None)
       {| mode := "immediate"; redirectTo := None |} []))
    by (vm_compute; reflexivity).
  split; [exact F|].
  destruct (memory_round_trip counting_handlers _ _ _ _ _ _ _ _ _ _ F)
    as ((m & Hm & _ & _ & Hr & _) & _).
  exists m. split; [|split; [|exact Hr]].
  - assert (E : Actor.memory (Actor.fetch counting_handlers first_invoke
                                (Actor.activate None)).1.1 ≫= (.!! "count")
                = Some (Actor.VNum 1)) by (vm_compute; reflexivity).
    rewrite Hm in E. exact E.
  - assert (E : Actor.memory (Actor.fetch counting_handlers first_invoke
                                (Actor.activate None)).1.1 ≫= (.!! "lastActiveAt")
                = Some (Actor.VNum 7)) by (vm_compute; reflexivity).
    rewrite Hm in E. exact E.
Defined.

(** ** Resets, failures and unknown types *)

Section ActorRequests.

Variable hs : Actor.Handlers.

(** X15.  The admin reset of an activation deletes the stored memory and
    forgets the loaded one: whatever the activation held, the next request
    is served exactly as a new activation over an empty store serves it,
    and so is every sequence of requests that follows. *)
Theorem admin_reset_forgets a req reqs :
  Actor.fetch hs Actor.AdminReset a =
    ((Actor.fetch hs Actor.AdminReset a).1.1, [Actor.StoreDelete], Actor.ResetReply) /\
  Actor.stored (Actor.fetch hs Actor.AdminReset a).1.1 = None /\
  Actor.fetch hs req (Actor.fetch hs Actor.AdminReset a).1.1 =
    Actor.fetch hs req (Actor.activate None) /\
  Actor.serve hs (req :: reqs) (Actor.fetch hs Actor.AdminReset a).1.1 =
    Actor.serve hs (req :: reqs) (Actor.activate None).
Proof.
  assert (F : Actor.fetch hs req (Actor.fetch hs Actor.AdminReset a).1.1 =
              Actor.fetch hs req (Actor.activate None)) by (by destruct req).
  split; [done|]. split; [done|]. split; [exact F|].
  cbn [Actor.serve]. by rewrite F.
Qed.

(** X16.  An invoke whose handler throws writes nothing: the store is
    untouched (the only store operation can be the initial read).  The
    mutations the handler made before it threw stay in the memory of the
    activation, which a status request then shows, while a new activation
    over the store shows the memory as it was stored. *)
Theorem failed_invoke_writes_nothing a p ty id now a' ops :
  Actor.fetch hs (Actor.Invoke p ty id now) a = (a', ops, Actor.Throws) ->
  Actor.stored a' = Actor.stored a /\
  (forall o, o ∈ ops -> o = Actor.StoreGet) /\
  Actor.initialized a' = true /\
  Actor.fetch hs Actor.Status a' =
    (a', [], Actor.StatusReply (default ∅ (Actor.memory a'))) /\
  (Actor.fetch hs Actor.Status (Actor.discard a')).2 =
    Actor.StatusReply (default ∅ (Actor.stored a)).
Proof.
  simpl. destruct (ensureInitialized_spec a) as (I1 & S1 & Ht & Hf).
  destruct (Actor.ensureInitialized a) as [a1 o1] eqn:E1. simpl in I1, S1.
  assert (G : forall o, o ∈ o1 -> o = Actor.StoreGet).
  { destruct (Actor.initialized a).
    - specialize (Ht eq_refl). injection Ht as _ ->. intros o Ho. inversion Ho.
    - specialize (Hf eq_refl). injection Hf as _ ->. intros o Ho.
      by apply list_elem_of_singleton in Ho. }
  clear Ht Hf.
  destruct (Actor.memory a1) as [m|] eqn:M.
  - destruct (Actor.handleMessage _ _ _ _) as [m' [[[res np] sp]|]]; [done|].
    intros [= <- <-]. unfold Actor.discard, Actor.ensureInitialized. simpl.
    rewrite I1, S1. done.
  - intros [= <- <-]. unfold Actor.discard, Actor.ensureInitialized. simpl.
    rewrite I1, S1. done.
Qed.

(** X17.  An invoke for an actor type other than the four known ones is
    answered with the result [Unknown actorType], the continuation
    [immediate] and no spawn; the memory object is still stamped with
    [actorType], [actorId] and [lastActiveAt] and written to the store. *)
Theorem unknown_actor_type_is_answered a p ty id now :
  unknown_type ty ->
  (Actor.initialized a = true -> is_Some (Actor.memory a)) ->
  exists a' ops m,
    Actor.fetch hs (Actor.Invoke p ty id now) a =
      (a', ops, Actor.InvokeReply (Actor.UnknownActorType ty)
                  {| mode := "immediate"; redirectTo := None |} []) /\
    last ops = Some (Actor.StorePut m) /\
    Actor.memory a' = Some m /\ Actor.stored a' = Some m /\
    m !! "lastActiveAt" = Some (Actor.VNum now) /\
    is_Some (m !! "actorType") /\ is_Some (m !! "actorId").
Proof.
  intros (T1 & T2 & T3 & T4) Hm. simpl.
  destruct (ensureInitialized_spec a) as (I1 & S1 & Ht & Hf).
  destruct (Actor.ensureInitialized a) as [a1 o1] eqn:E1. simpl in I1, S1.
  assert (M1 : is_Some (Actor.memory a1)).
  { destruct (Actor.initialized a).
    - specialize (Ht eq_refl). injection Ht as -> _. by apply Hm.
    - specialize (Hf eq_refl). injection Hf as -> _. by eexists. }
  destruct M1 as [m0 M]. rewrite M. unfold Actor.handleMessage.
  set (m3 := <["lastActiveAt":=_]> _).
  assert (D : Actor.dispatch hs p
                {| Actor.ctx_actorType := ty; Actor.ctx_actorId := id; Actor.ctx_now := now |}
                m3 =
              (m3, Some {| Actor.out_result := Actor.UnknownActorType ty;
                           Actor.out_nextPolicy :=
                             Some {| mode := "immediate"; redirectTo := None |};
                           Actor.out_spawn := Some [] |})).
  { unfold Actor.dispatch. simpl. repeat case_match; congruence. }
  rewrite D. simpl. eexists _, _, m3. split; [reflexivity|].
  split; [by rewrite last_snoc|]. split; [done|]. split; [done|].
  split; [unfold m3; by rewrite lookup_insert_eq|].
  assert (K : forall f v (m : Actor.Memory), is_Some (Actor.assign_default f v m !! f)).
  { intros f v m. unfold Actor.assign_default.
    destruct (m !! f) as [x|] eqn:E; [destruct (Actor.truthy_value x)|];
      rewrite ?lookup_insert_eq, ?E; eauto. }
  split.
  - unfold m3. rewrite lookup_insert_ne by done.
    assert (forall f v f' (m : Actor.Memory), is_Some (m !! f) ->
              is_Some (Actor.assign_default f' v m !! f)) as K2.
    { intros f v f' m [x Hx]. unfold Actor.assign_default.
      destruct (m !! f') as [y|] eqn:E; [destruct (Actor.truthy_value y)|];
        rewrite ?Hx; eauto; destruct (decide (f' = f)) as [->|NE];
        rewrite ?lookup_insert_eq, ?lookup_insert_ne by done; eauto. }
    apply K2, K.
  - unfold m3. rewrite lookup_insert_ne by done. apply K.
Qed.

End ActorRequests.

Lemma failed_invoke_writes_nothing_witness :
  Actor.fetch failing_handlers first_invoke (Actor.activate None) =
    ((Actor.fetch failing_handlers first_invoke (Actor.activate None)).1.1,
     [Actor.StoreGet], Actor.Throws) /\
  Actor.stored (Actor.fetch failing_handlers first_invoke (Actor.activate None)).1.1 = None /\
  Actor.memory (Actor.fetch failing_handlers first_invoke (Actor.activate None)).1.1 ≫=
    (.!! "count") = Some (Actor.VNum 1).
Proof.
  assert (F : Actor.fetch failing_handlers first_invoke (Actor.activate None) =
    ((Actor.fetch failing_handlers first_invoke (Actor.activate None)).1.1,
     [Actor.StoreGet], Actor.Throws)) by (vm_compute; reflexivity).
  split; [exact F|]. split; [|vm_compute; reflexivity].
  exact (proj1 (failed_invoke_writes_nothing failing_handlers _ _ _ _ _ _ _ F)).
Defined.

Lemma unknown_actor_type_is_answered_witness :
  unknown_type (JString "robot") /\
  exists a' ops (m : Actor.Memory),
    Actor.fetch counting_handlers
      (Actor.Invoke (text_payload "1") (JString "robot") (JString "x") 7)
      (Actor.activate None) =
      (a', ops, Actor.InvokeReply (Actor.UnknownActorType (JString "robot"))
                  {| mode := "immediate"; redirectTo := None |} []) /\
    m !! "lastActiveAt" = Some (Actor.VNum 7).
Proof.
  assert (U : unknown_type (JString "robot")) by (repeat split; discriminate).
  split; [exact U|].
  destruct (unknown_actor_type_is_answered counting_handlers (Actor.activate None)
              (text_payload "1") (JString "robot") (JString "x") 7 U)
    as (a' & ops & m & F & _ & _ & _ & L & _); [discriminate|].
  exists a', ops, m. split; [exact F|exact L].
Defined.

Import Handlers.

(** * Properties of the domain handlers *)

(** ** Objects *)

Lemma lookup_assign k k' v o :
  lookup k (assign k' v o) = if decide (k = k') then v else lookup k o.
Proof.
  induction o as [|[k0 v0] o IH]; simpl.
  - by case_decide.
  - destruct (decide (k' = k0)), (decide (k = k')); simpl;
      destruct (decide (k = k0)); subst; try congruence;
      rewrite IH; case_decide; congruence.
Qed.

Lemma assign_keys_old k v o : k ∈ map fst o -> map fst (assign k v o) = map fst o.
Proof.
  induction o as [|[k0 v0] o IH]; simpl; intros Hin; [inversion Hin|].
  case_decide; subst; simpl; [done|]. rewrite IH; [done|].
  apply elem_of_cons in Hin as [?|?]; done.
Qed.

Lemma assign_keys_new k v o : k ∉ map fst o -> map fst (assign k v o) = map fst o ++ [k].
Proof.
  induction o as [|[k0 v0] o IH]; simpl; intros Hn; [done|].
  rewrite decide_False by (intros ->; apply Hn; by left). simpl.
  rewrite IH; [done|]. intros H. apply Hn. by right.
Qed.

Lemma assign_NoDup k v o : NoDup (map fst o) -> NoDup (map fst (assign k v o)).
Proof.
  intros ND. destruct (decide (k ∈ map fst o)) as [Hk|Hk].
  - by rewrite assign_keys_old.
  - rewrite assign_keys_new by done.
    apply NoDup_app. split; [done|]. split; [|apply NoDup_singleton].
    intros x Hx Hx'. apply list_elem_of_singleton in Hx'. by subst.
Qed.

Lemma lookup_elem k v o : NoDup (map fst o) -> (k, v) ∈ o -> lookup k o = v.
Proof.
  induction o as [|[k0 v0] o IH]; simpl; intros ND Hin; [inversion Hin|].
  apply NoDup_cons in ND as [Hn ND].
  apply elem_of_cons in Hin as [[= -> ->]|Hin]; [by rewrite decide_True|].
  case_decide; subst; [|auto].
  exfalso. apply Hn. by apply (list_elem_of_fmap_2 fst _ (k0, v)).
Qed.

Lemma lookup_missing k o : k ∉ map fst o -> lookup k o = JsUndefined.
Proof.
  induction o as [|[k0 v0] o IH]; simpl; intros Hn; [done|].
  rewrite decide_False by (intros ->; apply Hn; by left).
  apply IH. intros H. apply Hn. by right.
Qed.

Lemma lookup_present k o : k ∈ map fst o -> (k, lookup k o) ∈ o.
Proof.
  induction o as [|[k0 v0] o IH]; simpl; intros Hin; [inversion Hin|].
  case_decide; subst; [by left|]. right. apply IH.
  apply elem_of_cons in Hin as [?|?]; done.
Qed.

(** ** The order of [Object.entries] *)

Lemma insert_index_perm x l : insert_index x l ≡ₚ x :: l.
Proof.
  induction l as [|y l IH]; simpl; [done|].
  case_match; [done|]. rewrite IH. apply Permutation_swap.
Qed.

Lemma sort_index_perm l : foldr insert_index [] l ≡ₚ l.
Proof.
  induction l as [|x l IH]; simpl; [done|]. by rewrite insert_index_perm, IH.
Qed.

Lemma entries_perm o : entries o ≡ₚ o.
Proof.
  unfold entries. rewrite sort_index_perm. unfold indexed, named.
  induction o as [|[k v] o IH]; simpl; [done|].
  destruct (array_index k); simpl.
  - by rewrite IH.
  - rewrite <- Permutation_middle. by rewrite IH.
Qed.

(** ** The question handler *)

Lemma lookup_assign_eq k v o : lookup k (assign k v o) = v.
Proof. by rewrite lookup_assign, decide_True. Qed.

Lemma lookup_assign_ne k k' v o : k <> k' -> lookup k (assign k' v o) = lookup k o.
Proof. intros NE. by rewrite lookup_assign, decide_False. Qed.

Lemma handleMessage_question payload actorId now m env :
  handleMessage payload (JsStr "question") actorId now m env =
  match handleQuestionMessage payload actorId now
          (stamp (JsStr "question") actorId now m) with
  | Some (m', res) => Some (m', completed res, env)
  | None => None
  end.
Proof.
  unfold handleMessage, stamp. simpl.
  by destruct (handleQuestionMessage _ _ _ _) as [[m' res]|].
Qed.

Lemma question_defaults_lookup actorId m k :
  k <> "kind" -> k <> "questionId" -> k <> "answers" -> k <> "status" ->
  lookup k (question_defaults actorId m) = lookup k m.
Proof.
  intros. unfold question_defaults. by rewrite !lookup_assign_ne.
Qed.

Lemma question_defaults_answers actorId m :
  lookup "answers" (question_defaults actorId m) = or_else (lookup "answers" m) (JsObj []).
Proof.
  unfold question_defaults.
  rewrite lookup_assign_ne, lookup_assign_eq by done. by rewrite !lookup_assign_ne.
Qed.

Lemma question_defaults_status actorId m :
  lookup "status" (question_defaults actorId m) = or_else (lookup "status" m) (JsStr "pending").
Proof.
  unfold question_defaults. rewrite lookup_assign_eq. by rewrite !lookup_assign_ne.
Qed.


Lemma graded_empty m : lookup "answers" m = JsObj [] -> graded m.
Proof.
  intros E. split.
  - exists []. split; [done|]. split; [constructor|]. intros kv H. inversion H.
  - intros sid. unfold marked_correct, answer. by rewrite E.
Qed.

Lemma lookup_stamp k actorType actorId now m :
  k <> "actorType" -> k <> "actorId" -> k <> "lastActiveAt" ->
  lookup k (stamp actorType actorId now m) = lookup k m.
Proof. intros. unfold stamp. by rewrite !lookup_assign_ne. Qed.

Lemma untouched_nil : untouched [].
Proof. by split. Qed.

Lemma untouched_stamp actorType actorId now m :
  untouched m -> untouched (stamp actorType actorId now m).
Proof. intros [A T]. split; by rewrite lookup_stamp. Qed.

Lemma question_defaults_graded actorId m :
  untouched m \/ graded m -> graded (question_defaults actorId m).
Proof.
  intros [[U _]|[(answers & E & ND & NN) G]].
  { apply graded_empty. by rewrite question_defaults_answers, U. }
  assert (A : lookup "answers" (question_defaults actorId m) = JsObj answers).
  { by rewrite question_defaults_answers, E. }
  split; [by exists answers|].
  intros sid. unfold marked_correct, earned, answer.
  rewrite A, !question_defaults_lookup by done. intros Mk.
  specialize (G sid). unfold marked_correct, earned, answer in G. rewrite E in G. auto.
Qed.

Lemma assign_in_spec field key v m m' :
  assign_in field key v m = Some m' ->
  exists o, lookup field m = JsObj o /\
    m' = assign field (JsObj (assign (to_string key) v o)) m.
Proof.
  unfold assign_in. destruct (lookup field m); try done.
  case_match; [done|]. intros [= <-]. eauto.
Qed.

(** A record that is not marked correct keeps the memory graded. *)
Lemma assign_elem k v o kv : kv ∈ assign k v o -> kv = (k, v) \/ kv ∈ o.
Proof.
  induction o as [|[k0 v0] o IH]; simpl.
  - intros H. apply list_elem_of_singleton in H. by left.
  - case_decide; subst; intros Hin; apply elem_of_cons in Hin as [->|Hin].
    + by left.
    + right. by right.
    + right. by left.
    + destruct (IH Hin) as [?|?]; [by left|]. right. by right.
Qed.

Lemma record_graded key v m m' :
  graded m -> assign_in "answers" key v m = Some m' -> nullish v = false ->
  (truthy (prop "correct" v) = true -> earned (to_string key) m') ->
  graded m'.
Proof.
  intros [(answers & E & ND & NN) G] H Nv Hv.
  apply assign_in_spec in H as (o & E' & ->). rewrite E in E'. injection E' as <-.
  split.
  - eexists. rewrite lookup_assign_eq. split; [done|]. split; [by apply assign_NoDup|].
    intros kv Hin. apply assign_elem in Hin as [->|Hin]; auto.
  - intros sid Mk. destruct (decide (sid = to_string key)) as [->|NE].
    + apply Hv. revert Mk. unfold marked_correct, answer.
      by rewrite lookup_assign_eq; simpl; rewrite lookup_assign_eq.
    + revert Mk. unfold marked_correct, earned, answer.
      rewrite lookup_assign_eq, !lookup_assign_ne by done. simpl.
      rewrite !lookup_assign_ne by done. intros Mk.
      specialize (G sid). unfold marked_correct, earned, answer in G. rewrite E in G.
      auto.
Qed.

Lemma graded_assign k v m :
  k <> "answers" -> k <> "correctOption" -> k <> "startTime" -> k <> "durationMs" ->
  graded m -> graded (assign k v m).
Proof.
  intros N1 N2 N3 N4 [A G]. unfold graded, marked_correct, earned, answer in *.
  by rewrite !lookup_assign_ne.
Qed.

Lemma handleQuestionMessage_graded payload actorId now m m' reply :
  untouched m \/ graded m ->
  handleQuestionMessage payload actorId now m = Some (m', reply) -> graded m'.
Proof.
  intros G0. apply (question_defaults_graded actorId) in G0.
  unfold handleQuestionMessage. cbv zeta.
  change (assign "status" (or_else _ (JsStr "pending")) _)
    with (question_defaults actorId m).
  set (m1 := question_defaults actorId m) in *.
  repeat case_match; try (intros [= <- <-]; done).
  - intros [= <- <-]. apply graded_empty. by rewrite lookup_assign_eq.
  - intros [= <- <-]. apply graded_empty. by rewrite lookup_assign_eq.
  - simpl. destruct (assign_in _ _ _ _) as [m2|] eqn:A; [|done]. simpl.
    intros [= <- <-]. eapply record_graded; [exact G0|exact A|done|done].
  - simpl. destruct (js_add _ _) as [deadline|] eqn:Ad; [|done]. simpl.
    destruct (js_gt _ _) as [late|] eqn:Gt; [|done]. simpl.
    destruct (assign_in _ _ _ _) as [m2|] eqn:A; [|done]. simpl.
    intros [= <- <-]. eapply record_graded; [exact G0|exact A|done|].
    simpl. intros C. apply andb_true_iff in C as [Lt Eq].
    apply negb_true_iff in Lt. subst late.
    apply assign_in_spec in A as (o & E & ->). unfold earned, answer.
    rewrite lookup_assign_eq, !lookup_assign_ne by done. simpl.
    rewrite lookup_assign_eq. simpl. rewrite Eq. split; [done|]. split; [done|].
    by exists now, deadline.
  - intros [= <- <-]. by apply graded_assign.
Qed.

Lemma graded_stamp actorType actorId now m :
  graded m -> graded (stamp actorType actorId now m).
Proof. intros G. unfold stamp. by do 3 (apply graded_assign; [done..|]). Qed.

Lemma question_run_graded actorId msgs : forall m m',
  untouched m \/ graded m -> question_run actorId msgs m = Some m' ->
  untouched m' \/ graded m'.
Proof.
  unfold question_run.
  induction msgs as [|[payload now] msgs IH]; simpl; intros m m' G.
  - by intros [= <-].
  - rewrite handleMessage_question.
    destruct (handleQuestionMessage _ _ _ _) as [[m1 r]|] eqn:H; [|done].
    apply IH. right. eapply handleQuestionMessage_graded; [|exact H].
    destruct G as [U|G]; [left; by apply untouched_stamp|right; by apply graded_stamp].
Qed.

Lemma keys_filter_NoDup (f : string * Json -> bool) (l : Object) :
  NoDup (map fst l) -> NoDup (map fst (List.filter f l)).
Proof.
  induction l as [|x l IH]; simpl; intros ND; [constructor|].
  apply NoDup_cons in ND as [Hn ND]. destruct (f x); simpl; [|auto].
  apply NoDup_cons. split; [|auto]. intros Hin. apply Hn.
  apply list_elem_of_fmap in Hin as (y & -> & Hy).
  apply list_elem_of_In, filter_In in Hy as [Hy _].
  apply list_elem_of_fmap_2. by apply list_elem_of_In.
Qed.

Lemma marked_iff sid m answers :
  lookup "answers" m = JsObj answers -> NoDup (map fst answers) ->
  marked_correct sid m <->
  exists v, (sid, v) ∈ answers /\ truthy (prop "correct" v) = true.
Proof.
  intros E ND. unfold marked_correct, answer. rewrite E. simpl. split.
  - intros Mk. destruct (decide (sid ∈ map fst answers)) as [Hin|Hn].
    + exists (lookup sid answers). split; [by apply lookup_present|done].
    + by rewrite (lookup_missing _ _ Hn) in Mk.
  - intros (v & Hin & T). by rewrite (lookup_elem _ _ _ ND Hin).
Qed.

Lemma js_add_number x y v : js_add (JsNum x) (JsNum y) = Some v -> v = JsNum (x + y).
Proof.
  unfold js_add, to_number. simpl. destruct (safe x), (safe y); simpl; try done.
  destruct (safe (x + y)); [by intros [= <-]|done].
Qed.


(** A duration that is a text moves the deadline: the question of
    [text_quiz] is started at 100000 with the duration ['5000'], its
    deadline is the text [1000005000], and the answer [s1] gives at 200000
    is marked correct. *)
Lemma text_duration_is_appended :
  exists m, question_run (JsStr "q1") text_quiz [] = Some m /\
    marked_correct "s1" m /\
    lookup "startTime" m = JsNum 100000 /\ lookup "durationMs" m = JsStr "5000" /\
    prop "answeredAt" (answer "s1" m) = JsNum 200000 /\
    js_add (lookup "startTime" m) (lookup "durationMs" m) = Some (JsStr "1000005000").
Proof.
  eexists. split; [vm_compute; reflexivity|]. repeat split; vm_compute; reflexivity.
Qed.



Lemma summary_of payload actorId now m :
  untouched m \/ graded m -> has_type "getSummary" payload ->
  exists m' reply students,
    handleQuestionMessage payload actorId now m = Some (m', reply) /\
    lookup "status" m' = JsStr "ended" /\
    prop "correctStudents" (h_result reply) = JsArr (map JsStr students) /\
    NoDup students /\
    (forall sid, sid ∈ students <-> marked_correct sid m) /\
    (forall sid, marked_correct sid m' <-> marked_correct sid m).
Proof.
  intros G Ty.
  pose proof (question_defaults_graded actorId m G) as [(answers & E & ND & NN) G1].
  assert (Mk : forall sid, marked_correct sid (question_defaults actorId m) <->
                           marked_correct sid m).
  { intros sid. destruct G as [[U _]|[(answers0 & E0 & _) _]].
    - unfold marked_correct, answer. by rewrite question_defaults_answers, U.
    - unfold marked_correct, answer. by rewrite question_defaults_answers, E0. }
  unfold handleQuestionMessage. cbv zeta.
  change (assign "status" (or_else _ (JsStr "pending")) _)
    with (question_defaults actorId m).
  set (m1 := question_defaults actorId m) in *.
  unfold has_type in Ty. rewrite Ty. simpl.
  rewrite lookup_assign_ne, E by done. simpl.
  assert (X : existsb (fun kv : string * Json => nullish kv.2) answers = false).
  { apply not_true_iff_false. intros H. apply existsb_exists in H as (kv & Hin & H).
    apply list_elem_of_In, NN in Hin. congruence. }
  rewrite X.
  set (students := map fst (List.filter (fun kv => truthy (prop "correct" (snd kv)))
                              (entries answers))).
  eexists _, _, students. split; [reflexivity|].
  split; [by rewrite lookup_assign_eq|]. split.
  { simpl. unfold students. by rewrite map_map. }
  assert (NDe : NoDup (map fst (entries answers))).
  { by rewrite (entries_perm answers). }
  split; [by apply keys_filter_NoDup|]. split.
  - intros sid. rewrite <- Mk, (marked_iff sid m1 answers E ND). unfold students. split.
    + intros Hin. apply list_elem_of_fmap in Hin as ([k v] & -> & Hin).
      apply list_elem_of_In, filter_In in Hin as [Hin T]. exists v. split; [|done].
      rewrite <- (entries_perm answers). by apply list_elem_of_In.
    + intros (v & Hin & T). apply (list_elem_of_fmap_2 fst _ (sid, v)).
      apply list_elem_of_In, filter_In. split; [|done].
      apply list_elem_of_In. by rewrite (entries_perm answers).
  - intros sid. rewrite <- Mk. unfold marked_correct, answer.
    by rewrite lookup_assign_ne.
Qed.

Lemma marked_stamp sid actorType actorId now m :
  marked_correct sid (stamp actorType actorId now m) <-> marked_correct sid m.
Proof. unfold marked_correct, answer. by rewrite lookup_stamp. Qed.



Lemma strict_eq_str v s : strict_eq v (JsStr s) = true -> v = JsStr s.
Proof. destruct v; simpl; try done. intros H. by apply String.eqb_eq in H as ->. Qed.

Lemma closed_defaults actorId m :
  closed m ->
  closed (question_defaults actorId m) /\
  forall sid, marked_correct sid (question_defaults actorId m) ->
    marked_correct sid m /\ answer sid (question_defaults actorId m) = answer sid m.
Proof.
  intros C. split.
  - unfold closed in *. rewrite question_defaults_status. unfold or_else.
    by destruct (truthy (lookup "status" m)).
  - intros sid. unfold marked_correct, answer. rewrite question_defaults_answers.
    unfold or_else. by destruct (truthy (lookup "answers" m)).
Qed.

Lemma handleQuestionMessage_closed payload actorId now m m' reply :
  handleQuestionMessage payload actorId now m = Some (m', reply) ->
  ~ has_type "start" payload -> closed m ->
  closed m' /\
  forall sid, marked_correct sid m' -> marked_correct sid m /\ answer sid m' = answer sid m.
Proof.
  intros H NS C. destruct (closed_defaults actorId m C) as [C1 K1].
  revert H. unfold handleQuestionMessage. cbv zeta.
  change (assign "status" (or_else _ (JsStr "pending")) _)
    with (question_defaults actorId m).
  set (m1 := question_defaults actorId m) in *.
  repeat case_match; try (intros [= <- <-]; done).
  - intros [= <- <-]. split; [unfold closed; by rewrite lookup_assign_ne, lookup_assign_eq|].
    intros sid. unfold marked_correct, answer. by rewrite lookup_assign_eq.
  - exfalso. apply NS. by apply strict_eq_str.
  - simpl. destruct (assign_in _ _ _ _) as [m2|] eqn:A; [|done]. simpl.
    intros [= <- <-]. apply assign_in_spec in A as (o & E & ->). split.
    + unfold closed. by rewrite lookup_assign_ne.
    + intros sid. unfold marked_correct, answer. rewrite lookup_assign_eq. simpl.
      rewrite lookup_assign. case_decide; [done|]. intros Mk.
      destruct (K1 sid) as [K2 K3]; [unfold marked_correct, answer; by rewrite E|].
      unfold answer in K3. by rewrite E in K3.
  - exfalso. match goal with H : _ || _ = false |- _ =>
      apply orb_false_iff in H as [H _]; apply negb_false_iff in H end.
    unfold closed in C1. congruence.
  - intros [= <- <-]. split; [unfold closed; by rewrite lookup_assign_eq|].
    intros sid. unfold marked_correct, answer. rewrite lookup_assign_ne by done.
    apply K1.
Qed.

(** X20. A question that is not running counts no answer: as long as no
    [start] message arrives, a question whose status is not [running]
    stays so, and whoever is marked correct afterwards was marked correct
    before, with the same recorded answer. *)
Theorem closed_question_counts_no_answer actorId msgs : forall m m' sid,
  question_run actorId msgs m = Some m' ->
  (forall msg, msg ∈ msgs -> ~ has_type "start" (fst msg)) ->
  closed m ->
  closed m' /\
  (marked_correct sid m' -> marked_correct sid m /\ answer sid m' = answer sid m).
Proof.
  unfold question_run.
  induction msgs as [|[payload now] msgs IH]; simpl; intros m m' sid Run NS C.
  - injection Run as <-. auto.
  - rewrite handleMessage_question in Run.
    destruct (handleQuestionMessage _ _ _ _) as [[m1 r]|] eqn:H; [|done].
    destruct (handleQuestionMessage_closed _ _ _ _ _ _ H) as [C1 K1].
    { apply (NS (payload, now)). by left. }
    { unfold closed in *. by rewrite lookup_stamp. }
    destruct (IH m1 m' sid Run) as [C' K']; [|done|].
    { intros msg Hin. apply NS. by right. }
    split; [done|]. intros Mk. destruct (K' Mk) as [Mk1 E1].
    destruct (K1 sid Mk1) as [Mk0 E0]. apply marked_stamp in Mk0. split; [done|].
    rewrite E1, E0. unfold answer. by rewrite lookup_stamp.
Qed.

Lemma closed_question_counts_no_answer_witness :
  question_run (JsStr "q1") [(submit "s2" "B", 30001)] ended_memory =
    Some (default [] (question_run (JsStr "q1") [(submit "s2" "B", 30001)] ended_memory)) /\
  closed ended_memory /\
  closed (default [] (question_run (JsStr "q1") [(submit "s2" "B", 30001)] ended_memory)).
Proof.
  assert (R : question_run (JsStr "q1") [(submit "s2" "B", 30001)] ended_memory =
    Some (default [] (question_run (JsStr "q1") [(submit "s2" "B", 30001)] ended_memory)))
    by (vm_compute; reflexivity).
  assert (C : closed ended_memory) by (vm_compute; reflexivity).
  split; [exact R|]. split; [exact C|].
  refine (proj1 (closed_question_counts_no_answer (JsStr "q1") _ _ _ "s2" R _ C)).
  intros msg Hin. apply list_elem_of_singleton in Hin. subst msg. discriminate.
Defined.

(** ** The student handler *)

Lemma handleMessage_student payload actorId now m env :
  handleMessage payload (JsStr "student") actorId now m env =
  match handleStudentMessage payload actorId (stamp (JsStr "student") actorId now m) with
  | Some (m', res) => Some (m', completed res, env)
  | None => None
  end.
Proof.
  unfold handleMessage, stamp. simpl.
  by destruct (handleStudentMessage _ _ _) as [[m' res]|].
Qed.

Lemma student_defaults_lookup actorId m k :
  k <> "kind" -> k <> "studentId" -> k <> "rooms" -> k <> "answers" -> k <> "totalScore" ->
  lookup k (student_defaults actorId m) = lookup k m.
Proof. intros. unfold student_defaults. by rewrite !lookup_assign_ne. Qed.

Lemma student_defaults_answers actorId m :
  lookup "answers" (student_defaults actorId m) = or_else (lookup "answers" m) (JsArr []).
Proof.
  unfold student_defaults.
  rewrite lookup_assign_ne, lookup_assign_eq by done. by rewrite !lookup_assign_ne.
Qed.

Lemma student_defaults_total actorId m :
  lookup "totalScore" (student_defaults actorId m) =
  or_else (lookup "totalScore" m) (JsNum 0).
Proof.
  unfold student_defaults. rewrite lookup_assign_eq. by rewrite !lookup_assign_ne.
Qed.


Lemma student_defaults_scored actorId m :
  untouched m \/ scored m -> scored (student_defaults actorId m).
Proof.
  intros [[A T]|(records & A & T)].
  - exists []. by rewrite student_defaults_answers, student_defaults_total, A, T.
  - exists records. rewrite student_defaults_answers, student_defaults_total, A, T.
    split; [done|]. unfold or_else. simpl. by destruct (sum_deltas records =? 0) eqn:Z;
      [apply Z.eqb_eq in Z as ->|].
Qed.

(** The sum of two numbers of the model that stays in its range. *)
Lemma safe_bounds z : safe z = true <-> - 2 ^ 53 <= z <= 2 ^ 53.
Proof. unfold safe. rewrite andb_true_iff, !Z.leb_le. tauto. Qed.

Lemma js_add_numbers x y :
  safe x = true -> safe y = true -> safe (x + y) = true ->
  js_add (JsNum x) (JsNum y) = Some (JsNum (x + y)).
Proof. intros Sx Sy Sxy. unfold js_add, to_number. simpl. by rewrite Sx, Sy, Sxy. Qed.

Lemma js_ge_numbers x y r : js_ge (JsNum x) (JsNum y) = Some r -> r = (y <=? x).
Proof.
  unfold js_ge, to_number. simpl. destruct (safe x), (safe y); try done.
  by intros [= <-].
Qed.





(** A delta that is a text turns the total into a text: a first
    [updateScore] with the [scoreDelta] ['5'] leaves the total ['05']. *)
Lemma text_delta_is_appended :
  exists m, student_run (JsStr "s1") [(text_update, 20)] [] = Some m /\
    lookup "totalScore" m = JsStr "05".
Proof. eexists. split; vm_compute; reflexivity. Qed.



Lemma handleStudentMessage_join payload actorId m :
  has_type "joinRoom" payload ->
  handleStudentMessage payload actorId m =
  match join_rooms payload (join_name payload (student_defaults actorId m)) with
  | Some m' => Some (m', join_reply m')
  | None => None
  end.
Proof.
  intros Ty. unfold handleStudentMessage. cbv zeta.
  change (assign "totalScore" (or_else _ (JsNum 0)) _)
    with (student_defaults actorId m).
  unfold has_type in Ty. rewrite Ty. simpl.
  fold (join_name payload (student_defaults actorId m)).
  fold (join_rooms payload (join_name payload (student_defaults actorId m))).
  by destruct (join_rooms _ _).
Qed.

Lemma assign_same k o : k ∈ map fst o -> assign k (lookup k o) o = o.
Proof.
  induction o as [|[k0 v0] o IH]; simpl; intros Hin; [inversion Hin|].
  case_decide; subst; [done|]. rewrite IH; [done|].
  apply elem_of_cons in Hin as [?|?]; done.
Qed.

Lemma assign_default_fixed k d o :
  k ∈ map fst o -> truthy (lookup k o) = true \/ lookup k o = d ->
  assign k (or_else (lookup k o) d) o = o.
Proof.
  intros Hin H. unfold or_else. destruct (truthy (lookup k o)) eqn:T.
  - by apply assign_same.
  - destruct H as [?|<-]; [done|]. by apply assign_same.
Qed.

Lemma assign_key k v o : k ∈ map fst (assign k v o).
Proof.
  destruct (decide (k ∈ map fst o)) as [Hk|Hk].
  - by rewrite assign_keys_old.
  - rewrite assign_keys_new by done. apply elem_of_app. right. by left.
Qed.

Lemma assign_key_mono k k' v o : k ∈ map fst o -> k ∈ map fst (assign k' v o).
Proof.
  intros Hin. destruct (decide (k' ∈ map fst o)) as [Hk|Hk].
  - by rewrite assign_keys_old.
  - rewrite assign_keys_new by done. apply elem_of_app. by left.
Qed.

Lemma or_else_settled a d : truthy (or_else a d) = true \/ or_else a d = d.
Proof. unfold or_else. destruct (truthy a) eqn:T; auto. Qed.

(** A memory the defaults leave as it is. *)
Lemma student_defaults_fixed actorId m :
  settled actorId m -> student_defaults actorId m = m.
Proof.
  unfold settled, student_fields. intros H. unfold student_defaults.
  destruct (H "kind" (JsStr "student")) as [? ?]; [set_solver|].
  rewrite (assign_default_fixed "kind") by done.
  destruct (H "studentId" actorId) as [? ?]; [set_solver|].
  rewrite (assign_default_fixed "studentId") by done.
  destruct (H "rooms" (JsArr [])) as [? ?]; [set_solver|].
  rewrite (assign_default_fixed "rooms") by done.
  destruct (H "answers" (JsArr [])) as [? ?]; [set_solver|].
  rewrite (assign_default_fixed "answers") by done.
  destruct (H "totalScore" (JsNum 0)) as [? ?]; [set_solver|].
  by rewrite (assign_default_fixed "totalScore").
Qed.

Lemma student_defaults_settled actorId m : settled actorId (student_defaults actorId m).
Proof.
  intros k d Hin. unfold student_fields in Hin. unfold student_defaults.
  repeat (apply elem_of_cons in Hin as [[= -> ->]|Hin]); [| | | | |inversion Hin].
  - split; [do 4 apply assign_key_mono; apply assign_key|].
    rewrite !lookup_assign_ne, lookup_assign_eq by done. apply or_else_settled.
  - split; [do 3 apply assign_key_mono; apply assign_key|].
    rewrite !lookup_assign_ne, lookup_assign_eq by done. apply or_else_settled.
  - split; [do 2 apply assign_key_mono; apply assign_key|].
    rewrite !lookup_assign_ne, lookup_assign_eq by done. apply or_else_settled.
  - split; [do 1 apply assign_key_mono; apply assign_key|].
    rewrite !lookup_assign_ne, lookup_assign_eq by done. apply or_else_settled.
  - split; [apply assign_key|]. rewrite lookup_assign_eq. apply or_else_settled.
Qed.

Lemma settled_assign actorId k v m :
  settled actorId m -> (k ∈ map fst (student_fields actorId) -> truthy v = true) ->
  settled actorId (assign k v m).
Proof.
  intros S Hv k0 d Hin. destruct (S k0 d Hin) as [Hk Hs].
  split; [by apply assign_key_mono|]. rewrite lookup_assign. case_decide; subst; [|done].
  left. apply Hv. by apply (list_elem_of_fmap_2 fst _ (k, d)).
Qed.

Lemma same_value_zero_refl v :
  primitive v = true -> truthy v = true -> same_value_zero v v = true.
Proof.
  destruct v; simpl; try done; intros _ _.
  - by destruct b.
  - apply Z.eqb_refl.
  - apply String.eqb_refl.
Qed.

Lemma includes_last v l :
  primitive v = true -> truthy v = true -> includes v (l ++ [v]) = true.
Proof.
  intros P T. unfold includes. rewrite existsb_app. simpl.
  by rewrite same_value_zero_refl, orb_true_r.
Qed.

(** What the [joinRoom] branch leaves: the answer is read off the memory,
    the defaults are settled, the name and the room are there, and no
    other property has changed. *)
Lemma join_result payload actorId m m1 r1 :
  has_type "joinRoom" payload -> primitive (prop "roomId" payload) = true ->
  handleStudentMessage payload actorId m = Some (m1, r1) ->
  r1 = join_reply m1 /\ settled actorId m1 /\
  (truthy (prop "name" payload) = true -> truthy (lookup "name" m1) = true) /\
  (truthy (prop "roomId" payload) = true ->
   exists rooms, lookup "rooms" m1 = JsArr rooms /\
                 includes (prop "roomId" payload) rooms = true) /\
  (forall k, k ∈ map fst m -> k ∈ map fst m1) /\
  (forall k, k ∉ map fst (student_fields actorId) -> k <> "name" ->
             lookup k m1 = lookup k m).
Proof.
  intros Ty P. rewrite handleStudentMessage_join by done.
  set (m0 := student_defaults actorId m).
  pose proof (student_defaults_settled actorId m) as S0. fold m0 in S0.
  assert (K0 : forall k, k ∈ map fst m -> k ∈ map fst m0).
  { intros k Hk. unfold m0, student_defaults. by do 5 apply assign_key_mono. }
  assert (L0 : forall k, k ∉ map fst (student_fields actorId) -> lookup k m0 = lookup k m).
  { intros k Hk. apply student_defaults_lookup; intros ->; apply Hk; simpl; set_solver. }
  set (m2 := join_name payload m0).
  assert (S2 : settled actorId m2).
  { unfold m2, join_name. case_match; [|done]. apply settled_assign; [done|].
    intros Hin. simpl in Hin. set_solver. }
  assert (K2 : forall k, k ∈ map fst m0 -> k ∈ map fst m2).
  { intros k Hk. unfold m2, join_name. case_match; [|done]. by apply assign_key_mono. }
  assert (L2 : forall k, k <> "name" -> lookup k m2 = lookup k m0).
  { intros k Hk. unfold m2, join_name. case_match; [|done]. by rewrite lookup_assign_ne. }
  assert (N2 : truthy (prop "name" payload) = true -> truthy (lookup "name" m2) = true).
  { intros Tn. unfold m2, join_name. rewrite Tn. simpl.
    destruct (truthy (lookup "name" m0)) eqn:T0; simpl; [done|].
    by rewrite lookup_assign_eq. }
  destruct (join_rooms payload m2) as [m1'|] eqn:R; [|done].
  intros [= <- <-]. split; [done|].
  unfold join_rooms in R. destruct (truthy (prop "roomId" payload)) eqn:Tr.
  2:{ injection R as <-. split; [done|]. split; [done|]. split; [done|].
      split; [auto|]. intros k Hk Hn. by rewrite L2, L0. }
  destruct (lookup "rooms" m2) as [| | | | | |rooms| |] eqn:L; try done.
  destruct (includes _ rooms) eqn:I; injection R as <-.
  - split; [done|]. split; [done|]. split; [by exists rooms|].
    split; [auto|]. intros k Hk Hn. by rewrite L2, L0.
  - split; [by apply settled_assign|]. split.
    { intros Tn. rewrite lookup_assign_ne by done. auto. }
    split.
    { intros _. eexists. rewrite lookup_assign_eq. split; [done|].
      by apply includes_last. }
    split.
    { intros k Hk. apply assign_key_mono. auto. }
    intros k Hk Hn. rewrite lookup_assign_ne, L2, L0; [done..|].
    intros ->. apply Hk. simpl. set_solver.
Qed.

(** A memory in that state is a fixed point of the branch. *)
Lemma join_fixed payload actorId m :
  has_type "joinRoom" payload -> settled actorId m ->
  (truthy (prop "name" payload) = true -> truthy (lookup "name" m) = true) ->
  (truthy (prop "roomId" payload) = true ->
   exists rooms, lookup "rooms" m = JsArr rooms /\
                 includes (prop "roomId" payload) rooms = true) ->
  handleStudentMessage payload actorId m = Some (m, join_reply m).
Proof.
  intros Ty S N R. rewrite handleStudentMessage_join by done.
  rewrite (student_defaults_fixed _ _ S).
  assert (join_name payload m = m) as ->.
  { unfold join_name. destruct (truthy (prop "name" payload)); [|done].
    by rewrite N. }
  assert (join_rooms payload m = Some m) as ->; [|done].
  unfold join_rooms. destruct (truthy (prop "roomId" payload)); [|done].
  destruct R as (rooms & -> & ->); done.
Qed.

Lemma stamp_keys k actorType actorId now m :
  k ∈ ["actorType"; "actorId"; "lastActiveAt"] ->
  k ∈ map fst (stamp actorType actorId now m).
Proof.
  intros Hk. unfold stamp.
  repeat (apply elem_of_cons in Hk as [->|Hk]); [| | |inversion Hk].
  - do 2 apply assign_key_mono. apply assign_key.
  - apply assign_key_mono, assign_key.
  - apply assign_key.
Qed.

(** X22. Joining a room is idempotent: when a student activation has
    handled a [joinRoom] message whose room id is neither an array nor an
    object, handling the same message again, at any later time, gives the
    same answer and changes nothing in the memory but [lastActiveAt]. *)
Theorem join_room_is_idempotent actorId payload now now' m m1 r1 env :
  has_type "joinRoom" payload -> primitive (prop "roomId" payload) = true ->
  handleMessage payload (JsStr "student") actorId now m env = Some (m1, r1, env) ->
  handleMessage payload (JsStr "student") actorId now' m1 env =
    Some (assign "lastActiveAt" (JsNum now') m1, r1, env).
Proof.
  intros Ty P. rewrite !handleMessage_student.
  set (m0 := stamp (JsStr "student") actorId now m).
  destruct (handleStudentMessage payload actorId m0) as [[m1' res]|] eqn:H; [|done].
  intros [= <- <-].
  destruct (join_result _ _ _ _ _ Ty P H) as (-> & S & N & R & K & L).
  assert (F : forall k, k ∈ ["actorType"; "actorId"; "lastActiveAt"] ->
                        (k ∉ map fst (student_fields actorId)) /\ k <> "name").
  { intros k Hk. simpl. set_solver. }
  assert (St : stamp (JsStr "student") actorId now' m1' =
               assign "lastActiveAt" (JsNum now') m1').
  { unfold stamp.
    rewrite (assign_default_fixed "actorType").
    - rewrite (assign_default_fixed "actorId"); [done| |].
      + apply K, stamp_keys. set_solver.
      + destruct (F "actorId") as [F1 F2]; [set_solver|]. rewrite (L _ F1 F2).
        unfold m0, stamp. rewrite lookup_assign_ne, lookup_assign_eq by done.
        rewrite lookup_assign_ne by done. apply or_else_settled.
    - apply K, stamp_keys. set_solver.
    - destruct (F "actorType") as [F1 F2]; [set_solver|]. rewrite (L _ F1 F2).
      unfold m0, stamp. rewrite !lookup_assign_ne, lookup_assign_eq by done.
      apply or_else_settled. }
  rewrite St.
  rewrite (join_fixed payload actorId (assign "lastActiveAt" (JsNum now') m1') Ty).
  - unfold join_reply. by rewrite !lookup_assign_ne.
  - apply settled_assign; [done|]. intros Hin. simpl in Hin. set_solver.
  - by rewrite lookup_assign_ne.
  - by rewrite lookup_assign_ne.
Qed.

Lemma join_room_is_idempotent_witness :
  has_type "joinRoom" join_room /\
  primitive (prop "roomId" join_room) = true /\
  handleMessage join_room (JsStr "student") (JsStr "s1") 10 [] no_calls =
    Some (joined_memory, joined_reply, no_calls) /\
  handleMessage join_room (JsStr "student") (JsStr "s1") 50 joined_memory no_calls =
    Some (assign "lastActiveAt" (JsNum 50) joined_memory, joined_reply, no_calls).
Proof.
  assert (H : handleMessage join_room (JsStr "student") (JsStr "s1") 10 [] no_calls =
              Some (joined_memory, joined_reply, no_calls)) by (vm_compute; reflexivity).
  split; [reflexivity|]. split; [reflexivity|]. split; [exact H|].
  exact (join_room_is_idempotent (JsStr "s1") join_room 10 50 [] _ _ _ eq_refl eq_refl H).
Defined.

(** ** Calls *)

Lemma sendToActor_spec actorType actorId payload env r env' :
  sendToActor actorType actorId payload env = Some (r, env') ->
  calls env' = calls env ++ [{| to_type := actorType; to_id := actorId;
                                message := payload |}] /\
  exists resp, responses env = resp :: responses env'.
Proof.
  unfold sendToActor. destruct (responses env) as [|resp rest] eqn:R; [done|].
  repeat case_match; intros [= <- <-]; simpl; eauto.
Qed.

(** ** The room handler *)


Lemma room_defaults_questions payload actorId m :
  lookup "questions" (room_defaults payload actorId m) =
  or_else (lookup "questions" m) (JsArr []).
Proof.
  unfold room_defaults. rewrite !lookup_assign_ne, lookup_assign_eq by done.
  by rewrite !lookup_assign_ne.
Qed.

Lemma room_defaults_index payload actorId m :
  lookup "currentQuestionIndex" (room_defaults payload actorId m) =
  or_else (lookup "currentQuestionIndex" m) (JsNum 0).
Proof.
  unfold room_defaults. rewrite !lookup_assign_ne, lookup_assign_eq by done.
  by rewrite !lookup_assign_ne.
Qed.

Lemma room_defaults_scores payload actorId m :
  lookup "scores" (room_defaults payload actorId m) =
  or_else (lookup "scores" m) (JsObj []).
Proof.
  unfold room_defaults. rewrite !lookup_assign_ne, lookup_assign_eq by done.
  by rewrite !lookup_assign_ne.
Qed.

Lemma score_defaults sid payload actorId m :
  score sid (room_defaults payload actorId m) = score sid m.
Proof.
  unfold score. rewrite room_defaults_scores. unfold or_else at 2.
  destruct (truthy (lookup "scores" m)) eqn:T; [done|].
  by destruct (lookup "scores" m).
Qed.

Lemma inherited_plain name : name ∉ prototype_names -> inherited name = JsUndefined.
Proof.
  intros H. unfold inherited.
  destruct (String.eqb_spec name "constructor") as [->|_].
  { exfalso. apply H. apply list_elem_of_In. simpl. tauto. }
  destruct (String.eqb_spec name "__proto__") as [->|_].
  { exfalso. apply H. apply list_elem_of_In. simpl. tauto. }
  by rewrite bool_decide_false.
Qed.

(** A key that is not inherited is read from the object itself. *)
Lemma get_plain key o :
  to_string key ∉ prototype_names -> get key o = lookup (to_string key) o.
Proof.
  intros H. unfold get. case_bool_decide as In; [done|].
  by rewrite inherited_plain, lookup_missing.
Qed.

Lemma or_else_number z : or_else (JsNum z) (JsNum 0) = JsNum z.
Proof.
  unfold or_else. simpl. destruct (z =? 0) eqn:E; simpl; [|done].
  apply Z.eqb_eq in E. by subst.
Qed.

Lemma times_cons s sid sids :
  times s (sid :: sids) = (if String.eqb (to_string sid) s then 1 else 0) + times s sids.
Proof. unfold times. simpl. destruct (String.eqb (to_string sid) s); simpl; lia. Qed.

Lemma times_nonneg s sids : 0 <= times s sids.
Proof. unfold times. lia. Qed.

Lemma times_app s l1 l2 : times s (l1 ++ l2) = times s l1 + times s l2.
Proof. unfold times. rewrite List.filter_app, length_app. lia. Qed.

Lemma score_number s m z :
  or_else (prop s (lookup "scores" m)) (JsNum 0) = JsNum z -> Z.abs z <= 2 ^ 53 ->
  score s m = z.
Proof.
  intros E B. unfold score. rewrite E. unfold to_number. simpl.
  assert (S : safe z = true) by (apply safe_bounds; lia). by rewrite S.
Qed.

(** Memories with the same scores count alike. *)
Lemma counting_same sids (m m' : Object) :
  (forall s, or_else (prop s (lookup "scores" m')) (JsNum 0) =
             or_else (prop s (lookup "scores" m)) (JsNum 0)) ->
  counting sids m -> counting sids m'.
Proof. intros E C sid In. destruct (C sid In) as (z & Ez & B). exists z. by rewrite E. Qed.

Lemma counting_part l1 l2 m : counting (l1 ++ l2) m -> counting l2 m.
Proof.
  intros C sid In. destruct (C sid) as (z & E & B); [apply elem_of_app; by right|].
  exists z. split; [done|]. rewrite times_app in B.
  pose proof (times_nonneg (to_string sid) l1). lia.
Qed.

Lemma scores_defaults s payload actorId m :
  prop s (lookup "scores" (room_defaults payload actorId m)) = prop s (lookup "scores" m).
Proof.
  rewrite room_defaults_scores. unfold or_else.
  destruct (truthy (lookup "scores" m)) eqn:T; [done|].
  by destruct (lookup "scores" m).
Qed.

Lemma counting_defaults sids payload actorId m :
  counting sids m -> counting sids (room_defaults payload actorId m).
Proof. apply counting_same. intros s. by rewrite scores_defaults. Qed.

(** One more point for [sid]. *)
Lemma score_bump sid rest scores new m m' :
  lookup "scores" m = JsObj scores ->
  to_string sid ∉ prototype_names ->
  counting (sid :: rest) m ->
  js_add (or_else (get sid scores) (JsNum 0)) (JsNum 1) = Some new ->
  assign_in "scores" sid new m = Some m' ->
  (forall s, score s m' = score s m + (if String.eqb (to_string sid) s then 1 else 0)) /\
  counting rest m'.
Proof.
  intros E Pl C A H. apply assign_in_spec in H as (o & E' & ->).
  rewrite E in E'. injection E' as <-.
  destruct (C sid) as (z & Ez & Bz); [by left|].
  rewrite times_cons, String.eqb_refl in Bz.
  pose proof (times_nonneg (to_string sid) rest) as T0.
  rewrite E in Ez. simpl in Ez.
  rewrite get_plain, Ez, js_add_numbers in A
    by (done || (apply safe_bounds; lia)).
  injection A as <-.
  assert (New : forall s, or_else (prop s (lookup "scores"
                  (assign "scores" (JsObj (assign (to_string sid) (JsNum (z + 1)) scores)) m)))
                  (JsNum 0) =
                if decide (s = to_string sid) then JsNum (z + 1)
                else or_else (lookup s scores) (JsNum 0)).
  { intros s. rewrite lookup_assign_eq. simpl. rewrite lookup_assign.
    case_decide; [apply or_else_number|done]. }
  split.
  - intros s. destruct (String.eqb_spec (to_string sid) s) as [<-|NE].
    + rewrite (score_number _ _ (z + 1)), (score_number _ m z); try lia.
      * by rewrite E.
      * by rewrite New, decide_True.
    + unfold score. rewrite New, decide_False by done. rewrite E. simpl. lia.
  - intros s In. rewrite New. destruct (C s) as (y & Ey & By); [by right|].
    rewrite times_cons in By. rewrite E in Ey. simpl in Ey. case_decide as Eq.
    + rewrite Eq in By. rewrite String.eqb_refl in By. rewrite Eq, Ez in Ey.
      injection Ey as <-. exists (z + 1). split; [done|]. rewrite Eq. lia.
    + exists y. split; [done|].
      destruct (String.eqb (to_string sid) (to_string s)); lia.
Qed.

Lemma score_students_spec sum allAnswers qId : forall sids m env m' env',
  score_students sids sum allAnswers qId m env = Some (m', env') ->
  (forall k, k <> "scores" -> lookup k m' = lookup k m) /\
  (plain_ids sids -> forall rest, counting (sids ++ rest) m ->
     (forall s, score s m' = score s m + times s sids) /\ counting rest m') /\
  exists cs, calls env' = calls env ++ cs /\
             Forall2 (score_call (lookup "roomId" m) qId) sids cs.
Proof.
  induction sids as [|sid sids IH]; simpl; intros m env m' env'.
  { intros [= <- <-]. split; [done|]. split.
    - intros _ rest C. split; [intros s; unfold times; simpl; lia|done].
    - exists []. by rewrite app_nil_r. }
  destruct (lookup "scores" m) as [| | | | | | |scores|] eqn:E; try done.
  destruct allAnswers as [| | | | | | |answers|]; try done.
  destruct (js_add _ _) as [new|] eqn:A; [|done]. simpl.
  destruct (assign_in _ _ _ _) as [m1|] eqn:H; [|done]. simpl.
  match goal with |- context [mbind _ ?t] => destruct t as [timeUsedMs|] eqn:T end;
    [|done]. simpl.
  destruct (sendToActor _ _ _ _) as [[r env1]|] eqn:S; [|done]. simpl.
  intros Run. destruct (IH _ _ _ _ Run) as (L2 & S2 & cs & C2 & F2).
  assert (L1 : forall k, k <> "scores" -> lookup k m1 = lookup k m).
  { pose proof H as H'. apply assign_in_spec in H' as (o & _ & ->).
    intros k Hk. by rewrite lookup_assign_ne. }
  apply sendToActor_spec in S as [C1 _].
  split; [intros k Hk; by rewrite L2, L1|]. split.
  - intros Pl rest C.
    destruct (score_bump sid (sids ++ rest) scores new m m1) as [S1 C'];
      [done|apply Pl; by left|done|done|done|].
    destruct S2 with (rest := rest) as [S2' C2'];
      [intros s In; apply Pl; by right|done|].
    split; [|done]. intros s. rewrite S2', S1, times_cons. lia.
  - eexists (_ :: cs). split.
    + rewrite C2, C1, <- app_assoc. reflexivity.
    + constructor.
      * split; [done|]. split; [done|]. exists timeUsedMs. simpl.
        by rewrite (L1 "roomId").
      * by rewrite <- (L1 "roomId").
Qed.

(** The path of a [finishCurrentQuestion] that succeeds. *)
Lemma finish_path payload actorId now memory env memory' reply env' :
  has_type "finishCurrentQuestion" payload ->
  handleRoomMessage payload actorId now memory env = Some (memory', reply, env') ->
  prop "ok" (h_result reply) = JsBool true ->
  exists questions resp env1 sids m1 index over,
    lookup "questions" (room_defaults payload actorId memory) = JsArr questions /\
    js_ge (lookup "currentQuestionIndex" (room_defaults payload actorId memory))
          (JsNum (Z.of_nat (length questions))) = Some false /\
    sendToActor "question"
      (element questions (lookup "currentQuestionIndex" (room_defaults payload actorId memory)))
      (JsObj [("type", JsStr "getSummary")]) env = Some (resp, env1) /\
    or_else (prop "correctStudents" (unwrapRouterResult resp)) (JsArr []) = JsArr sids /\
    score_students sids (unwrapRouterResult resp)
      (or_else (prop "answers" (unwrapRouterResult resp)) (JsObj []))
      (element questions (lookup "currentQuestionIndex" (room_defaults payload actorId memory)))
      (room_defaults payload actorId memory) env1 = Some (m1, env') /\
    js_add (lookup "currentQuestionIndex" m1) (JsNum 1) = Some index /\
    js_ge index (JsNum (Z.of_nat (length questions))) = Some over /\
    (if over : bool
     then exists ranking,
            compute_ranking (assign "status" (JsStr "finished")
                               (assign "currentQuestionIndex" index m1)) = Some ranking /\
            memory' = assign "ranking" ranking
                        (assign "status" (JsStr "finished")
                           (assign "currentQuestionIndex" index m1))
     else memory' = assign "status" (JsStr "waiting")
                      (assign "currentQuestionIndex" index m1)) /\
    prop "questionId" (h_result reply) =
      element questions (lookup "currentQuestionIndex" (room_defaults payload actorId memory)) /\
    prop "correctStudents" (h_result reply) = JsArr sids /\
    prop "ranking" (h_result reply) = or_else (lookup "ranking" memory') JsNull.
Proof.
  intros Ty. unfold handleRoomMessage. cbv zeta.
  change (assign "roomName" (or_else (or_else _ _) _) _)
    with (room_defaults payload actorId memory).
  set (m0 := room_defaults payload actorId memory).
  unfold has_type in Ty. rewrite Ty. simpl.
  destruct (lookup "questions" m0) as [| | | | | |questions| |] eqn:Q; try done.
  destruct (length questions =? 0)%nat; [by intros [= <- <- <-]|].
  destruct (js_ge _ _) as [[|]|] eqn:Ge; simpl; [by intros [= <- <- <-]| |done].
  destruct (sendToActor _ _ _ _) as [[resp env1]|] eqn:S; [|done]. simpl.
  destruct (negb (truthy (prop "ok" resp))); [by intros [= <- <- <-]|].
  set (sum := unwrapRouterResult resp).
  destruct (or_else (prop "correctStudents" sum) (JsArr [])) as [| | | | | |sids| |] eqn:CS;
    try done.
  destruct (score_students _ _ _ _ _ _) as [[m1 env2]|] eqn:SS; [|done]. simpl.
  destruct (js_add _ _) as [index|] eqn:Ad; [|done]. simpl.
  rewrite lookup_assign_eq.
  destruct (js_ge index _) as [over|] eqn:Ge'; [|done]. simpl.
  rewrite lookup_assign_eq.
  destruct over; simpl.
  - destruct (compute_ranking _) as [ranking|] eqn:R; [|done]. simpl.
    intros [= <- <- <-] _. exists questions, resp, env1, sids, m1, index, true.
    repeat (split; [done|]). split; [by exists ranking|]. done.
  - intros [= <- <- <-] _. exists questions, resp, env1, sids, m1, index, false.
    repeat (split; [done|]). done.
Qed.

(** The scores after a [finishCurrentQuestion] that succeeds, in terms of
    the response to the summary call. *)
Lemma finish_scores payload actorId now memory env memory' reply env' :
  has_type "finishCurrentQuestion" payload ->
  handleRoomMessage payload actorId now memory env = Some (memory', reply, env') ->
  prop "ok" (h_result reply) = JsBool true ->
  exists qId resp env1 sids,
    sendToActor "question" qId (JsObj [("type", JsStr "getSummary")]) env =
      Some (resp, env1) /\
    or_else (prop "correctStudents" (unwrapRouterResult resp)) (JsArr []) = JsArr sids /\
    (plain_ids sids -> counting sids memory ->
     forall sid, score sid memory' = score sid memory + times sid sids).
Proof.
  intros Ty H Ok.
  destruct (finish_path _ _ _ _ _ _ _ _ Ty H Ok)
    as (questions & resp & env1 & sids & m1 & index & over & _ & _ & S & Cs & SS & _
        & _ & M & _).
  destruct (score_students_spec _ _ _ _ _ _ _ _ SS) as (_ & Sc & _).
  eexists _, resp, env1, sids. split; [exact S|]. split; [exact Cs|].
  intros Pl C sid. destruct (Sc Pl []) as [Sc' _].
  { rewrite app_nil_r. by apply counting_defaults. }
  rewrite <- (score_defaults sid payload actorId memory), <- Sc'.
  unfold score. destruct over; [destruct M as (ranking & _ & ->)|subst memory'];
    by rewrite !lookup_assign_ne.
Qed.

(** An id that every object inherits is scored as a text: when the
    summary lists the student [constructor], the room answers [ok], sends
    the point, and holds under that id the text of [Object] followed by
    [1]. *)
Lemma inherited_name_scores_text :
  exists memory' reply env',
    handleRoomMessage finish_current (JsStr "r1") 30000 open_room inherited_env =
      Some (memory', reply, env') /\
    prop "ok" (h_result reply) = JsBool true /\
    credited (calls env') = [JsStr "constructor"] /\
    prop "constructor" (lookup "scores" open_room) = JsUndefined /\
    prop "constructor" (lookup "scores" memory') =
      JsStr "function Object() { [native code] }1".
Proof. eexists _, _, _. split; [vm_compute; reflexivity|]. repeat split. Qed.

(** X23. A [finishCurrentQuestion] that succeeds credits exactly the
    students the summary lists: the room asks the current question for its
    summary, then sends one [updateScore] call with [scoreDelta] 1 to each
    student of [correctStudents], in order and to nobody else, and the
    index of the current question goes up by one.  When no listed id is a
    name that every object inherits ([constructor], [toString], ...) and
    the score held for each listed student, 0 when there is none, is a
    number that stays within 2^53 with the points of the list, the score
    the room holds for a student goes up by the number of times the
    student is listed and no other score changes. *)
Theorem finish_scores_the_correct payload actorId now memory env memory' reply env' :
  has_type "finishCurrentQuestion" payload ->
  handleRoomMessage payload actorId now memory env = Some (memory', reply, env') ->
  prop "ok" (h_result reply) = JsBool true ->
  exists questions sids cs,
    or_else (lookup "questions" memory) (JsArr []) = JsArr questions /\
    prop "questionId" (h_result reply) =
      element questions (or_else (lookup "currentQuestionIndex" memory) (JsNum 0)) /\
    prop "correctStudents" (h_result reply) = JsArr sids /\
    calls env' = calls env ++ summary_call (prop "questionId" (h_result reply)) :: cs /\
    Forall2 (score_call (lookup "roomId" memory') (prop "questionId" (h_result reply)))
            sids cs /\
    (plain_ids sids -> counting sids memory ->
     forall sid, score sid memory' = score sid memory + times sid sids) /\
    js_add (or_else (lookup "currentQuestionIndex" memory) (JsNum 0)) (JsNum 1) =
      Some (lookup "currentQuestionIndex" memory').
Proof.
  intros Ty H Ok.
  destruct (finish_path _ _ _ _ _ _ _ _ Ty H Ok)
    as (questions & resp & env1 & sids & m1 & index & over & Q & Ge & S & _ & SS & Ad
        & Ge' & M & Qi & Cs & _).
  rewrite room_defaults_questions in Q. rewrite room_defaults_index in Ge, S, SS, Qi.
  destruct (score_students_spec _ _ _ _ _ _ _ _ SS) as (L & Sc & cs & C & F).
  apply sendToActor_spec in S as [C1 _].
  rewrite (L "currentQuestionIndex"), room_defaults_index in Ad by done.
  assert (M' : (forall k, k <> "currentQuestionIndex" -> k <> "status" -> k <> "ranking" ->
                          lookup k memory' = lookup k m1) /\
               lookup "currentQuestionIndex" memory' = index).
  { destruct over; [destruct M as (ranking & _ & ->)|subst memory']; split;
      try (intros k ? ? ?; by rewrite !lookup_assign_ne);
      rewrite !lookup_assign_ne by done; apply lookup_assign_eq. }
  destruct M' as [L' I'].
  exists questions, sids, cs. rewrite Qi, I'.
  split; [done|]. split; [done|]. split; [done|]. split.
  { rewrite C, C1, <- app_assoc. done. }
  split.
  { by rewrite (L' "roomId"), (L "roomId"). }
  split; [|done].
  intros Pl Cn sid. destruct (Sc Pl []) as [Sc' _].
  { rewrite app_nil_r. by apply counting_defaults. }
  rewrite <- (score_defaults sid payload actorId memory), <- Sc'.
  unfold score. by rewrite (L' "scores").
Qed.

Lemma finish_scores_the_correct_witness :
  has_type "finishCurrentQuestion" finish_current /\
  (exists memory' reply env',
     handleRoomMessage finish_current (JsStr "r1") 30000 open_room summary_env =
       Some (memory', reply, env') /\
     prop "ok" (h_result reply) = JsBool true /\
     prop "correctStudents" (h_result reply) = JsArr [JsStr "s1"] /\
     plain_ids [JsStr "s1"] /\ counting [JsStr "s1"] open_room /\
     score "s1" memory' = score "s1" open_room + times "s1" [JsStr "s1"] /\
     score "s2" memory' = score "s2" open_room + times "s2" [JsStr "s1"]).
Proof.
  split; [reflexivity|].
  destruct (handleRoomMessage finish_current (JsStr "r1") 30000 open_room summary_env)
    as [[[memory' reply] env']|] eqn:H; [|vm_compute in H; discriminate H].
  assert (Ok : prop "ok" (h_result reply) = JsBool true).
  { vm_compute in H. injection H as <- <- <-. reflexivity. }
  assert (Cs : prop "correctStudents" (h_result reply) = JsArr [JsStr "s1"]).
  { vm_compute in H. injection H as <- <- <-. reflexivity. }
  assert (Pl : plain_ids [JsStr "s1"]).
  { intros sid In. apply list_elem_of_singleton in In as ->.
    intros In. apply list_elem_of_In in In. simpl in In.
    repeat (destruct In as [In|In]; [discriminate In|]). exact In. }
  assert (Cn : counting [JsStr "s1"] open_room).
  { intros sid In. apply list_elem_of_singleton in In as ->.
    exists 0. split; [reflexivity|]. vm_compute. discriminate. }
  destruct (finish_scores_the_correct finish_current (JsStr "r1") 30000 open_room
              summary_env memory' reply env' eq_refl H Ok)
    as (questions & sids & cs & _ & _ & Cs' & _ & _ & Sc & _).
  rewrite Cs in Cs'. injection Cs' as <-.
  exists memory', reply, env'. split; [reflexivity|]. split; [exact Ok|].
  split; [exact Cs|]. split; [exact Pl|]. split; [exact Cn|].
  split; apply (Sc Pl Cn).
Defined.

(** ** The ranking *)









(** ** What every branch of the room handler keeps *)

Lemma calls_refl (P : Call -> Prop) env :
  exists cs, calls env = calls env ++ cs /\ Forall P cs.
Proof. exists []. by rewrite app_nil_r. Qed.

Lemma calls_send (P : Call -> Prop) actorType actorId payload env r env' :
  sendToActor actorType actorId payload env = Some (r, env') ->
  P {| to_type := actorType; to_id := actorId; message := payload |} ->
  exists cs, calls env' = calls env ++ cs /\ Forall P cs.
Proof.
  intros S HP. apply sendToActor_spec in S as [C _]. eexists. split; [exact C|].
  by constructor.
Qed.

Lemma calls_trans (P : Call -> Prop) env1 env2 env3 :
  (exists cs, calls env2 = calls env1 ++ cs /\ Forall P cs) ->
  (exists cs, calls env3 = calls env2 ++ cs /\ Forall P cs) ->
  exists cs, calls env3 = calls env1 ++ cs /\ Forall P cs.
Proof.
  intros (cs1 & C1 & F1) (cs2 & C2 & F2). exists (cs1 ++ cs2).
  rewrite C2, C1, app_assoc. split; [done|]. by apply Forall_app.
Qed.

Lemma score_students_calls sids sum allAnswers qId m env m' env' :
  score_students sids sum allAnswers qId m env = Some (m', env') ->
  exists cs, calls env' = calls env ++ cs /\
             Forall (fun c => to_type c = "student" \/ to_type c = "question") cs.
Proof.
  intros SS. apply score_students_spec in SS as (_ & _ & cs & C & F).
  exists cs. split; [done|]. clear C. induction F as [|sid c sids cs [T _] F IH]; auto.
Qed.

Lemma room_step payload actorId now m env m' reply env' :
  handleRoomMessage payload actorId now m env = Some (m', reply, env') ->
  (exists cs, calls env' = calls env ++ cs /\
              Forall (fun c => to_type c = "student" \/ to_type c = "question") cs) /\
  (~ has_type "registerQuestions" payload ->
   lookup "questions" m' = lookup "questions" (room_defaults payload actorId m) /\
   ((lookup "currentQuestionIndex" m' =
       lookup "currentQuestionIndex" (room_defaults payload actorId m) /\
     finished_question reply = None) \/
    (exists questions,
       lookup "questions" (room_defaults payload actorId m) = JsArr questions /\
       js_ge (lookup "currentQuestionIndex" (room_defaults payload actorId m))
             (JsNum (Z.of_nat (length questions))) = Some false /\
       js_add (lookup "currentQuestionIndex" (room_defaults payload actorId m)) (JsNum 1) =
         Some (lookup "currentQuestionIndex" m') /\
       finished_question reply =
         Some (element questions
                 (lookup "currentQuestionIndex" (room_defaults payload actorId m)))))).
Proof.
  unfold handleRoomMessage. cbv zeta.
  change (assign "roomName" (or_else (or_else _ _) _) _)
    with (room_defaults payload actorId m).
  set (m0 := room_defaults payload actorId m).
  destruct (negb (truthy (prop "type" payload))).
  { intros [= <- <- <-]. split; [apply calls_refl|]. intros _. split; [done|]. by left. }
  destruct (strict_eq (prop "type" payload) (JsStr "initRoom")).
  { intros [= <- <- <-]. split; [apply calls_refl|]. intros _.
    rewrite !lookup_assign_ne by done. split; [done|]. by left. }
  destruct (strict_eq (prop "type" payload) (JsStr "registerQuestions")) eqn:Rg.
  { apply strict_eq_str in Rg. intros [= <- <- <-]. split; [apply calls_refl|]. done. }
  destruct (strict_eq (prop "type" payload) (JsStr "join")).
  { destruct (negb (truthy (prop "studentId" payload))).
    { intros [= <- <- <-]. split; [apply calls_refl|]. intros _. split; [done|]. by left. }
    destruct (lookup "students" m0) as [| | | | | |students| |] eqn:St; try done.
    destruct (sendToActor _ _ _ _) as [[r env1]|] eqn:S; [|done]. simpl.
    intros [= <- <- <-]. split; [eapply calls_send; [exact S|by left]|]. intros _.
    destruct (includes _ _); rewrite ?lookup_assign_ne by done; (split; [done|]); by left. }
  destruct (strict_eq (prop "type" payload) (JsStr "startCurrentQuestion")).
  { destruct (lookup "questions" m0) as [| | | | | |questions| |] eqn:Q; try done.
    destruct (length questions =? 0)%nat.
    { intros [= <- <- <-]. split; [apply calls_refl|]. intros _. split; [done|]. by left. }
    destruct (js_ge _ _) as [[|]|] eqn:Ge; simpl; [| |done].
    { intros [= <- <- <-]. split; [apply calls_refl|]. intros _. split; [done|]. by left. }
    destruct (sendToActor _ _ _ _) as [[r env1]|] eqn:S; [|done]. simpl.
    intros [= <- <- <-]. split; [eapply calls_send; [exact S|by right]|]. intros _.
    rewrite !lookup_assign_ne by done. split; [done|]. by left. }
  destruct (strict_eq (prop "type" payload) (JsStr "finishCurrentQuestion")) eqn:Fi.
  { apply strict_eq_str in Fi.
    destruct (lookup "questions" m0) as [| | | | | |questions| |] eqn:Q; try done.
    destruct (length questions =? 0)%nat.
    { intros [= <- <- <-]. split; [apply calls_refl|]. intros _. split; [done|]. by left. }
    destruct (js_ge _ _) as [[|]|] eqn:Ge; simpl; [| |done].
    { intros [= <- <- <-]. split; [apply calls_refl|]. intros _. split; [done|]. by left. }
    destruct (sendToActor _ _ _ _) as [[resp env1]|] eqn:S; [|done]. simpl.
    destruct (negb (truthy (prop "ok" resp))).
    { intros [= <- <- <-]. split; [eapply calls_send; [exact S|by right]|]. intros _.
      split; [done|]. by left. }
    destruct (or_else (prop "correctStudents" _) (JsArr [])) as [| | | | | |sids| |] eqn:CS;
      try done.
    destruct (score_students _ _ _ _ _ _) as [[m1 env2]|] eqn:SS; [|done]. simpl.
    destruct (js_add _ _) as [index|] eqn:Ad; [|done]. simpl.
    rewrite lookup_assign_eq.
    destruct (js_ge index _) as [over|] eqn:Ge'; [|done]. simpl.
    rewrite lookup_assign_eq.
    pose proof (score_students_spec _ _ _ _ _ _ _ _ SS) as (L & _).
    rewrite (L "currentQuestionIndex") in Ad by done.
    assert (C : exists cs, calls env2 = calls env ++ cs /\
                  Forall (fun c => to_type c = "student" \/ to_type c = "question") cs).
    { eapply calls_trans; [eapply calls_send; [exact S|by right]|].
      eapply score_students_calls, SS. }
    destruct over; simpl.
    - destruct (compute_ranking _) as [ranking|] eqn:R; [|done]. simpl.
      intros [= <- <- <-]. split; [done|]. intros _.
      rewrite !lookup_assign_ne, lookup_assign_eq by done.
      rewrite !lookup_assign_ne by done. rewrite (L "questions") by done.
      split; [done|]. right. by exists questions.
    - intros [= <- <- <-]. split; [done|]. intros _.
      rewrite !lookup_assign_ne, lookup_assign_eq by done.
      rewrite !lookup_assign_ne by done. rewrite (L "questions") by done.
      split; [done|]. right. by exists questions. }
  destruct (strict_eq (prop "type" payload) (JsStr "finishRoom")).
  { destruct (lookup "questions" m0) as [| | | | | |questions| |] eqn:Q; try done.
    destruct (js_lt _ _) as [[|]|] eqn:Lt; simpl; [| |done].
    { intros [= <- <- <-]. split; [apply calls_refl|]. intros _. split; [done|]. by left. }
    rewrite lookup_assign_ne by done.
    destruct (negb (truthy (lookup "ranking" m0))); simpl.
    - destruct (compute_ranking _) as [ranking|] eqn:R; [|done]. simpl.
      intros [= <- <- <-]. split; [apply calls_refl|]. intros _.
      rewrite !lookup_assign_ne by done. split; [done|]. by left.
    - intros [= <- <- <-]. split; [apply calls_refl|]. intros _.
      rewrite !lookup_assign_ne by done. split; [done|]. by left. }
  intros [= <- <- <-]. split; [apply calls_refl|]. intros _. split; [done|]. by left.
Qed.

(** ** A room over a sequence of messages *)

Lemma handleMessage_room payload actorId now m env :
  handleMessage payload (JsStr "room") actorId now m env =
  match handleRoomMessage payload actorId now (stamp (JsStr "room") actorId now m) env with
  | Some (m', res, env') => Some (m', completed res, env')
  | None => None
  end.
Proof.
  unfold handleMessage, stamp. simpl.
  by destruct (handleRoomMessage _ _ _ _ _) as [[[m' res] env']|].
Qed.

Lemma room_run_order actorId msgs : forall m m' replies cs questions i,
  conversation (JsStr "room") actorId msgs m = Some (m', replies, cs) ->
  (forall msg, msg ∈ msgs -> ~ has_type "registerQuestions" msg.1.1) ->
  lookup "questions" m = JsArr questions ->
  lookup "currentQuestionIndex" m = JsNum (Z.of_nat i) ->
  (i <= length questions)%nat ->
  exists n, (i <= n <= length questions)%nat /\
    lookup "questions" m' = JsArr questions /\
    lookup "currentQuestionIndex" m' = JsNum (Z.of_nat n) /\
    omap finished_question replies = take (n - i) (drop i questions).
Proof.
  induction msgs as [|[[payload now] resps] msgs IH]; simpl;
    intros m m' replies cs questions i Run NR Q I Le.
  { injection Run as <- <- <-. exists i. rewrite Nat.sub_diag.
    split; [lia|]. by rewrite take_0. }
  rewrite handleMessage_room in Run.
  destruct (handleRoomMessage _ _ _ _ _) as [[[m1 res] env1]|] eqn:H; [|done].
  destruct (conversation _ _ _ _) as [[[m2 replies2] cs2]|] eqn:Run2; [|done].
  injection Run as <- <- <-.
  apply room_step in H as [_ H].
  destruct H as [Q1 I1]; [apply (NR (payload, now, resps)); by left|].
  rewrite room_defaults_questions, lookup_stamp, Q in Q1 by done.
  rewrite room_defaults_index, lookup_stamp, I in I1 by done.
  rewrite room_defaults_questions, lookup_stamp, Q in I1 by done.
  assert (Ei : or_else (JsNum (Z.of_nat i)) (JsNum 0) = JsNum (Z.of_nat i)).
  { unfold or_else. simpl. destruct (Z.of_nat i =? 0) eqn:Z0; [|done].
    apply Z.eqb_eq in Z0. by rewrite Z0. }
  rewrite Ei in I1. simpl in Q1.
  assert (NR' : forall msg, msg ∈ msgs -> ~ has_type "registerQuestions" msg.1.1).
  { intros msg Hin. apply NR. by right. }
  destruct I1 as [[I1 F1]|(qs & [= <-] & Ge & Ad & F1)].
  - destruct (IH _ _ _ _ _ _ Run2 NR' Q1 I1 Le) as (n & Hn & Q2 & I2 & F2).
    exists n. split; [done|]. split; [done|]. split; [done|].
    change (omap finished_question (completed res :: replies2))
      with (match finished_question res with
            | Some q => q :: omap finished_question replies2
            | None => omap finished_question replies2
            end).
    by rewrite F1.
  - apply js_ge_numbers in Ge. symmetry in Ge. apply Z.leb_gt in Ge.
    apply js_add_number in Ad.
    assert (I1 : lookup "currentQuestionIndex" m1 = JsNum (Z.of_nat (S i))).
    { rewrite Ad. f_equal. lia. }
    destruct (IH _ _ _ _ _ _ Run2 NR' Q1 I1) as (n & Hn & Q2 & I2 & F2); [lia|].
    exists n. split; [lia|]. split; [done|]. split; [done|].
    change (omap finished_question (completed res :: replies2))
      with (match finished_question res with
            | Some q => q :: omap finished_question replies2
            | None => omap finished_question replies2
            end).
    rewrite F1, F2.
    assert (E : element questions (JsNum (Z.of_nat i)) = nth i questions JsUndefined).
    { simpl. assert ((0 <=? Z.of_nat i) = true) as -> by (apply Z.leb_le; lia).
      by rewrite Nat2Z.id. }
    rewrite E. replace (n - i)%nat with (S (n - S i)) by lia.
    destruct (drop i questions) as [|q rest] eqn:D.
    { apply (f_equal length) in D. rewrite length_drop in D. simpl in D. lia. }
    simpl. f_equal.
    + pose proof (lookup_drop questions i 0) as Lk. rewrite D, Nat.add_0_r in Lk.
      simpl in Lk. by rewrite nth_lookup, <- Lk.
    + replace (S i) with (i + 1)%nat by lia. by rewrite <- drop_drop, D.
Qed.

Lemma register_step payload actorId now m env m' reply env' :
  has_type "registerQuestions" payload ->
  handleRoomMessage payload actorId now m env = Some (m', reply, env') ->
  lookup "questions" m' = or_else (prop "questionIds" payload) (JsArr []) /\
  lookup "currentQuestionIndex" m' = JsNum 0 /\
  finished_question reply = None.
Proof.
  intros Ty. unfold handleRoomMessage. cbv zeta.
  unfold has_type in Ty. rewrite Ty. simpl. intros [= <- <- <-].
  rewrite !lookup_assign_ne, lookup_assign_eq by done.
  by rewrite lookup_assign_ne, lookup_assign_eq.
Qed.

(** X25. A room finishes its questions in the registered order, each at
    most once: in a run of a room activation that starts with a
    [registerQuestions] message carrying an array of ids and has no other
    one, the questions the replies report as finished are, in order, the
    first [n] registered ids, where [n] is the [currentQuestionIndex] the
    run leaves, and [n] does not exceed the number of questions. *)
Theorem questions_finish_in_order actorId register msgs memory memory' replies cs
    questions :
  has_type "registerQuestions" register.1.1 ->
  prop "questionIds" register.1.1 = JsArr questions ->
  (forall msg, msg ∈ msgs -> ~ has_type "registerQuestions" msg.1.1) ->
  conversation (JsStr "room") actorId (register :: msgs) memory =
    Some (memory', replies, cs) ->
  exists n, (n <= length questions)%nat /\
    lookup "questions" memory' = JsArr questions /\
    lookup "currentQuestionIndex" memory' = JsNum (Z.of_nat n) /\
    omap finished_question replies = take n questions.
Proof.
  destruct register as [[payload now] resps]. simpl. intros Ty Ids NR.
  rewrite handleMessage_room.
  destruct (handleRoomMessage _ _ _ _ _) as [[[m1 res] env1]|] eqn:H; [|done].
  destruct (conversation _ _ _ _) as [[[m2 replies2] cs2]|] eqn:Run; [|done].
  intros [= <- <- <-].
  apply (register_step _ _ _ _ _ _ _ _ Ty) in H as (Q & I & F).
  rewrite Ids in Q. change (or_else (JsArr questions) (JsArr [])) with (JsArr questions) in Q.
  destruct (room_run_order _ _ _ _ _ _ _ 0%nat Run NR Q I) as (n & Hn & Q2 & I2 & F2);
    [lia|].
  exists n. split; [lia|]. split; [done|]. split; [done|].
  change (omap finished_question (completed res :: replies2))
    with (match finished_question res with
          | Some q => q :: omap finished_question replies2
          | None => omap finished_question replies2
          end).
  rewrite F, F2, Nat.sub_0_r. done.
Qed.

Lemma questions_finish_in_order_witness :
  has_type "registerQuestions" register_questions /\
  prop "questionIds" register_questions = JsArr [JsStr "q1"; JsStr "q2"] /\
  exists memory' replies cs n,
    conversation (JsStr "room") (JsStr "r1") demo_room [] = Some (memory', replies, cs) /\
    lookup "currentQuestionIndex" memory' = JsNum (Z.of_nat n) /\
    omap finished_question replies = take n [JsStr "q1"; JsStr "q2"].
Proof.
  split; [reflexivity|]. split; [reflexivity|].
  destruct (conversation (JsStr "room") (JsStr "r1") demo_room [])
    as [[[memory' replies] cs]|] eqn:Run; [|vm_compute in Run; discriminate Run].
  assert (NR : forall msg, msg ∈ demo_lesson -> ~ has_type "registerQuestions" msg.1.1).
  { intros msg Hin. unfold demo_lesson in Hin.
    repeat (apply elem_of_cons in Hin as [->|Hin]);
      try (intros Ty; discriminate Ty). inversion Hin. }
  destruct (questions_finish_in_order (JsStr "r1") (register_questions, 1, []) demo_lesson
              [] memory' replies cs [JsStr "q1"; JsStr "q2"] eq_refl eq_refl NR Run)
    as (n & _ & _ & I & F).
  exists memory', replies, cs, n. split; [reflexivity|]. split; [exact I|exact F].
Defined.

(** ** The scores of a room and the points it sends *)

Lemma credits_app sid cs1 cs2 : credits sid (cs1 ++ cs2) = credits sid cs1 + credits sid cs2.
Proof. unfold credits. rewrite List.filter_app, length_app. lia. Qed.

Lemma credits_score_calls roomId qId sid sids cs :
  Forall2 (score_call roomId qId) sids cs -> credits sid cs = times sid sids.
Proof.
  unfold credits, times. induction 1 as [|s c sids cs (T & I & t & M) F IH]; [done|].
  simpl. unfold credit at 1. rewrite T, I, M. simpl.
  destruct (String.eqb (to_string s) sid); simpl; lia.
Qed.

Lemma credits_times sid cs : credits sid cs = times sid (credited cs).
Proof.
  unfold credits, times, credited. induction cs as [|c cs IH]; simpl; [done|].
  unfold credit at 1, scoring at 1.
  destruct (String.eqb (to_type c) "student"); simpl; [|done].
  destruct (strict_eq (prop "type" (message c)) (JsStr "updateScore")); simpl.
  - rewrite andb_true_r.
    destruct (String.eqb (to_string (to_id c)) sid); simpl; lia.
  - by rewrite andb_false_r.
Qed.

Lemma credited_app cs1 cs2 : credited (cs1 ++ cs2) = credited cs1 ++ credited cs2.
Proof. unfold credited. by rewrite List.filter_app, map_app. Qed.

Lemma credited_score_calls roomId qId sids cs :
  Forall2 (score_call roomId qId) sids cs -> credited cs = sids.
Proof.
  unfold credited. induction 1 as [|s c sids cs (T & I & t & M) F IH]; [done|].
  simpl. unfold scoring at 1. rewrite T, M. simpl. by rewrite I, IH.
Qed.

Lemma tallied_kept cs (m m' : Object) :
  lookup "scores" m' = lookup "scores" m -> credited cs = [] -> tallied cs m m'.
Proof.
  intros E Cr Pl rest C. rewrite Cr in C. simpl in C. split.
  - intros sid. rewrite credits_times, Cr. unfold score, times. rewrite E. simpl. lia.
  - eapply counting_same; [|exact C]. intros s. by rewrite E.
Qed.

Lemma tallied_app cs1 cs2 m m1 m2 :
  tallied cs1 m m1 -> tallied cs2 m1 m2 -> tallied (cs1 ++ cs2) m m2.
Proof.
  intros T1 T2 Pl rest C. rewrite credited_app in Pl, C. rewrite <- app_assoc in C.
  destruct (T1 (fun s In => Pl s (proj2 (elem_of_app _ _ s) (or_introl In))) _ C)
    as [S1 C1].
  destruct (T2 (fun s In => Pl s (proj2 (elem_of_app _ _ s) (or_intror In))) _ C1)
    as [S2 C2].
  split; [|done]. intros sid. rewrite S2, S1, credits_app. lia.
Qed.

Lemma tallied_defaults cs payload actorId m m' :
  tallied cs (room_defaults payload actorId m) m' -> tallied cs m m'.
Proof.
  intros T Pl rest C.
  destruct (T Pl rest (counting_defaults _ _ _ _ C)) as [S C']. split; [|done].
  intros sid. by rewrite S, score_defaults.
Qed.

Lemma tallied_after cs (m m1 m2 : Object) :
  lookup "scores" m2 = lookup "scores" m1 -> tallied cs m m1 -> tallied cs m m2.
Proof.
  intros E T Pl rest C. destruct (T Pl rest C) as [S C']. split.
  - intros sid. rewrite <- S. unfold score. by rewrite E.
  - eapply counting_same; [|exact C']. intros s. by rewrite E.
Qed.

Lemma tallied_before cs (m m0 m' : Object) :
  lookup "scores" m0 = lookup "scores" m -> tallied cs m0 m' -> tallied cs m m'.
Proof.
  intros E T Pl rest C. destruct (T Pl rest) as [S C'].
  { eapply counting_same; [|exact C]. intros s. by rewrite E. }
  split; [|done]. intros sid. rewrite S. unfold score. by rewrite E.
Qed.

Lemma scores_kept (m m' : Object) env :
  lookup "scores" m' = lookup "scores" m ->
  exists cs, calls env = calls env ++ cs /\ tallied cs m m'.
Proof.
  intros E. exists []. rewrite app_nil_r. split; [done|]. by apply tallied_kept.
Qed.

Lemma scores_kept_send (m m' : Object) actorType actorId payload env r env' :
  sendToActor actorType actorId payload env = Some (r, env') ->
  lookup "scores" m' = lookup "scores" m ->
  (actorType = "question" \/ prop "type" payload <> JsStr "updateScore") ->
  exists cs, calls env' = calls env ++ cs /\ tallied cs m m'.
Proof.
  intros S E N. apply sendToActor_spec in S as [C _]. eexists. split; [exact C|].
  apply tallied_kept; [done|]. unfold credited. simpl. unfold scoring. simpl.
  destruct N as [->|N]; [done|].
  destruct (strict_eq (prop "type" payload) (JsStr "updateScore")) eqn:U.
  - by apply strict_eq_str in U.
  - by rewrite andb_false_r.
Qed.

Lemma room_step_scores payload actorId now m env m' reply env' :
  handleRoomMessage payload actorId now m env = Some (m', reply, env') ->
  exists cs, calls env' = calls env ++ cs /\ tallied cs m m'.
Proof.
  assert (K : forall (m1 : Object) e e',
            (exists cs, calls e' = calls e ++ cs /\
               tallied cs (room_defaults payload actorId m) m1) ->
            exists cs, calls e' = calls e ++ cs /\ tallied cs m m1).
  { intros m1 e e' (cs & C & H). exists cs. split; [done|].
    by eapply tallied_defaults. }
  unfold handleRoomMessage. cbv zeta.
  change (assign "roomName" (or_else (or_else _ _) _) _)
    with (room_defaults payload actorId m).
  set (m0 := room_defaults payload actorId m) in *.
  destruct (negb (truthy (prop "type" payload))).
  { intros [= <- <- <-]. by apply K, scores_kept. }
  destruct (strict_eq (prop "type" payload) (JsStr "initRoom")).
  { intros [= <- <- <-]. apply K.
    apply scores_kept. by rewrite !lookup_assign_ne. }
  destruct (strict_eq (prop "type" payload) (JsStr "registerQuestions")).
  { intros [= <- <- <-]. apply K.
    apply scores_kept. by rewrite !lookup_assign_ne. }
  destruct (strict_eq (prop "type" payload) (JsStr "join")).
  { destruct (negb (truthy (prop "studentId" payload))).
    { intros [= <- <- <-]. by apply K, scores_kept. }
    destruct (lookup "students" m0) as [| | | | | |students| |] eqn:St; try done.
    destruct (sendToActor _ _ _ _) as [[r env1]|] eqn:S; [|done]. simpl.
    intros [= <- <- <-].
    assert (E : lookup "scores"
                  (if includes (prop "studentId" payload) students then m0
                   else assign "students"
                          (JsArr (students ++ [prop "studentId" payload])) m0) =
                lookup "scores" m0).
    { destruct (includes _ _); [done|]. by rewrite lookup_assign_ne. }
    apply K. eapply scores_kept_send; [exact S|done|]. by right. }
  destruct (strict_eq (prop "type" payload) (JsStr "startCurrentQuestion")).
  { destruct (lookup "questions" m0) as [| | | | | |questions| |] eqn:Q; try done.
    destruct (length questions =? 0)%nat.
    { intros [= <- <- <-]. by apply K, scores_kept. }
    destruct (js_ge _ _) as [[|]|] eqn:Ge; simpl; [| |done].
    { intros [= <- <- <-]. by apply K, scores_kept. }
    destruct (sendToActor _ _ _ _) as [[r env1]|] eqn:S; [|done]. simpl.
    intros [= <- <- <-]. apply K.
    eapply scores_kept_send; [exact S|by rewrite !lookup_assign_ne|]. by left. }
  destruct (strict_eq (prop "type" payload) (JsStr "finishCurrentQuestion")) eqn:Fi.
  { destruct (lookup "questions" m0) as [| | | | | |questions| |] eqn:Q; try done.
    destruct (length questions =? 0)%nat.
    { intros [= <- <- <-]. by apply K, scores_kept. }
    destruct (js_ge _ _) as [[|]|] eqn:Ge; simpl; [| |done].
    { intros [= <- <- <-]. by apply K, scores_kept. }
    destruct (sendToActor _ _ _ _) as [[resp env1]|] eqn:S; [|done]. simpl.
    destruct (negb (truthy (prop "ok" resp))).
    { intros [= <- <- <-]. apply K.
      eapply scores_kept_send; [exact S|done|]. by left. }
    destruct (or_else (prop "correctStudents" _) (JsArr [])) as [| | | | | |sids| |] eqn:CS;
      try done.
    destruct (score_students _ _ _ _ _ _) as [[m1 env2]|] eqn:SS; [|done]. simpl.
    destruct (js_add _ _) as [index|] eqn:Ad; [|done]. simpl.
    rewrite lookup_assign_eq.
    destruct (js_ge index _) as [over|] eqn:Ge'; [|done]. simpl.
    rewrite lookup_assign_eq.
    pose proof (score_students_spec _ _ _ _ _ _ _ _ SS) as (_ & Sc & cs & C & F).
    apply sendToActor_spec in S as [C1 _].
    assert (R : exists cs, calls env2 = calls env ++ cs /\ tallied cs m m1).
    { eexists (_ :: cs). split; [by rewrite C, C1, <- app_assoc|].
      assert (Cr : credited ({| to_type := "question";
                                to_id := element questions (lookup "currentQuestionIndex" m0);
                                message := JsObj [("type", JsStr "getSummary")] |} :: cs) = sids).
      { transitivity (credited cs); [reflexivity|].
        exact (credited_score_calls _ _ _ _ F). }
      intros Pl rest Cn. rewrite Cr in Pl, Cn.
      destruct (Sc Pl rest) as [Sc' Cn']; [by apply counting_defaults|].
      split; [|done]. intros s. rewrite Sc', credits_times, Cr. unfold m0.
      by rewrite score_defaults. }
    destruct R as (cs' & C' & Sc').
    destruct over; simpl.
    - destruct (compute_ranking _) as [ranking|] eqn:Rk; [|done]. simpl.
      intros [= <- <- <-]. exists cs'. split; [done|].
      eapply tallied_after; [|exact Sc']. by rewrite !lookup_assign_ne.
    - intros [= <- <- <-]. exists cs'. split; [done|].
      eapply tallied_after; [|exact Sc']. by rewrite !lookup_assign_ne. }
  destruct (strict_eq (prop "type" payload) (JsStr "finishRoom")).
  { destruct (lookup "questions" m0) as [| | | | | |questions| |] eqn:Q; try done.
    destruct (js_lt _ _) as [[|]|] eqn:Lt; simpl; [| |done].
    { intros [= <- <- <-]. by apply K, scores_kept. }
    rewrite lookup_assign_ne by done.
    destruct (negb (truthy (lookup "ranking" m0))); simpl.
    - destruct (compute_ranking _) as [ranking|] eqn:R; [|done]. simpl.
      intros [= <- <- <-]. apply K.
      apply scores_kept. by rewrite !lookup_assign_ne.
    - intros [= <- <- <-]. apply K.
      apply scores_kept. by rewrite !lookup_assign_ne. }
  intros [= <- <- <-]. by apply K, scores_kept.
Qed.

Lemma room_run_tallied actorId msgs : forall memory memory' replies cs,
  conversation (JsStr "room") actorId msgs memory = Some (memory', replies, cs) ->
  tallied cs memory memory'.
Proof.
  induction msgs as [|[[payload now] resps] msgs IH]; simpl; intros m m' replies cs Run.
  { injection Run as <- <- <-. by apply tallied_kept. }
  rewrite handleMessage_room in Run.
  destruct (handleRoomMessage _ _ _ _ _) as [[[m1 res] env1]|] eqn:H; [|done].
  destruct (conversation _ _ _ _) as [[[m2 replies2] cs2]|] eqn:Run2; [|done].
  injection Run as <- <- <-.
  apply room_step_scores in H as (cs1 & C1 & S1). simpl in C1. rewrite C1.
  eapply tallied_app; [|exact (IH _ _ _ _ Run2)].
  eapply tallied_before; [|exact S1]. by rewrite lookup_stamp.
Qed.

(** X26. The scores of a room match the points it sends: over any
    sequence of messages a room activation handles, the score it holds for
    a student grows by exactly the number of [updateScore] calls it sends
    to that student, provided that no student it credits has an id that is
    a name every object inherits ([constructor], [toString], ...), and
    that the score it holds at the start for each student it credits, 0
    when it holds none, is a number that stays within 2^53 with the points
    sent to the student.  A room that starts from an empty memory and
    credits ordinary ids thus holds, for every student, the number of
    points it has sent. *)
Theorem scores_match_the_points_sent actorId msgs : forall memory memory' replies cs,
  conversation (JsStr "room") actorId msgs memory = Some (memory', replies, cs) ->
  plain_ids (credited cs) ->
  counting (credited cs) memory ->
  forall sid, score sid memory' = score sid memory + credits sid cs.
Proof.
  intros m m' replies cs Run Pl C.
  destruct (room_run_tallied _ _ _ _ _ _ Run Pl []) as [S _]; [|done].
  by rewrite app_nil_r.
Qed.

Lemma scores_match_the_points_sent_witness :
  exists memory' replies cs,
    conversation (JsStr "room") (JsStr "r1") demo_room [] = Some (memory', replies, cs) /\
    plain_ids (credited cs) /\ counting (credited cs) [] /\
    score "s1" memory' = score "s1" [] + credits "s1" cs /\
    credits "s1" cs = 1.
Proof.
  destruct (conversation (JsStr "room") (JsStr "r1") demo_room [])
    as [[[memory' replies] cs]|] eqn:Run; [|vm_compute in Run; discriminate Run].
  assert (Cr : credited cs = [JsStr "s1"]).
  { vm_compute in Run. injection Run as _ _ <-. vm_compute. reflexivity. }
  assert (Pl : plain_ids (credited cs)).
  { rewrite Cr. intros sid In. apply list_elem_of_singleton in In as ->.
    intros In. apply list_elem_of_In in In. simpl in In.
    repeat (destruct In as [In|In]; [discriminate In|]). exact In. }
  assert (Cn : counting (credited cs) []).
  { rewrite Cr. intros sid In. apply list_elem_of_singleton in In as ->.
    exists 0. split; [reflexivity|]. vm_compute. discriminate. }
  exists memory', replies, cs. split; [reflexivity|].
  split; [exact Pl|]. split; [exact Cn|].
  split; [exact (scores_match_the_points_sent (JsStr "r1") demo_room [] memory' replies cs
                   Run Pl Cn "s1")|].
  vm_compute in Run. injection Run as _ _ <-. vm_compute. reflexivity.
Defined.

(** ** The teacher handler *)

Lemma init_questions_spec roomId : forall questions qIds env qIds' env',
  init_questions questions roomId qIds env = Some (qIds', env') ->
  qIds' = qIds ++ question_ids questions /\
  calls env' = calls env ++ map (init_call roomId) (identified questions).
Proof.
  unfold question_ids, identified.
  induction questions as [|q questions IH]; simpl; intros qIds env qIds' env'.
  { intros [= <- <-]. by rewrite !app_nil_r. }
  destruct (nullish q); [done|].
  destruct (truthy (prop "questionId" q)) eqn:T; simpl.
  - destruct (sendToActor _ _ _ _) as [[r env1]|] eqn:S; [|done]. simpl.
    intros H. apply IH in H as [-> C]. apply sendToActor_spec in S as [C1 _].
    split; [by rewrite <- app_assoc|]. rewrite C, C1, <- app_assoc. done.
  - apply IH.
Qed.



Lemma forward_calls roomId type m env m' reply env' :
  forward roomId type m env = Some (m', reply, env') ->
  exists cs, calls env' = calls env ++ cs /\
             Forall (fun c => to_type c = "room" \/ to_type c = "question") cs.
Proof.
  unfold forward. destruct (negb (truthy roomId)).
  { intros [= <- <- <-]. apply calls_refl. }
  destruct (sendToActor _ _ _ _) as [[r env1]|] eqn:S; [|done]. simpl.
  intros [= <- <- <-]. eapply calls_send; [exact S|by left].
Qed.

Lemma teacher_step payload actorId m env m' reply env' :
  handleTeacherMessage payload actorId m env = Some (m', reply, env') ->
  exists cs, calls env' = calls env ++ cs /\
             Forall (fun c => to_type c = "room" \/ to_type c = "question") cs.
Proof.
  unfold handleTeacherMessage. cbv zeta.
  change (assign "questionsByRoom" (or_else _ (JsObj [])) _)
    with (teacher_defaults actorId m).
  set (m0 := teacher_defaults actorId m).
  destruct (negb (truthy (prop "type" payload))).
  { intros [= <- <- <-]. apply calls_refl. }
  destruct (strict_eq (prop "type" payload) (JsStr "createRoom")).
  { destruct (negb (truthy (prop "roomId" payload))).
    { intros [= <- <- <-]. apply calls_refl. }
    destruct (lookup "rooms" m0) as [| | | | | |rooms| |]; try done.
    destruct (sendToActor _ _ _ _) as [[r env1]|] eqn:S; [|done]. simpl.
    intros [= <- <- <-]. eapply calls_send; [exact S|by left]. }
  destruct (strict_eq (prop "type" payload) (JsStr "createQuestions")).
  { destruct (negb (truthy (prop "roomId" payload))).
    { intros [= <- <- <-]. apply calls_refl. }
    destruct (or_else (prop "questions" payload) (JsArr [])) as [| | | | | |questions| |];
      try done.
    destruct (init_questions _ _ _ _) as [[qIds env1]|] eqn:I; [|done]. simpl.
    apply init_questions_spec in I as [-> C1].
    match goal with |- context [mbind _ ?t] => destruct t as [[r env2]|] eqn:S end;
      [|done].
    simpl. destruct (assign_in _ _ _ _) as [m1|] eqn:A; [|done]. simpl.
    intros [= <- <- <-].
    eapply calls_trans.
    { exists (map (init_call (prop "roomId" payload)) (identified questions)).
      split; [exact C1|]. apply Forall_forall. intros c Hc.
      apply list_elem_of_fmap in Hc as (q & -> & _). by right. }
    revert S. case_match.
    - intros S. eapply calls_send; [exact S|by left].
    - intros [= <- <-]. apply calls_refl. }
  destruct (strict_eq (prop "type" payload) (JsStr "startQuestion"));
    [apply forward_calls|].
  destruct (strict_eq (prop "type" payload) (JsStr "finishCurrentQuestion"));
    [apply forward_calls|].
  destruct (strict_eq (prop "type" payload) (JsStr "finishRoom"));
    [apply forward_calls|].
  intros [= <- <- <-]. apply calls_refl.
Qed.

(** X28. Handlers call downwards only: whatever message [handleMessage]
    handles, a teacher calls rooms and questions, a room calls students
    and questions, and a student, a question and an actor of an unknown
    type call nobody.  Every call thus goes to a type of a strictly lower
    level, so no handler waits for the router of its own type. *)
Theorem handlers_call_downwards payload actorType actorId now memory env memory' reply
    env' :
  handleMessage payload actorType actorId now memory env = Some (memory', reply, env') ->
  exists cs,
    calls env' = calls env ++ cs /\
    forall c, c ∈ cs -> (level (to_type c) < level_of actorType)%nat.
Proof.
  unfold handleMessage. cbv zeta. fold (stamp actorType actorId now memory).
  set (m0 := stamp actorType actorId now memory).
  destruct (strict_eq actorType (JsStr "teacher")) eqn:T.
  { apply strict_eq_str in T as ->.
    destruct (handleTeacherMessage _ _ _ _) as [[[m1 res] env1]|] eqn:H; [|done].
    simpl. intros [= <- <- <-]. apply teacher_step in H as (cs & C & F).
    exists cs. split; [done|]. intros c Hc.
    rewrite Forall_forall in F. destruct (F c Hc) as [-> | ->]; vm_compute; lia. }
  destruct (strict_eq actorType (JsStr "room")) eqn:R.
  { apply strict_eq_str in R as ->.
    destruct (handleRoomMessage _ _ _ _ _) as [[[m1 res] env1]|] eqn:H; [|done].
    simpl. intros [= <- <- <-]. apply room_step in H as [(cs & C & F) _].
    exists cs. split; [done|]. intros c Hc.
    rewrite Forall_forall in F. destruct (F c Hc) as [-> | ->]; vm_compute; lia. }
  assert (N : forall c : Call, c ∈ @nil Call -> (level (to_type c) < level_of actorType)%nat).
  { intros c Hc. inversion Hc. }
  destruct (strict_eq actorType (JsStr "student")).
  { destruct (handleStudentMessage _ _ _) as [[m1 res]|]; [|done]. simpl.
    intros [= <- <- <-]. exists []. by rewrite app_nil_r. }
  destruct (strict_eq actorType (JsStr "question")).
  { destruct (handleQuestionMessage _ _ _ _) as [[m1 res]|]; [|done]. simpl.
    intros [= <- <- <-]. exists []. by rewrite app_nil_r. }
  simpl. intros [= <- <- <-]. exists []. by rewrite app_nil_r.
Qed.

Lemma handlers_call_downwards_witness :
  exists memory' reply env' cs,
    handleMessage finish_current (JsStr "room") (JsStr "r1") 30000 open_room summary_env =
      Some (memory', reply, env') /\
    calls env' = calls summary_env ++ cs /\
    forall c, c ∈ cs -> (level (to_type c) < level_of (JsStr "room"))%nat.
Proof.
  destruct (handleMessage finish_current (JsStr "room") (JsStr "r1") 30000 open_room
              summary_env)
    as [[[memory' reply] env']|] eqn:H; [|vm_compute in H; discriminate H].
  destruct (handlers_call_downwards finish_current (JsStr "room") (JsStr "r1") 30000
              open_room summary_env memory' reply env' H) as (cs & C & L).
  exists memory', reply, env', cs. split; [reflexivity|]. split; [exact C|exact L].
Defined.

(** ** A question and its room *)

Lemma times_listed sid students :
  NoDup students ->
  (sid ∈ students -> times sid (map JsStr students) = 1) /\
  (sid ∉ students -> times sid (map JsStr students) = 0).
Proof.
  unfold times. induction students as [|s students IH]; simpl; intros ND.
  - split; [intros H; inversion H|done].
  - apply NoDup_cons in ND as [Hn ND]. destruct (IH ND) as [IH1 IH0].
    destruct (String.eqb_spec s sid) as [->|NE]; simpl.
    + split; [|intros H; exfalso; apply H; by left].
      intros _. specialize (IH0 Hn). lia.
    + split; intros H.
      * apply elem_of_cons in H as [->|H]; [done|auto].
      * apply IH0. intros Hin. apply H. by right.
Qed.

(** X29. A question and its room agree on who scores: when the response
    to the room's summary call is the router's answer carrying the reply a
    question activation gives to [getSummary] after any run from an empty
    memory, no student marked correct has an id that is a name every
    object inherits ([constructor], [toString], ...), and the score the
    room holds for each of them, 0 when it holds none, is a number below
    2^53, a [finishCurrentQuestion] that succeeds adds exactly one point
    to the score of every student whose recorded answer is marked correct
    in the question, and leaves the score of everybody else as it was. *)
Theorem room_credits_the_marked qId msgs qm qpayload qnow qm' qreply actorKey rest
    payload actorId now memory env memory' reply env' :
  question_run qId msgs [] = Some qm ->
  has_type "getSummary" qpayload ->
  handleMessage qpayload (JsStr "question") qId qnow qm no_calls =
    Some (qm', qreply, no_calls) ->
  responses env = ok_response (h_result qreply) actorKey :: rest ->
  has_type "finishCurrentQuestion" payload ->
  handleRoomMessage payload actorId now memory env = Some (memory', reply, env') ->
  prop "ok" (h_result reply) = JsBool true ->
  (forall sid, marked_correct sid qm ->
     (sid ∉ prototype_names) /\
     exists z, or_else (prop sid (lookup "scores" memory)) (JsNum 0) = JsNum z /\
               Z.abs z < 2 ^ 53) ->
  forall sid,
    (marked_correct sid qm -> score sid memory' = score sid memory + 1) /\
    (~ marked_correct sid qm -> score sid memory' = score sid memory).
Proof.
  intros Run QTy QH Resp Ty H Ok Plain sid.
  pose proof (question_run_graded _ _ _ _ (or_introl untouched_nil) Run) as G.
  assert (G' : untouched (stamp (JsStr "question") qId qnow qm) \/
               graded (stamp (JsStr "question") qId qnow qm)).
  { destruct G as [U|G]; [left; by apply untouched_stamp|right; by apply graded_stamp]. }
  destruct (summary_of qpayload qId qnow _ G' QTy)
    as (qm2 & qreply2 & students & QH2 & _ & Cq & ND & In & _).
  rewrite handleMessage_question, QH2 in QH. injection QH as _ <-.
  change (h_result (completed qreply2)) with (h_result qreply2).
  assert (In' : forall s, s ∈ students <-> marked_correct s qm).
  { intros s. rewrite In. apply marked_stamp. }
  destruct (finish_scores _ _ _ _ _ _ _ _ Ty H Ok)
    as (q & resp & env1 & sids & S & Cs & Sc).
  assert (R : resp = resp_json (ok_response (h_result qreply2) actorKey)).
  { revert S. unfold sendToActor. rewrite Resp. simpl. by intros [= <- _]. }
  assert (U : unwrapRouterResult resp = h_result qreply2).
  { rewrite R. unfold unwrapRouterResult. simpl.
    destruct (h_result qreply2); simpl in Cq |- *; done. }
  rewrite U, Cq in Cs. injection Cs as <-.
  assert (Pl : plain_ids (map JsStr students)).
  { intros s Hs. apply list_elem_of_fmap in Hs as (t & -> & Ht). simpl.
    by apply Plain, In'. }
  assert (Cn : counting (map JsStr students) memory).
  { intros s Hs. apply list_elem_of_fmap in Hs as (t & -> & Ht). simpl.
    destruct (Plain t) as (_ & z & Ez & Bz); [by apply In'|].
    exists z. split; [done|].
    destruct (times_listed t students ND) as [T1 _]. rewrite T1 by done. lia. }
  rewrite (Sc Pl Cn). destruct (times_listed sid students ND) as [T1 T0].
  split; intros Mk.
  - rewrite T1; [done|]. by apply In'.
  - rewrite T0; [lia|]. intros Hin. by apply Mk, In'.
Qed.

Lemma room_credits_the_marked_witness :
  question_run (JsStr "q1") demo_quiz [] = Some quiz_memory /\
  marked_correct "s1" quiz_memory /\ ~ marked_correct "s2" quiz_memory /\
  exists memory' reply env',
    handleRoomMessage finish_current (JsStr "r1") 30000 open_room summary_env =
      Some (memory', reply, env') /\
    score "s1" memory' = score "s1" open_room + 1 /\
    score "s2" memory' = score "s2" open_room.
Proof.
  assert (Run : question_run (JsStr "q1") demo_quiz [] = Some quiz_memory)
    by (vm_compute; reflexivity).
  assert (M1 : marked_correct "s1" quiz_memory) by (vm_compute; reflexivity).
  assert (M2 : ~ marked_correct "s2" quiz_memory).
  { intros M. vm_compute in M. discriminate M. }
  split; [exact Run|]. split; [exact M1|]. split; [exact M2|].
  destruct (handleMessage get_summary (JsStr "question") (JsStr "q1") 30000 quiz_memory
              no_calls) as [[[qm' qreply] qenv]|] eqn:QH;
    [|vm_compute in QH; discriminate QH].
  assert (QE : qenv = no_calls).
  { vm_compute in QH. injection QH as _ _ <-. reflexivity. }
  subst qenv.
  assert (Resp : responses summary_env =
                 ok_response (h_result qreply) "question:q1" ::
                 [ok_response (JsObj [("ok", JsBool true)]) "student:s1"]).
  { vm_compute in QH. injection QH as _ <-. vm_compute. reflexivity. }
  destruct (handleRoomMessage finish_current (JsStr "r1") 30000 open_room summary_env)
    as [[[memory' reply] env']|] eqn:H; [|vm_compute in H; discriminate H].
  assert (Ok : prop "ok" (h_result reply) = JsBool true).
  { vm_compute in H. injection H as <- <- <-. reflexivity. }
  exists memory', reply, env'. split; [reflexivity|].
  assert (Plain : forall sid, marked_correct sid quiz_memory ->
            (sid ∉ prototype_names) /\
            exists z, or_else (prop sid (lookup "scores" open_room)) (JsNum 0) = JsNum z /\
                      Z.abs z < 2 ^ 53).
  { intros sid Mk. split.
    - intros In. apply list_elem_of_In in In. simpl in In.
      repeat (destruct In as [<-|In]; [vm_compute in Mk; discriminate Mk|]). exact In.
    - exists 0. split; [reflexivity|]. vm_compute. reflexivity. }
  pose proof (room_credits_the_marked (JsStr "q1") demo_quiz quiz_memory get_summary 30000
                qm' qreply "question:q1" _ finish_current (JsStr "r1") 30000 open_room
                summary_env memory' reply env' Run eq_refl QH Resp eq_refl H Ok Plain) as C.
  split; [exact (proj1 (C "s1") M1)|exact (proj2 (C "s2") M2)].
Defined.
